(** * dito: query builder and graph processor

    A shallow embedding of two server-side modules of dito:
    - the query builder ([QueryBuilder.find], [findOne], [execute],
      [getPropertyRefs], [parseQueryFilter], the [queryHandlers] and
      [queryFilters] registries), and
    - the graph processor ([GraphProcessor]: overrides, [shouldRelate],
      [processRelates], [restoreRelations]).

    JavaScript values are modelled by a small tagged type, objects by
    association lists in property order, exceptions by a result type.
    Strings are sequences of code units below 256; numbers are the IEEE 754
    doubles, of which the values have the whole numbers. The
    graph processor is modelled twice: on trees, and on a heap of objects
    with references, where assignments change objects in place. *)

From stdpp Require Import prelude strings.
From Stdlib Require Import Ascii ZArith DecimalString DecimalNat.
From Stdlib Require DecimalFacts.

Set Warnings "-register-all".
Local Open Scope Z_scope.

(** ** JavaScript values *)

(** [PNum n] is the number [n], a whole number: the double [n] when [n] is
    one, as every [n] up to [2^53] in size is, and the double nearest to [n]
    otherwise. *)
Inductive prim :=
| PUndefined
| PNull
| PBool (b : bool)
| PNum (n : Z)
| PStr (s : string).

(** [VObj (Some c) fs] is an instance of the model class named [c]
    (an object with [$isObjectionModel]); [VObj None fs] is a plain object. *)
Inductive value :=
| VPrim (p : prim)
| VArr (items : list value)
| VObj (cls : option string) (fields : list (string * value)).

Abbreviation VUndefined := (VPrim PUndefined).
Abbreviation VNull := (VPrim PNull).
Abbreviation VBool b := (VPrim (PBool b)).
Abbreviation VNum n := (VPrim (PNum n)).
Abbreviation VStr s := (VPrim (PStr s)).

Global Instance prim_eq_dec : EqDecision prim.
Proof. solve_decision. Defined.

(** ToBoolean. *)
Definition truthy (v : value) : bool :=
  match v with
  | VPrim PUndefined | VPrim PNull => false
  | VPrim (PBool b) => b
  | VPrim (PNum n) => negb (n =? 0)
  | VPrim (PStr s) => negb (bool_decide (s = ""))
  | VArr _ | VObj _ _ => true
  end.

Definition isString (v : value) : bool :=
  match v with VPrim (PStr _) => true | _ => false end.

Definition isArray (v : value) : bool :=
  match v with VArr _ => true | _ => false end.

(** [isObject] of the utils: objects that are neither arrays nor functions. *)
Definition isObject (v : value) : bool :=
  match v with VObj _ _ => true | _ => false end.

Definition is_undefined (v : value) : bool :=
  match v with VPrim PUndefined => true | _ => false end.

Definition is_null (v : value) : bool :=
  match v with VPrim PNull => true | _ => false end.

(** [asArray] of the utils: arrays are returned as they are, [undefined]
    becomes the empty array, any other value a one-element array. *)
Definition asArray (v : value) : list value :=
  match v with
  | VArr items => items
  | VPrim PUndefined => []
  | _ => [v]
  end.

(** Strict equality [===] as used by [Array.prototype.includes]: primitives
    compare by value, arrays and objects by identity, which distinct
    literals never share. *)
Definition strict_eq (a b : value) : bool :=
  match a, b with
  | VPrim p, VPrim q => bool_decide (p = q)
  | _, _ => false
  end.

(** ** Objects as association lists *)

(** The property names every object literal inherits from [Object.prototype];
    [o[key]] and [key in o] also find these. *)
Definition objectPrototypeNames : list string :=
  ["constructor"; "__defineGetter__"; "__defineSetter__"; "hasOwnProperty";
   "__lookupGetter__"; "__lookupSetter__"; "isPrototypeOf";
   "propertyIsEnumerable"; "toString"; "valueOf"; "__proto__";
   "toLocaleString"].

Definition inherited (key : string) : bool :=
  bool_decide (key ∈ objectPrototypeNames).

Fixpoint assoc {A} (key : string) (o : list (string * A)) : option A :=
  match o with
  | [] => None
  | (k, a) :: o' => if bool_decide (k = key) then Some a else assoc key o'
  end.

(** [o[key] = a]: an existing property keeps its position. *)
Fixpoint assoc_set {A} (key : string) (a : A) (o : list (string * A))
  : list (string * A) :=
  match o with
  | [] => [(key, a)]
  | (k, b) :: o' =>
      if bool_decide (k = key) then (k, a) :: o' else (k, b) :: assoc_set key a o'
  end.

Definition keys {A} (o : list (string * A)) : list string := map fst o.

(** Property read on a value: own property or [undefined]. *)
Definition get_field (key : string) (fields : list (string * value)) : value :=
  default VUndefined (assoc key fields).

(** ** Strings *)

(** Strings are sequences of code units; the model has the strings whose
    code units are below 256. White space, as [\s] in a regular expression
    and around a numeric literal: tab, line feed, vertical tab, form feed,
    carriage return, space and the no-break space U+00A0 (the other white
    space of JavaScript lies above 255). *)
Definition is_ws (c : ascii) : bool :=
  let n := nat_of_ascii c in
  (n =? 32)%nat || ((9 <=? n)%nat && (n <=? 13)%nat) || (n =? 160)%nat.

(** Whether the character occurs in the string. *)
Fixpoint string_has (c : ascii) (s : string) : bool :=
  match s with
  | EmptyString => false
  | String x s' => Ascii.eqb x c || string_has c s'
  end.

(** [s.split(sep)] for a one-character separator. *)
Fixpoint split_char (sep : ascii) (s : string) : list string :=
  match s with
  | EmptyString => [""]
  | String c s' =>
      if Ascii.eqb c sep then "" :: split_char sep s'
      else match split_char sep s' with
           | piece :: pieces => String c piece :: pieces
           | [] => [String c ""]
           end
  end.

Fixpoint drop_leading (p : ascii → bool) (s : string) : string :=
  match s with
  | EmptyString => ""
  | String c s' => if p c then drop_leading p s' else s
  end.

Fixpoint drop_trailing (p : ascii → bool) (s : string) : string :=
  match s with
  | EmptyString => ""
  | String c s' =>
      match drop_trailing p s' with
      | EmptyString => if p c then "" else String c ""
      | r => String c r
      end
  end.

(** The pieces between separators, for a regular expression of the shape
    [/\s*SEP TRAIL*/]: each match swallows the white space before the
    separator and the [trail] characters behind it. *)
Fixpoint trim_pieces (trail : ascii → bool) (first : bool) (pieces : list string)
  : list string :=
  match pieces with
  | [] => []
  | piece :: rest =>
      let piece := if first then piece else drop_leading trail piece in
      match rest with
      | [] => [piece]
      | _ => drop_trailing is_ws piece :: trim_pieces trail false rest
      end
  end.

Definition split_regex (sep : ascii) (trail : ascii → bool) (s : string)
  : list string :=
  trim_pieces trail true (split_char sep s).

Fixpoint join (sep : string) (l : list string) : string :=
  match l with
  | [] => ""
  | [s] => s
  | s :: l' => s +:+ sep +:+ join sep l'
  end.

(** ** Numbers *)

(** JavaScript numbers are IEEE 754 doubles: NaN, the two infinities, and
    the finite doubles. A finite double is a whole number of units of
    [2^-1074], the least positive double, and is given by that number; the
    two zeros are not told apart (none of [isNaN], [<] and the conversion to
    a string does). *)
Inductive number :=
| NaN
| Infinite (negative : bool)
| Finite (units : Z).

(** [a / b] rounded to the nearest integer, a tie to the even one; [0 ≤ a]
    and [0 < b]. *)
Definition round_half_even (a b : Z) : Z :=
  let d := a / b in
  let r := a mod b in
  if 2 * r <? b then d
  else if b <? 2 * r then d + 1
  else if Z.even d then d else d + 1.

(** The [f] with [2^f ≤ p / q < 2^(f+1)], for positive [p] and [q]. *)
Definition floor_log2_ratio (p q : Z) : Z :=
  let f := Z.log2 p - Z.log2 q in
  if p * 2 ^ Z.max 0 (- f) <? q * 2 ^ Z.max 0 f then f - 1 else f.

(** The double nearest to [p / q] (round to nearest, ties to even), with the
    sign given; [0 ≤ p] and [0 < q]. The significand has 53 bits, fewer
    below [2^-1022]; from [2^1024 - 2^970] on the result is infinite. *)
Definition double_of_ratio (negative : bool) (p q : Z) : number :=
  if p =? 0 then Finite 0
  else
    let f := floor_log2_ratio p q in
    let e := Z.max (f - 52) (- 1074) in
    let m := if 0 <=? e then round_half_even p (q * 2 ^ e)
             else round_half_even (p * 2 ^ (- e)) q in
    if (971 <? e) || (e =? 971) && (2 ^ 53 <=? m) then Infinite negative
    else Finite ((if negative then - 1 else 1) * (m * 2 ^ (e + 1074))).

(** The number an integer literal denotes. *)
Definition double_of_Z (n : Z) : number :=
  double_of_ratio (n <? 0) (Z.abs n) 1.

(** [x < y] on numbers; false when one of them is NaN. *)
Definition number_ltb (x y : number) : bool :=
  match x, y with
  | NaN, _ | _, NaN => false
  | Infinite nx, Infinite ny => nx && negb ny
  | Infinite nx, Finite _ => nx
  | Finite _, Infinite ny => negb ny
  | Finite a, Finite b => a <? b
  end.

(** *** From strings to numbers *)

(** The value of a digit in a base up to 16. *)
Definition digit_value (base : Z) (c : ascii) : option Z :=
  let n := Z.of_nat (nat_of_ascii c) in
  let d := if (48 <=? n) && (n <=? 57) then n - 48
           else if (97 <=? n) && (n <=? 102) then n - 87
           else if (65 <=? n) && (n <=? 70) then n - 55
           else 16 in
  if d <? base then Some d else None.

(** The digits a string starts with: the value of [acc] followed by them,
    their number added to [count], and the rest of the string. *)
Fixpoint read_digits (base : Z) (s : string) (acc count : Z) : Z * Z * string :=
  match s with
  | EmptyString => (acc, count, s)
  | String c s' =>
      match digit_value base c with
      | Some d => read_digits base s' (base * acc + d) (count + 1)
      | None => (acc, count, s)
      end
  end.

(** The digits of a literal [0x...], [0o...] or [0b...]: at least one, up
    to the end. *)
Definition read_radix (base : Z) (digits : string) : number :=
  match read_digits base digits 0 0 with
  | (n, count, EmptyString) => if 0 <? count then double_of_ratio false n 1 else NaN
  | _ => NaN
  end.

(** The exponent part of a decimal literal, or nothing. *)
Definition read_exponent (s : string) : option Z :=
  match s with
  | EmptyString => Some 0
  | String c s' =>
      if Ascii.eqb c "e" || Ascii.eqb c "E" then
        let '(negative, digits) :=
          match s' with
          | String sign digits =>
              if Ascii.eqb sign "-" then (true, digits)
              else if Ascii.eqb sign "+" then (false, digits)
              else (false, s')
          | EmptyString => (false, s')
          end in
        match read_digits 10 digits 0 0 with
        | (x, count, EmptyString) =>
            if 0 <? count then Some (if negative then - x else x) else None
        | _ => None
        end
      else None
  end.

(** An unsigned decimal literal: [Infinity], or digits with an optional
    fraction and an optional exponent, at least one digit before the
    exponent. *)
Definition read_decimal (negative : bool) (s : string) : number :=
  if String.eqb s "Infinity" then Infinite negative
  else
    let '(int, n1, rest) := read_digits 10 s 0 0 in
    let '(mantissa, n2, rest) :=
      match rest with
      | String point rest' =>
          if Ascii.eqb point "." then read_digits 10 rest' int 0 else (int, 0, rest)
      | EmptyString => (int, 0, rest)
      end in
    if n1 + n2 =? 0 then NaN
    else
      match read_exponent rest with
      | Some x =>
          let e := x - n2 in
          if 0 <=? e then double_of_ratio negative (mantissa * 10 ^ e) 1
          else double_of_ratio negative mantissa (10 ^ (- e))
      | None => NaN
      end.

(** ToNumber on strings: white space around a numeric literal, which is a
    signed decimal literal or an unsigned hexadecimal, octal or binary
    integer; the empty string is 0. *)
Definition string_to_number (s : string) : number :=
  match drop_trailing is_ws (drop_leading is_ws s) with
  | EmptyString => Finite 0
  | String c t as literal =>
      if Ascii.eqb c "+" then read_decimal false t
      else if Ascii.eqb c "-" then read_decimal true t
      else
        match t with
        | String x digits =>
            if Ascii.eqb c "0" && (Ascii.eqb x "x" || Ascii.eqb x "X")
            then read_radix 16 digits
            else if Ascii.eqb c "0" && (Ascii.eqb x "o" || Ascii.eqb x "O")
            then read_radix 8 digits
            else if Ascii.eqb c "0" && (Ascii.eqb x "b" || Ascii.eqb x "B")
            then read_radix 2 digits
            else read_decimal false literal
        | EmptyString => read_decimal false literal
        end
  end.





(** *** From numbers to strings *)

Definition digits_of_Z (n : Z) : string :=
  NilZero.string_of_uint (N.to_uint (Z.to_N n)).

Fixpoint zeros (n : nat) : string :=
  match n with
  | O => ""
  | S n => String "0" (zeros n)
  end.

(** The least [n] with [p / q < 10^n], for positive [p] and [q]. An
    estimate from the binary logarithms is at most 3 below it. *)
Definition decimal_exponent (p q : Z) : Z :=
  let estimate := (Z.log2 p - Z.log2 q) * 1233 / 4096 - 1 in
  (fix search (fuel : nat) (n : Z) {struct fuel} : Z :=
     match fuel with
     | O => n
     | S fuel =>
         if (if 0 <=? n then p <? q * 10 ^ n else p * 10 ^ (- n) <? q) then n
         else search fuel (n + 1)
     end) 4%nat estimate.

(** The digits of [Number::toString] for a positive double: the integers
    [s], [k] and [n] with [10^(k-1) ≤ s < 10^k] for which [s × 10^(n-k)] is
    read as the double and [k] is as small as possible; of two such [s] the
    one nearer to the double. 17 digits always do. *)
Definition shortest_digits (units : Z) : Z * Z * Z :=
  let q := 2 ^ 1074 in
  let n := decimal_exponent units q in
  (fix search (fuel : nat) (k : Z) {struct fuel} : Z * Z * Z :=
     let '(num, den) :=
       if 0 <=? n - k then (units, q * 10 ^ (n - k)) else (units * 10 ^ (k - n), q) in
     let lo := num / den in
     let r := num mod den in
     let reads s :=
       match (if 0 <=? n - k then double_of_ratio false (s * 10 ^ (n - k)) 1
              else double_of_ratio false s (10 ^ (k - n))) with
       | Finite u => u =? units
       | _ => false
       end in
     let pick s := if s =? 10 ^ k then (10 ^ (k - 1), k, n + 1) else (s, k, n) in
     let nearer_lo := (2 * r <? den) || (2 * r =? den) && Z.even lo in
     match fuel with
     | O => (lo, k, n)
     | S fuel =>
         match reads lo, reads (lo + 1) with
         | true, true => pick (if nearer_lo then lo else lo + 1)
         | true, false => pick lo
         | false, true => pick (lo + 1)
         | false, false => search fuel (k + 1)
         end
     end) 17%nat 1.

(** [Number::toString(x)], radix 10. *)
Definition number_to_string (x : number) : string :=
  match x with
  | NaN => "NaN"
  | Infinite negative => if negative then "-Infinity" else "Infinity"
  | Finite units =>
      if units =? 0 then "0"
      else
        let '(s, k, n) := shortest_digits (Z.abs units) in
        let digits := digits_of_Z s in
        (if units <? 0 then "-" else "")
        +:+ (if (k <=? n) && (n <=? 21) then digits +:+ zeros (Z.to_nat (n - k))
             else if (0 <? n) && (n <=? 21) then
               String.substring 0 (Z.to_nat n) digits +:+ "."
               +:+ String.substring (Z.to_nat n) (Z.to_nat (k - n)) digits
             else if (- 6 <? n) && (n <=? 0) then
               "0." +:+ zeros (Z.to_nat (- n)) +:+ digits
             else
               let e := n - 1 in
               let exponent :=
                 (if e <? 0 then "-" else "+") +:+ digits_of_Z (Z.abs e) in
               match digits with
               | String d EmptyString => String d "" +:+ "e" +:+ exponent
               | String d rest => String d "" +:+ "." +:+ rest +:+ "e" +:+ exponent
               | EmptyString => ""
               end)
  end.

(** *** Conversions of values *)

(** ToString. An array joins the strings of its entries with commas, [null]
    and [undefined] entries being empty; an object has the [toString] of
    [Object.prototype]. *)
Fixpoint toString (v : value) : string :=
  match v with
  | VPrim PUndefined => "undefined"
  | VPrim PNull => "null"
  | VPrim (PBool b) => if b then "true" else "false"
  | VPrim (PNum n) => number_to_string (double_of_Z n)
  | VPrim (PStr s) => s
  | VArr items =>
      join ","
        (map (λ entry,
                match entry with
                | VPrim PUndefined | VPrim PNull => ""
                | _ => toString entry
                end) items)
  | VObj _ _ => "[object Object]"
  end.

(** ToPrimitive: arrays and objects have the [valueOf] of
    [Object.prototype], which returns the object, so that their string is
    taken. *)
Definition toPrimitive (v : value) : prim :=
  match v with
  | VPrim p => p
  | VArr _ | VObj _ _ => PStr (toString v)
  end.

Definition prim_to_number (p : prim) : number :=
  match p with
  | PUndefined => NaN
  | PNull => Finite 0
  | PBool b => if b then double_of_Z 1 else Finite 0
  | PNum n => double_of_Z n
  | PStr s => string_to_number s
  end.

(** ToNumber. *)
Definition toNumber (v : value) : number := prim_to_number (toPrimitive v).

(** The global [isNaN(v)]. *)
Definition isNaN (v : value) : bool :=
  match toNumber v with NaN => true | _ => false end.

(** Code-unit order on strings, the order [<] uses when both operands are
    strings. *)
Fixpoint string_ltb (a b : string) : bool :=
  match a, b with
  | _, EmptyString => false
  | EmptyString, String _ _ => true
  | String x a', String y b' =>
      let nx := nat_of_ascii x in
      let ny := nat_of_ascii y in
      if (nx <? ny)%nat then true
      else if (ny <? nx)%nat then false
      else string_ltb a' b'
  end.

(** The relational operator [a < b]: on the primitives of the operands, by
    code units when both are strings, and on their numbers otherwise. *)
Definition js_lt (a b : value) : bool :=
  match toPrimitive a, toPrimitive b with
  | PStr s, PStr t => string_ltb s t
  | p, q => number_ltb (prim_to_number p) (prim_to_number q)
  end.

(** The [capitalize] of the samples: a first letter [a]..[z] in upper case,
    which is what [capitalize(str)] makes of a word in lower case. *)
Definition capitalize_first (s : string) : string :=
  match s with
  | EmptyString => ""
  | String c s' =>
      let n := nat_of_ascii c in
      String (if (97 <=? n)%nat && (n <=? 122)%nat then ascii_of_nat (n - 32) else c) s'
  end.

(** ** Errors and results *)

(** The exceptions the query builder raises, one constructor per [throw]
    site, carrying the values its message interpolates. *)
Inductive error :=
| NotAllowed (key : string)
    (* find: "Query parameter '<key>' is not allowed." *)
| InvalidQueryParameter (key : string) (v : value)
    (* find: "Invalid query parameter '<key>' in '<key>=<value>'." *)
| InvalidFilter (key : string) (v : value)
    (* parseQueryFilter: "Invalid filter in '<key>=<value>'." *)
| UnsupportedQuery (v : value)
    (* where handler: "Unsupported 'where' query: '<value>'." *)
| InvalidRange (start stop : value)
    (* range handler: "Invalid range: [<start>, <end>]." *)
| InvalidOrder
    (* order handler: "Can only order by model's own properties ..." *)
| PropertyRefError (message : string)
    (* a QueryError raised by the PropertyRef constructor *)
| SyntaxError
    (* the exception of JSON.parse in parsePropertiesExpression *)
| TypeError.
    (* a JavaScript TypeError, which is not a QueryError *)

Inductive result (A : Type) :=
| Ok (a : A)
| Throw (e : error).
Arguments Ok {A} a.
Arguments Throw {A} e.

Global Instance result_ret : MRet result := fun A a => Ok a.
Global Instance result_bind : MBind result := fun A B f m =>
  match m with
  | Ok a => f a
  | Throw e => Throw e
  end.

(** A [for ... of] loop whose body may throw. *)
Fixpoint forM {A S} (body : S → A → result S) (l : list A) (s : S) : result S :=
  match l with
  | [] => Ok s
  | a :: l' => s' ← body s a; forM body l' s'
  end.

(** ** The query builder *)

(** What the sources use of a relation instance: [relation.name],
    [relation.isOneToOne()]. *)
Record Relation := {
  rel_name : string;
  rel_isOneToOne : bool
}.

(** Modelled from the spec: the PropertyRef class (./PropertyRef is not among
    the sources), with the attributes the query builder reads: [key],
    [relation], [dir], [propertyName] and the fully qualified column
    [fullColumnName(builder)]. *)
Record PropertyRef := {
  ref_key : string;
  ref_relation : option Relation;
  ref_dir : option string;
  ref_propertyName : string;
  ref_fullColumnName : string
}.

(** The declarative instruction a query filter returns. *)
Record instruction := {
  method : string;
  args : list value
}.

(** Calls made on the inherited [objection.QueryBuilder], in order. *)
Inductive call :=
| Call (method : string) (args : list value)
| WhereGroup (calls : list call)
    (* where(builder => ...), with the calls made on the inner builder *)
| RelationJoin (relation : string) (joinOperation : string).
    (* relation.join(builder, { joinOperation }) *)

(** What [cache[ref]] evaluates to: a PropertyRef object, identified by the
    position at which it was created, or a member of [Object.prototype]. *)
Inductive ref_ptr :=
| RefObject (id : nat)
| PrototypeMember (name : string).

Record QueryBuilder := {
  _allow : option (list string);
  _propertyRefsCache : list (string * nat);
  _applyDefaultEager : bool;
  _applyDefaultOrder : bool;
  _scopes : list value;
  _relationsToJoin : list (string * Relation);
  propertyRefObjects : list PropertyRef;
    (* every PropertyRef constructed so far; [RefObject i] is the i-th *)
  calls : list call
}.

Definition constructor : QueryBuilder := {|
  _allow := None;
  _propertyRefsCache := [];
  _applyDefaultEager := true;
  _applyDefaultOrder := true;
  _scopes := [];
  _relationsToJoin := [];
  propertyRefObjects := [];
  calls := []
|}.

Definition set_calls (b : QueryBuilder) (cs : list call) : QueryBuilder :=
  {| _allow := _allow b; _propertyRefsCache := _propertyRefsCache b;
     _applyDefaultEager := _applyDefaultEager b;
     _applyDefaultOrder := _applyDefaultOrder b; _scopes := _scopes b;
     _relationsToJoin := _relationsToJoin b;
     propertyRefObjects := propertyRefObjects b; calls := cs |}.

(** A call of an inherited method [super.method(...args)]. *)
Definition super (b : QueryBuilder) (c : call) : QueryBuilder :=
  set_calls b (calls b ++ [c]).

Definition set_applyDefaultEager (b : QueryBuilder) (f : bool) : QueryBuilder :=
  {| _allow := _allow b; _propertyRefsCache := _propertyRefsCache b;
     _applyDefaultEager := f;
     _applyDefaultOrder := _applyDefaultOrder b; _scopes := _scopes b;
     _relationsToJoin := _relationsToJoin b;
     propertyRefObjects := propertyRefObjects b; calls := calls b |}.

Definition set_applyDefaultOrder (b : QueryBuilder) (f : bool) : QueryBuilder :=
  {| _allow := _allow b; _propertyRefsCache := _propertyRefsCache b;
     _applyDefaultEager := _applyDefaultEager b;
     _applyDefaultOrder := f; _scopes := _scopes b;
     _relationsToJoin := _relationsToJoin b;
     propertyRefObjects := propertyRefObjects b; calls := calls b |}.

Definition set_scopes (b : QueryBuilder) (ss : list value) : QueryBuilder :=
  {| _allow := _allow b; _propertyRefsCache := _propertyRefsCache b;
     _applyDefaultEager := _applyDefaultEager b;
     _applyDefaultOrder := _applyDefaultOrder b; _scopes := ss;
     _relationsToJoin := _relationsToJoin b;
     propertyRefObjects := propertyRefObjects b; calls := calls b |}.

Definition set_relationsToJoin (b : QueryBuilder) (rs : list (string * Relation))
  : QueryBuilder :=
  {| _allow := _allow b; _propertyRefsCache := _propertyRefsCache b;
     _applyDefaultEager := _applyDefaultEager b;
     _applyDefaultOrder := _applyDefaultOrder b; _scopes := _scopes b;
     _relationsToJoin := rs;
     propertyRefObjects := propertyRefObjects b; calls := calls b |}.

Definition set_allow (b : QueryBuilder) (a : option (list string)) : QueryBuilder :=
  {| _allow := a; _propertyRefsCache := _propertyRefsCache b;
     _applyDefaultEager := _applyDefaultEager b;
     _applyDefaultOrder := _applyDefaultOrder b; _scopes := _scopes b;
     _relationsToJoin := _relationsToJoin b;
     propertyRefObjects := propertyRefObjects b; calls := calls b |}.

(** [cache[ref] = new PropertyRef(...)]: the new object gets the next
    position. *)
Definition cache_new (b : QueryBuilder) (ref : string) (r : PropertyRef)
  : QueryBuilder * nat :=
  let id := length (propertyRefObjects b) in
  ({| _allow := _allow b;
      _propertyRefsCache := assoc_set ref id (_propertyRefsCache b);
      _applyDefaultEager := _applyDefaultEager b;
      _applyDefaultOrder := _applyDefaultOrder b; _scopes := _scopes b;
      _relationsToJoin := _relationsToJoin b;
      propertyRefObjects := propertyRefObjects b ++ [r]; calls := calls b |}, id).

(** ** What the model class and the inherited builder provide *)

Record Env := {
  modelName : string;                  (* modelClass.name *)
  properties : list string;            (* keys of modelClass.definition.properties *)
  defaultEager : value;                (* modelClass.defaultEager *)
  defaultOrder : value;                (* modelClass.defaultOrder *)
  models : list string;                (* names in app.models *)
  (* new PropertyRef(ref, modelClass, parseDir, allow): the object, or the
     message of the QueryError the constructor raises *)
  newPropertyRef : string → bool → option (list string) → PropertyRef + string;
  (* objection's isFindQuery() and has(QueryBuilder.SelectSelector), which
     inspect the operations of the builder *)
  isFindQuery : list call → bool;
  hasSelectSelector : list call → bool;
  (* parsePropertiesExpression(value): the model names and property lists of
     a pick / omit expression, unless JSON.parse rejects it *)
  parsePropertiesExpression : value → option (list (string * value));
  (* capitalize(str) of the utils, which are not among the sources *)
  capitalize : string → string
}.

(** Lookup [o[key]] in an object literal: an own property, a member inherited
    from [Object.prototype], or [undefined]. *)
Inductive lookup (A : Type) :=
| Own (a : A)
| Inherited
| Absent.
Arguments Own {A} a.
Arguments Inherited {A}.
Arguments Absent {A}.

Definition js_lookup {A} (key : string) (o : list (string * A)) : lookup A :=
  match assoc key o with
  | Some a => Own a
  | None => if inherited key then Inherited else Absent
  end.

(** [key in o]. *)
Definition js_in {A} (key : string) (o : list (string * A)) : bool :=
  match js_lookup key o with Absent => false | _ => true end.

(** ** Query filters *)

Definition queryFilter := string → value → result instruction.

(** [where(builder, ref, operator, value, method = 'where')], with the column
    name [ref.fullColumnName(builder)] passed in. *)
Definition where_ (columnName : string) (operator v : value) (method : string)
  : instruction :=
  {| method := method;
     args := if truthy operator then [VStr columnName; operator; v]
             else if negb (is_undefined v) then [VStr columnName; v]
             else [VStr columnName] |}.

(** [value.split(',')]: only strings have a [split] method. *)
Definition value_split (v : value) (sep : ascii) : result value :=
  match v with
  | VStr s => Ok (VArr (map (λ piece, VStr piece) (split_char sep s)))
  | _ => Throw TypeError
  end.

(** The object literal [queryFilters]. *)
Definition queryFilters_literal : list (string * queryFilter) :=
  [ ("in", λ ref v, l ← value_split v ","; Ok (where_ ref VNull l "whereIn"));
    ("notIn", λ ref v, l ← value_split v ","; Ok (where_ ref VNull l "whereNotIn"));
    ("between", λ ref v, l ← value_split v ","; Ok (where_ ref VNull l "whereBetween"));
    ("notBetween",
      λ ref v, l ← value_split v ","; Ok (where_ ref VNull l "whereNotBetween"));
    ("null", λ ref _, Ok (where_ ref VNull VUndefined "whereNull"));
    ("notNull", λ ref _, Ok (where_ ref VNull VUndefined "whereNotNull"));
    ("empty", λ ref _, Ok (where_ ref (VStr "=") (VStr "") "where"));
    ("notEmpty", λ ref _, Ok (where_ ref (VStr ">") (VStr "") "where")) ].

Definition operators : list (string * string) :=
  [ ("eq", "="); ("ne", "!="); ("not", "is not"); ("lt", "<"); ("lte", "<=");
    ("gt", ">"); ("gte", ">="); ("between", "between");
    ("notBetween", "not between"); ("like", "like"); ("noteLike", "not like");
    ("iLike", "ilike"); ("notILike", "not ilike") ].

(** The registry once the module is loaded: the loop over [operators]
    assigns [queryFilters[key]] for every operator, replacing a property of
    the literal that has the same name. *)
Definition queryFilters : list (string * queryFilter) :=
  fold_left
    (λ registry '(key, operator),
       assoc_set key (λ ref v, Ok (where_ ref (VStr operator) v "where")) registry)
    operators queryFilters_literal.

Section QueryBuilder.

Variable env : Env.

(** The wrappers installed around [where], [whereNot], ...: a first argument
    naming a model property is expanded to [Model.property]. *)
Definition whereMethods : list string :=
  ["where"; "whereNot"; "whereIn"; "whereNotIn"; "whereNull"; "whereNotNull";
   "whereBetween"; "whereNotBetween"].

Definition convertIdentifier (identifier : string) : string :=
  if bool_decide (identifier ∈ properties env) || inherited identifier
  then modelName env +:+ "." +:+ identifier
  else identifier.

(** [builder[method](...args)]. *)
Definition invoke (b : QueryBuilder) (method : string) (args : list value)
  : QueryBuilder :=
  if bool_decide (method ∈ whereMethods) then
    match args with
    | VStr s :: rest => super b (Call method (VStr (convertIdentifier s) :: rest))
    | VObj _ fields :: rest =>
        let converted :=
          fold_left (λ converted '(key, v), assoc_set (convertIdentifier key) v converted)
                    fields [] in
        super b (Call method (VObj None converted :: rest))
    | _ => super b (Call method args)
    end
  else super b (Call method args).

Definition eager (b : QueryBuilder) (args : list value) : QueryBuilder :=
  super (set_applyDefaultEager b false) (Call "eager" args).

Definition clearEager (b : QueryBuilder) : QueryBuilder :=
  super (set_applyDefaultEager b false) (Call "clearEager" []).

(** Whether objection holds an eager expression for the builder, as the
    calls made on it tell: [eager] sets one, [mergeEager] sets or extends
    one, [clearEager] removes it. *)
Definition hasEagerExpression (cs : list call) : bool :=
  fold_left
    (λ has c,
       match c with
       | Call method _ =>
           if bool_decide (method ∈ ["eager"; "mergeEager"]) then true
           else if bool_decide (method = "clearEager") then false
           else has
       | _ => has
       end)
    cs false.

(** [mergeEager(exp)] is objection's. On a builder with an eager expression
    it merges [exp] into it; on a builder without one it calls
    [this.eager(exp)], the method of this class above, which clears
    [_applyDefaultEager] and has objection set the expression. Either way
    the builder has the expression afterwards, and the call is recorded as
    the one call of [mergeEager]. *)
Definition mergeEager (b : QueryBuilder) (exp : value) : QueryBuilder :=
  let merged := super b (Call "mergeEager" [exp]) in
  if hasEagerExpression (calls b) then merged
  else set_applyDefaultEager merged false.

Definition orderBy (b : QueryBuilder) (args : list value) : QueryBuilder :=
  super (set_applyDefaultOrder b false) (Call "orderBy" args).

Definition clearOrder (b : QueryBuilder) : QueryBuilder :=
  set_applyDefaultOrder b false.

Definition clearScope (b : QueryBuilder) : QueryBuilder := set_scopes b [].

Definition mergeScope (b : QueryBuilder) (scopes : list value) : QueryBuilder :=
  fold_left
    (λ b scope,
       if existsb (strict_eq scope) (_scopes b) then b
       else set_scopes b (_scopes b ++ [scope]))
    scopes b.

Definition scope (b : QueryBuilder) (scopes : list value) : QueryBuilder :=
  mergeScope (clearScope b) scopes.

Definition hasSelects (b : QueryBuilder) : bool :=
  hasSelectSelector env (calls b).

Definition execute (b : QueryBuilder) : QueryBuilder :=
  let b :=
    if isFindQuery env (calls b) && negb (hasSelects b) then
      let b :=
        if truthy (defaultEager env) && _applyDefaultEager b
        then mergeEager b (defaultEager env) else b in
      if truthy (defaultOrder env) && _applyDefaultOrder b
      then orderBy b (asArray (defaultOrder env)) else b
    else b in
  let b := fold_left (λ b scope, super b (Call "applyFilter" [scope])) (_scopes b) b in
  super b (Call "execute" []).

(** [refs.map(ref => cache[ref] || (cache[ref] = new PropertyRef(...)))]. *)
Fixpoint getPropertyRefs_map (b : QueryBuilder) (refs : list string)
    (parseDir checkAllow : bool) : result (QueryBuilder * list ref_ptr) :=
  match refs with
  | [] => Ok (b, [])
  | ref :: rest =>
      '(b, ptr) ←
        match js_lookup ref (_propertyRefsCache b) with
        | Own id => Ok (b, RefObject id)
        | Inherited => Ok (b, PrototypeMember ref)
        | Absent =>
            match newPropertyRef env ref parseDir
                    (if checkAllow then _allow b else None) with
            | inl r => let '(b, id) := cache_new b ref r in Ok (b, RefObject id)
            | inr message => Throw (PropertyRefError message)
            end
        end;
      '(b, ptrs) ← getPropertyRefs_map b rest parseDir checkAllow;
      Ok (b, ptr :: ptrs)
  end.

(** [getPropertyRefs(refs, { parseDir = false, checkAllow = true } = {})];
    [refs] is a string or an array of reference strings. *)
Definition getPropertyRefs (b : QueryBuilder) (refs : string + list string)
    (parseDir checkAllow : bool) : result (QueryBuilder * list ref_ptr) :=
  let refs :=
    match refs with
    | inl s => split_regex "|" is_ws s
    | inr l => l
    end in
  getPropertyRefs_map b refs parseDir checkAllow.

(** The object a pointer stands for; a member of [Object.prototype] has none
    of the methods of a PropertyRef. *)
Definition deref (b : QueryBuilder) (ptr : ref_ptr) : result PropertyRef :=
  match ptr with
  | RefObject id =>
      match propertyRefObjects b !! id with
      | Some r => Ok r
      | None => Throw TypeError
      end
  | PrototypeMember _ => Throw TypeError
  end.

(** Modelled from the spec: [PropertyRef.applyQueryFilter] (./PropertyRef is
    not among the sources). The filter, "a pure function (resolvedColumn,
    rawValue) -> { method, args }", is called and "a single PropertyRef
    applies its predicate directly"; with a boolean operator the method of
    that name is used ([orWhere] for [where]). The result is the method and
    the arguments to call on the query. *)
Definition applyQueryFilter (ref : PropertyRef) (filter : lookup queryFilter)
    (v : value) (boolOp : option string) : result (string * list value) :=
  match filter with
  | Own f =>
      i ← f (ref_fullColumnName ref) v;
      Ok (match boolOp with
          | Some op => op +:+ capitalize env (method i)
          | None => method i
          end, args i)
  | _ => Throw TypeError
  end.

(** The filter [parseQueryFilter] picks for the [parts] of a key. *)
Definition selectQueryFilter (parts : list string) (v : value)
  : lookup queryFilter :=
  match parts with
  | [_] => if is_null v then js_lookup "null" queryFilters
           else js_lookup "eq" queryFilters
  | [_; name] => js_lookup name queryFilters
  | _ => Absent
  end.

(** [parseQueryFilter(key, value)]. An exception abandons the builder. *)
Definition parseQueryFilter (b : QueryBuilder) (key : string) (v : value)
  : result QueryBuilder :=
  let parts := split_regex ":" is_ws key in
  let filter := selectQueryFilter parts v in
  match filter with
  | Absent => Throw (InvalidFilter key v)
  | _ =>
      '(b, propertyRefs) ← getPropertyRefs b (inl (hd "" parts)) false true;
      let b :=
        fold_left
          (λ b ptr,
             match deref b ptr with
             | Ok ref =>
                 match ref_relation ref with
                 | Some relation =>
                     if rel_isOneToOne relation
                     then set_relationsToJoin b
                            (assoc_set (rel_name relation) relation (_relationsToJoin b))
                     else b
                 | None => b
                 end
             | Throw _ => b
             end)
          propertyRefs b in
      match propertyRefs with
      | [ptr] =>
          ref ← deref b ptr;
          '(m, a) ← applyQueryFilter ref filter v None;
          Ok (invoke b m a)
      | _ =>
          group ← forM (λ group ptr,
                          ref ← deref b ptr;
                          '(m, a) ← applyQueryFilter ref filter v (Some "or");
                          Ok (group ++ [Call m a]))
                       propertyRefs [];
          Ok (super b (WhereGroup group))
      end
  end.

(** ** Query handlers *)

Definition queryHandler := QueryBuilder → string → value → result QueryBuilder.

(** [processPropertyRefs(key, value, parts)] of the [where] handler, with the
    call [builder.parseQueryFilter(ref, val)] as a parameter. [ctx] is
    [Some (key, parts)] in the recursive calls of the object notation and
    [None] where the source passes [key = null] and no [parts]. *)
Fixpoint processPropertyRefs (parse : QueryBuilder → string → value → result QueryBuilder)
    (ctx : option (string * list string)) (v : value) (b : QueryBuilder)
    {struct v} : result QueryBuilder :=
  match v with
  | VObj _ fields =>
      let parts :=
        match ctx with
        | Some (key, parts) => parts ++ [key]
        | None => []
        end in
      (fix entries (fields : list (string * value)) (b : QueryBuilder) :=
         match fields with
         | [] => Ok b
         | (subKey, subValue) :: fields' =>
             b ← processPropertyRefs parse (Some (subKey, parts)) subValue b;
             entries fields' b
         end) fields b
  | _ =>
      match ctx with
      | Some (key, parts) =>
          let filterName := js_in key queryFilters in
          let parts := if filterName then parts else parts ++ [key] in
          let ref := join "." parts +:+ (if filterName then ":" +:+ key else "") in
          parse b ref v
      | None =>
          match v with
          | VStr s =>
              let pieces := split_char "=" s in
              parse b (hd "" pieces)
                    (match pieces with
                     | _ :: val :: _ => VStr val
                     | _ => VUndefined
                     end)
          | VArr items =>
              (fix each (items : list value) (b : QueryBuilder) :=
                 match items with
                 | [] => Ok b
                 | entry :: items' =>
                     b ← processPropertyRefs parse None entry b;
                     each items' b
                 end) items b
          | _ => Throw (UnsupportedQuery v)
          end
      end
  end.

Definition handle_where : queryHandler :=
  λ b key v, processPropertyRefs parseQueryFilter None v b.

Definition handle_eager : queryHandler :=
  λ b key v, if truthy v then Ok (mergeEager b v) else Ok b.

(** [applyPropertiesExpression], the handler of [omit] and [pick]. *)
Definition applyPropertiesExpression : queryHandler :=
  λ b key v,
    match parsePropertiesExpression env v with
    | Some parsed =>
        Ok (fold_left
              (λ b '(modelName, props),
                 if bool_decide (modelName ∈ models env)
                 then super b (Call key [VStr modelName; props])
                 else b)
              parsed b)
    | None => Throw SyntaxError
    end.

Definition handle_scope : queryHandler :=
  λ b key v, Ok (mergeScope b [v]).

(** [const [start, end] = isString(value) ? value.split(/\s*,s*/) : value]. *)
Definition range_bounds (v : value) : result (value * value) :=
  match v with
  | VStr s =>
      let pieces := split_regex "," (Ascii.eqb "s") s in
      Ok (default VUndefined ((λ x, VStr x) <$> pieces !! 0%nat),
          default VUndefined ((λ x, VStr x) <$> pieces !! 1%nat))
  | VArr items =>
      Ok (default VUndefined (items !! 0%nat),
          default VUndefined (items !! 1%nat))
  | _ => Throw TypeError
  end.

Definition handle_range : queryHandler :=
  λ b key v,
    if truthy v then
      '(start, stop) ← range_bounds v;
      if isNaN start || isNaN stop || js_lt stop start
      then Throw (InvalidRange start stop)
      else Ok (super b (Call "range" [start; stop]))
    else Ok b.

Definition handle_limit : queryHandler :=
  λ b key v, Ok (super b (Call "limit" [v])).

Definition handle_offset : queryHandler :=
  λ b key v, Ok (super b (Call "offset" [v])).

(** The references of an [order] value: a string, or an array of reference
    strings. *)
Definition order_refs (v : value) : result (string + list string) :=
  match v with
  | VStr s => Ok (inl s)
  | VArr items =>
      l ← forM (λ l item,
                  match item with
                  | VStr s => Ok (l ++ [s])
                  | _ => Throw TypeError
                  end) items ([] : list string);
      Ok (inr l)
  | _ => Throw TypeError
  end.

Definition handle_order : queryHandler :=
  λ b key v,
    if truthy v then
      refs ← order_refs v;
      '(b, ptrs) ← getPropertyRefs b refs true true;
      forM (λ b ptr,
              ref ← deref b ptr;
              let dir := default "asc" (ref_dir ref) in
              let columnName := ref_fullColumnName ref in
              match ref_relation ref with
              | Some relation =>
                  if negb (rel_isOneToOne relation) then Throw InvalidOrder
                  else
                    let alias :=
                      rel_name relation +:+ capitalize env (ref_propertyName ref) in
                    let b := super b (Call "select" [VStr (columnName +:+ " as " +:+ alias)]) in
                    Ok (orderBy b [VStr alias; VStr dir])
              | None =>
                  Ok (super (orderBy b [VStr columnName; VStr dir])
                            (Call "skipUndefined" []))
              end)
           ptrs b
    else Ok b.

Definition joins : list string :=
  ["join"; "innerJoin"; "outerJoin"; "leftJoin"; "leftOuterJoin"; "rightJoin";
   "rightOuterJoin"; "fullOuterJoin"].

(** The registry once the module is loaded. *)
Definition queryHandlers : list (string * queryHandler) :=
  [ ("where", handle_where); ("eager", handle_eager);
    ("omit", applyPropertiesExpression); ("pick", applyPropertiesExpression);
    ("scope", handle_scope); ("range", handle_range); ("limit", handle_limit);
    ("offset", handle_offset); ("order", handle_order) ]
  ++ map (λ join, (join, (λ b key v, Ok (super b (Call (join +:+ "Relation") [v])))
                         : queryHandler)) joins.

(** Calling a member of [Object.prototype] as [queryHandler(this, key, value)]:
    [constructor] and [toString] return, the others throw a TypeError
    (no [this] object, or not a function). *)
Definition inheritedHandler : queryHandler :=
  λ b key v,
    if bool_decide (key ∈ ["constructor"; "toString"]) then Ok b
    else Throw TypeError.

(** One turn of the loop of [find]. *)
Definition find_entry (allowed : option (list string)) (b : QueryBuilder)
    (entry : string * value) : result QueryBuilder :=
  let '(key, v) := entry in
  let inAllowed :=
    match allowed with
    | Some names => bool_decide (key ∈ names) || inherited key
    | None => false
    end in
  if negb (bool_decide (is_Some allowed)) || inAllowed then
    match js_lookup key queryHandlers with
    | Own queryHandler => queryHandler b key v
    | Inherited => inheritedHandler b key v
    | Absent =>
        if negb inAllowed then Throw (InvalidQueryParameter key v)
        else Ok b
    end
  else Throw (NotAllowed key).

(** The second loop of [find]: the relations collected in
    [_relationsToJoin] are joined. *)
Definition joinRelations (b : QueryBuilder) : QueryBuilder :=
  fold_left
    (λ b '(_, relation), super b (RelationJoin (rel_name relation) "leftJoin"))
    (_relationsToJoin b) b.

(** [find(query = {}, allowed)]; [query] lists the entries of the query
    object in the order of [Object.entries]. *)
Definition find (b : QueryBuilder) (query : list (string * value))
    (allowed : option (list string)) : result QueryBuilder :=
  let b := set_relationsToJoin b [] in
  b ← forM (find_entry allowed) query b;
  Ok (joinRelations b).

Definition findOne_allowed (allowed : option (list string)) : list string :=
  ["where"; "eager"; "scope"; "pick"; "omit"] ++ default [] allowed.

(** [findOne(query, allowed)]. *)
Definition findOne (b : QueryBuilder) (query : list (string * value))
    (allowed : option (list string)) : result QueryBuilder :=
  b ← find b query (Some (findOne_allowed allowed));
  Ok (super b (Call "first" [])).

(** [findById(id, query, allowed)]; [query] is [None] when it is left out. *)
Definition findById (b : QueryBuilder) (id : value)
    (query : option (list (string * value))) (allowed : option (list string))
  : result QueryBuilder :=
  let b := super b (Call "findById" [id]) in
  match query with
  | Some query => findOne b query allowed
  | None => Ok b
  end.

(** [allow(refs)]; [refs] is [None] for [undefined] or [null]. The keys are
    read off what [getPropertyRefs] returns: [ref.key], which is [undefined]
    on a member of [Object.prototype]; [this._allow[key] = true] adds a key
    that is not there yet. *)
Definition allow (b : QueryBuilder) (refs : option (string + list string))
  : result QueryBuilder :=
  match refs with
  | None | Some (inl "") => Ok (set_allow b None)
  | Some refs =>
      let b := set_allow b (Some (default [] (_allow b))) in
      '(b, ptrs) ← getPropertyRefs b refs false false;
      Ok (fold_left
            (λ b ptr,
               let key :=
                 match deref b ptr with
                 | Ok ref => ref_key ref
                 | Throw _ => "undefined"
                 end in
               let allowed := default [] (_allow b) in
               set_allow b
                 (Some (if bool_decide (key ∈ allowed) then allowed
                        else allowed ++ [key])))
            ptrs b)
  end.

(** [{ ...o1, ...o2 }]. *)
Definition spread (o1 o2 : list (string * value)) : list (string * value) :=
  fold_left (λ o '(key, v), assoc_set key v o) o2 o1.

Definition upsertGraphOptions : list (string * value) :=
  [("relate", VBool true); ("unrelate", VBool true); ("insertMissing", VBool true)].

Definition insertGraphOptions : list (string * value) :=
  [("relate", VBool true)].

(** [insertGraph(data, opt)] and the like; [opt] is [None] when it is left
    out, and spreading [undefined] adds nothing. *)
Definition insertGraph (b : QueryBuilder) (data : value)
    (opt : option (list (string * value))) : QueryBuilder :=
  super b (Call "insertGraph"
             [data; VObj None (spread insertGraphOptions (default [] opt))]).

Definition insertGraphAndFetch (b : QueryBuilder) (data : value)
    (opt : option (list (string * value))) : QueryBuilder :=
  super b (Call "insertGraphAndFetch"
             [data; VObj None (spread insertGraphOptions (default [] opt))]).

Definition upsertGraph (b : QueryBuilder) (data : value)
    (opt : option (list (string * value))) : QueryBuilder :=
  super b (Call "upsertGraph"
             [data; VObj None (spread upsertGraphOptions (default [] opt))]).

Definition upsertGraphAndFetch (b : QueryBuilder) (data : value)
    (opt : option (list (string * value))) : QueryBuilder :=
  super b (Call "upsertGraphAndFetch"
             [data; VObj None (spread upsertGraphOptions (default [] opt))]).

Definition updateGraph (b : QueryBuilder) (data : value)
    (opt : option (list (string * value))) : QueryBuilder :=
  upsertGraph b data (Some (spread [("update", VBool true)] (default [] opt))).

Definition updateGraphAndFetch (b : QueryBuilder) (data : value)
    (opt : option (list (string * value))) : QueryBuilder :=
  upsertGraphAndFetch b data (Some (spread [("update", VBool true)] (default [] opt))).

End QueryBuilder.

(** ** The graph processor *)

(** A relation of a model class: the entry of [modelClass.definition.relations]
    ([graphOptions], [owner]) with the related class of its relation
    instance. *)
Record RelationDef := {
  rd_name : string;
  rd_relatedModelClass : string;
  rd_graphOptions : option (list (string * value));
  rd_owner : bool
}.

(** A number in a template literal. *)
Definition string_of_nat (n : nat) : string :=
  NilZero.string_of_uint (Nat.to_uint n).

Definition appendPath (path separator token : string) : string :=
  if bool_decide (path = "") then token else path +:+ separator +:+ token.

(** [f(o[name])] for the own property [name] of [o], and [d] when [o] has no
    such property. *)
Definition on_field {R} (f : value → R) (d : R) (name : string)
  : list (string * value) → R :=
  fix go fields :=
    match fields with
    | [] => d
    | (k, v) :: fields' => if bool_decide (k = name) then f v else go fields'
    end.

(** The relation expression of a graph: the relations present in the data. *)
Inductive expression :=
| Expression (children : list (string * expression)).

Definition children (e : expression) : list (string * expression) :=
  match e with Expression cs => cs end.

(** The removed-relations map: data path ↦ (relation name ↦ value). *)
Definition removedMap := list (string * list (string * value)).

Record GraphProcessor := {
  rootModelClass : string;
  data : list value;
  isArray_ : bool;
  options : list (string * value);
  overrides : list (string * list string);
  numOptions : nat;
  numOverrides : nat;
  removedRelations : option removedMap
}.

Definition set_overrides (p : GraphProcessor) (o : list (string * list string))
    (n : nat) : GraphProcessor :=
  {| rootModelClass := rootModelClass p; data := data p; isArray_ := isArray_ p;
     options := options p; overrides := o; numOptions := numOptions p;
     numOverrides := n; removedRelations := removedRelations p |}.

Definition set_removedRelations (p : GraphProcessor) (r : option removedMap)
  : GraphProcessor :=
  {| rootModelClass := rootModelClass p; data := data p; isArray_ := isArray_ p;
     options := options p; overrides := overrides p; numOptions := numOptions p;
     numOverrides := numOverrides p; removedRelations := r |}.

(** The settings of the constructor. *)
Record Settings := {
  processOverrides_ : bool;
  restoreRelations_ : bool
}.

Section GraphProcessor.

(** The model classes of the application, by name, each with its relations in
    the order of [Object.entries(modelClass.definition.relations)]. A name
    without an entry has no relations. *)
Variable classes : list (string * list RelationDef).

Definition relationsOf (modelClass : string) : list RelationDef :=
  default [] (assoc modelClass classes).

(** The names of [modelClass.getRelationArray()]. *)
Definition relationNames (modelClass : string) : list string :=
  map rd_name (relationsOf modelClass).

Definition findRelation (modelClass name : string) : option RelationDef :=
  List.find (λ r, bool_decide (rd_name r = name)) (relationsOf modelClass).

(** [getGraphOptions(relation)]. *)
Definition getGraphOptions (relation : RelationDef) : list (string * value) :=
  let ownerOptions := [("relate", VBool false); ("unrelate", VBool false)] in
  match rd_graphOptions relation with
  | Some graphOptions => graphOptions
  | None => if rd_owner relation then ownerOptions else []
  end.

(** The loop over [this.options] in [collectOverrides], for one relation. *)
Definition collectRelation (opts : list (string * value))
    (st : list (string * list string) * nat) (relation : RelationDef)
  : list (string * list string) * nat :=
  let graphOptions := getGraphOptions relation in
  fold_left
    (λ '(ovr, n) '(key, opt),
       if js_in key graphOptions
          && negb (strict_eq (get_field key graphOptions) opt)
          && negb (js_in key ovr)
       then (assoc_set key [] ovr, S n)
       else (ovr, n))
    opts st.

(** The loop over the relations of a class in [processModelClass]; the state
    is the overrides, their number and the names marked in [processed], and
    [rec] is [processModelClass] itself. *)
Definition collectRelations (opts : list (string * value)) (nOptions : nat)
    (rec : list (string * list string) * nat * list string → string
           → option (list (string * list string) * nat * list string))
  : list RelationDef → list (string * list string) * nat * list string
    → option (list (string * list string) * nat * list string) :=
  fix relations rs st :=
    match rs with
    | [] => Some st
    | relation :: rs' =>
        let '(ovr, n, processed) := st in
        let '(ovr, n) := collectRelation opts (ovr, n) relation in
        st ← (if (n <? nOptions)%nat
              then rec (ovr, n, processed) (rd_relatedModelClass relation)
              else Some (ovr, n, processed));
        relations rs' st
    end.

(** [processModelClass] of [collectOverrides]. The recursion follows the
    relation metadata, which may be cyclic: [fuel] bounds its depth. *)
Fixpoint processModelClass (fuel : nat) (opts : list (string * value))
    (nOptions : nat) (st : list (string * list string) * nat * list string)
    (modelClass : string)
  : option (list (string * list string) * nat * list string) :=
  match fuel with
  | O => None
  | S fuel =>
      let '(ovr, n, processed) := st in
      if bool_decide (modelClass ∈ processed) || inherited modelClass then Some st
      else
        collectRelations opts nOptions (processModelClass fuel opts nOptions)
          (relationsOf modelClass) (ovr, n, modelClass :: processed)
  end.

(** [collectOverrides()]: every class is processed at most once, so a depth
    of one more than the number of classes is never exceeded. *)
Definition collectOverrides (p : GraphProcessor) : option GraphProcessor :=
  '(ovr, n, _) ← processModelClass (S (length classes)) (options p) (numOptions p)
                   (overrides p, numOverrides p, []) (rootModelClass p);
  Some (set_overrides p ovr n).

(** Modelled from the spec: [modelGraphToExpression] (imported from the
    package index, which is not among the sources): the expression of "every
    relation actually present in the data", here the relations of a node's
    class that the node has as an own property, merged over the entries of
    arrays. *)
Fixpoint modelGraphToExpression (v : value) (e : expression) {struct v}
  : expression :=
  match v with
  | VArr items =>
      (fix each (items : list value) (e : expression) :=
         match items with
         | [] => e
         | item :: items' => each items' (modelGraphToExpression item e)
         end) items e
  | VObj (Some cls) fields =>
      Expression
        (fold_left
           (λ cs name,
              on_field
                (λ x, assoc_set name
                        (modelGraphToExpression x
                           (default (Expression []) (assoc name cs))) cs)
                cs name fields)
           (relationNames cls) (children e))
  | _ => e
  end.

(** The loop over [this.overrides] in [processExpression]. *)
Definition pushOverrides (opts : list (string * value)) (relation : RelationDef)
    (relationPath : string) (ovr : list (string * list string))
  : list (string * list string) :=
  map (λ '(key, paths),
         let option :=
           match get_field key (getGraphOptions relation) with
           | VUndefined | VNull => get_field key opts
           | o => o
           end in
         if truthy option then (key, paths ++ [relationPath]) else (key, paths))
      ovr.

(** [processExpression(node, modelClass, relation, relationPath = '')];
    [None] is the TypeError of reading [relatedModelClass] of a relation the
    class does not have. *)
Fixpoint processExpression (opts : list (string * value)) (node : expression)
    (modelClass : string) (relation : option RelationDef) (relationPath : string)
    (ovr : list (string * list string)) {struct node}
  : option (list (string * list string)) :=
  let ovr :=
    match relation with
    | Some relation => pushOverrides opts relation relationPath ovr
    | None => ovr
    end in
  match node with
  | Expression cs =>
      (fix each (cs : list (string * expression)) (ovr : list (string * list string)) :=
         match cs with
         | [] => Some ovr
         | (key, child) :: cs' =>
             match findRelation modelClass key with
             | Some r =>
                 ovr ← processExpression opts child (rd_relatedModelClass r) (Some r)
                         (appendPath relationPath "." key) ovr;
                 each cs' ovr
             | None => None
             end
         end) cs ovr
  end.

(** [processOverrides()]. *)
Definition processOverrides (p : GraphProcessor) : option GraphProcessor :=
  let node := modelGraphToExpression (VArr (data p)) (Expression []) in
  ovr ← processExpression (options p) node (rootModelClass p) None "" (overrides p);
  Some (set_overrides p ovr (numOverrides p)).

(** Modelled from the spec: [ensureModelArray] (imported from the package
    index, which is not among the sources): "normalize inputData to an array
    internally". *)
Definition ensureModelArray (v : value) : list value :=
  match v with
  | VArr items => items
  | _ => [v]
  end.

(** [new GraphProcessor(rootModelClass, data, options, settings)]. *)
Definition GraphProcessor_new (root : string) (v : value)
    (opts : list (string * value)) (settings : Settings) : option GraphProcessor :=
  let p := {| rootModelClass := root; data := ensureModelArray v;
              isArray_ := isArray v; options := opts; overrides := [];
              numOptions := length opts; numOverrides := 0;
              removedRelations := None |} in
  p ← (if processOverrides_ settings then
         p ← collectOverrides p;
         if (0 <? numOverrides p)%nat then processOverrides p else Some p
       else Some p);
  Some (set_removedRelations p (if restoreRelations_ settings then Some [] else None)).

(** [getOptions()]: the options with the overrides spread over them. *)
Definition getOptions (p : GraphProcessor) : list (string * value) :=
  if (0 <? numOverrides p)%nat then
    fold_left
      (λ o '(key, paths), assoc_set key (VArr (map (λ s, VStr s) paths)) o)
      (overrides p) (options p)
  else options p.

(** [shouldRelate(relationPath)]. *)
Definition shouldRelate (p : GraphProcessor) (relationPath : string) : value :=
  if negb (bool_decide (relationPath = "")) then
    match assoc "relate" (overrides p) with
    | Some relate => VBool (bool_decide (relationPath ∈ relate))
    | None => get_field "relate" (options p)
    end
  else VUndefined.

(** [data.$clone({ shallow })] of objection, on the own properties of a model:
    a deep copy, which leaves the relations out when [shallow]. *)
Definition clone_fields (shallow : bool) (relations : list string)
    (fields : list (string * value)) : list (string * value) :=
  if shallow
  then List.filter (λ kv, negb (bool_decide (kv.1 ∈ relations))) fields
  else fields.

(** The [values] object [processRelates] fills for a model it relates: the
    relations of the model that are not [undefined]. *)
Definition removedValues (relations : list string) (fields : list (string * value))
  : list (string * value) :=
  fold_left
    (λ values name,
       let value := get_field name fields in
       if is_undefined value then values else assoc_set name value values)
    relations [].

(** [processRelates(data, relationPath = '', dataPath = '')]; [removed] is
    [this.removedRelations], which the walk fills. The relation names of a
    class are the keys of an object, hence distinct: when [clone[name]] is
    read, it still is the copy of [data[name]]. ([hprocessRelates] below
    reads [clone[name]] from the clone, in a heap.) *)
Fixpoint processRelates (p : GraphProcessor) (v : value)
    (relationPath dataPath : string) (removed : option removedMap) {struct v}
  : value * option removedMap :=
  match v with
  | VObj (Some cls) fields =>
      let relations := relationNames cls in
      let relate := shouldRelate p relationPath in
      let clone := clone_fields (truthy relate) relations fields in
      if truthy relate then
        let removed :=
          match removed with
          | Some m =>
              match removedValues relations fields with
              | [] => Some m
              | values => Some (assoc_set dataPath values m)
              end
          | None => None
          end in
        (VObj (Some cls) clone, removed)
      else
        let '(clone, removed) :=
          fold_left
            (λ '(clone, removed) name,
               let '(value, removed) :=
                 on_field
                   (λ x, processRelates p x (appendPath relationPath "." name)
                           (appendPath dataPath "/" name) removed)
                   (VUndefined, removed) name fields in
               (if is_undefined value then clone else assoc_set name value clone,
                removed))
            relations (clone, removed) in
        (VObj (Some cls) clone, removed)
  | VArr items =>
      let '(items, removed) :=
        (fix each (items : list value) (index : nat) (removed : option removedMap) :=
           match items with
           | [] => ([], removed)
           | entry :: items' =>
               let '(entry, removed) :=
                 processRelates p entry relationPath
                   (appendPath dataPath "/" (string_of_nat index)) removed in
               let '(items', removed) := each items' (S index) removed in
               (entry :: items', removed)
           end) items 0%nat removed in
      (VArr items, removed)
  | _ => (v, removed)
  end.

(** [getData()]: the data handed to the write, and the processor with the
    removed relations recorded. *)
Definition getData (p : GraphProcessor) : GraphProcessor * value :=
  let '(d, removed) :=
    match removedRelations p with
    | Some _ => processRelates p (VArr (data p)) "" "" (removedRelations p)
    | None => (VArr (data p), removedRelations p)
    end in
  (set_removedRelations p removed,
   if isArray_ p then d
   else match d with
        | VArr (first :: _) => first
        | _ => VUndefined
        end).

(** The entry of an array a path token names: the token is the decimal
    numeral of the index. *)
Definition array_get (items : list value) (token : string) : option value :=
  match NilZero.uint_of_string token with
  | Some d =>
      let i := Nat.of_uint d in
      if bool_decide (string_of_nat i = token) then items !! i else None
  | None => None
  end.

(** Modelled from the spec: [getDataPath] (of the utils package, which is not
    among the sources): "locate the corresponding node inside writeResult via
    the same structural path", a path being "root index + nested field path"
    with [/] between its tokens. [None] when there is no such node. *)
Fixpoint walkDataPath (tokens : list string) (v : value) : option value :=
  match tokens with
  | [] => Some v
  | token :: tokens' =>
      match v with
      | VArr items => array_get items token ≫= walkDataPath tokens'
      | VObj _ fields => assoc token fields ≫= walkDataPath tokens'
      | VPrim _ => None
      end
  end.

Definition getDataPath (v : value) (path : string) : option value :=
  walkDataPath (split_char "/" path) v.

(** The fields of an object after [obj[key] = values[key]] for every key of
    [values]. *)
Definition assigned (values fields : list (string * value)) : list (string * value) :=
  fold_left (λ fs '(key, v), assoc_set key v fs) values fields.

(** [obj[key] = values[key]] for every key of [values]; the assignment is to
    an object ([None]: a TypeError on a primitive, or a named property on an
    array, which the value type does not have). *)
Definition assignValues (values : list (string * value)) (obj : value)
  : option value :=
  match obj with
  | VObj cls fields => Some (VObj cls (assigned values fields))
  | VArr _ | VPrim _ => None
  end.

(** The graph in which the node at the end of the path is replaced by [f] of
    it: the effect of an assignment to the object [getDataPath] returns. *)
Fixpoint updateDataPath (f : value → option value) (tokens : list string)
    (v : value) : option value :=
  match tokens with
  | [] => f v
  | token :: tokens' =>
      match v with
      | VArr items =>
          match NilZero.uint_of_string token with
          | Some d =>
              let i := Nat.of_uint d in
              if bool_decide (string_of_nat i = token) then
                x ← items !! i;
                x' ← updateDataPath f tokens' x;
                Some (VArr (<[i := x']> items))
              else None
          | None => None
          end
      | VObj cls fields =>
          x ← assoc token fields;
          x' ← updateDataPath f tokens' x;
          Some (VObj cls (assoc_set token x' fields))
      | VPrim _ => None
      end
  end.

(** The loop of [restoreRelations] over the entries of the map. *)
Definition restoreAll (m : removedMap) (d : option value) : option value :=
  fold_left
    (λ d '(path, values),
       d ← d;
       updateDataPath (assignValues values) (split_char "/" path) d)
    m d.

(** [restoreRelations(result)]: the result with the removed relations
    assigned; [None] when a path leads to no object of the result. The
    result is a tree: no two of its nodes are the same object. *)
Definition restoreRelations (p : GraphProcessor) (result : value) : option value :=
  d ← restoreAll (default [] (removedRelations p)) (Some (VArr (asArray result)));
  match result with
  | VArr _ => Some d
  | VPrim PUndefined => Some result
  | _ => match d with
         | VArr (first :: _) => Some first
         | _ => None
         end
  end.

(** *** The walk of [processRelates], seen from outside *)

(** The node the walk of [processRelates] arrives at when it follows the
    tokens of a data path from [v], with the relation path of that node:
    into the entries of arrays, and into the relations of the models it does
    not relate. *)
Fixpoint reached (p : GraphProcessor) (v : value) (relationPath : string)
    (tokens : list string) : option (value * string) :=
  match tokens with
  | [] => Some (v, relationPath)
  | token :: tokens' =>
      match v with
      | VArr items =>
          x ← array_get items token;
          reached p x relationPath tokens'
      | VObj (Some cls) fields =>
          if truthy (shouldRelate p relationPath) then None
          else if bool_decide (token ∈ relationNames cls) then
            x ← assoc token fields;
            reached p x (appendPath relationPath "." token) tokens'
          else None
      | _ => None
      end
  end.

(** The data path of a node below [dataPath]. *)
Definition extendPath (dataPath : string) (tokens : list string) : string :=
  fold_left (λ path token, appendPath path "/" token) tokens dataPath.

(** The data [processRelates] returns. *)
Fixpoint relatesData (p : GraphProcessor) (v : value) (relationPath : string)
    {struct v} : value :=
  match v with
  | VObj (Some cls) fields =>
      let relations := relationNames cls in
      if truthy (shouldRelate p relationPath) then
        VObj (Some cls) (clone_fields true relations fields)
      else
        VObj (Some cls)
          (fold_left
             (λ clone name,
                let value :=
                  on_field (λ x, relatesData p x (appendPath relationPath "." name))
                           VUndefined name fields in
                if is_undefined value then clone else assoc_set name value clone)
             relations fields)
  | VArr items => VArr (map (λ x, relatesData p x relationPath) items)
  | _ => v
  end.

(** The entries [processRelates] records, in order. *)
Fixpoint relatesLog (p : GraphProcessor) (v : value) (relationPath dataPath : string)
    {struct v} : removedMap :=
  match v with
  | VObj (Some cls) fields =>
      let relations := relationNames cls in
      if truthy (shouldRelate p relationPath) then
        match removedValues relations fields with
        | [] => []
        | values => [(dataPath, values)]
        end
      else
        flat_map
          (λ name,
             on_field (λ x, relatesLog p x (appendPath relationPath "." name)
                              (appendPath dataPath "/" name))
                      [] name fields)
          relations
  | VArr items =>
      (fix each (items : list value) (index : nat) : removedMap :=
         match items with
         | [] => []
         | x :: items' =>
             relatesLog p x relationPath (appendPath dataPath "/" (string_of_nat index))
             ++ each items' (S index)
         end) items 0%nat
  | _ => []
  end.

(** The entry [(path, values)] is what the walk from [v] records for one of
    the models it relates. *)
Definition relates_entry (p : GraphProcessor) (v : value)
    (relationPath dataPath : string) (path : string) (values : list (string * value))
  : Prop :=
  ∃ tokens cls fields relationPath',
    reached p v relationPath tokens = Some (VObj (Some cls) fields, relationPath')
    ∧ truthy (shouldRelate p relationPath') = true
    ∧ path = extendPath dataPath tokens
    ∧ values = removedValues (relationNames cls) fields
    ∧ values ≠ [].

(** [removedRelations[path] = values] for the entries of a log. *)
Definition record_all (log m : removedMap) : removedMap :=
  fold_left (λ m '(path, values), assoc_set path values m) log m.

(** The model class a path of relation names leads to, from a model class,
    and the last relation on the way. *)
Fixpoint resolveClass (modelClass : string) (names : list string) : option string :=
  match names with
  | [] => Some modelClass
  | name :: names' =>
      r ← findRelation modelClass name;
      resolveClass (rd_relatedModelClass r) names'
  end.

Fixpoint resolveRelation (modelClass : string) (names : list string)
  : option RelationDef :=
  match names with
  | [] => None
  | [name] => findRelation modelClass name
  | name :: names' =>
      r ← findRelation modelClass name;
      resolveRelation (rd_relatedModelClass r) names'
  end.

(** The setting of an option for a relation: its own, or else the global
    one ([graphOptions[key] ?? this.options[key]]). *)
Definition effectiveOption (opts : list (string * value)) (relation : RelationDef)
    (key : string) : value :=
  match get_field key (getGraphOptions relation) with
  | VUndefined | VNull => get_field key opts
  | o => o
  end.

(** The classes that are not marked in [processed] yet. *)
Definition unprocessed (processed : list string) : list string :=
  List.filter (λ c, negb (bool_decide (c ∈ processed))) (keys classes).

(** From the overrides and their number [st] to [st'] in [collectOverrides]:
    overrides are only added, as empty arrays, and counted. *)
Definition overrides_grow (st st' : list (string * list string) * nat) : Prop :=
  (∀ key, key ∈ keys st.1 → key ∈ keys st'.1)
  ∧ ((∀ key paths, assoc key st.1 = Some paths → paths = []) →
     ∀ key paths, assoc key st'.1 = Some paths → paths = [])
  ∧ ((st.1 ≠ [] → (0 < st.2)%nat) → st'.1 ≠ [] → (0 < st'.2)%nat).

(** A relation path [processExpression] pushes to the override [key]: that
    of a relation for which the option is set. *)
Definition overridden (root : string) (opts : list (string * value)) (key : string)
    (path : string) : Prop :=
  ∃ names r,
    path = fold_left (λ path name, appendPath path "." name) names ""
    ∧ resolveRelation root names = Some r
    ∧ truthy (effectiveOption opts r key) = true.

(** The overrides [ovr'] are [ovr] with such paths added. *)
Definition overrides_extend (root : string) (opts : list (string * value))
    (ovr ovr' : list (string * list string)) : Prop :=
  keys ovr' = keys ovr
  ∧ ∀ key paths, assoc key ovr = Some paths →
      ∃ added, assoc key ovr' = Some (paths ++ added)
               ∧ Forall (overridden root opts key) added.

(** Relation names are identifiers: not empty, and without the separators of
    relation paths and data paths. *)
Definition identifier (name : string) : bool :=
  negb (bool_decide (name = ""))
  && negb (string_has "." name) && negb (string_has "/" name).

Definition relationNamesOk : bool :=
  forallb (λ '(_, rs), forallb (λ r, identifier (rd_name r)) rs) classes.

(** The relation path of a path of relation names. *)
Definition relationPathOf (names : list string) : string :=
  fold_left (λ path name, appendPath path "." name) names "".

End GraphProcessor.

(** What kind of value: a primitive (and which), an array or an object. *)
Definition kind (v : value) : option prim + bool :=
  match v with
  | VPrim a => inl (Some a)
  | VArr _ => inr true
  | VObj _ _ => inr false
  end.

(** ** The graph processor on a heap *)

(** The graph the caller passes in is made of objects that [processRelates]
    could write to: here the objects live in a heap, a value is a primitive
    or a reference to an object of the heap, and an assignment to a property
    changes the object at its place. *)
Inductive hval :=
| HPrim (a : prim)
| HRef (l : nat).

Inductive hobj :=
| HArr (items : list hval)
| HObj (cls : option string) (fields : list (string * hval)).

Abbreviation heap := (list hobj).

(** A new object. *)
Definition halloc (h : heap) (o : hobj) : heap * hval :=
  (h ++ [o], HRef (length h)).

(** [obj[key] = x]; nothing happens to what is not an object. *)
Definition hassign (l : nat) (key : string) (x : hval) (h : heap) : heap :=
  match h !! l with
  | Some (HObj cls fields) => <[l := HObj cls (assoc_set key x fields)]> h
  | _ => h
  end.

(** [obj[key]]. *)
Definition hget (l : nat) (key : string) (h : heap) : hval :=
  match h !! l with
  | Some (HObj _ fields) => default (HPrim PUndefined) (assoc key fields)
  | _ => HPrim PUndefined
  end.

Definition h_is_undefined (x : hval) : bool :=
  match x with HPrim PUndefined => true | _ => false end.

(** A loop over a list that threads the heap through. *)
Definition hmapM {A B} (f : heap → A → option (heap * B))
  : heap → list A → option (heap * list B) :=
  fix go h l {struct l} :=
    match l with
    | [] => Some (h, [])
    | a :: l' =>
        '(h, b) ← f h a;
        '(h, bs) ← go h l';
        Some (h, b :: bs)
    end.

(** The graph below a value of the heap, as a tree; [fuel] bounds its depth,
    and a graph with a cycle has no tree. *)
Fixpoint reify (fuel : nat) (h : heap) (x : hval) : option value :=
  match x with
  | HPrim a => Some (VPrim a)
  | HRef l =>
      match fuel with
      | O => None
      | S fuel =>
          match h !! l with
          | Some (HArr items) => VArr <$> mapM (reify fuel h) items
          | Some (HObj cls fields) =>
              VObj cls <$> mapM (λ '(k, x), pair k <$> reify fuel h x) fields
          | None => None
          end
      end
  end.

(** The deep copy [$clone] of objection makes of a value: new objects all the
    way down. *)
Fixpoint hcopy (fuel : nat) (h : heap) (x : hval) : option (heap * hval) :=
  match x with
  | HPrim _ => Some (h, x)
  | HRef l =>
      match fuel with
      | O => None
      | S fuel =>
          match h !! l with
          | Some (HArr items) =>
              '(h, items') ← hmapM (hcopy fuel) h items;
              Some (halloc h (HArr items'))
          | Some (HObj cls fields) =>
              '(h, fields') ← hmapM (λ h '(k, x), '(h, y) ← hcopy fuel h x;
                                                     Some (h, (k, y))) h fields;
              Some (halloc h (HObj cls fields'))
          | None => None
          end
      end
  end.

(** [data.$clone({ shallow })] on a model with the own properties [fields]:
    the place of the clone in the new heap. *)
Definition hclone (fuel : nat) (shallow : bool) (relations : list string)
    (h : heap) (cls : string) (fields : list (string * hval)) : option (heap * nat) :=
  let fields :=
    if shallow
    then List.filter (λ kv, negb (bool_decide (kv.1 ∈ relations))) fields
    else fields in
  '(h, fields') ← hmapM (λ h '(k, x), '(h, y) ← hcopy fuel h x; Some (h, (k, y)))
                    h fields;
  Some (h ++ [HObj (Some cls) fields'], length h).

(** The removed-relations map of a processor on the heap: the values are the
    values of the properties, references included. *)
Abbreviation hremovedMap := (list (string * list (string * hval))).

(** The [values] object [processRelates] fills for a model it relates. *)
Definition hremovedValues (relations : list string) (fields : list (string * hval))
  : list (string * hval) :=
  fold_left
    (λ values name,
       let value := default (HPrim PUndefined) (assoc name fields) in
       if h_is_undefined value then values else assoc_set name value values)
    relations [].

(** The loop of [processRelates] over the relations of a model it does not
    relate: [clone[name]] is read, processed and assigned, at the clone [c];
    [rec] is [processRelates]. *)
Definition hprocessRelations
    (rec : heap → hval → string → string → option hremovedMap
           → option (heap * hval * option hremovedMap))
    (c : nat) (relationPath dataPath : string)
  : list string → heap → option hremovedMap → option (heap * option hremovedMap) :=
  fix relations names h removed :=
    match names with
    | [] => Some (h, removed)
    | name :: names' =>
        '(h, value, removed) ← rec h (hget c name h) (appendPath relationPath "." name)
                                 (appendPath dataPath "/" name) removed;
        relations names'
          (if h_is_undefined value then h else hassign c name value h) removed
    end.

(** The callback of [data.map] in [processRelates], over the entries from
    [index] on. *)
Definition hprocessEntries
    (rec : heap → hval → string → string → option hremovedMap
           → option (heap * hval * option hremovedMap))
    (relationPath dataPath : string)
  : list hval → nat → heap → option hremovedMap
    → option (heap * list hval * option hremovedMap) :=
  fix each items index h removed :=
    match items with
    | [] => Some (h, [], removed)
    | entry :: items' =>
        '(h, entry, removed) ← rec h entry relationPath
                                 (appendPath dataPath "/" (string_of_nat index)) removed;
        '(h, items', removed) ← each items' (S index) h removed;
        Some (h, entry :: items', removed)
    end.

Section HeapProcessor.

Variable classes : list (string * list RelationDef).

(** [processRelates(data, relationPath, dataPath)] on the heap; [p] has the
    options and overrides. A graph with a cycle makes the recursion run
    forever: [fuel] bounds its depth. *)
Fixpoint hprocessRelates (fuel : nat) (p : GraphProcessor) (h : heap) (x : hval)
    (relationPath dataPath : string) (removed : option hremovedMap)
  : option (heap * hval * option hremovedMap) :=
  match x with
  | HPrim _ => Some (h, x, removed)
  | HRef l =>
      match fuel with
      | O => None
      | S fuel =>
          match h !! l with
          | Some (HObj (Some cls) fields) =>
              let relations := relationNames classes cls in
              let relate := truthy (shouldRelate p relationPath) in
              '(h, c) ← hclone fuel relate relations h cls fields;
              if relate then
                let removed :=
                  match removed with
                  | Some m =>
                      match hremovedValues relations fields with
                      | [] => Some m
                      | values => Some (assoc_set dataPath values m)
                      end
                  | None => None
                  end in
                Some (h, HRef c, removed)
              else
                '(h, removed) ← hprocessRelations (hprocessRelates fuel p) c
                                  relationPath dataPath relations h removed;
                Some (h, HRef c, removed)
          | Some (HArr items) =>
              '(h, items', removed) ← hprocessEntries (hprocessRelates fuel p)
                                        relationPath dataPath items 0%nat h removed;
              let '(h, data) := halloc h (HArr items') in
              Some (h, data, removed)
          | Some (HObj None _) => Some (h, x, removed)
          | None => None
          end
      end
  end.

(** The processor with its data in the heap: [processor] has the fields that
    are plain values, [hdata] is [this.data] and [hremoved] is
    [this.removedRelations]. *)
Record HeapProcessor := {
  processor : GraphProcessor;
  hdata : hval;
  hremoved : option hremovedMap
}.

(** [getData()]. *)
Definition hgetData (fuel : nat) (h : heap) (hp : HeapProcessor)
  : option (heap * HeapProcessor * hval) :=
  '(h, d, removed) ←
    match hremoved hp with
    | Some _ => hprocessRelates fuel (processor hp) h (hdata hp) "" "" (hremoved hp)
    | None => Some (h, hdata hp, hremoved hp)
    end;
  let first :=
    match d with
    | HRef l =>
        match h !! l with
        | Some (HArr (first :: _)) => first
        | _ => HPrim PUndefined
        end
    | HPrim _ => HPrim PUndefined
    end in
  Some (h, {| processor := processor hp; hdata := hdata hp; hremoved := removed |},
        if isArray_ (processor hp) then d else first).

(** A read of the processor, and what it returns. *)
Inductive read := GetData | GetOptions.

Definition hread (fuel : nat) (h : heap) (hp : HeapProcessor) (r : read)
  : option (heap * HeapProcessor * (hval + list (string * value))) :=
  match r with
  | GetData =>
      '(h, hp, d) ← hgetData fuel h hp;
      Some (h, hp, inl d)
  | GetOptions => Some (h, hp, inr (getOptions (processor hp)))
  end.

(** A sequence of reads. *)
Fixpoint hreads (fuel : nat) (h : heap) (hp : HeapProcessor) (rs : list read)
  : option (heap * HeapProcessor * list (hval + list (string * value))) :=
  match rs with
  | [] => Some (h, hp, [])
  | r :: rs' =>
      '(h, hp, result) ← hread fuel h hp r;
      '(h, hp, results) ← hreads fuel h hp rs';
      Some (h, hp, result :: results)
  end.

(** The relation names of a class are the keys of an object: no two are the
    same. *)
Definition relationNamesDistinct : bool :=
  forallb (λ '(_, rs), bool_decide (NoDup (map rd_name rs))) classes.

End HeapProcessor.

(** The properties [fields] of an object of the heap unfold to the
    properties [tree] of a tree. *)
Definition reify_fields (fuel : nat) (h : heap) (fields : list (string * hval))
    (tree : list (string * value)) : Prop :=
  Forall2 (λ kx kt, kx.1 = kt.1 ∧ reify fuel h kx.2 = Some kt.2) fields tree.

(** A small graph in a heap: Ann with her pet and her friend, who has a pet
    too, and the array [this.data] of a processor for it. *)
Definition sample_heap : heap :=
  [HObj (Some "Pet") [("id", HPrim (PNum 3)); ("name", HPrim (PStr "Rex"))];
   HArr [HRef 0];
   HObj (Some "Pet") [("id", HPrim (PNum 5)); ("name", HPrim (PStr "Tom"))];
   HArr [HRef 2];
   HObj (Some "Person")
     [("id", HPrim (PNum 2)); ("name", HPrim (PStr "Bob")); ("pets", HRef 3)];
   HObj (Some "Person")
     [("name", HPrim (PStr "Ann")); ("friend", HRef 4); ("pets", HRef 1)];
   HArr [HRef 5]].

Definition sample_heap_tree : value :=
  VObj (Some "Person")
    [("name", VStr "Ann");
     ("friend", VObj (Some "Person")
                  [("id", VNum 2); ("name", VStr "Bob");
                   ("pets", VArr [VObj (Some "Pet")
                                    [("id", VNum 5); ("name", VStr "Tom")]])]);
     ("pets", VArr [VObj (Some "Pet") [("id", VNum 3); ("name", VStr "Rex")]])].

Definition sample_heap_processor : HeapProcessor := {|
  processor := {| rootModelClass := "Person";
                  data := [sample_heap_tree];
                  isArray_ := false;
                  options := [("relate", VBool true)];
                  overrides := [("relate", ["friend"])];
                  numOptions := 1;
                  numOverrides := 1;
                  removedRelations := Some [] |};
  hdata := HRef 6;
  hremoved := Some []
|}.

(** The number of nodes of a tree. *)
Fixpoint size (v : value) : nat :=
  match v with
  | VPrim _ => 1
  | VArr items => S (list_sum (map size items))
  | VObj _ fields => S (list_sum (map (λ kv, size kv.2) fields))
  end.

(** ** The spec's reading of the [where] object notation *)

(** The filter instructions of one entry [key: v] below the reference path
    [path]: "object nesting dot-joins keys into a reference path, a leaf key
    that names a registered filter operator becomes a [:operator] suffix
    instead of a path segment". [isOperator] tells the names of operators. *)
Fixpoint where_flatten_entry (isOperator : string → bool) (path : list string)
    (key : string) (v : value) {struct v} : list (string * value) :=
  match v with
  | VObj _ fields =>
      (fix entries (fields : list (string * value)) :=
         match fields with
         | [] => []
         | (subKey, subValue) :: fields' =>
             where_flatten_entry isOperator (path ++ [key]) subKey subValue
             ++ entries fields'
         end) fields
  | _ =>
      if isOperator key then [(join "." path +:+ ":" +:+ key, v)]
      else [(join "." (path ++ [key]), v)]
  end.

(** The instructions of a [where] object, one entry after the other. *)
Definition where_flatten (isOperator : string → bool)
    (fields : list (string * value)) : list (string * value) :=
  flat_map (λ '(key, v), where_flatten_entry isOperator [] key v) fields.

(** ** A sample application *)

Definition sample_env : Env := {|
  modelName := "Dummy";
  properties := ["firstName"; "lastName"];
  defaultEager := VStr "messages";
  defaultOrder := VStr "lastName";
  models := ["Dummy"];
  newPropertyRef := λ ref _ _,
    inl {| ref_key := ref; ref_relation := None; ref_dir := None;
           ref_propertyName := ref; ref_fullColumnName := "Dummy." +:+ ref |};
  isFindQuery := λ _, true;
  hasSelectSelector := λ _, false;
  parsePropertiesExpression := λ _, Some [];
  capitalize := capitalize_first
|}.

(** The sample with a PropertyRef constructor that checks the allowed
    properties it is given. *)
Definition sample_env_checked : Env := {|
  modelName := "Dummy";
  properties := ["firstName"; "lastName"];
  defaultEager := VStr "messages";
  defaultOrder := VStr "lastName";
  models := ["Dummy"];
  newPropertyRef := λ ref _ allowed,
    if bool_decide (ref ∈ default [ref] allowed) then
      inl {| ref_key := ref; ref_relation := None; ref_dir := None;
             ref_propertyName := ref; ref_fullColumnName := "Dummy." +:+ ref |}
    else inr ("Property reference '" +:+ ref +:+ "' is not allowed");
  isFindQuery := λ _, true;
  hasSelectSelector := λ _, false;
  parsePropertiesExpression := λ _, Some [];
  capitalize := capitalize_first
|}.

(** The sample with relations: a reference [relation.property] is a
    property of the relation of that name, of which [address] is the only
    one-to-one relation. *)
Definition sample_env_relations : Env := {|
  modelName := "Dummy";
  properties := ["firstName"; "lastName"];
  defaultEager := VStr "messages";
  defaultOrder := VStr "lastName";
  models := ["Dummy"];
  newPropertyRef := λ ref _ _,
    match split_char "." ref with
    | [relation; property] =>
        inl {| ref_key := ref;
               ref_relation := Some {| rel_name := relation;
                                       rel_isOneToOne := bool_decide (relation = "address") |};
               ref_dir := None; ref_propertyName := property;
               ref_fullColumnName := ref |}
    | _ =>
        inl {| ref_key := ref; ref_relation := None; ref_dir := None;
               ref_propertyName := ref; ref_fullColumnName := "Dummy." +:+ ref |}
    end;
  isFindQuery := λ _, true;
  hasSelectSelector := λ _, false;
  parsePropertiesExpression := λ _, Some [];
  capitalize := capitalize_first
|}.

(** A graph of persons and their pets: the pets of a person are inserted
    with the person ([relate: false]), a friend and the vet of a pet are
    references. *)
Definition sample_classes : list (string * list RelationDef) :=
  [("Person",
    [{| rd_name := "friend"; rd_relatedModelClass := "Person";
        rd_graphOptions := None; rd_owner := false |};
     {| rd_name := "pets"; rd_relatedModelClass := "Pet";
        rd_graphOptions := Some [("relate", VBool false)]; rd_owner := false |}]);
   ("Pet",
    [{| rd_name := "vet"; rd_relatedModelClass := "Person";
        rd_graphOptions := None; rd_owner := false |}])].

Definition sample_pet (id : Z) : value :=
  VObj (Some "Pet")
    [("id", VNum id); ("name", VStr "Rex");
     ("vet", VObj (Some "Person")
               [("id", VNum 9); ("friend", VObj (Some "Person") [("id", VNum 10)])])].

Definition sample_graph : value :=
  VObj (Some "Person")
    [("name", VStr "Ann");
     ("friend", VObj (Some "Person")
                  [("id", VNum 2); ("name", VStr "Bob"); ("pets", VArr [sample_pet 5])]);
     ("pets", VArr [sample_pet 3; sample_pet 4])].

Definition sample_options : list (string * value) := [("relate", VBool true)].

(** The processor [new GraphProcessor(Person, graph, { relate: true },
    { processOverrides: true, restoreRelations: true })]. *)
Definition sample_processor : GraphProcessor := {|
  rootModelClass := "Person";
  data := [sample_graph];
  isArray_ := false;
  options := sample_options;
  overrides := [("relate", ["friend"; "friend.pets.vet"; "friend.pets.vet.friend";
                            "pets.vet"; "pets.vet.friend"])];
  numOptions := 1;
  numOverrides := 1;
  removedRelations := Some []
|}.

(** The same without [processOverrides]. *)
Definition sample_processor_plain : GraphProcessor := {|
  rootModelClass := "Person";
  data := [sample_graph];
  isArray_ := false;
  options := sample_options;
  overrides := [];
  numOptions := 1;
  numOverrides := 0;
  removedRelations := Some []
|}.

(** ** Classes of exceptions *)

(** [r] raises only exceptions in [E]. *)
Definition throws_only {A} (E : error → Prop) (r : result A) : Prop :=
  ∀ e, r = Throw e → E e.

Definition is_NotAllowed (e : error) : Prop := ∃ k, e = NotAllowed k.


(** ** The PropertyRef cache *)

(** Every reference [cache] answers is answered by [cache'] in the same way. *)
Definition cache_extends (cache cache' : list (string * nat)) : Prop :=
  ∀ ref, js_lookup ref cache ≠ Absent → js_lookup ref cache' = js_lookup ref cache.

(** ** The eager expression *)

(** The calls that set, extend or remove the eager expression. *)
Definition eagerCall (c : call) : bool :=
  match c with
  | Call method _ => bool_decide (method ∈ ["eager"; "mergeEager"; "clearEager"])
  | _ => false
  end.

(** [b'] is [b] after calls that are none of these, with the flag
    [_applyDefaultEager] as it was. *)
Definition eager_untouched (b b' : QueryBuilder) : Prop :=
  _applyDefaultEager b' = _applyDefaultEager b
  ∧ ∃ cs, calls b' = calls b ++ cs ∧ Forall (λ c, eagerCall c = false) cs.

(** The builder is marked as explicitly eager: it has an eager expression
    and the flag of the default eager expression is cleared. *)
Definition explicitEager (b : QueryBuilder) : Prop :=
  hasEagerExpression (calls b) = true ∧ _applyDefaultEager b = false.

(** What the methods of the builder keep: a builder with an eager
    expression has the flag cleared. *)
Definition eagerFlagKept (b : QueryBuilder) : Prop :=
  hasEagerExpression (calls b) = true → _applyDefaultEager b = false.

(** What [find] keeps in [_relationsToJoin]: one entry per relation name,
    each a one-to-one relation under its own name. *)
Definition oneToOneByName (rs : list (string * Relation)) : Prop :=
  NoDup (keys rs)
  ∧ Forall (λ entry, entry.1 = rel_name entry.2 ∧ rel_isOneToOne entry.2 = true) rs.

(** The overrides and their number as [collectOverrides] keeps them: one
    entry per key, as many as counted, each for an option that a relation of
    some model class sets to another value. *)
Definition overrides_counted (classes : list (string * list RelationDef))
    (opts : list (string * value)) (st : list (string * list string) * nat) : Prop :=
  NoDup (keys st.1)
  ∧ st.2 = length st.1
  ∧ ∀ key, key ∈ keys st.1 →
      ∃ opt modelClass relation,
        (key, opt) ∈ opts
        ∧ relation ∈ relationsOf classes modelClass
        ∧ js_in key (getGraphOptions relation) = true
        ∧ strict_eq (get_field key (getGraphOptions relation)) opt = false.

(** ** Builders that share their scopes *)

(** [clone()] hands the array [_scopes] of a builder on to its clone: both
    refer to one array, and [mergeScope] pushes into it. Here the arrays of
    scopes live in a store and a builder refers to its array by position;
    [own] holds the other fields of the builder, and [s_builder] is the builder
    with the array it refers to. *)
Abbreviation scopeStore := (list (list value)).

Record SharedBuilder := {
  scopesRef : nat;
  own : QueryBuilder
}.

Definition s_builder (st : scopeStore) (sb : SharedBuilder) : QueryBuilder :=
  set_scopes (own sb) (default [] (st !! scopesRef sb)).

(** [new QueryBuilder(modelClass)]: [this._scopes = []] is a new array. *)
Definition s_constructor (st : scopeStore) : scopeStore * SharedBuilder :=
  (st ++ [[]], {| scopesRef := length st; own := constructor |}).

(** [clone()]: the clone of the inherited method, with the operations of the
    builder, is given the flags and the references of this builder. *)
Definition s_clone (st : scopeStore) (sb : SharedBuilder) : scopeStore * SharedBuilder :=
  (st, {| scopesRef := scopesRef sb; own := own sb |}).

(** [clearScope()]: [this._scopes = []] is a new array. *)
Definition s_clearScope (st : scopeStore) (sb : SharedBuilder)
  : scopeStore * SharedBuilder :=
  (st ++ [[]], {| scopesRef := length st; own := own sb |}).

(** [mergeScope(...scopes)]: the scopes are pushed into the array. *)
Definition s_mergeScope (st : scopeStore) (sb : SharedBuilder) (scopes : list value)
  : scopeStore * SharedBuilder :=
  (<[scopesRef sb := _scopes (mergeScope (s_builder st sb) scopes)]> st, sb).

(** [scope(...scopes)]. *)
Definition s_scope (st : scopeStore) (sb : SharedBuilder) (scopes : list value)
  : scopeStore * SharedBuilder :=
  let '(st, sb) := s_clearScope st sb in
  s_mergeScope st sb scopes.

(** ** The mixin of the query methods *)

(** A property of a target of [QueryBuilder.mixin]: one the target has, or
    the function [mixin] defines for a method, which redirects the call to
    [this.query()[method](...args)] (configurable, not enumerable). *)
Inductive property :=
| Given (v : value)
| Redirected (method : string).

(** A target: its own properties, and the names it inherits. *)
Record Target := {
  t_own : list (string * property);
  t_inherited : list string
}.

(** [key in target]. *)
Definition target_has (target : Target) (key : string) : bool :=
  bool_decide (key ∈ keys (t_own target)) || bool_decide (key ∈ t_inherited target).

Definition mixinMethods : list string :=
  ["first"; "find"; "findOne"; "findById"; "eager"; "scope"; "clearEager";
   "clearScope"; "clearOrder"; "select"; "insert"; "update"; "patch"; "upsert";
   "truncate"; "delete"; "deleteById"; "insertAndFetch"; "updateAndFetch";
   "upsertAndFetch"; "updateAndFetchById"; "patchAndFetchById"; "insertGraph";
   "updateGraph"; "upsertGraph"; "insertGraphAndFetch"; "updateGraphAndFetch";
   "upsertGraphAndFetch"; "updateGraphAndFetchById"; "upsertGraphAndFetchById";
   "where"; "whereNot"; "whereRaw"; "whereWrapped"; "whereExists";
   "whereNotExists"; "whereIn"; "whereNotIn"; "whereNull"; "whereNotNull";
   "whereBetween"; "whereNotBetween"; "whereJsonEquals"; "whereJsonNotEquals";
   "whereJsonSupersetOf"; "whereJsonNotSupersetOf"; "whereJsonSubsetOf";
   "whereJsonNotSubsetOf"; "whereJsonHasAny"; "whereJsonHasAll"; "whereJsonField";
   "whereJsonIsArray"; "whereJsonIsObject"].

(** The loop of [mixin] over the methods: the target, and the methods
    [console.warn] was called for. *)
Definition mixin_methods (methods : list string) (st : Target * list string)
  : Target * list string :=
  fold_left
    (λ '(target, warned) method,
       if target_has target method then (target, warned ++ [method])
       else ({| t_own := assoc_set method (Redirected method) (t_own target);
                t_inherited := t_inherited target |}, warned))
    methods st.

(** [QueryBuilder.mixin(target)]. *)
Definition mixin (target : Target) : Target * list string :=
  mixin_methods mixinMethods (target, []).

(** ** The graph methods by id *)

(** [getIdProperties(id)]; [idColumn] is [modelClass.idColumn], one column
    name or an array of them, and [columnNameToPropertyName] the method of
    the model class. An id that is missing is [undefined]. *)
Definition getIdProperties (idColumn : string + list string)
    (columnNameToPropertyName : string → string) (id : value)
  : list (string * value) :=
  let ids := asArray id in
  let columns := match idColumn with inl column => [column] | inr columns => columns end in
  fold_left
    (λ fullId '(index, column),
       assoc_set (columnNameToPropertyName column)
                 (default VUndefined (ids !! index)) fullId)
    (imap (λ index column, (index, column)) columns) [].

(** [upsertGraphAndFetchById(id, data, opt)] and
    [updateGraphAndFetchById(id, data, opt)]; [data] lists the own
    properties of the data object. *)
Definition upsertGraphAndFetchById (idColumn : string + list string)
    (columnNameToPropertyName : string → string) (b : QueryBuilder) (id : value)
    (data : list (string * value)) (opt : option (list (string * value)))
  : QueryBuilder :=
  upsertGraphAndFetch b
    (VObj None (spread (getIdProperties idColumn columnNameToPropertyName id) data)) opt.

Definition updateGraphAndFetchById (idColumn : string + list string)
    (columnNameToPropertyName : string → string) (b : QueryBuilder) (id : value)
    (data : list (string * value)) (opt : option (list (string * value)))
  : QueryBuilder :=
  updateGraphAndFetch b
    (VObj None (spread (getIdProperties idColumn columnNameToPropertyName id) data)) opt.

(** * Properties *)

(** ** Induction on values *)

Lemma value_ind' (P : value → Prop) :
  (∀ p, P (VPrim p)) →
  (∀ items, Forall P items → P (VArr items)) →
  (∀ cls fields, Forall (λ kv, P kv.2) fields → P (VObj cls fields)) →
  ∀ v, P v.
Proof.
  intros Hprim Harr Hobj.
  fix IH 1. intros [p | items | cls fields].
  - apply Hprim.
  - apply Harr. induction items as [| x items IHitems]; constructor; [apply IH | exact IHitems].
  - apply Hobj. induction fields as [| [k x] fields IHfields]; constructor;
      [apply IH | exact IHfields].
Qed.

(** ** Loops *)

Lemma forM_app {A S} (body : S → A → result S) (l1 l2 : list A) (s : S) :
  forM body (l1 ++ l2) s = forM body l1 s ≫= forM body l2.
Proof.
  revert s. induction l1 as [| a l1 IH]; intros s; simpl; [done |].
  destruct (body s a) as [s' | e]; simpl; [apply IH | done].
Qed.

Lemma forM_cons {A S} (body : S → A → result S) (a : A) (l : list A) (s : S) :
  forM body (a :: l) s = body s a ≫= forM body l.
Proof. done. Qed.

Lemma assoc_Some_elem {A} (key : string) (o : list (string * A)) (a : A) :
  assoc key o = Some a → (key, a) ∈ o.
Proof.
  induction o as [| [k b] o IH]; simpl; [done |].
  case_bool_decide as Hk.
  - intros [= ->]. subst. left.
  - intros H. right. auto.
Qed.

Lemma assoc_None_keys {A} (key : string) (o : list (string * A)) :
  assoc key o = None ↔ key ∉ keys o.
Proof.
  unfold keys. induction o as [| [k a] o IH]; simpl.
  - split; [intros _; apply not_elem_of_nil | done].
  - case_bool_decide as Hk.
    + subst. split; [done |]. intros Hn. exfalso. apply Hn. left.
    + rewrite IH. rewrite not_elem_of_cons.
      split; [intros Hn; split; [by intros -> | done] | by intros [_ Hn]].
Qed.

Lemma assoc_set_eq {A} (key : string) (a : A) (o : list (string * A)) :
  assoc key (assoc_set key a o) = Some a.
Proof.
  induction o as [| [k b] o IH]; simpl.
  - by rewrite bool_decide_true.
  - case_bool_decide as Hk; simpl.
    + by rewrite bool_decide_true.
    + by rewrite bool_decide_false.
Qed.

Lemma assoc_set_ne {A} (key key' : string) (a : A) (o : list (string * A)) :
  key ≠ key' → assoc key' (assoc_set key a o) = assoc key' o.
Proof.
  intros Hne. induction o as [| [k b] o IH]; simpl.
  - by rewrite bool_decide_false.
  - case_bool_decide as Hk; simpl.
    + subst. by rewrite !bool_decide_false.
    + case_bool_decide; [done | exact IH].
Qed.

Lemma keys_assoc_set_in {A} (key : string) (a : A) (o : list (string * A)) :
  key ∈ keys o → keys (assoc_set key a o) = keys o.
Proof.
  unfold keys. induction o as [| [k b] o IH]; simpl.
  - intros H. by apply elem_of_nil in H.
  - intros H. case_bool_decide as Hk; simpl; [done |].
    f_equal. apply IH. apply elem_of_cons in H as [-> | H]; [done | exact H].
Qed.

Lemma assoc_set_new {A} (key : string) (a : A) (o : list (string * A)) :
  assoc key o = None → assoc_set key a o = o ++ [(key, a)].
Proof.
  induction o as [| [k b] o IH]; simpl; [done |].
  case_bool_decide; [done |]. intros Hnone. by rewrite IH.
Qed.

(** ** The allow-list of [find] *)

Lemma find_entry_absent env allowed b key v :
  key ∉ allowed → inherited key = false →
  find_entry env (Some allowed) b (key, v) = Throw (NotAllowed key).
Proof.
  intros Hnot Hinh. unfold find_entry.
  rewrite (bool_decide_false (key ∈ allowed)) by done.
  by rewrite Hinh.
Qed.

Lemma find_entry_listed env allowed b key v h :
  key ∈ allowed → js_lookup key (queryHandlers env) = Own h →
  find_entry env (Some allowed) b (key, v) = h b key v.
Proof.
  intros Hin Hh. unfold find_entry.
  rewrite (bool_decide_true (key ∈ allowed)) by done. simpl.
  by rewrite Hh.
Qed.

Lemma find_entry_no_list env b key v h :
  js_lookup key (queryHandlers env) = Own h →
  find_entry env None b (key, v) = h b key v.
Proof.
  intros Hh. unfold find_entry.
  simpl. by rewrite Hh.
Qed.

(** C3, as amended: with an allowed list, a top-level query key that is
    absent from the list makes [find] fail, whether or not a query handler is
    registered for it: the failure is the one of an earlier entry, or else
    "Query parameter 'key' is not allowed". A key with a registered handler
    is dispatched to the handler once it is listed, or when no list is
    given. (Keys named like a member of [Object.prototype] pass the lookup
    [allowedLookup[key]] and are left aside.) *)
Theorem find_allowed_list_gates_every_key env b allowed pre key v rest :
  key ∉ allowed → inherited key = false →
  find env b (pre ++ (key, v) :: rest) (Some allowed)
    = (find env b pre (Some allowed) ≫= λ _, Throw (NotAllowed key))
  ∧ (∀ h, js_lookup key (queryHandlers env) = Own h →
       find env b [(key, v)] (Some (allowed ++ [key]))
         = (h (set_relationsToJoin b []) key v ≫= λ b', Ok (joinRelations b'))
       ∧ find env b [(key, v)] None
         = (h (set_relationsToJoin b []) key v ≫= λ b', Ok (joinRelations b'))).
Proof.
  intros Hnot Hinh. split.
  - unfold find. rewrite forM_app.
    destruct (forM _ pre _) as [b1 | e]; [| done].
    change (Ok b1 ≫= ?f) with (f b1).
    by rewrite forM_cons, find_entry_absent.
  - intros h Hh. unfold find. rewrite !forM_cons. split.
    + rewrite (find_entry_listed _ _ _ _ _ h); [| set_solver | done].
      by destruct (h _ _ _).
    + rewrite (find_entry_no_list _ _ _ _ h) by done.
      by destruct (h _ _ _).
Qed.

Lemma find_allowed_list_gates_every_key_witness :
  find sample_env constructor [("limit", VNum 5)] (Some ["where"])
    = Throw (NotAllowed "limit")
  ∧ find sample_env constructor [("limit", VNum 5)] (Some ["where"; "limit"])
    = Ok (super constructor (Call "limit" [VNum 5])).
Proof.
  destruct (find_allowed_list_gates_every_key sample_env constructor ["where"] []
              "limit" (VNum 5) []) as [Hgate Hdispatch].
  - apply (bool_decide_unpack _). vm_compute. exact I.
  - reflexivity.
  - split.
    + exact Hgate.
    + destruct (Hdispatch (handle_limit) eq_refl) as [Hlisted _]. exact Hlisted.
Defined.

(** C3: the claim fails for [limit], a key with a registered handler, when
    the allowed list is [["where"]]. *)
Lemma find_rejects_unlisted_handler_key :
  (∃ h, js_lookup "limit" (queryHandlers sample_env) = Own h)
  ∧ find sample_env constructor [("limit", VNum 5)] (Some ["where"])
    = Throw (NotAllowed "limit").
Proof. split; [by eexists | reflexivity]. Qed.

(** ** The exceptions of the filters and handlers *)

Lemma throws_only_Ok {A} E (a : A) : throws_only E (Ok a).
Proof. intros e. discriminate. Qed.

Lemma throws_only_Throw {A} (E : error → Prop) e :
  E e → throws_only E (Throw e : result A).
Proof. by intros He e' [= <-]. Qed.

Lemma throws_only_bind {A B} E (m : result A) (f : A → result B) :
  throws_only E m → (∀ a, throws_only E (f a)) → throws_only E (m ≫= f).
Proof.
  intros Hm Hf e. destruct m as [a | e']; simpl.
  - apply Hf.
  - intros [= ->]. by apply Hm.
Qed.

Lemma throws_only_forM {A S} E (body : S → A → result S) (l : list A) (s : S) :
  (∀ s a, throws_only E (body s a)) → throws_only E (forM body l s).
Proof.
  intros Hbody. revert s. induction l as [| a l IH]; intros s.
  - apply throws_only_Ok.
  - rewrite forM_cons. apply throws_only_bind; [apply Hbody | exact IH].
Qed.

Lemma Forall_assoc_set {A} (Q : A → Prop) (key : string) (a : A)
    (o : list (string * A)) :
  Forall (λ kv, Q kv.2) o → Q a → Forall (λ kv, Q kv.2) (assoc_set key a o).
Proof.
  intros Ho Ha. induction Ho as [| [k b] o Hb Ho IH]; simpl.
  - by repeat constructor.
  - case_bool_decide; constructor; auto.
Qed.

Section Exceptions.

(** A class of exceptions that has those of the filters: a TypeError, the
    QueryError of the PropertyRef constructor and "Invalid filter". *)
Variable E : error → Prop.
Hypothesis E_TypeError : E TypeError.
Hypothesis E_PropertyRefError : ∀ message, E (PropertyRefError message).
Hypothesis E_InvalidFilter : ∀ key v, E (InvalidFilter key v).

Lemma getPropertyRefs_map_throws env b refs parseDir checkAllow :
  throws_only E (getPropertyRefs_map env b refs parseDir checkAllow).
Proof.
  revert b. induction refs as [| ref refs IH]; intros b; simpl.
  - apply throws_only_Ok.
  - apply throws_only_bind.
    + destruct (js_lookup ref _); try apply throws_only_Ok.
      destruct (newPropertyRef _ _ _ _); [apply throws_only_Ok |].
      by apply throws_only_Throw.
    + intros [b1 ptr]. apply throws_only_bind; [apply IH |].
      intros [b2 ptrs]. apply throws_only_Ok.
Qed.

Lemma deref_throws b ptr : throws_only E (deref b ptr).
Proof.
  destruct ptr as [id | name]; simpl; [| by apply throws_only_Throw].
  destruct (_ !! _); [apply throws_only_Ok | by apply throws_only_Throw].
Qed.

Lemma value_split_throws v sep : throws_only E (value_split v sep).
Proof.
  destruct v as [[] | |]; simpl;
    try (by apply throws_only_Throw); apply throws_only_Ok.
Qed.

Lemma queryFilters_all_throw :
  Forall (λ kv : string * queryFilter, ∀ column v, throws_only E (kv.2 column v))
         queryFilters.
Proof.
  unfold queryFilters.
  assert (Forall (λ kv : string * queryFilter,
                    ∀ column v, throws_only E (kv.2 column v))
                 queryFilters_literal) as Hliteral.
  { unfold queryFilters_literal.
    repeat constructor; simpl; intros column v;
      try apply throws_only_Ok;
      (apply throws_only_bind;
       [apply value_split_throws | intros l; apply throws_only_Ok]). }
  revert Hliteral. generalize queryFilters_literal. generalize operators.
  induction l as [| [key operator] l IH]; intros registry Hregistry; simpl; [done |].
  apply IH.
  apply (Forall_assoc_set (λ f : queryFilter, ∀ column v, throws_only E (f column v)));
    [done |].
  intros column v. apply throws_only_Ok.
Qed.

Lemma queryFilters_throw name f column v :
  assoc name queryFilters = Some f → throws_only E (f column v).
Proof.
  intros Hf. apply assoc_Some_elem in Hf.
  pose proof queryFilters_all_throw as Hall.
  rewrite Forall_forall in Hall. apply (Hall _ Hf).
Qed.

Lemma applyQueryFilter_throws env ref name v boolOp :
  throws_only E (applyQueryFilter env ref (js_lookup name queryFilters) v boolOp).
Proof.
  unfold applyQueryFilter, js_lookup.
  destruct (assoc name queryFilters) as [f |] eqn:Hf.
  - apply throws_only_bind.
    + by apply (queryFilters_throw name).
    + intros i. apply throws_only_Ok.
  - destruct (inherited name); by apply throws_only_Throw.
Qed.

Lemma selectQueryFilter_lookup parts v :
  selectQueryFilter parts v = Absent
  ∨ ∃ name, selectQueryFilter parts v = js_lookup name queryFilters.
Proof.
  unfold selectQueryFilter.
  destruct parts as [| x [| y [| z parts]]]; eauto.
  destruct (is_null v); eauto.
Qed.

(** [parseQueryFilter] raises "Invalid filter", the QueryError of the
    PropertyRef constructor or a TypeError, and nothing else. *)
Lemma parseQueryFilter_throws env b key v :
  throws_only E (parseQueryFilter env b key v).
Proof.
  unfold parseQueryFilter.
  destruct (selectQueryFilter_lookup (split_regex ":" is_ws key) v) as [-> | [name ->]];
    [by apply throws_only_Throw |].
  assert (throws_only E
    ('(b0, propertyRefs) ← getPropertyRefs env b
        (inl (hd "" (split_regex ":" is_ws key))) false true;
     let b1 := fold_left
          (λ b ptr,
             match deref b ptr with
             | Ok ref =>
                 match ref_relation ref with
                 | Some relation =>
                     if rel_isOneToOne relation
                     then set_relationsToJoin b
                            (assoc_set (rel_name relation) relation (_relationsToJoin b))
                     else b
                 | None => b
                 end
             | Throw _ => b
             end)
          propertyRefs b0 in
     match propertyRefs with
     | [ptr] =>
         ref ← deref b1 ptr;
         '(m, a) ← applyQueryFilter env ref (js_lookup name queryFilters) v None;
         Ok (invoke env b1 m a)
     | _ =>
         group ← forM (λ group ptr,
                         ref ← deref b1 ptr;
                         '(m, a) ← applyQueryFilter env ref (js_lookup name queryFilters) v
                                     (Some "or");
                         Ok (group ++ [Call m a]))
                      propertyRefs [];
         Ok (super b1 (WhereGroup group))
     end)) as Hmain.
  { apply throws_only_bind; [apply getPropertyRefs_map_throws |].
    intros [b0 ptrs]. cbv zeta.
    assert (∀ b1, throws_only E
      (group ← forM (λ group ptr,
                         ref ← deref b1 ptr;
                         '(m, a) ← applyQueryFilter env ref (js_lookup name queryFilters) v
                                     (Some "or");
                         Ok (group ++ [Call m a]))
                      ptrs [];
       Ok (super b1 (WhereGroup group)))) as Hgroup.
    { intros b1. apply throws_only_bind.
      - apply throws_only_forM. intros group ptr.
        apply throws_only_bind; [apply deref_throws |].
        intros ref. apply throws_only_bind; [apply applyQueryFilter_throws |].
        intros [m a]. apply throws_only_Ok.
      - intros group. apply throws_only_Ok. }
    destruct ptrs as [| ptr [| ptr' ptrs]]; try apply Hgroup.
    apply throws_only_bind; [apply deref_throws |].
    intros ref. apply throws_only_bind; [apply applyQueryFilter_throws |].
    intros [m a]. apply throws_only_Ok. }
  destruct (js_lookup name queryFilters);
    [exact Hmain | exact Hmain | by apply throws_only_Throw].
Qed.

Lemma processPropertyRefs_throws parse ctx v b :
  (∀ v, E (UnsupportedQuery v)) →
  (∀ b key v, throws_only E (parse b key v)) →
  throws_only E (processPropertyRefs parse ctx v b).
Proof.
  intros HE Hparse. revert ctx b.
  induction v as [p | items IH | cls fields IH] using value_ind'; intros ctx b.
  - simpl. destruct ctx as [[key parts] |]; [apply Hparse |].
    destruct p; try (by apply throws_only_Throw); apply Hparse.
  - simpl. destruct ctx as [[key parts] |]; [apply Hparse |].
    revert b. induction IH as [| entry items Hentry _ IHitems]; intros b.
    + apply throws_only_Ok.
    + apply throws_only_bind; [apply Hentry | exact IHitems].
  - simpl. generalize (match ctx with
                       | Some (key, parts) => parts ++ [key]
                       | None => []
                       end) as parts.
    intros parts. revert b.
    induction IH as [| [subKey subValue] fields Hentry _ IHfields]; intros b.
    + apply throws_only_Ok.
    + apply throws_only_bind; [apply Hentry | exact IHfields].
Qed.

Lemma order_refs_throws v : throws_only E (order_refs v).
Proof.
  destruct v as [[] | items |]; simpl;
    try (by apply throws_only_Throw); try apply throws_only_Ok.
  apply throws_only_bind; [| intros l; apply throws_only_Ok].
  apply throws_only_forM. intros l [[] | |];
    try (by apply throws_only_Throw); apply throws_only_Ok.
Qed.

(** The registered handlers add "Unsupported 'where' query", "Invalid
    range", the order error and the exception of JSON.parse. *)
Lemma queryHandlers_throw env key h b key' v :
  (∀ v, E (UnsupportedQuery v)) → (∀ s e, E (InvalidRange s e)) →
  E InvalidOrder → E SyntaxError →
  js_lookup key (queryHandlers env) = Own h → throws_only E (h b key' v).
Proof.
  intros HEwhere HErange HEorder HEsyntax.
  unfold js_lookup. destruct (assoc key (queryHandlers env)) as [h' |] eqn:Hh;
    [| by destruct (inherited key)].
  intros [= ->]. apply assoc_Some_elem in Hh. unfold queryHandlers in Hh.
  apply elem_of_app in Hh as [Hh | Hh].
  - repeat (apply elem_of_cons in Hh as [[= -> ->] | Hh]);
      [ .. | by apply elem_of_nil in Hh ].
    + apply processPropertyRefs_throws; [done |].
      intros. apply parseQueryFilter_throws.
    + unfold handle_eager. destruct (truthy v); apply throws_only_Ok.
    + unfold applyPropertiesExpression.
      destruct (parsePropertiesExpression env v);
        [apply throws_only_Ok | by apply throws_only_Throw].
    + unfold applyPropertiesExpression.
      destruct (parsePropertiesExpression env v);
        [apply throws_only_Ok | by apply throws_only_Throw].
    + apply throws_only_Ok.
    + unfold handle_range. destruct (truthy v); [| apply throws_only_Ok].
      apply throws_only_bind.
      * unfold range_bounds.
        destruct v as [[] | |]; try (by apply throws_only_Throw); apply throws_only_Ok.
      * intros [start stop].
        destruct (isNaN start || isNaN stop || js_lt stop start);
          [by apply throws_only_Throw | apply throws_only_Ok].
    + apply throws_only_Ok.
    + apply throws_only_Ok.
    + unfold handle_order. destruct (truthy v); [| apply throws_only_Ok].
      apply throws_only_bind; [apply order_refs_throws |].
      intros refs. apply throws_only_bind; [apply getPropertyRefs_map_throws |].
      intros [b1 ptrs]. apply throws_only_forM. intros b2 ptr.
      apply throws_only_bind; [apply deref_throws |].
      intros ref. destruct (ref_relation ref) as [relation |];
        [| apply throws_only_Ok].
      destruct (negb (rel_isOneToOne relation));
        [by apply throws_only_Throw | apply throws_only_Ok].
  - apply list_elem_of_fmap in Hh as [join [[= -> ->] _]]. apply throws_only_Ok.
Qed.

End Exceptions.

Lemma handler_not_NotAllowed env key h b key' v k :
  js_lookup key (queryHandlers env) = Own h → h b key' v ≠ Throw (NotAllowed k).
Proof.
  intros Hh Hthrow.
  apply (queryHandlers_throw (λ e, ¬ is_NotAllowed e)) with (b := b) (key' := key') (v := v)
    in Hh; try (by intros; intros [? [=]]); try (by intros [? [=]]).
  apply (Hh _ Hthrow). by eexists.
Qed.

(** When [find] fails with "Query parameter 'k' is not allowed", [k] is a
    key of the query that is not in the allowed list. *)
Lemma find_NotAllowed env b query allowed k :
  find env b query allowed = Throw (NotAllowed k) →
  ∃ names, allowed = Some names ∧ (k ∉ names) ∧ (k ∈ keys query).
Proof.
  unfold find. generalize (set_relationsToJoin b []) as b0.
  induction query as [| [key v] query IH]; intros b0; [done |].
  rewrite forM_cons.
  destruct (find_entry env allowed b0 (key, v)) as [b1 | e] eqn:Hentry.
  - intros Hfind. destruct (IH b1 Hfind) as (names & -> & Hk & Hin).
    exists names. repeat split; [done |]. unfold keys. simpl. by right.
  - simpl. intros [= ->]. unfold find_entry in Hentry.
    destruct allowed as [names |]; simpl in Hentry.
    + destruct (bool_decide (key ∈ names)) eqn:Hnames; simpl in Hentry.
      * exfalso. destruct (js_lookup key (queryHandlers env)) as [h | |] eqn:Hh.
        -- by apply (handler_not_NotAllowed env key h b0 key v k Hh).
        -- unfold inheritedHandler in Hentry. by case_bool_decide.
        -- discriminate.
      * destruct (inherited key); simpl in Hentry.
        -- exfalso. destruct (js_lookup key (queryHandlers env)) as [h | |] eqn:Hh.
           ++ by apply (handler_not_NotAllowed env key h b0 key v k Hh).
           ++ unfold inheritedHandler in Hentry. by case_bool_decide.
           ++ discriminate.
        -- injection Hentry as <-. exists names. repeat split.
           ++ by apply bool_decide_eq_false in Hnames.
           ++ unfold keys. simpl. left.
    + exfalso. destruct (js_lookup key (queryHandlers env)) as [h | |] eqn:Hh.
      * by apply (handler_not_NotAllowed env key h b0 key v k Hh).
      * unfold inheritedHandler in Hentry. by case_bool_decide.
      * discriminate.
Qed.

(** ** C10 *)

(** C10: [findOne] passes to [find] the list that starts with [where],
    [eager], [scope], [pick] and [omit] and goes on with the caller's list:
    a key is in it exactly when it is one of the five or in the caller's
    list. The allow-list gate of [find] therefore lets these five keys
    through to their handlers whatever the caller passes, and [findOne]
    never fails with "not allowed" for one of them. *)
Theorem findOne_always_accepts_its_five_keys env b query allowed :
  findOne env b query allowed
    = (find env b query
         (Some (["where"; "eager"; "scope"; "pick"; "omit"] ++ default [] allowed))
       ≫= λ b', Ok (super b' (Call "first" [])))
  ∧ (∀ k, k ∈ findOne_allowed allowed
          ↔ k ∈ ["where"; "eager"; "scope"; "pick"; "omit"] ∨ k ∈ default [] allowed)
  ∧ (∀ key, key ∈ ["where"; "eager"; "scope"; "pick"; "omit"] →
       ∃ h, js_lookup key (queryHandlers env) = Own h
            ∧ ∀ b' v, find_entry env (Some (findOne_allowed allowed)) b' (key, v)
                      = h b' key v)
  ∧ (∀ k, findOne env b query allowed = Throw (NotAllowed k) →
          (k ∉ ["where"; "eager"; "scope"; "pick"; "omit"])
          ∧ (k ∉ default [] allowed) ∧ (k ∈ keys query)).
Proof.
  split; [done |]. split; [| split].
  - intros k. unfold findOne_allowed. apply elem_of_app.
  - intros key Hkey.
    assert (∃ h, js_lookup key (queryHandlers env) = Own h) as [h Hh].
    { repeat (apply elem_of_cons in Hkey as [-> | Hkey]); [by eexists .. |].
      by apply elem_of_nil in Hkey. }
    exists h. split; [done |]. intros b' v.
    apply find_entry_listed; [| done].
    unfold findOne_allowed. apply elem_of_app. by left.
  - intros k Hfail. unfold findOne in Hfail.
    destruct (find env b query (Some (findOne_allowed allowed))) as [b' | e] eqn:Hfind;
      [discriminate |].
    simpl in Hfail. injection Hfail as ->.
    apply find_NotAllowed in Hfind as (names & [= <-] & Hk & Hin).
    unfold findOne_allowed in Hk. rewrite not_elem_of_app in Hk. tauto.
Qed.

(** ** Splitting strings *)

Lemma split_char_nonempty sep s : split_char sep s ≠ [].
Proof.
  destruct s as [| c s]; simpl; [done |].
  destruct (Ascii.eqb c sep); [done |]. by destruct (split_char sep s).
Qed.

Lemma split_char_absent sep s :
  string_has sep s = false → split_char sep s = [s].
Proof.
  induction s as [| c s IH]; simpl; [done |].
  destruct (Ascii.eqb c sep); simpl; [done |].
  intros Hs. by rewrite IH.
Qed.

Lemma string_app_cons c (s t : string) : String c s +:+ t = String c (s +:+ t).
Proof. reflexivity. Qed.

Lemma string_app_nil_r (s : string) : s +:+ "" = s.
Proof. induction s as [| c s IH]; [done | by rewrite string_app_cons, IH]. Qed.

Lemma split_char_app sep a b :
  split_char sep (a +:+ String sep b) = split_char sep a ++ split_char sep b.
Proof.
  induction a as [| x a IH].
  - change ("" +:+ String sep b) with (String sep b). simpl.
    by rewrite Ascii.eqb_refl.
  - rewrite string_app_cons. simpl. destruct (Ascii.eqb x sep).
    + by rewrite IH.
    + rewrite IH. pose proof (split_char_nonempty sep a) as Hne.
      by destruct (split_char sep a).
Qed.

Lemma split_regex_absent sep trail s :
  string_has sep s = false → split_regex sep trail s = [s].
Proof. intros Hs. unfold split_regex. by rewrite split_char_absent. Qed.

(** ** C6 *)

(** C6: for every column, the [empty] filter gives the instruction
    [where(column, '=', '')] and the [notEmpty] filter
    [where(column, '>', '')]; and for a filter key without operator suffix
    (no colon) and the value [null], [parseQueryFilter] picks the [null]
    filter, whose instruction is [whereNull(column)] whatever the value:
    when the key resolves to one property reference, the call made on the
    builder is [whereNull] with the column alone. *)
Theorem empty_notEmpty_null_filters env b key column v :
  string_has ":" key = false →
  (∃ f, js_lookup "empty" queryFilters = Own f
        ∧ f column v
          = Ok {| method := "where"; args := [VStr column; VStr "="; VStr ""] |})
  ∧ (∃ f, js_lookup "notEmpty" queryFilters = Own f
          ∧ f column v
            = Ok {| method := "where"; args := [VStr column; VStr ">"; VStr ""] |})
  ∧ (∃ f, selectQueryFilter (split_regex ":" is_ws key) VNull = Own f
          ∧ js_lookup "null" queryFilters = Own f
          ∧ ∀ column' v',
              f column' v' = Ok {| method := "whereNull"; args := [VStr column'] |})
  ∧ (∀ b1 id ref,
       getPropertyRefs env b (inl key) false true = Ok (b1, [RefObject id]) →
       propertyRefObjects b1 !! id = Some ref →
       ∃ b2, parseQueryFilter env b key VNull = Ok b2
             ∧ calls b2
               = calls b1
                 ++ [Call "whereNull" [VStr (convertIdentifier env (ref_fullColumnName ref))]]).
Proof.
  intros Hkey. split; [| split; [| split]].
  - by eexists.
  - by eexists.
  - rewrite split_regex_absent by done. by eexists.
  - intros b1 id ref Hrefs Hid. unfold parseQueryFilter.
    rewrite split_regex_absent by done. simpl hd.
    rewrite Hrefs.
    change (selectQueryFilter [key] VNull) with (js_lookup "null" queryFilters).
    assert (js_lookup "null" queryFilters
            = Own (λ ref _, Ok (where_ ref VNull VUndefined "whereNull"))) as -> by done.
    cbn [mbind result_bind fold_left].
    assert (deref b1 (RefObject id) = Ok ref) as Hderef by (by simpl; rewrite Hid).
    rewrite Hderef.
    set (b1' := match ref_relation ref with
                | Some relation =>
                    if rel_isOneToOne relation
                    then set_relationsToJoin b1
                           (assoc_set (rel_name relation) relation (_relationsToJoin b1))
                    else b1
                | None => b1
                end).
    assert (propertyRefObjects b1' = propertyRefObjects b1 ∧ calls b1' = calls b1)
      as [Hobjects Hcalls].
    { unfold b1'. destruct (ref_relation ref) as [relation |]; [| done].
      by destruct (rel_isOneToOne relation). }
    assert (deref b1' (RefObject id) = Ok ref) as -> by (by simpl; rewrite Hobjects, Hid).
    eexists. split; [reflexivity |].
    unfold invoke. simpl. by rewrite Hcalls.
Qed.

Lemma empty_notEmpty_null_filters_witness :
  ∃ b2, parseQueryFilter sample_env constructor "lastName" VNull = Ok b2
        ∧ calls b2 = [Call "whereNull" [VStr "Dummy.lastName"]].
Proof.
  destruct (empty_notEmpty_null_filters sample_env constructor "lastName" "c" VNull)
    as (_ & _ & _ & Hnull).
  - reflexivity.
  - destruct (Hnull (fst (cache_new constructor "lastName"
                            {| ref_key := "lastName"; ref_relation := None;
                               ref_dir := None; ref_propertyName := "lastName";
                               ref_fullColumnName := "Dummy.lastName" |}))
                    0%nat
                    {| ref_key := "lastName"; ref_relation := None;
                       ref_dir := None; ref_propertyName := "lastName";
                       ref_fullColumnName := "Dummy.lastName" |}
                    eq_refl eq_refl) as (b2 & Hb2 & Hcalls).
    exists b2. split; [exact Hb2 | exact Hcalls].
Defined.

(** ** C4 *)


























(** The bounds of a [range] string are compared as text: ["10,9"] passes and
    ["2,10"] is refused. *)
Lemma range_string_bounds_compared_as_text :
  handle_range constructor "range" (VStr "10,9")
    = Ok (super constructor (Call "range" [VStr "10"; VStr "9"]))
  ∧ handle_range constructor "range" (VStr "2,10")
    = Throw (InvalidRange (VStr "2") (VStr "10")).
Proof. split; reflexivity. Qed.

(** Bounds need not be numerals: a decimal fraction, an exponent, a
    hexadecimal literal and an array of one number are numbers for [isNaN],
    as white space alone is; two arrays are compared by their strings. *)
Lemma range_bounds_of_other_forms :
  handle_range constructor "range" (VStr "1.5,2.5")
    = Ok (super constructor (Call "range" [VStr "1.5"; VStr "2.5"]))
  ∧ handle_range constructor "range" (VStr "1e3,2e3")
    = Ok (super constructor (Call "range" [VStr "1e3"; VStr "2e3"]))
  ∧ handle_range constructor "range" (VStr "0x10,0x20")
    = Ok (super constructor (Call "range" [VStr "0x10"; VStr "0x20"]))
  ∧ handle_range constructor "range" (VArr [VArr [VNum 5]; VArr [VNum 7]])
    = Ok (super constructor (Call "range" [VArr [VNum 5]; VArr [VNum 7]]))
  ∧ handle_range constructor "range" (VArr [VArr [VNum 7]; VArr [VNum 5]])
    = Throw (InvalidRange (VArr [VNum 7]) (VArr [VNum 5]))
  ∧ handle_range constructor "range" (VArr [VStr "2"; VNum 10])
    = Ok (super constructor (Call "range" [VStr "2"; VNum 10]))
  ∧ handle_range constructor "range" (VStr "1,x")
    = Throw (InvalidRange (VStr "1") (VStr "x"))
  ∧ toNumber (VStr "1.5") = Finite (3 * 2 ^ 1073)
  ∧ toNumber (VStr " 0x10 ") = Finite (16 * 2 ^ 1074)
  ∧ toNumber (VStr "1e3") = toNumber (VNum 1000)
  ∧ toNumber (VStr "") = Finite 0
  ∧ toNumber (VStr "1e400") = Infinite false
  ∧ toNumber (VStr "12px") = NaN
  ∧ toString (VArr [VNum 1; VNull; VArr [VNum 2; VNum 3]]) = "1,,2,3".
Proof. repeat split; vm_compute; reflexivity. Qed.

(** ** The calls of [execute] *)

Lemma calls_applyFilters scopes b :
  calls (fold_left (λ b scope, super b (Call "applyFilter" [scope])) scopes b)
  = calls b ++ map (λ scope, Call "applyFilter" [scope]) scopes.
Proof.
  revert b. induction scopes as [| scope scopes IH]; intros b; simpl.
  - by rewrite app_nil_r.
  - rewrite IH. simpl. by rewrite <- app_assoc.
Qed.

(** ** C7 *)

Lemma processPropertyRefs_flatten
    (parse : QueryBuilder → string → value → result QueryBuilder) v :
  ∀ key parts b,
    processPropertyRefs parse (Some (key, parts)) v b
    = forM (λ b '(ref, val), parse b ref val)
           (where_flatten_entry (λ k, js_in k queryFilters) parts key v) b.
Proof.
  assert (∀ key parts b w, ¬ isObject w →
            processPropertyRefs parse (Some (key, parts)) w b
            = forM (λ b '(ref, val), parse b ref val)
                (if js_in key queryFilters
                 then [(join "." parts +:+ ":" +:+ key, w)]
                 else [(join "." (parts ++ [key]), w)]) b) as Hleaf.
  { intros key parts b w Hw.
    assert (processPropertyRefs parse (Some (key, parts)) w b
            = parse b (join "." (if js_in key queryFilters then parts else parts ++ [key])
                       +:+ (if js_in key queryFilters then ":" +:+ key else "")) w)
      as ->.
    { destruct w as [p | items | cls fields]; [done | done |]. by destruct Hw. }
    destruct (js_in key queryFilters); rewrite forM_cons.
    - by destruct (parse _ _ _).
    - rewrite string_app_nil_r. by destruct (parse _ _ _). }
  induction v as [p | items IH | cls fields IH] using value_ind'; intros key parts b.
  - by rewrite Hleaf by (simpl; tauto).
  - by rewrite Hleaf by (simpl; tauto).
  - simpl. revert b.
    induction IH as [| [subKey subValue] fields Hentry _ IHfields]; intros b; [done |].
    rewrite forM_app. simpl in Hentry. rewrite <- Hentry.
    destruct (processPropertyRefs parse _ subValue b) as [b1 | e]; [| done].
    apply IHfields.
Qed.

(** C7: on an object, the [where] handler calls [parseQueryFilter] on the
    instructions the object notation flattens to, one after the other on the
    same builder, so that the filters add up: nested keys are joined with
    dots into the reference, and a leaf key that names a filter operator
    ([key in queryFilters], which holds for every registered operator)
    becomes the [:operator] suffix instead of a segment. The object
    [{ firstName: { like: 'Jo%' }, lastName: '%oe' }] gives exactly
    [firstName:like = 'Jo%'] and [lastName = '%oe']. *)
Theorem where_handler_flattens_object_notation env b key cls fields :
  handle_where env b key (VObj cls fields)
    = forM (λ b '(ref, val), parseQueryFilter env b ref val)
           (where_flatten (λ k, js_in k queryFilters) fields) b
  ∧ (∀ operator, operator ∈ keys queryFilters → js_in operator queryFilters = true)
  ∧ where_flatten (λ k, js_in k queryFilters)
      [("firstName", VObj None [("like", VStr "Jo%")]); ("lastName", VStr "%oe")]
    = [("firstName:like", VStr "Jo%"); ("lastName", VStr "%oe")].
Proof.
  split; [| split].
  - unfold handle_where, where_flatten. simpl. revert b.
    induction fields as [| [subKey subValue] fields IH]; intros b; [done |].
    simpl. rewrite forM_app, <- processPropertyRefs_flatten.
    destruct (processPropertyRefs _ _ subValue b) as [b1 | e]; [| done].
    apply IH.
  - intros operator Hin. unfold js_in, js_lookup.
    destruct (assoc operator queryFilters) eqn:Hassoc; [done |].
    by apply assoc_None_keys in Hassoc.
  - reflexivity.
Qed.

(** ** C8 *)

Lemma cache_extends_refl cache : cache_extends cache cache.
Proof. by intros ref. Qed.

Lemma cache_extends_trans c1 c2 c3 :
  cache_extends c1 c2 → cache_extends c2 c3 → cache_extends c1 c3.
Proof.
  intros H12 H23 ref Href. rewrite H23; [by apply H12 |].
  rewrite H12; done.
Qed.

Lemma cache_extends_new cache ref id :
  js_lookup ref cache = Absent → cache_extends cache (assoc_set ref id cache).
Proof.
  intros Habsent ref' Href'. unfold js_lookup.
  rewrite assoc_set_ne; [done |]. intros ->. by apply Href'.
Qed.

Lemma js_lookup_assoc_set {A} ref (a : A) cache :
  js_lookup ref (assoc_set ref a cache) = Own a.
Proof. unfold js_lookup. by rewrite assoc_set_eq. Qed.

Lemma getPropertyRefs_map_cached env refs :
  ∀ b parseDir checkAllow b1 ptrs,
    getPropertyRefs_map env b refs parseDir checkAllow = Ok (b1, ptrs) →
    cache_extends (_propertyRefsCache b) (_propertyRefsCache b1)
    ∧ ∀ b2 parseDir' checkAllow',
        cache_extends (_propertyRefsCache b1) (_propertyRefsCache b2) →
        getPropertyRefs_map env b2 refs parseDir' checkAllow' = Ok (b2, ptrs).
Proof.
  induction refs as [| ref refs IH]; intros b parseDir checkAllow b1 ptrs; simpl.
  - intros [= <- <-]. split; [apply cache_extends_refl | done].
  - destruct (js_lookup ref (_propertyRefsCache b)) as [id | |] eqn:Hlookup; simpl.
    + destruct (getPropertyRefs_map env b refs parseDir checkAllow)
        as [[b1' ptrs'] | e] eqn:Hrest; simpl; [| done].
      intros [= <- <-]. destruct (IH _ _ _ _ _ Hrest) as [Hext Hagain].
      split; [done |]. intros b2 parseDir' checkAllow' Hext2.
      assert (js_lookup ref (_propertyRefsCache b1') = js_lookup ref (_propertyRefsCache b))
        as H1 by (apply Hext; by rewrite Hlookup).
      assert (js_lookup ref (_propertyRefsCache b2) = js_lookup ref (_propertyRefsCache b1'))
        as H2 by (apply Hext2; by rewrite H1, Hlookup).
      rewrite H2, H1, Hlookup. simpl.
      by rewrite Hagain.
    + destruct (getPropertyRefs_map env b refs parseDir checkAllow)
        as [[b1' ptrs'] | e] eqn:Hrest; simpl; [| done].
      intros [= <- <-]. destruct (IH _ _ _ _ _ Hrest) as [Hext Hagain].
      split; [done |]. intros b2 parseDir' checkAllow' Hext2.
      assert (js_lookup ref (_propertyRefsCache b1') = js_lookup ref (_propertyRefsCache b))
        as H1 by (apply Hext; by rewrite Hlookup).
      assert (js_lookup ref (_propertyRefsCache b2) = js_lookup ref (_propertyRefsCache b1'))
        as H2 by (apply Hext2; by rewrite H1, Hlookup).
      rewrite H2, H1, Hlookup. simpl.
      by rewrite Hagain.
    + destruct (newPropertyRef env ref parseDir _) as [r | message]; simpl; [| done].
      destruct (getPropertyRefs_map env _ refs parseDir checkAllow)
        as [[b1' ptrs'] | e] eqn:Hrest; simpl; [| done].
      intros [= <- <-]. destruct (IH _ _ _ _ _ Hrest) as [Hext Hagain].
      simpl in Hext.
      assert (js_lookup ref (_propertyRefsCache b1')
              = Own (length (propertyRefObjects b))) as Hnew.
      { rewrite Hext; rewrite js_lookup_assoc_set; done. }
      split.
      * eapply cache_extends_trans; [by apply cache_extends_new | exact Hext].
      * intros b2 parseDir' checkAllow' Hext2.
        assert (js_lookup ref (_propertyRefsCache b2)
                = js_lookup ref (_propertyRefsCache b1'))
          as H2 by (apply Hext2; by rewrite Hnew).
        rewrite H2, Hnew. simpl.
        by rewrite Hagain.
Qed.

(** C8: when [getPropertyRefs] has returned for a reference string (or an
    array of them), a second call on the builder with the same references,
    whatever its options, returns the same PropertyRef objects (the same
    positions among the objects constructed) and leaves the builder as it
    is: the cache answers, and no PropertyRef is constructed. The same holds
    later on, for every state of the builder whose cache still has the
    references. *)
Theorem getPropertyRefs_returns_cached_objects env b refs parseDir checkAllow
    parseDir' checkAllow' b1 ptrs :
  getPropertyRefs env b refs parseDir checkAllow = Ok (b1, ptrs) →
  getPropertyRefs env b1 refs parseDir' checkAllow' = Ok (b1, ptrs)
  ∧ ∀ b2, cache_extends (_propertyRefsCache b1) (_propertyRefsCache b2) →
          getPropertyRefs env b2 refs parseDir' checkAllow' = Ok (b2, ptrs).
Proof.
  unfold getPropertyRefs. intros Hfirst.
  destruct (getPropertyRefs_map_cached _ _ _ _ _ _ _ Hfirst) as [_ Hagain].
  split.
  - apply Hagain, cache_extends_refl.
  - intros b2 Hext. by apply Hagain.
Qed.

Lemma getPropertyRefs_returns_cached_objects_witness :
  ∃ b1,
    getPropertyRefs sample_env constructor (inl "firstName | lastName") false true
      = Ok (b1, [RefObject 0; RefObject 1])
    ∧ getPropertyRefs sample_env b1 (inl "firstName | lastName") true false
      = Ok (b1, [RefObject 0; RefObject 1]).
Proof.
  eexists. split; [reflexivity |].
  refine (proj1 (getPropertyRefs_returns_cached_objects sample_env constructor
                   (inl "firstName | lastName") false true true false _ _ _)).
  reflexivity.
Defined.

(** ** The graph processor: what [processRelates] computes *)

Lemma on_field_assoc {R} (f : value → R) (d : R) name fields :
  on_field f d name fields
  = match assoc name fields with Some x => f x | None => d end.
Proof.
  induction fields as [| [k x] fields IH]; simpl; [done |].
  case_bool_decide; [done | exact IH].
Qed.

Lemma record_all_app log1 log2 m :
  record_all (log1 ++ log2) m = record_all log2 (record_all log1 m).
Proof. unfold record_all. apply fold_left_app. Qed.

Lemma fmap_record_all_app log1 log2 (r : option removedMap) :
  record_all (log1 ++ log2) <$> r = record_all log2 <$> (record_all log1 <$> r).
Proof. destruct r as [m |]; simpl; [by rewrite record_all_app | done]. Qed.

(** ** Data paths and their tokens *)

Lemma to_uint_nonnil n : Nat.to_uint n ≠ Decimal.Nil.
Proof.
  rewrite <- (Unsigned.of_to n) at 1. rewrite Unsigned.to_of. apply DecimalFacts.unorm_nonnil.
Qed.

Lemma string_of_uint_no_slash d :
  string_has "/" (NilEmpty.string_of_uint d) = false.
Proof. induction d; simpl; auto. Qed.

Lemma string_of_nat_no_slash n : string_has "/" (string_of_nat n) = false.
Proof.
  unfold string_of_nat, NilZero.string_of_uint.
  destruct (Nat.to_uint n) eqn:Hn; [done | ..];
    rewrite <- Hn; apply string_of_uint_no_slash.
Qed.

Lemma string_of_nat_nonempty n : string_of_nat n ≠ "".
Proof.
  unfold string_of_nat, NilZero.string_of_uint.
  pose proof (to_uint_nonnil n). by destruct (Nat.to_uint n).
Qed.

Lemma uint_of_string_of_nat n :
  NilZero.uint_of_string (string_of_nat n) = Some (Nat.to_uint n).
Proof. apply NilZero.usu, to_uint_nonnil. Qed.

Lemma array_get_string_of_nat items i :
  array_get items (string_of_nat i) = items !! i.
Proof.
  unfold array_get. rewrite uint_of_string_of_nat, Unsigned.of_to.
  by rewrite bool_decide_true.
Qed.

Lemma array_get_Some items token x :
  array_get items token = Some x →
  ∃ i, token = string_of_nat i ∧ items !! i = Some x.
Proof.
  unfold array_get. destruct (NilZero.uint_of_string token) as [d |]; [| done].
  case_bool_decide as Htoken; [| done]. intros Hx. by exists (Nat.of_uint d).
Qed.

Lemma appendPath_nonempty path separator token :
  token ≠ "" → appendPath path separator token ≠ "".
Proof.
  intros Htoken. unfold appendPath. case_bool_decide as Hpath; [done |].
  by destruct path.
Qed.

Lemma appendPath_nonempty_l path token :
  path ≠ "" → appendPath path "/" token ≠ "".
Proof.
  intros Hpath. unfold appendPath. rewrite bool_decide_false by done.
  by destruct path.
Qed.

Lemma split_appendPath path token :
  path ≠ "" → string_has "/" token = false →
  split_char "/" (appendPath path "/" token) = split_char "/" path ++ [token].
Proof.
  intros Hpath Htoken. unfold appendPath. rewrite bool_decide_false by done.
  change ("/" +:+ token) with (String "/" token).
  by rewrite split_char_app, (split_char_absent _ token).
Qed.

Lemma split_extendPath tokens :
  ∀ path, path ≠ "" → Forall (λ t, string_has "/" t = false) tokens →
          split_char "/" (extendPath path tokens) = split_char "/" path ++ tokens.
Proof.
  induction tokens as [| token tokens IH]; intros path Hpath Htokens; simpl.
  - by rewrite app_nil_r.
  - inversion Htokens as [| ? ? Htoken Htokens']; subst.
    unfold extendPath in *. simpl. rewrite IH; [| by apply appendPath_nonempty_l | done].
    rewrite split_appendPath by done. by rewrite <- app_assoc.
Qed.

Lemma split_extendPath_root token tokens :
  token ≠ "" → Forall (λ t, string_has "/" t = false) (token :: tokens) →
  split_char "/" (extendPath "" (token :: tokens)) = token :: tokens.
Proof.
  intros Htoken Htokens. inversion Htokens as [| ? ? Hslash Htokens']; subst.
  unfold extendPath. simpl. change (appendPath "" "/" token) with token.
  pose proof (split_extendPath tokens token Htoken Htokens') as Hsplit.
  unfold extendPath in Hsplit. rewrite Hsplit.
  by rewrite (split_char_absent _ token).
Qed.

Section GraphProperties.

Variable classes : list (string * list RelationDef).
Variable p : GraphProcessor.

(** [processRelates] returns the data [relatesData] describes and records the
    entries of [relatesLog], in their order. *)
Lemma processRelates_spec v :
  ∀ relationPath dataPath removed,
    processRelates classes p v relationPath dataPath removed
    = (relatesData classes p v relationPath,
       record_all (relatesLog classes p v relationPath dataPath) <$> removed).
Proof.
  induction v as [pr | items IH | cls fields IH] using value_ind';
    intros relationPath dataPath removed.
  - simpl. by destruct removed.
  - simpl.
    enough (Heach : ∀ index removed,
      (fix each (items : list value) (index : nat) (removed : option removedMap) :=
         match items with
         | [] => ([], removed)
         | entry :: items' =>
             let '(entry, removed) :=
               processRelates classes p entry relationPath
                 (appendPath dataPath "/" (string_of_nat index)) removed in
             let '(items', removed) := each items' (S index) removed in
             (entry :: items', removed)
         end) items index removed
      = (map (λ x, relatesData classes p x relationPath) items,
         record_all
           ((fix each (items : list value) (index : nat) : removedMap :=
               match items with
               | [] => []
               | x :: items' =>
                   relatesLog classes p x relationPath
                     (appendPath dataPath "/" (string_of_nat index))
                   ++ each items' (S index)
               end) items index) <$> removed)).
    { by rewrite Heach. }
    induction IH as [| entry items Hentry _ IHitems]; intros index removed'.
    + by destruct removed'.
    + rewrite Hentry, IHitems. by rewrite fmap_record_all_app.
  - destruct cls as [cls |]; [| simpl; by destruct removed].
    simpl. destruct (truthy (shouldRelate p relationPath)).
    + f_equal. destruct removed as [m |]; [| done]. simpl.
      by destruct (removedValues (relationNames classes cls) fields).
    + unfold clone_fields.
      enough (Hfold : ∀ clone removed,
        fold_left
          (λ '(clone, removed) name,
             let '(value, removed) :=
               on_field
                 (λ x, processRelates classes p x (appendPath relationPath "." name)
                         (appendPath dataPath "/" name) removed)
                 (VUndefined, removed) name fields in
             (if is_undefined value then clone else assoc_set name value clone,
              removed))
          (relationNames classes cls) (clone, removed)
        = (fold_left
             (λ clone name,
                let value :=
                  on_field
                    (λ x, relatesData classes p x (appendPath relationPath "." name))
                    VUndefined name fields in
                if is_undefined value then clone else assoc_set name value clone)
             (relationNames classes cls) clone,
           record_all
             (flat_map
                (λ name,
                   on_field
                     (λ x, relatesLog classes p x (appendPath relationPath "." name)
                             (appendPath dataPath "/" name))
                     [] name fields)
                (relationNames classes cls)) <$> removed)).
      { by rewrite Hfold. }
      induction (relationNames classes cls) as [| name names IHnames];
        intros clone removed'; simpl.
      * by destruct removed'.
      * rewrite !on_field_assoc.
        destruct (assoc name fields) as [x |] eqn:Hx.
        -- apply assoc_Some_elem in Hx. rewrite Forall_forall in IH.
           rewrite (IH _ Hx). simpl. rewrite IHnames.
           by rewrite fmap_record_all_app.
        -- simpl. rewrite IHnames. by destruct removed'.
Qed.

Lemma is_undefined_relatesData v relationPath :
  is_undefined (relatesData classes p v relationPath) = true → v = VUndefined.
Proof.
  destruct v as [[] | items | [cls |] fields]; simpl; try done.
  by destruct (truthy (shouldRelate p relationPath)).
Qed.

(** The relation fields of the clone after the loop of [processRelates]. *)
Lemma assoc_relates_fold (f : string → value → value) fields names :
  ∀ clone key,
    assoc key
      (fold_left
         (λ clone name,
            let value := on_field (f name) VUndefined name fields in
            if is_undefined value then clone else assoc_set name value clone)
         names clone)
    = if bool_decide (key ∈ names) then
        match assoc key fields with
        | Some x => if is_undefined (f key x) then assoc key clone else Some (f key x)
        | None => assoc key clone
        end
      else assoc key clone.
Proof.
  induction names as [| name names IH]; intros clone key; simpl; [done |].
  rewrite IH, on_field_assoc.
  destruct (decide (key = name)) as [-> | Hne].
  - rewrite (bool_decide_true (name ∈ name :: names)) by left.
    destruct (assoc name fields) as [x |] eqn:Hx.
    + destruct (is_undefined (f name x)) eqn:Hundef.
      * by case_bool_decide.
      * rewrite assoc_set_eq. by case_bool_decide.
    + simpl. by case_bool_decide.
  - assert (bool_decide (key ∈ name :: names) = bool_decide (key ∈ names)) as ->.
    { apply bool_decide_ext. rewrite elem_of_cons. intuition congruence. }
    destruct (match assoc name fields with
              | Some x => f name x
              | None => VUndefined
              end) eqn:Hvalue; simpl; try done;
      try (rewrite assoc_set_ne by done; done).
    destruct p0; simpl; try done; by rewrite assoc_set_ne by done.
Qed.

Lemma keys_relates_fold (f : string → value → value) fields names :
  ∀ clone, keys clone = keys fields →
    keys
      (fold_left
         (λ clone name,
            let value := on_field (f name) VUndefined name fields in
            if is_undefined value then clone else assoc_set name value clone)
         names clone)
    = keys fields.
Proof.
  induction names as [| name names IH]; intros clone Hkeys; simpl; [done |].
  apply IH. rewrite on_field_assoc.
  destruct (assoc name fields) as [x |] eqn:Hx; simpl; [| done].
  destruct (is_undefined (f name x)); [done |].
  rewrite keys_assoc_set_in; [done |].
  rewrite Hkeys. apply assoc_Some_elem in Hx.
  unfold keys. apply list_elem_of_fmap. by exists (name, x).
Qed.

(** A model that is not related keeps every field: the fields that are not
    relations as they are, the relations with the data [processRelates]
    returns for them. *)
Lemma relatesData_full_clone cls fields relationPath :
  truthy (shouldRelate p relationPath) = false →
  ∃ fields',
    relatesData classes p (VObj (Some cls) fields) relationPath = VObj (Some cls) fields'
    ∧ keys fields' = keys fields
    ∧ (∀ key, key ∉ relationNames classes cls → assoc key fields' = assoc key fields)
    ∧ (∀ key, key ∈ relationNames classes cls →
              assoc key fields'
              = (λ x, relatesData classes p x (appendPath relationPath "." key))
                  <$> assoc key fields).
Proof.
  intros Hrelate. simpl. rewrite Hrelate. eexists. split; [done |].
  split; [| split].
  - by apply (keys_relates_fold
                (λ name x, relatesData classes p x (appendPath relationPath "." name))).
  - intros key Hkey.
    rewrite (assoc_relates_fold
               (λ name x, relatesData classes p x (appendPath relationPath "." name))).
    by rewrite bool_decide_false.
  - intros key Hkey.
    rewrite (assoc_relates_fold
               (λ name x, relatesData classes p x (appendPath relationPath "." name))).
    rewrite bool_decide_true by done.
    destruct (assoc key fields) as [x |] eqn:Hx; [| done]. simpl.
    destruct (is_undefined _) eqn:Hundef; [| done].
    apply is_undefined_relatesData in Hundef. by subst.
Qed.

(** A model that is related becomes a shallow clone without its relations. *)
Lemma relatesData_stub cls fields relationPath :
  truthy (shouldRelate p relationPath) = true →
  relatesData classes p (VObj (Some cls) fields) relationPath
  = VObj (Some cls) (clone_fields true (relationNames classes cls) fields).
Proof. intros Hrelate. simpl. by rewrite Hrelate. Qed.

Lemma array_get_map (f : value → value) items token :
  array_get (map f items) token = f <$> array_get items token.
Proof.
  unfold array_get. destruct (NilZero.uint_of_string token) as [d |]; [| done].
  case_bool_decide; [| done]. apply list_lookup_fmap.
Qed.

(** The data [processRelates] returns has, at every data path the walk
    reaches, the data it returns for the node there. *)
Lemma walk_relatesData tokens :
  ∀ v relationPath node relationPath',
    reached classes p v relationPath tokens = Some (node, relationPath') →
    walkDataPath tokens (relatesData classes p v relationPath)
    = Some (relatesData classes p node relationPath').
Proof.
  induction tokens as [| token tokens IH]; intros v relationPath node relationPath'.
  - simpl. by intros [= -> ->].
  - destruct v as [pr | items | [cls |] fields]; try done.
    + simpl. rewrite array_get_map.
      destruct (array_get items token) as [x |]; [| done]. simpl. apply IH.
    + cbn [reached].
      destruct (truthy (shouldRelate p relationPath)) eqn:Hrelate; [done |].
      case_bool_decide as Hin; [| done].
      destruct (assoc token fields) as [x |] eqn:Hx; [| done]. cbn [mbind option_bind].
      intros Hreached.
      destruct (relatesData_full_clone cls fields relationPath Hrelate)
        as (fields' & -> & _ & _ & Hrelations).
      cbn [walkDataPath]. rewrite (Hrelations _ Hin), Hx. simpl.
      by apply IH.
Qed.

Lemma relatesLog_each_elem (f : value → string → removedMap) dataPath items entry :
  ∀ index,
    entry ∈ (fix each (items : list value) (index : nat) : removedMap :=
               match items with
               | [] => []
               | x :: items' =>
                   f x (appendPath dataPath "/" (string_of_nat index))
                   ++ each items' (S index)
               end) items index
    ↔ ∃ i x, items !! i = Some x
             ∧ entry ∈ f x (appendPath dataPath "/" (string_of_nat (index + i))).
Proof.
  induction items as [| x items IH]; intros index.
  - split; [by intros ?%elem_of_nil | by intros (i & y & ? & _)].
  - rewrite elem_of_app, IH. split.
    + intros [Hhere | (i & y & Hy & Hin)].
      * exists 0%nat, x. by rewrite Nat.add_0_r.
      * exists (S i), y. by rewrite Nat.add_succ_r.
    + intros ([| i] & y & Hy & Hin).
      * left. injection Hy as <-. by rewrite Nat.add_0_r in Hin.
      * right. exists i, y. by rewrite Nat.add_succ_r in Hin.
Qed.

(** Every entry of the log is recorded for a model the walk relates. *)
Lemma relatesLog_entry v :
  ∀ relationPath dataPath path values,
    (path, values) ∈ relatesLog classes p v relationPath dataPath →
    relates_entry classes p v relationPath dataPath path values.
Proof.
  induction v as [pr | items IH | cls fields IH] using value_ind';
    intros relationPath dataPath path values.
  - by intros ?%elem_of_nil.
  - cbn [relatesLog].
    rewrite (relatesLog_each_elem (λ x, relatesLog classes p x relationPath) dataPath).
    intros (i & x & Hx & Hin). rewrite Forall_forall in IH.
    apply IH in Hin as (tokens & cls & fields & rp' & Hreached & Hrelate & -> & -> & Hne);
      [| by eapply list_elem_of_lookup_2].
    exists (string_of_nat i :: tokens), cls, fields, rp'. repeat split; try done.
    cbn [reached]. by rewrite array_get_string_of_nat, Hx.
  - destruct cls as [cls |]; [| by intros ?%elem_of_nil].
    cbn [relatesLog].
    destruct (truthy (shouldRelate p relationPath)) eqn:Hrelate.
    + destruct (removedValues (relationNames classes cls) fields) as [| kv values'] eqn:Hvalues;
        [by intros ?%elem_of_nil |].
      intros [= -> ->]%list_elem_of_singleton.
      exists [], cls, fields, relationPath. by rewrite Hvalues.
    + rewrite list_elem_of_In, in_flat_map.
      intros (name & Hname%list_elem_of_In & Hin%list_elem_of_In).
      rewrite on_field_assoc in Hin.
      destruct (assoc name fields) as [x |] eqn:Hx; [| by apply elem_of_nil in Hin].
      rewrite Forall_forall in IH.
      apply (IH (name, x)) in Hin
          as (tokens & cls' & fields' & rp' & Hreached & Hrelate' & -> & -> & Hne);
        [| by apply assoc_Some_elem].
      exists (name :: tokens), cls', fields', rp'. repeat split; try done.
      cbn [reached]. rewrite Hrelate, bool_decide_true by done. by rewrite Hx.
Qed.

(** Every model the walk relates, with a relation that is not [undefined],
    has its entry in the log. *)
Lemma relates_entry_Log tokens :
  ∀ v relationPath dataPath cls fields relationPath',
    reached classes p v relationPath tokens
      = Some (VObj (Some cls) fields, relationPath') →
    truthy (shouldRelate p relationPath') = true →
    removedValues (relationNames classes cls) fields ≠ [] →
    (extendPath dataPath tokens, removedValues (relationNames classes cls) fields)
      ∈ relatesLog classes p v relationPath dataPath.
Proof.
  induction tokens as [| token tokens IH];
    intros v relationPath dataPath cls fields relationPath' Hreached Hrelate Hne.
  - injection Hreached as -> ->. cbn [relatesLog]. rewrite Hrelate.
    destruct (removedValues (relationNames classes cls) fields); [done |].
    apply list_elem_of_singleton. done.
  - destruct v as [pr | items | [cls0 |] fields0]; try done.
    + cbn [reached] in Hreached.
      destruct (array_get items token) as [x |] eqn:Hx; [| done].
      apply array_get_Some in Hx as (i & -> & Hx). cbn [mbind option_bind] in Hreached.
      cbn [relatesLog].
      rewrite (relatesLog_each_elem (λ x, relatesLog classes p x relationPath) dataPath).
      exists i, x. split; [done |]. by eapply IH.
    + cbn [reached] in Hreached.
      destruct (truthy (shouldRelate p relationPath)) eqn:Hrelate0; [done |].
      case_bool_decide as Hin; [| done].
      destruct (assoc token fields0) as [x |] eqn:Hx; [| done].
      cbn [mbind option_bind] in Hreached.
      cbn [relatesLog]. rewrite Hrelate0.
      rewrite list_elem_of_In, in_flat_map. exists token.
      split; [by apply list_elem_of_In |]. apply list_elem_of_In.
      rewrite on_field_assoc, Hx. by eapply IH.
Qed.

End GraphProperties.

(** ** Maps built by assignment *)

Lemma assoc_set_elem {A} (key : string) (a : A) o e :
  e ∈ assoc_set key a o → e = (key, a) ∨ e ∈ o.
Proof.
  induction o as [| [k b] o IH]; simpl.
  - intros ->%list_elem_of_singleton. by left.
  - case_bool_decide as Hk.
    + intros [-> | He]%elem_of_cons; [subst; by left | right; by right].
    + intros [-> | He]%elem_of_cons; [right; left |].
      destruct (IH He) as [-> | Hin]; [by left | right; by right].
Qed.

Lemma keys_assoc_set {A} (key : string) (a : A) o :
  keys (assoc_set key a o) = if bool_decide (key ∈ keys o) then keys o else keys o ++ [key].
Proof.
  case_bool_decide as Hin.
  - by apply keys_assoc_set_in.
  - apply assoc_None_keys in Hin. rewrite assoc_set_new by done.
    unfold keys. by rewrite map_app.
Qed.

Lemma NoDup_keys_assoc_set {A} (key : string) (a : A) o :
  NoDup (keys o) → NoDup (keys (assoc_set key a o)).
Proof.
  intros Hnodup. rewrite keys_assoc_set. case_bool_decide as Hin; [done |].
  apply NoDup_app. split; [done |]. split; [| apply NoDup_singleton].
  intros x Hx ->%list_elem_of_singleton. done.
Qed.

Lemma record_all_elem log : ∀ m e, e ∈ record_all log m → e ∈ log ∨ e ∈ m.
Proof.
  induction log as [| [k vals] log IH]; intros m e; simpl; [by right |].
  intros [Hlog | Hm]%IH; [left; by right |].
  apply assoc_set_elem in Hm as [-> | Hm]; [left; left | by right].
Qed.

Lemma NoDup_keys_record_all log : ∀ m, NoDup (keys m) → NoDup (keys (record_all log m)).
Proof.
  induction log as [| [k vals] log IH]; intros m Hm; simpl; [done |].
  by apply IH, NoDup_keys_assoc_set.
Qed.

Lemma record_all_lookup_other log : ∀ m key,
  key ∉ keys log → assoc key (record_all log m) = assoc key m.
Proof.
  induction log as [| [k vals] log IH]; intros m key Hkey; simpl; [done |].
  unfold keys in Hkey. simpl in Hkey. apply not_elem_of_cons in Hkey as [Hne Hkey].
  rewrite IH by done. by rewrite assoc_set_ne.
Qed.

Lemma record_all_lookup log : ∀ m key values,
  (∀ v1 v2, (key, v1) ∈ log → (key, v2) ∈ log → v1 = v2) →
  (key, values) ∈ log →
  assoc key (record_all log m) = Some values.
Proof.
  induction log as [| [k vals] log IH]; intros m key values Hfun Hin; simpl.
  - by apply elem_of_nil in Hin.
  - destruct (decide (key ∈ keys log)) as [Hkeys | Hkeys].
    + unfold keys in Hkeys. apply list_elem_of_fmap in Hkeys as ([k' vals'] & -> & Hin').
      simpl in *. assert (vals' = values) as ->.
      { apply Hfun; [by right | done]. }
      apply IH; [| done]. intros v1 v2 H1 H2. apply Hfun; by right.
    + rewrite record_all_lookup_other by done.
      apply elem_of_cons in Hin as [[= -> ->] | Hin].
      * apply assoc_set_eq.
      * exfalso. apply Hkeys. unfold keys. apply list_elem_of_fmap. by exists (key, values).
Qed.

(** ** Reading and assigning at a data path *)

Lemma walk_update_same f tokens :
  ∀ v x y, walkDataPath tokens v = Some x → f x = Some y →
           ∃ v', updateDataPath f tokens v = Some v'
                 ∧ walkDataPath tokens v' = Some y.
Proof.
  induction tokens as [| token tokens IH]; intros v x y; simpl.
  - intros [= ->] Hf. by exists y.
  - destruct v as [pr | items | cls fields]; [done | |].
    + unfold array_get. destruct (NilZero.uint_of_string token) as [d |]; [| done].
      case_bool_decide as Htoken; [| done].
      destruct (items !! Nat.of_uint d) as [x0 |] eqn:Hx0; [| done]. simpl.
      intros Hwalk Hf. destruct (IH _ _ _ Hwalk Hf) as (x' & -> & Hwalk'). simpl.
      eexists. split; [done |]. simpl.
      by rewrite list_lookup_insert_eq by (by eapply lookup_lt_Some).
    + destruct (assoc token fields) as [x0 |] eqn:Hx0; [| done]. simpl.
      intros Hwalk Hf. destruct (IH _ _ _ Hwalk Hf) as (x' & -> & Hwalk'). simpl.
      eexists. split; [done |]. simpl. by rewrite assoc_set_eq.
Qed.

Lemma walk_update_other f tokens1 :
  ∀ tokens2 v v',
    ¬ tokens1 `prefix_of` tokens2 → ¬ tokens2 `prefix_of` tokens1 →
    updateDataPath f tokens1 v = Some v' →
    walkDataPath tokens2 v' = walkDataPath tokens2 v.
Proof.
  induction tokens1 as [| t1 tokens1 IH]; intros tokens2 v v' H12 H21.
  - exfalso. apply H12, prefix_nil.
  - destruct tokens2 as [| t2 tokens2]; [exfalso; apply H21, prefix_nil |].
    destruct v as [pr | items | cls fields]; [done | |]; simpl.
    + destruct (NilZero.uint_of_string t1) as [d |] eqn:Hd; [| done].
      case_bool_decide as Ht1; [| done].
      destruct (items !! Nat.of_uint d) as [x |] eqn:Hx; [| done]. simpl.
      destruct (updateDataPath f tokens1 x) as [x' |] eqn:Hupdate; [| done]. simpl.
      intros [= <-]. simpl. unfold array_get.
      destruct (NilZero.uint_of_string t2) as [d2 |] eqn:Hd2; [| done].
      case_bool_decide as Ht2; [| done].
      destruct (decide (t1 = t2)) as [-> | Hne].
      * assert (d2 = d) as -> by congruence.
        rewrite list_lookup_insert_eq by (by eapply lookup_lt_Some). rewrite Hx. simpl.
        eapply IH; [| | done].
        -- intros Hp. apply H12. by apply prefix_cons.
        -- intros Hp. apply H21. by apply prefix_cons.
      * rewrite list_lookup_insert_ne; [done |]. intros Heq. apply Hne. congruence.
    + destruct (assoc t1 fields) as [x |] eqn:Hx; [| done]. simpl.
      destruct (updateDataPath f tokens1 x) as [x' |] eqn:Hupdate; [| done]. simpl.
      intros [= <-]. simpl.
      destruct (decide (t1 = t2)) as [-> | Hne].
      * rewrite assoc_set_eq, Hx. simpl. eapply IH; [| | done].
        -- intros Hp. apply H12. by apply prefix_cons.
        -- intros Hp. apply H21. by apply prefix_cons.
      * by rewrite assoc_set_ne.
Qed.

(** ** Restoring at independent paths *)

Lemma restoreAll_None m : restoreAll m None = None.
Proof. induction m as [| [k vals] m IH]; simpl; [done | exact IH]. Qed.

Lemma restoreAll_independent m :
  ∀ d,
    NoDup (keys m) →
    (∀ k1 v1 k2 v2, (k1, v1) ∈ m → (k2, v2) ∈ m → k1 ≠ k2 →
                    ¬ split_char "/" k1 `prefix_of` split_char "/" k2) →
    (∀ k vals, (k, vals) ∈ m →
               ∃ c fs, walkDataPath (split_char "/" k) d = Some (VObj c fs)) →
    ∃ d',
      restoreAll m (Some d) = Some d'
      ∧ (∀ k vals c fs, (k, vals) ∈ m →
           walkDataPath (split_char "/" k) d = Some (VObj c fs) →
           walkDataPath (split_char "/" k) d' = Some (VObj c (assigned vals fs)))
      ∧ (∀ tokens,
           (∀ k vals, (k, vals) ∈ m →
                      ¬ split_char "/" k `prefix_of` tokens
                      ∧ ¬ tokens `prefix_of` split_char "/" k) →
           walkDataPath tokens d' = walkDataPath tokens d).
Proof.
  induction m as [| [k1 v1] m IH]; intros d Hnodup Hindep Hobjects.
  - exists d. split; [done |]. split; [| done]. by intros k vals c fs ?%elem_of_nil.
  - unfold keys in Hnodup. simpl in Hnodup. apply NoDup_cons in Hnodup as [Hk1 Hnodup].
    destruct (Hobjects k1 v1) as (c1 & fs1 & Hwalk1); [left |].
    destruct (walk_update_same (assignValues v1) _ _ _ _ Hwalk1 eq_refl)
      as (d1 & Hupdate & Hwalk1').
    assert (∀ k vals, (k, vals) ∈ m → k ≠ k1) as Hne.
    { intros k vals Hin ->. apply Hk1. apply list_elem_of_fmap. by exists (k1, vals). }
    assert (∀ k vals, (k, vals) ∈ m →
              walkDataPath (split_char "/" k) d1 = walkDataPath (split_char "/" k) d)
      as Hsame.
    { intros k vals Hin. eapply walk_update_other; [| | exact Hupdate].
      - apply (Hindep k1 v1 k vals); [left | by right |]. intros ->. by eapply Hne.
      - apply (Hindep k vals k1 v1); [by right | left |]. by eapply Hne. }
    destruct (IH d1) as (d' & Hrestore & Hassigned & Hother).
    + done.
    + intros k2 v2 k3 v3 H2 H3. apply (Hindep k2 v2 k3 v3); by right.
    + intros k vals Hin. rewrite (Hsame k vals Hin). apply (Hobjects k vals). by right.
    + exists d'. split; [| split].
      * simpl. rewrite Hupdate. exact Hrestore.
      * intros k vals c fs [[= -> ->] | Hin]%elem_of_cons Hwalk.
        -- rewrite Hother.
           ++ rewrite Hwalk1'. rewrite Hwalk1 in Hwalk. by injection Hwalk as -> ->.
           ++ intros k vals Hin. split.
              ** apply (Hindep k vals k1 v1); [by right | left |]. by eapply Hne.
              ** apply (Hindep k1 v1 k vals); [left | by right |].
                 intros ->. by eapply Hne.
        -- apply (Hassigned k vals); [done |]. by rewrite (Hsame k vals Hin).
      * intros tokens Htokens. rewrite Hother.
        -- eapply walk_update_other; [| | exact Hupdate]; apply (Htokens k1 v1); left.
        -- intros k vals Hin. apply (Htokens k vals). by right.
Qed.

(** ** The entries [getData] records *)

Lemma shouldRelate_root (p : GraphProcessor) : shouldRelate p "" = VUndefined.
Proof. done. Qed.

Lemma string_has_app_l c (s t : string) :
  string_has c s = true → string_has c (s +:+ t) = true.
Proof.
  induction s as [| x s IH]; [done |]. rewrite string_app_cons. simpl.
  destruct (Ascii.eqb x c); [done | exact IH].
Qed.

Lemma string_has_app_r c (s t : string) :
  string_has c t = true → string_has c (s +:+ t) = true.
Proof.
  intros Ht. induction s as [| x s IH]; [done |]. rewrite string_app_cons. simpl.
  by rewrite IH, orb_true_r.
Qed.

Lemma extendPath_has_slash tokens :
  ∀ path, string_has "/" path = true → string_has "/" (extendPath path tokens) = true.
Proof.
  induction tokens as [| token tokens IH]; intros path Hpath; [done |].
  unfold extendPath in *. simpl. apply IH. unfold appendPath.
  case_bool_decide as Hempty; [by subst |]. by apply string_has_app_l.
Qed.

Lemma extendPath_nested_has_slash token token' tokens :
  token ≠ "" → string_has "/" (extendPath "" (token :: token' :: tokens)) = true.
Proof.
  intros Htoken. unfold extendPath. simpl.
  change (appendPath "" "/" token) with token.
  apply (extendPath_has_slash tokens). unfold appendPath.
  rewrite bool_decide_false by done. by apply string_has_app_r.
Qed.

Section GraphEntries.

Variable classes : list (string * list RelationDef).
Variable p : GraphProcessor.

Lemma reached_app tokens1 :
  ∀ v relationPath tokens2,
    reached classes p v relationPath (tokens1 ++ tokens2)
    = reached classes p v relationPath tokens1
      ≫= λ '(node, relationPath'), reached classes p node relationPath' tokens2.
Proof.
  induction tokens1 as [| token tokens1 IH]; intros v relationPath tokens2; [done |].
  destruct v as [pr | items | [cls |] fields]; try done.
  - cbn [app reached]. destruct (array_get items token) as [x |]; [| done].
    cbn [mbind option_bind]. apply IH.
  - cbn [app reached]. destruct (truthy (shouldRelate p relationPath)); [done |].
    case_bool_decide; [| done]. destruct (assoc token fields) as [x |]; [| done].
    cbn [mbind option_bind]. apply IH.
Qed.

(** The walk stops at a model it relates: the data paths of two related
    models are not prefixes of each other. *)
Lemma reached_related_independent v relationPath tokens1 tokens2
    cls1 fields1 rp1 node2 rp2 :
  reached classes p v relationPath tokens1 = Some (VObj (Some cls1) fields1, rp1) →
  truthy (shouldRelate p rp1) = true →
  reached classes p v relationPath tokens2 = Some (node2, rp2) →
  tokens1 `prefix_of` tokens2 → tokens1 = tokens2.
Proof.
  intros Hreached1 Hrelate Hreached2 [rest ->].
  rewrite reached_app, Hreached1 in Hreached2. cbn [mbind option_bind] in Hreached2.
  destruct rest as [| token rest]; [by rewrite app_nil_r |].
  cbn [reached] in Hreached2. by rewrite Hrelate in Hreached2.
Qed.

(** A model the walk relates has a relation path, hence is not a root. *)
Lemma reached_related_nested items tokens cls fields rp :
  reached classes p (VArr items) "" tokens = Some (VObj (Some cls) fields, rp) →
  truthy (shouldRelate p rp) = true →
  ∃ token token' tokens', tokens = token :: token' :: tokens' ∧ token ≠ "".
Proof.
  intros Hreached Hrelate.
  destruct tokens as [| token tokens]; [done |].
  cbn [reached] in Hreached.
  destruct (array_get items token) as [x |] eqn:Hx; [| done].
  apply array_get_Some in Hx as (i & -> & Hx). cbn [mbind option_bind] in Hreached.
  destruct tokens as [| token' tokens'].
  - injection Hreached as -> <-. by rewrite shouldRelate_root in Hrelate.
  - exists (string_of_nat i), token', tokens'. split; [done |].
    apply string_of_nat_nonempty.
Qed.

Hypothesis relation_names_no_slash :
  ∀ cls name, name ∈ relationNames classes cls → string_has "/" name = false.

Lemma reached_tokens_no_slash tokens :
  ∀ v relationPath node relationPath',
    reached classes p v relationPath tokens = Some (node, relationPath') →
    Forall (λ t, string_has "/" t = false) tokens.
Proof.
  induction tokens as [| token tokens IH]; intros v relationPath node relationPath';
    [by constructor |].
  destruct v as [pr | items | [cls |] fields]; try done; cbn [reached].
  - destruct (array_get items token) as [x |] eqn:Hx; [| done].
    apply array_get_Some in Hx as (i & -> & Hx). cbn [mbind option_bind].
    intros Hreached. constructor; [apply string_of_nat_no_slash | by eapply IH].
  - destruct (truthy (shouldRelate p relationPath)); [done |].
    case_bool_decide as Hin; [| done].
    destruct (assoc token fields) as [x |]; [| done]. cbn [mbind option_bind].
    intros Hreached. constructor; [by eapply relation_names_no_slash | by eapply IH].
Qed.

(** The tokens of the data path recorded for a model the walk relates. *)
Lemma split_related_path items tokens cls fields rp :
  reached classes p (VArr items) "" tokens = Some (VObj (Some cls) fields, rp) →
  truthy (shouldRelate p rp) = true →
  split_char "/" (extendPath "" tokens) = tokens.
Proof.
  intros Hreached Hrelate.
  destruct (reached_related_nested _ _ _ _ _ Hreached Hrelate)
    as (token & token' & tokens' & -> & Htoken).
  apply split_extendPath_root; [done |]. by eapply reached_tokens_no_slash.
Qed.

End GraphEntries.

(** ** C5 *)

Lemma getData_spec classes p :
  getData classes p
  = (set_removedRelations p
       (record_all (relatesLog classes p (VArr (data p)) "" "") <$> removedRelations p),
     let d := match removedRelations p with
              | Some _ => relatesData classes p (VArr (data p)) ""
              | None => VArr (data p)
              end in
     if isArray_ p then d
     else match d with
          | VArr (first :: _) => first
          | _ => VUndefined
          end).
Proof.
  unfold getData. destruct (removedRelations p) as [m |]; [| done].
  by rewrite processRelates_spec.
Qed.

Lemma root_path_not_recorded classes p i :
  string_of_nat i ∉ keys (relatesLog classes p (VArr (data p)) "" "").
Proof.
  intros Hin. unfold keys in Hin.
  apply list_elem_of_fmap in Hin as ([path values] & Hpath & Hin). simpl in Hpath.
  apply relatesLog_entry in Hin
    as (tokens & cls & fields & rp & Hreached & Hrelate & -> & _ & _).
  destruct (reached_related_nested _ _ _ _ _ _ _ Hreached Hrelate)
    as (token & token' & tokens' & -> & Htoken).
  pose proof (extendPath_nested_has_slash token token' tokens' Htoken) as Hslash.
  rewrite <- Hpath, string_of_nat_no_slash in Hslash. done.
Qed.

(** C5: whatever the options and the overrides, [shouldRelate('')] returns
    [undefined], never [true]. A model with the empty relation path, as the
    roots of the graph have, is therefore cloned with all its fields: those
    that are not relations unchanged, the relations with the data
    [processRelates] returns for them; it is not reduced to a stub, and the
    entries recorded while it is processed are those of its relations. And
    [getData] records nothing for it: every entry of the removed-relations
    map belongs to a model with a relation path that is not empty, and the
    data path of a root (its index in the data) has no entry. *)
Theorem root_nodes_never_relate classes p :
  shouldRelate p "" = VUndefined
  ∧ (∀ cls fields dataPath removed,
       ∃ fields',
         processRelates classes p (VObj (Some cls) fields) "" dataPath removed
         = (VObj (Some cls) fields',
            record_all (relatesLog classes p (VObj (Some cls) fields) "" dataPath)
              <$> removed)
         ∧ keys fields' = keys fields
         ∧ (∀ key, key ∉ relationNames classes cls →
                   assoc key fields' = assoc key fields)
         ∧ (∀ key, key ∈ relationNames classes cls →
                   assoc key fields'
                   = (λ x, relatesData classes p x (appendPath "" "." key))
                       <$> assoc key fields)
         ∧ relatesLog classes p (VObj (Some cls) fields) "" dataPath
           = flat_map
               (λ name,
                  on_field
                    (λ x, relatesLog classes p x (appendPath "" "." name)
                            (appendPath dataPath "/" name))
                    [] name fields)
               (relationNames classes cls))
  ∧ (∀ path values,
       (path, values) ∈ relatesLog classes p (VArr (data p)) "" "" →
       ∃ tokens cls fields relationPath,
         reached classes p (VArr (data p)) "" tokens
           = Some (VObj (Some cls) fields, relationPath)
         ∧ relationPath ≠ ""
         ∧ path = extendPath "" tokens)
  ∧ (∀ i, removedRelations (getData classes p).1 ≫= assoc (string_of_nat i)
          = removedRelations p ≫= assoc (string_of_nat i)).
Proof.
  split; [done |]. split; [| split].
  - intros cls fields dataPath removed.
    destruct (relatesData_full_clone classes p cls fields "" eq_refl)
      as (fields' & Hdata & Hkeys & Hown & Hrelations).
    exists fields'. rewrite processRelates_spec, Hdata. by repeat split.
  - intros path values Hin.
    apply relatesLog_entry in Hin
      as (tokens & cls & fields & rp & Hreached & Hrelate & -> & _ & _).
    exists tokens, cls, fields, rp. repeat split; try done.
    intros ->. by rewrite shouldRelate_root in Hrelate.
  - intros i. rewrite getData_spec. simpl.
    destruct (removedRelations p) as [m |]; [| done]. simpl.
    apply record_all_lookup_other, root_path_not_recorded.
Qed.

(** ** What is removed and what is assigned back *)

Lemma assoc_clone_shallow relations fields key :
  assoc key (clone_fields true relations fields)
  = if bool_decide (key ∈ relations) then None else assoc key fields.
Proof.
  unfold clone_fields. induction fields as [| [k x] fields IH]; simpl.
  - by case_bool_decide.
  - destruct (decide (k ∈ relations)) as [Hk | Hk].
    + rewrite (bool_decide_true (k ∈ relations)) by done. simpl. rewrite IH.
      case_bool_decide as Hkey; [done |]. rewrite bool_decide_false; [done |].
      by intros ->.
    + rewrite (bool_decide_false (k ∈ relations)) by done. simpl.
      rewrite IH. destruct (decide (k = key)) as [-> | Hne].
      * by rewrite bool_decide_true, bool_decide_false.
      * by rewrite (bool_decide_false (k = key)).
Qed.

Lemma assoc_removedValues_fold relations fields key :
  ∀ values,
    assoc key
      (fold_left
         (λ values name,
            let value := get_field name fields in
            if is_undefined value then values else assoc_set name value values)
         relations values)
    = if bool_decide (key ∈ relations) && negb (is_undefined (get_field key fields))
      then Some (get_field key fields)
      else assoc key values.
Proof.
  induction relations as [| name relations IH]; intros values; simpl; [done |].
  rewrite IH. destruct (decide (key = name)) as [-> | Hne].
  - rewrite (bool_decide_true (name ∈ name :: relations)) by left. simpl.
    destruct (is_undefined (get_field name fields)) eqn:Hundef; simpl.
    + by rewrite andb_false_r.
    + rewrite andb_true_r, assoc_set_eq. by case_bool_decide.
  - assert (bool_decide (key ∈ name :: relations) = bool_decide (key ∈ relations)) as ->.
    { apply bool_decide_ext. rewrite elem_of_cons. intuition congruence. }
    destruct (is_undefined (get_field name fields)); [done |].
    by rewrite assoc_set_ne.
Qed.

Lemma assoc_removedValues relations fields key :
  assoc key (removedValues relations fields)
  = if bool_decide (key ∈ relations) && negb (is_undefined (get_field key fields))
    then Some (get_field key fields)
    else None.
Proof. unfold removedValues. by rewrite assoc_removedValues_fold. Qed.

Lemma NoDup_keys_removedValues relations fields :
  NoDup (keys (removedValues relations fields)).
Proof.
  unfold removedValues.
  assert (NoDup (keys ([] : list (string * value)))) as Hnil by constructor.
  revert Hnil. generalize ([] : list (string * value)).
  induction relations as [| name relations IH]; intros values Hvalues; simpl; [done |].
  apply IH. destruct (is_undefined (get_field name fields)); [done |].
  by apply NoDup_keys_assoc_set.
Qed.

Lemma assoc_assigned values :
  ∀ fields key,
    NoDup (keys values) →
    assoc key (assigned values fields)
    = match assoc key values with
      | Some v => Some v
      | None => assoc key fields
      end.
Proof.
  unfold assigned.
  induction values as [| [k v] values IH]; intros fields key Hnodup; simpl; [done |].
  unfold keys in Hnodup. simpl in Hnodup. apply NoDup_cons in Hnodup as [Hk Hnodup].
  rewrite IH by done. case_bool_decide as Heq.
  - subst. apply assoc_None_keys in Hk. rewrite Hk. apply assoc_set_eq.
  - destruct (assoc key values); [done |]. by rewrite assoc_set_ne.
Qed.

(** The properties of a related model read as before, once its removed
    relations are assigned to its stub. *)
Lemma get_field_restored relations fields key :
  get_field key (assigned (removedValues relations fields)
                          (clone_fields true relations fields))
  = get_field key fields.
Proof.
  unfold get_field.
  rewrite assoc_assigned by apply NoDup_keys_removedValues.
  rewrite assoc_removedValues, assoc_clone_shallow.
  case_bool_decide as Hin; simpl; [| done].
  fold (get_field key fields).
  destruct (is_undefined (get_field key fields)) eqn:Hundef; simpl; [| done].
  by destruct (get_field key fields) as [[] | |].
Qed.

(** ** Relation names *)

Lemma identifier_spec name :
  identifier name = true →
  name ≠ "" ∧ string_has "." name = false ∧ string_has "/" name = false.
Proof.
  unfold identifier. intros [[H1 H2]%andb_prop H3]%andb_prop.
  apply negb_true_iff in H1, H2, H3. apply bool_decide_eq_false in H1. done.
Qed.

Lemma relationNamesOk_spec classes cls name :
  relationNamesOk classes = true →
  name ∈ relationNames classes cls → identifier name = true.
Proof.
  unfold relationNamesOk, relationNames, relationsOf. intros Hok Hname.
  destruct (assoc cls classes) as [rs |] eqn:Hcls; simpl in Hname;
    [| by apply elem_of_nil in Hname].
  apply assoc_Some_elem in Hcls.
  apply list_elem_of_fmap in Hname as (r & -> & Hr).
  rewrite forallb_forall in Hok. apply list_elem_of_In in Hcls.
  specialize (Hok _ Hcls). simpl in Hok. rewrite forallb_forall in Hok.
  apply Hok. by apply list_elem_of_In.
Qed.

(** ** The restored result has the shape of the write result *)

Lemma updateDataPath_kind values tokens :
  ∀ v v', updateDataPath (assignValues values) tokens v = Some v' → kind v' = kind v.
Proof.
  destruct tokens as [| token tokens]; intros v v'; simpl.
  - destruct v as [a | items | c fs]; simpl; [done | done |]. by intros [= <-].
  - destruct v as [a | items | c fs]; [done | |].
    + destruct (NilZero.uint_of_string token) as [d |]; [| done].
      case_bool_decide; [| done].
      destruct (items !! Nat.of_uint d) as [x |]; [| done]. simpl.
      destruct (updateDataPath _ tokens x) as [x' |]; [| done]. by intros [= <-].
    + destruct (assoc token fs) as [x |]; [| done]. simpl.
      destruct (updateDataPath _ tokens x) as [x' |]; [| done]. by intros [= <-].
Qed.

Lemma updateDataPath_items values tokens items d :
  updateDataPath (assignValues values) tokens (VArr items) = Some d →
  ∃ items', d = VArr items' ∧ kind <$> items' = kind <$> items.
Proof.
  destruct tokens as [| token tokens]; simpl; [done |].
  destruct (NilZero.uint_of_string token) as [u |]; [| done].
  case_bool_decide; [| done].
  destruct (items !! Nat.of_uint u) as [x |] eqn:Hx; [| done]. simpl.
  destruct (updateDataPath _ tokens x) as [x' |] eqn:Hx'; [| done]. intros [= <-].
  eexists. split; [done |]. rewrite list_fmap_insert.
  apply updateDataPath_kind in Hx'. rewrite Hx'.
  apply list_insert_id. by rewrite list_lookup_fmap, Hx.
Qed.

Lemma restoreAll_items m :
  ∀ items d,
    restoreAll m (Some (VArr items)) = Some d →
    ∃ items', d = VArr items' ∧ kind <$> items' = kind <$> items.
Proof.
  induction m as [| [path values] m IH]; intros items d; simpl.
  - intros [= <-]. by exists items.
  - destruct (updateDataPath _ (split_char "/" path) (VArr items)) as [d1 |] eqn:Hd1.
    + apply updateDataPath_items in Hd1 as (items1 & -> & Hkind1).
      intros Hd. apply IH in Hd as (items' & -> & Hkind). exists items'.
      split; [done |]. by rewrite Hkind.
    + fold (restoreAll m None). by rewrite restoreAll_None.
Qed.

(** [restoreRelations] in terms of the loop over the map, on the result seen
    as an array. *)
Lemma restoreRelations_asArray p result d :
  restoreAll (default [] (removedRelations p)) (Some (VArr (asArray result))) = Some d →
  ∃ result', restoreRelations p result = Some result' ∧ d = VArr (asArray result').
Proof.
  intros Hd. unfold restoreRelations. rewrite Hd. simpl.
  apply restoreAll_items in Hd as (items' & -> & Hkind).
  assert (∀ x, kind <$> items' = [kind x] → ∃ y, items' = [y] ∧ kind y = kind x)
    as Hone.
  { intros x Hx. destruct items' as [| y [| ? ?]]; [done | | done].
    injection Hx as Hy. by exists y. }
  destruct result as [a | items | c fs].
  - destruct (decide (a = PUndefined)) as [-> | Ha].
    + simpl in *. destruct items'; [| done]. by eexists.
    + assert (asArray (VPrim a) = [VPrim a]) as Harr by (by destruct a).
      rewrite Harr in *. destruct (Hone (VPrim a) Hkind) as (y & -> & Hy).
      destruct y as [b | |]; [| done | done]. injection Hy as ->.
      exists (VPrim a). rewrite Harr. by destruct a.
  - simpl in *. by eexists.
  - simpl in *. destruct (Hone (VObj c fs) Hkind) as (y & -> & Hy).
    destruct y as [b | |]; [done | done |]. by eexists.
Qed.

(** ** The round trip of the removed relations *)

Section GraphRoundTrip.

Variable classes : list (string * list RelationDef).
Variable p : GraphProcessor.
Hypothesis names_ok : relationNamesOk classes = true.

Lemma relation_names_no_slash cls name :
  name ∈ relationNames classes cls → string_has "/" name = false.
Proof.
  intros Hname. by destruct (identifier_spec _ (relationNamesOk_spec _ _ _ names_ok Hname))
    as (_ & _ & ?).
Qed.

(** Two models the walk relates have different data paths. *)
Lemma related_path_inj items tokens1 tokens2 cls1 fields1 rp1 cls2 fields2 rp2 :
  reached classes p (VArr items) "" tokens1 = Some (VObj (Some cls1) fields1, rp1) →
  truthy (shouldRelate p rp1) = true →
  reached classes p (VArr items) "" tokens2 = Some (VObj (Some cls2) fields2, rp2) →
  truthy (shouldRelate p rp2) = true →
  extendPath "" tokens1 = extendPath "" tokens2 → tokens1 = tokens2.
Proof.
  intros H1 Hr1 H2 Hr2 Heq.
  rewrite <- (split_related_path classes p relation_names_no_slash _ _ _ _ _ H1 Hr1).
  rewrite <- (split_related_path classes p relation_names_no_slash _ _ _ _ _ H2 Hr2).
  by rewrite Heq.
Qed.

Lemma log_functional items k v1 v2 :
  (k, v1) ∈ relatesLog classes p (VArr items) "" "" →
  (k, v2) ∈ relatesLog classes p (VArr items) "" "" → v1 = v2.
Proof.
  intros (tokens1 & cls1 & fields1 & rp1 & H1 & Hr1 & Hk1 & -> & _)%relatesLog_entry.
  intros (tokens2 & cls2 & fields2 & rp2 & H2 & Hr2 & Hk2 & -> & _)%relatesLog_entry.
  assert (tokens1 = tokens2) as ->.
  { eapply related_path_inj; try done. by rewrite <- Hk1, <- Hk2. }
  rewrite H1 in H2. by injection H2 as -> -> ->.
Qed.

(** What [getData] records for a model it relates is found under the data
    path of the model. *)
Lemma log_recorded items tokens cls fields rp :
  reached classes p (VArr items) "" tokens = Some (VObj (Some cls) fields, rp) →
  truthy (shouldRelate p rp) = true →
  removedValues (relationNames classes cls) fields ≠ [] →
  assoc (extendPath "" tokens) (record_all (relatesLog classes p (VArr items) "" "") [])
  = Some (removedValues (relationNames classes cls) fields).
Proof.
  intros Hreached Hrelate Hvalues. apply record_all_lookup.
  - intros v1 v2. apply log_functional.
  - by eapply relates_entry_Log.
Qed.

Lemma log_independent items k1 v1 k2 v2 :
  (k1, v1) ∈ relatesLog classes p (VArr items) "" "" →
  (k2, v2) ∈ relatesLog classes p (VArr items) "" "" →
  k1 ≠ k2 → ¬ split_char "/" k1 `prefix_of` split_char "/" k2.
Proof.
  intros (tokens1 & cls1 & fields1 & rp1 & H1 & Hr1 & -> & _ & _)%relatesLog_entry.
  intros (tokens2 & cls2 & fields2 & rp2 & H2 & Hr2 & -> & _ & _)%relatesLog_entry.
  intros Hne Hprefix. apply Hne.
  rewrite (split_related_path classes p relation_names_no_slash _ _ _ _ _ H1 Hr1) in Hprefix.
  rewrite (split_related_path classes p relation_names_no_slash _ _ _ _ _ H2 Hr2) in Hprefix.
  by rewrite (reached_related_independent classes p _ _ _ _ _ _ _ _ _ H1 Hr1 H2 Hprefix).
Qed.

(** The loop of [restoreRelations] over the map [getData] filled: when the
    result has an object at every recorded path, each object gets the values
    recorded for its path, and the rest of the result is left as it is. *)
Lemma restore_recorded items d :
  (∀ k vals, (k, vals) ∈ relatesLog classes p (VArr items) "" "" →
             ∃ c fs, getDataPath d k = Some (VObj c fs)) →
  ∃ d',
    restoreAll (record_all (relatesLog classes p (VArr items) "" "") []) (Some d) = Some d'
    ∧ (∀ tokens cls fields rp c fs,
         reached classes p (VArr items) "" tokens = Some (VObj (Some cls) fields, rp) →
         truthy (shouldRelate p rp) = true →
         removedValues (relationNames classes cls) fields ≠ [] →
         walkDataPath tokens d = Some (VObj c fs) →
         walkDataPath tokens d'
         = Some (VObj c (assigned (removedValues (relationNames classes cls) fields) fs)))
    ∧ (∀ tokens,
         (∀ k vals, (k, vals) ∈ relatesLog classes p (VArr items) "" "" →
                    ¬ split_char "/" k `prefix_of` tokens
                    ∧ ¬ tokens `prefix_of` split_char "/" k) →
         walkDataPath tokens d' = walkDataPath tokens d).
Proof.
  intros Hobjects.
  set (log := relatesLog classes p (VArr items) "" "") in *.
  assert (∀ e, e ∈ record_all log [] → e ∈ log) as Hlog.
  { intros e [He | He%elem_of_nil]%record_all_elem; done. }
  destruct (restoreAll_independent (record_all log []) d) as (d' & Hd' & Hassigned & Hother).
  - apply NoDup_keys_record_all. constructor.
  - intros k1 v1 k2 v2 H1%Hlog H2%Hlog. by eapply log_independent.
  - intros k vals Hin%Hlog. by eapply Hobjects.
  - exists d'. split; [done |]. split.
    + intros tokens cls fields rp c fs Hreached Hrelate Hvalues Hwalk.
      pose proof (log_recorded _ _ _ _ _ Hreached Hrelate Hvalues) as Hrec.
      apply assoc_Some_elem in Hrec.
      pose proof (Hassigned _ _ c fs Hrec) as Hnode.
      rewrite (split_related_path classes p relation_names_no_slash _ _ _ _ _
                 Hreached Hrelate) in Hnode.
      by apply Hnode.
    + intros tokens Htokens. apply Hother. intros k vals Hin%Hlog. by eapply Htokens.
Qed.

End GraphRoundTrip.

(** ** Relation paths and their names *)

Lemma split_appendPath_dot path name :
  path ≠ "" → string_has "." name = false →
  split_char "." (appendPath path "." name) = split_char "." path ++ [name].
Proof.
  intros Hpath Hname. unfold appendPath. rewrite bool_decide_false by done.
  change ("." +:+ name) with (String "." name).
  by rewrite split_char_app, (split_char_absent _ name).
Qed.

Lemma relationPathOf_snoc names name :
  relationPathOf (names ++ [name]) = appendPath (relationPathOf names) "." name.
Proof. unfold relationPathOf. by rewrite fold_left_app. Qed.

Lemma split_relationPathOf names :
  names ≠ [] → Forall (λ name, identifier name = true) names →
  relationPathOf names ≠ "" ∧ split_char "." (relationPathOf names) = names.
Proof.
  induction names as [| name names IH] using rev_ind; [done |].
  intros _ [Hnames Hname%Forall_inv]%Forall_app.
  apply identifier_spec in Hname as (Hne & Hdot & _).
  rewrite relationPathOf_snoc. split; [by apply appendPath_nonempty |].
  destruct names as [| name0 names0].
  - change (appendPath (relationPathOf []) "." name) with name.
    by apply split_char_absent.
  - destruct IH as [Hpath Hsplit]; [done | done |].
    by rewrite split_appendPath_dot, Hsplit.
Qed.

Lemma relationPathOf_inj names1 names2 :
  Forall (λ name, identifier name = true) names1 →
  Forall (λ name, identifier name = true) names2 →
  relationPathOf names1 = relationPathOf names2 → names1 = names2.
Proof.
  intros H1 H2 Heq.
  destruct (decide (names1 = [])) as [-> | Hne1];
    destruct (decide (names2 = [])) as [-> | Hne2]; [done | | |].
  - destruct (split_relationPathOf names2) as [Hpath _]; [done | done |].
    by rewrite <- Heq in Hpath.
  - destruct (split_relationPathOf names1) as [Hpath _]; [done | done |].
    by rewrite Heq in Hpath.
  - destruct (split_relationPathOf names1) as [_ <-]; [done | done |].
    destruct (split_relationPathOf names2) as [_ <-]; [done | done |].
    by rewrite Heq.
Qed.

Section Resolve.

Variable classes : list (string * list RelationDef).

Lemma findRelation_name modelClass name r :
  findRelation classes modelClass name = Some r →
  rd_name r = name ∧ r ∈ relationsOf classes modelClass
  ∧ name ∈ relationNames classes modelClass.
Proof.
  unfold findRelation. intros Hfind. apply find_some in Hfind as [Hin Hname].
  apply bool_decide_eq_true in Hname. apply list_elem_of_In in Hin.
  split; [done |]. split; [done |].
  unfold relationNames. apply list_elem_of_fmap. by exists r.
Qed.

Lemma resolveClass_snoc names :
  ∀ modelClass name,
    resolveClass classes modelClass (names ++ [name])
    = c ← resolveClass classes modelClass names;
      r ← findRelation classes c name;
      Some (rd_relatedModelClass r).
Proof.
  induction names as [| name0 names IH]; intros modelClass name; simpl.
  - by destruct (findRelation classes modelClass name).
  - destruct (findRelation classes modelClass name0) as [r |]; [| done]. simpl.
    apply IH.
Qed.

Lemma resolveRelation_snoc names :
  ∀ modelClass name,
    resolveRelation classes modelClass (names ++ [name])
    = c ← resolveClass classes modelClass names;
      findRelation classes c name.
Proof.
  induction names as [| name0 names IH]; intros modelClass name; [done |].
  change (resolveRelation classes modelClass ((name0 :: names) ++ [name]))
    with (match names ++ [name] with
          | [] => findRelation classes modelClass name0
          | _ => r ← findRelation classes modelClass name0;
                 resolveRelation classes (rd_relatedModelClass r) (names ++ [name])
          end).
  destruct (names ++ [name]) eqn:Hnames; [by destruct names |]. rewrite <- Hnames.
  simpl. destruct (findRelation classes modelClass name0) as [r |]; [| done]. simpl.
  apply IH.
Qed.

Hypothesis names_ok : relationNamesOk classes = true.

Lemma resolveRelation_names names :
  ∀ modelClass r,
    resolveRelation classes modelClass names = Some r →
    names ≠ [] ∧ Forall (λ name, identifier name = true) names.
Proof.
  induction names as [| name names IH]; intros modelClass r; [done |].
  intros Hr. split; [done |].
  destruct (findRelation classes modelClass name) as [r0 |] eqn:Hname0.
  - pose proof Hname0 as (_ & _ & Hname)%findRelation_name.
    apply (relationNamesOk_spec _ _ _ names_ok) in Hname.
    constructor; [done |]. destruct names as [| name' names']; [done |].
    change (resolveRelation classes modelClass (name :: name' :: names'))
      with (r ← findRelation classes modelClass name;
            resolveRelation classes (rd_relatedModelClass r) (name' :: names')) in Hr.
    rewrite Hname0 in Hr. by destruct (IH _ _ Hr).
  - simpl in Hr. rewrite Hname0 in Hr. by destruct names.
Qed.

End Resolve.

(** ** The overrides the constructor collects *)

Lemma overrides_grow_refl st : overrides_grow st st.
Proof. by repeat split. Qed.

Lemma overrides_grow_trans st1 st2 st3 :
  overrides_grow st1 st2 → overrides_grow st2 st3 → overrides_grow st1 st3.
Proof.
  intros (Hk1 & He1 & Hn1) (Hk2 & He2 & Hn2). repeat split.
  - intros key Hkey. by apply Hk2, Hk1.
  - intros Hempty. by apply He2, He1.
  - intros Hpos. by apply Hn2, Hn1.
Qed.

Lemma overrides_grow_add key ovr n :
  overrides_grow (ovr, n) (assoc_set key [] ovr, S n).
Proof.
  repeat split; simpl.
  - intros key' Hkey'. rewrite keys_assoc_set. case_bool_decide; [done |].
    apply elem_of_app. by left.
  - intros Hempty key' paths. destruct (decide (key = key')) as [-> | Hne].
    + rewrite assoc_set_eq. by intros [= <-].
    + rewrite assoc_set_ne by done. apply Hempty.
  - lia.
Qed.

Lemma assoc_Some_keys {A} (key : string) (o : list (string * A)) :
  assoc key o ≠ None ↔ key ∈ keys o.
Proof.
  rewrite assoc_None_keys. split; [apply dec_stable | by intros ? ?].
Qed.

Lemma collectRelation_grows opts relation :
  ∀ st, overrides_grow st (collectRelation opts st relation).
Proof.
  unfold collectRelation. generalize (getGraphOptions relation) as graphOptions.
  intros graphOptions.
  induction opts as [| [key opt] opts' IH]; intros [ovr n]; simpl.
  - apply overrides_grow_refl.
  - eapply overrides_grow_trans; [| apply IH].
    destruct (js_in key graphOptions && _ && _).
    + apply overrides_grow_add.
    + apply overrides_grow_refl.
Qed.

(** A relation with [relate: false] gives the [relate] option an override,
    when the option is set globally. *)
Lemma collectRelation_relate opts relation opt :
  ∀ st,
    assoc "relate" opts = Some opt → truthy opt = true →
    get_field "relate" (getGraphOptions relation) = VBool false →
    "relate" ∈ keys (collectRelation opts st relation).1.
Proof.
  intros st Hopt Htruthy Hrelate. revert st Hopt.
  induction opts as [| [key opt'] opts' IH]; intros [ovr n]; simpl; [done |].
  case_bool_decide as Hkey.
  - intros [= ->]. subst key.
    pose proof (collectRelation_grows opts' relation) as Hgrows.
    unfold collectRelation in *. simpl.
    match goal with
    | |- _ ∈ keys (fold_left ?f opts' ?st).1 =>
        assert ("relate" ∈ keys st.1) as Hin; [| by apply (Hgrows st)]
    end.
    assert (js_in "relate" (getGraphOptions relation) = true) as ->.
    { unfold js_in, js_lookup. unfold get_field in Hrelate.
      by destruct (assoc "relate" (getGraphOptions relation)). }
    rewrite Hrelate.
    assert (strict_eq (VBool false) opt = false) as ->.
    { destruct opt as [[| | b | |] | |]; try done. by destruct b. }
    simpl. destruct (js_in "relate" ovr) eqn:Hovr; simpl.
    + apply assoc_Some_keys. unfold js_in, js_lookup in Hovr.
      by destruct (assoc "relate" ovr).
    + rewrite keys_assoc_set. case_bool_decide; [done |].
      apply elem_of_app. right. by left.
  - intros Hopt. unfold collectRelation in *. simpl. by apply IH.
Qed.

Lemma filter_length_mono {A} (P Q : A → bool) (l : list A) :
  (∀ y, Q y = true → P y = true) →
  (length (List.filter Q l) ≤ length (List.filter P l))%nat.
Proof.
  intros HQP. induction l as [| y l IH]; simpl; [done |].
  destruct (Q y) eqn:HQ.
  - rewrite (HQP y HQ). simpl. lia.
  - destruct (P y); simpl; lia.
Qed.

Lemma filter_length_lt {A} (P Q : A → bool) (l : list A) x :
  (∀ y, Q y = true → P y = true) →
  x ∈ l → P x = true → Q x = false →
  (length (List.filter Q l) < length (List.filter P l))%nat.
Proof.
  intros HQP Hx HP HQ. induction l as [| y l IH]; [by apply elem_of_nil in Hx |].
  pose proof (filter_length_mono P Q l HQP) as Hle.
  apply elem_of_cons in Hx as [<- | Hx]; simpl.
  - rewrite HP, HQ. simpl. lia.
  - specialize (IH Hx). destruct (Q y) eqn:HQy.
    + rewrite (HQP y HQy). simpl. lia.
    + destruct (P y); simpl; lia.
Qed.

Section Overrides.

Variable classes : list (string * list RelationDef).
Variable opts : list (string * value).
Variable nOptions : nat.

Lemma collectRelations_grows rec :
  (∀ st c st', rec st c = Some st' → overrides_grow st.1 st'.1) →
  ∀ rs st st',
    collectRelations opts nOptions rec rs st = Some st' →
    overrides_grow st.1 st'.1
    ∧ ∀ r opt,
        r ∈ rs → assoc "relate" opts = Some opt → truthy opt = true →
        get_field "relate" (getGraphOptions r) = VBool false →
        "relate" ∈ keys st'.1.1.
Proof.
  intros Hrec. induction rs as [| r0 rs IH]; intros [[ovr n] processed] st'; simpl.
  - intros [= <-]. split; [apply overrides_grow_refl |].
    by intros r opt ?%elem_of_nil.
  - destruct (collectRelation opts (ovr, n) r0) as [ovr1 n1] eqn:Hcollect.
    destruct (if (n1 <? nOptions)%nat
              then rec (ovr1, n1, processed) (rd_relatedModelClass r0)
              else Some (ovr1, n1, processed)) as [st1 |] eqn:Hst1; [| done].
    simpl. intros Hst'. apply IH in Hst' as [Hgrows Hrelate].
    assert (overrides_grow (ovr, n) (ovr1, n1)) as H01.
    { rewrite <- Hcollect. apply collectRelation_grows. }
    assert (overrides_grow (ovr1, n1) st1.1) as H12.
    { destruct (n1 <? nOptions)%nat.
      - by apply Hrec in Hst1.
      - injection Hst1 as <-. apply overrides_grow_refl. }
    split.
    + eapply overrides_grow_trans; [exact H01 |].
      eapply overrides_grow_trans; [exact H12 | exact Hgrows].
    + intros r opt [-> | Hin]%elem_of_cons Hopt Htruthy Hfalse.
      * apply Hgrows, H12. simpl.
        pose proof (collectRelation_relate opts r0 opt (ovr, n) Hopt Htruthy Hfalse) as Hin.
        by rewrite Hcollect in Hin.
      * by eapply Hrelate.
Qed.

Lemma processModelClass_grows fuel :
  ∀ st c st',
    processModelClass classes fuel opts nOptions st c = Some st' →
    overrides_grow st.1 st'.1.
Proof.
  induction fuel as [| fuel IH]; intros [[ovr n] processed] c st'; simpl; [done |].
  destruct (bool_decide (c ∈ processed) || inherited c).
  - intros [= <-]. apply overrides_grow_refl.
  - intros Hst'. by apply (collectRelations_grows _ IH) in Hst' as [Hgrows _].
Qed.

(** The relations of the root class are all looked at. *)
Lemma processModelClass_root fuel root st' r opt :
  processModelClass classes fuel opts nOptions ([], 0%nat, []) root = Some st' →
  inherited root = false →
  r ∈ relationsOf classes root →
  assoc "relate" opts = Some opt → truthy opt = true →
  get_field "relate" (getGraphOptions r) = VBool false →
  "relate" ∈ keys st'.1.1.
Proof.
  destruct fuel as [| fuel]; simpl; [done |]. intros Hst' Hroot.
  rewrite Hroot in Hst'.
  apply (collectRelations_grows _ (processModelClass_grows fuel)) in Hst' as [_ Hrelate].
  apply Hrelate.
Qed.

(** *** The depth of [collectOverrides] *)

Lemma unprocessed_mono processed processed' :
  processed ⊆ processed' →
  (length (unprocessed classes processed') ≤ length (unprocessed classes processed))%nat.
Proof.
  intros Hsub. apply filter_length_mono. intros c Hc.
  apply negb_true_iff, bool_decide_eq_false in Hc.
  apply negb_true_iff, bool_decide_eq_false. intros Hin. by apply Hc, Hsub.
Qed.

Lemma unprocessed_mark processed c :
  c ∈ keys classes → c ∉ processed →
  (length (unprocessed classes (c :: processed))
   < length (unprocessed classes processed))%nat.
Proof.
  intros Hc Hnew. apply (filter_length_lt _ _ _ c); [| done | |].
  - intros c' Hc'. apply negb_true_iff, bool_decide_eq_false in Hc'.
    apply negb_true_iff, bool_decide_eq_false. intros Hin. apply Hc'. by right.
  - by apply negb_true_iff, bool_decide_eq_false.
  - apply negb_false_iff, bool_decide_eq_true. by left.
Qed.

Lemma collectRelations_total rec (depth : nat) :
  (∀ st c, (length (unprocessed classes st.2) < depth)%nat →
           ∃ st', rec st c = Some st' ∧ st.2 ⊆ st'.2) →
  ∀ rs st,
    (length (unprocessed classes st.2) < depth)%nat →
    ∃ st', collectRelations opts nOptions rec rs st = Some st' ∧ st.2 ⊆ st'.2.
Proof.
  intros Hrec. induction rs as [| r0 rs IH]; intros [[ovr n] processed] Hdepth; simpl.
  - by eexists.
  - destruct (collectRelation opts (ovr, n) r0) as [ovr1 n1].
    assert (∃ st1, (if (n1 <? nOptions)%nat
                    then rec (ovr1, n1, processed) (rd_relatedModelClass r0)
                    else Some (ovr1, n1, processed)) = Some st1
                   ∧ processed ⊆ st1.2) as (st1 & -> & Hsub1).
    { destruct (n1 <? nOptions)%nat; [by apply Hrec | by eexists]. }
    simpl. destruct (IH st1) as (st' & Hst' & Hsub).
    + pose proof (unprocessed_mono _ _ Hsub1). simpl in *. lia.
    + exists st'. split; [done |]. by etrans.
Qed.

Lemma processModelClass_total fuel :
  ∀ st c,
    (length (unprocessed classes st.2) < fuel)%nat →
    ∃ st', processModelClass classes fuel opts nOptions st c = Some st' ∧ st.2 ⊆ st'.2.
Proof.
  induction fuel as [| fuel IH]; intros [[ovr n] processed] c Hfuel; simpl in *; [lia |].
  destruct (bool_decide (c ∈ processed)) eqn:Hprocessed; simpl; [by eexists |].
  destruct (inherited c); [by eexists |].
  apply bool_decide_eq_false in Hprocessed.
  destruct (assoc c classes) as [rs |] eqn:Hc.
  - destruct (collectRelations_total _ fuel IH (relationsOf classes c)
                (ovr, n, c :: processed)) as (st' & Hst' & Hsub).
    + simpl. assert (c ∈ keys classes) as Hin.
      { apply assoc_Some_keys. by rewrite Hc. }
      pose proof (unprocessed_mark processed c Hin Hprocessed). lia.
    + exists st'. split; [done |]. simpl in *. set_solver.
  - unfold relationsOf. rewrite Hc. simpl. eexists. split; [done |]. simpl. set_solver.
Qed.

End Overrides.

(** [collectOverrides] always returns: it marks a class at every level of
    its recursion, so that the depth stays below the number of classes. *)
Lemma collectOverrides_total classes p : ∃ p', collectOverrides classes p = Some p'.
Proof.
  unfold collectOverrides.
  destruct (processModelClass_total classes (options p) (numOptions p)
              (S (length classes)) (overrides p, numOverrides p, []) (rootModelClass p))
    as ([[ovr n] processed] & -> & _).
  - simpl. unfold unprocessed. pose proof (filter_length_le
      (λ c, negb (bool_decide (c ∈ @nil string))) (keys classes)) as Hle.
    unfold keys in *. rewrite length_map in Hle. lia.
  - by eexists.
Qed.

(** ** The overrides [processOverrides] fills *)

Lemma expression_ind' (P : expression → Prop) :
  (∀ cs, Forall (λ kc, P kc.2) cs → P (Expression cs)) → ∀ e, P e.
Proof.
  intros Hnode. fix IH 1. intros [cs]. apply Hnode.
  induction cs as [| [k c] cs IHcs]; constructor; [apply IH | exact IHcs].
Qed.

Lemma overrides_extend_refl classes root opts ovr :
  overrides_extend classes root opts ovr ovr.
Proof.
  split; [done |]. intros key paths Hpaths. exists [].
  by rewrite app_nil_r.
Qed.

Lemma overrides_extend_trans classes root opts ovr1 ovr2 ovr3 :
  overrides_extend classes root opts ovr1 ovr2 →
  overrides_extend classes root opts ovr2 ovr3 →
  overrides_extend classes root opts ovr1 ovr3.
Proof.
  intros [Hk1 H1] [Hk2 H2]. split; [by rewrite Hk2 |].
  intros key paths Hpaths.
  destruct (H1 _ _ Hpaths) as (added1 & Hpaths1 & Hadded1).
  destruct (H2 _ _ Hpaths1) as (added2 & Hpaths2 & Hadded2).
  exists (added1 ++ added2). rewrite app_assoc. split; [done |].
  by apply Forall_app.
Qed.

Lemma pushOverrides_extend classes root opts names r ovr :
  resolveRelation classes root names = Some r →
  overrides_extend classes root opts ovr (pushOverrides opts r (relationPathOf names) ovr).
Proof.
  intros Hr. split.
  - unfold pushOverrides, keys. rewrite map_map. apply map_ext.
    intros [key paths]. by destruct (truthy _).
  - intros key paths.
    induction ovr as [| [k ps] ovr IH]; simpl; [done |].
    case_bool_decide as Hk.
    + intros [= ->]. subst k.
      destruct (truthy _) eqn:Hoption; simpl; rewrite bool_decide_true by done.
      * exists [relationPathOf names]. split; [done |].
        constructor; [| done]. by exists names, r.
      * exists []. by rewrite app_nil_r.
    + intros Hpaths. destruct (IH Hpaths) as (added & Hadded & Hall).
      exists added. split; [| done].
      destruct (truthy _); simpl; by rewrite bool_decide_false.
Qed.

Lemma processExpression_extend classes root opts node :
  ∀ modelClass relation names ovr ovr',
    processExpression classes opts node modelClass relation (relationPathOf names) ovr
      = Some ovr' →
    resolveClass classes root names = Some modelClass →
    match relation with
    | Some r => resolveRelation classes root names = Some r
    | None => True
    end →
    overrides_extend classes root opts ovr ovr'.
Proof.
  induction node as [cs IH] using expression_ind'.
  intros modelClass relation names ovr ovr' Hovr' Hclass Hrelation.
  simpl in Hovr'.
  set (ovr0 := match relation with
               | Some r => pushOverrides opts r (relationPathOf names) ovr
               | None => ovr
               end) in *.
  assert (overrides_extend classes root opts ovr ovr0) as H0.
  { subst ovr0. destruct relation as [r |].
    - by apply pushOverrides_extend.
    - apply overrides_extend_refl. }
  eapply overrides_extend_trans; [exact H0 |]. clear H0.
  revert Hovr'. generalize ovr0 as ovr1. clear ovr0.
  induction IH as [| [key child] cs Hchild _ IHcs]; intros ovr1.
  - intros [= <-]. apply overrides_extend_refl.
  - destruct (findRelation classes modelClass key) as [r |] eqn:Hkey; [| done].
    rewrite <- relationPathOf_snoc.
    destruct (processExpression classes opts child _ _ _ ovr1) as [ovr2 |] eqn:Hovr2;
      [| done].
    simpl. intros Hovr'. eapply overrides_extend_trans; [| by apply IHcs].
    apply (Hchild _ _ _ _ _ Hovr2).
    + rewrite resolveClass_snoc, Hclass. simpl. by rewrite Hkey.
    + rewrite resolveRelation_snoc, Hclass. simpl. exact Hkey.
Qed.

(** ** The processor the constructor returns *)

Lemma GraphProcessor_new_spec classes root v opts settings p :
  GraphProcessor_new classes root v opts settings = Some p →
  rootModelClass p = root ∧ data p = ensureModelArray v ∧ isArray_ p = isArray v
  ∧ options p = opts
  ∧ removedRelations p = (if restoreRelations_ settings then Some [] else None)
  ∧ (∀ key paths, assoc key (overrides p) = Some paths →
                  Forall (overridden classes root opts key) paths)
  ∧ (processOverrides_ settings = true → inherited root = false →
     ∀ r opt, r ∈ relationsOf classes root →
              assoc "relate" opts = Some opt → truthy opt = true →
              get_field "relate" (getGraphOptions r) = VBool false →
              assoc "relate" (overrides p) ≠ None).
Proof.
  unfold GraphProcessor_new.
  set (p0 := {| rootModelClass := root; data := ensureModelArray v;
                isArray_ := isArray v; options := opts; overrides := [];
                numOptions := length opts; numOverrides := 0;
                removedRelations := None |}).
  destruct (processOverrides_ settings); simpl.
  - unfold collectOverrides. remember (S (length classes)) as fuel eqn:Hfuel. simpl.
    destruct (processModelClass classes fuel opts (length opts)
                ([], 0%nat, []) root) as [[[ovr n] processed] |] eqn:Hcollect;
      [| by simpl].
    simpl.
    pose proof (processModelClass_grows classes opts (length opts) _ _ _ _ Hcollect)
      as (_ & Hempty & Hpos). simpl in Hempty, Hpos.
    specialize (Hempty ltac:(done)). specialize (Hpos ltac:(done)).
    assert (inherited root = false →
            ∀ r opt, r ∈ relationsOf classes root →
                     assoc "relate" opts = Some opt → truthy opt = true →
                     get_field "relate" (getGraphOptions r) = VBool false →
                     "relate" ∈ keys ovr) as Hrelate.
    { intros Hroot r opt Hr Hopt Htruthy Hfalse.
      apply (processModelClass_root classes opts (length opts) _ _ _ r opt Hcollect);
        done. }
    destruct (0 <? n)%nat eqn:Hn.
    + unfold processOverrides. simpl.
      destruct (processExpression classes opts _ root None "" ovr) as [ovr' |] eqn:Hovr';
        [| done].
      simpl. intros [= <-]. simpl. repeat split; try done.
      * intros key paths Hpaths.
        apply (processExpression_extend classes root opts _ root None []) in Hovr'
          as [Hkeys Hextend]; [| done | done].
        destruct (assoc key ovr) as [paths0 |] eqn:Hkey.
        -- destruct (Hextend _ _ Hkey) as (added & Hadded & Hall).
           rewrite (Hempty _ _ Hkey) in Hadded. rewrite Hadded in Hpaths.
           by injection Hpaths as <-.
        -- apply assoc_None_keys in Hkey. rewrite <- Hkeys in Hkey.
           apply assoc_None_keys in Hkey. by rewrite Hkey in Hpaths.
      * intros _ Hroot r opt Hr Hopt Htruthy Hfalse.
        apply (processExpression_extend classes root opts _ root None []) in Hovr'
          as [Hkeys _]; [| done | done].
        apply assoc_Some_keys. rewrite Hkeys. by eapply Hrelate.
    + intros [= <-]. simpl. repeat split; try done.
      * intros key paths Hpaths. by rewrite (Hempty _ _ Hpaths).
      * intros _ Hroot r opt Hr Hopt Htruthy Hfalse.
        apply assoc_Some_keys. by eapply Hrelate.
  - intros [= <-]. simpl. repeat split; try done.
Qed.

(** ** Relation paths of the nodes the walk reaches *)

Section ReachedNames.

Variable classes : list (string * list RelationDef).
Variable p : GraphProcessor.
Hypothesis names_ok : relationNamesOk classes = true.

(** The relation path of a node the walk arrives at is that of the relation
    names on the way, and the models on the way are not related. *)
Lemma reached_names tokens :
  ∀ v names node rp,
    reached classes p v (relationPathOf names) tokens = Some (node, rp) →
    ∃ names',
      rp = relationPathOf (names ++ names')
      ∧ Forall (λ name, identifier name = true) names'
      ∧ ∀ names1 names2,
          names' = names1 ++ names2 → names2 ≠ [] →
          truthy (shouldRelate p (relationPathOf (names ++ names1))) = false.
Proof.
  induction tokens as [| token tokens IH]; intros v names node rp; simpl.
  - intros [= <- <-]. exists []. rewrite app_nil_r. split; [done |]. split; [done |].
    intros names1 names2 Hnil. by destruct names1, names2.
  - destruct v as [a | items | [cls |] fields]; [done | | | done].
    + destruct (array_get items token) as [x |]; [| done]. simpl. apply IH.
    + destruct (truthy (shouldRelate p (relationPathOf names))) eqn:Hrelate; [done |].
      case_bool_decide as Htoken; [| done].
      destruct (assoc token fields) as [x |]; [| done]. simpl.
      rewrite <- relationPathOf_snoc. intros Hreached.
      apply IH in Hreached as (names' & -> & Hnames' & Hprefix).
      exists (token :: names'). rewrite <- app_assoc. split; [done |]. split.
      * constructor; [| done]. by eapply relationNamesOk_spec.
      * intros [| name1 names1] names2; simpl.
        -- intros _ _. by rewrite app_nil_r.
        -- intros [= <- ->] Hne.
           specialize (Hprefix names1 names2 eq_refl Hne).
           by rewrite <- app_assoc in Hprefix.
Qed.

End ReachedNames.

(** A relation with [relate: false] is not among the overrides of [relate]. *)
Lemma override_false_not_listed classes root opts names r relate :
  relationNamesOk classes = true →
  Forall (overridden classes root opts "relate") relate →
  resolveRelation classes root names = Some r →
  get_field "relate" (getGraphOptions r) = VBool false →
  relationPathOf names ∉ relate.
Proof.
  intros Hok Hall Hr Hfalse Hin.
  rewrite Forall_forall in Hall.
  destruct (Hall _ Hin) as (names' & r' & Hpath & Hr' & Htruthy).
  fold (relationPathOf names') in Hpath.
  destruct (resolveRelation_names classes Hok _ _ _ Hr) as [_ Hnames].
  destruct (resolveRelation_names classes Hok _ _ _ Hr') as [_ Hnames'].
  apply relationPathOf_inj in Hpath; [| done | done]. subst names'.
  rewrite Hr in Hr'. injection Hr' as <-.
  unfold effectiveOption in Htruthy. by rewrite Hfalse in Htruthy.
Qed.

(** A model the walk reaches through a relation with [relate: false] is not
    related, when the processor was made with [processOverrides]. *)
Lemma override_false_not_related classes root v opts settings p tokens node names r :
  relationNamesOk classes = true →
  GraphProcessor_new classes root v opts settings = Some p →
  processOverrides_ settings = true → inherited root = false →
  reached classes p (VArr (data p)) "" tokens = Some (node, relationPathOf names) →
  resolveRelation classes root names = Some r →
  get_field "relate" (getGraphOptions r) = VBool false →
  truthy (shouldRelate p (relationPathOf names)) = false.
Proof.
  intros Hok Hnew Hsetting Hroot Hreached Hr Hfalse.
  destruct (GraphProcessor_new_spec _ _ _ _ _ _ Hnew)
    as (_ & _ & _ & Hopts & _ & Hoverridden & Hdirect).
  destruct (resolveRelation_names classes Hok _ _ _ Hr) as [Hne Hnames].
  destruct (split_relationPathOf names Hne Hnames) as [Hpath _].
  unfold shouldRelate. rewrite bool_decide_false by done. simpl.
  destruct (assoc "relate" (overrides p)) as [relate |] eqn:Hrelate.
  - simpl. apply bool_decide_eq_false.
    eapply override_false_not_listed; try done. by eapply Hoverridden.
  - rewrite Hopts. destruct (truthy (get_field "relate" opts)) eqn:Htruthy; [| done].
    exfalso. unfold get_field in Htruthy.
    destruct (assoc "relate" opts) as [opt |] eqn:Hopt; [| done]. simpl in Htruthy.
    apply (reached_names classes p Hok _ _ []) in Hreached
      as (names' & Heq & Hnames' & Hprefix).
    simpl in Heq. apply relationPathOf_inj in Heq; [| done | done]. subst names'.
    destruct names as [| name names1 _] using rev_ind; [done |].
    destruct names1 as [| name1 names1].
    + apply (Hdirect Hsetting Hroot r opt); try done.
      simpl in Hr. by apply findRelation_name in Hr as (_ & Hin & _).
    + specialize (Hprefix (name1 :: names1) [name] eq_refl ltac:(done)).
      simpl in Hprefix. unfold shouldRelate in Hprefix.
      apply Forall_app in Hnames as [Hnames1 _].
      destruct (split_relationPathOf (name1 :: names1)) as [Hpath1 _]; [done | done |].
      rewrite bool_decide_false in Hprefix by done. simpl in Hprefix.
      rewrite Hrelate, Hopts in Hprefix. unfold get_field in Hprefix.
      rewrite Hopt in Hprefix. simpl in Hprefix. by rewrite Htruthy in Hprefix.
Qed.

(** ** The data [getData] returns, seen as an array *)

Lemma getData_new classes root v opts settings p :
  GraphProcessor_new classes root v opts settings = Some p →
  restoreRelations_ settings = true →
  removedRelations (getData classes p).1
  = Some (record_all (relatesLog classes p (VArr (data p)) "" "") [])
  ∧ ∀ tokens c fs,
      walkDataPath tokens (relatesData classes p (VArr (data p)) "") = Some (VObj c fs) →
      walkDataPath tokens (VArr (asArray (getData classes p).2)) = Some (VObj c fs).
Proof.
  intros Hnew Hrestore.
  destruct (GraphProcessor_new_spec _ _ _ _ _ _ Hnew)
    as (_ & Hdata & HisArray & _ & Hremoved & _ & _).
  rewrite Hrestore in Hremoved. rewrite getData_spec. simpl.
  rewrite Hremoved, Hdata, HisArray. split; [done |].
  intros tokens c fs. destruct v as [a | items | cls fields]; simpl.
  - destruct tokens as [| token [| token' tokens]]; simpl; [done | |].
    + unfold array_get. destruct (NilZero.uint_of_string token) as [d |]; [| done].
      case_bool_decide; [| done]. by destruct (Nat.of_uint d) as [| [| i]].
    + unfold array_get. destruct (NilZero.uint_of_string token) as [d |]; [| done].
      case_bool_decide; [| done]. by destruct (Nat.of_uint d) as [| [| i]].
  - done.
  - by destruct cls.
Qed.

(** C1 (graph write round trip, with the condition on the override).
    For a processor created with [settings.restoreRelations], over classes
    whose relation names are identifiers:
    - [getData()] reduces every model the walk reaches with a relation path
      that [shouldRelate] accepts to a shallow clone, found at the data path
      of the model, in which the relations are removed and the other fields
      kept; the relations of the model that are not [undefined] are recorded
      in the removed-relations map under that data path, whose tokens are
      the structural path of the model; and the map has no other entries;
    - [restoreRelations(result)], for a result with an object at every
      recorded path, assigns to the object at the path of each such model
      the values recorded for it, which replace the fields of these names
      and leave the others, and leaves alone what is beside these paths;
    - when the result is the data of [getData()] itself, every such model
      has all the fields of the original again;
    - a model reached through a relation whose metadata has [relate: false]
      is not converted and is cloned with all its fields, the relations
      among them processed in turn, provided the processor was also created
      with [settings.processOverrides] (and the root class is not named like
      a member of [Object.prototype]); being reached, the model is not below
      a converted one. *)
Theorem graph_write_round_trip classes root v opts settings p :
  relationNamesOk classes = true →
  GraphProcessor_new classes root v opts settings = Some p →
  restoreRelations_ settings = true →
  ∃ recorded,
    removedRelations (getData classes p).1 = Some recorded
    ∧ (∀ tokens cls fields rp,
         reached classes p (VArr (data p)) "" tokens = Some (VObj (Some cls) fields, rp) →
         truthy (shouldRelate p rp) = true →
         let relations := relationNames classes cls in
         walkDataPath tokens (VArr (asArray (getData classes p).2))
         = Some (VObj (Some cls) (clone_fields true relations fields))
         ∧ (∀ key, assoc key (clone_fields true relations fields)
                   = if bool_decide (key ∈ relations) then None else assoc key fields)
         ∧ (∀ key, assoc key (removedValues relations fields)
                   = if bool_decide (key ∈ relations)
                        && negb (is_undefined (get_field key fields))
                     then Some (get_field key fields)
                     else None)
         ∧ split_char "/" (extendPath "" tokens) = tokens
         ∧ (removedValues relations fields ≠ [] →
            assoc (extendPath "" tokens) recorded = Some (removedValues relations fields)))
    ∧ (∀ path values,
         (path, values) ∈ recorded →
         relates_entry classes p (VArr (data p)) "" "" path values)
    ∧ (∀ result,
         (∀ path values, (path, values) ∈ recorded →
            ∃ c fs, getDataPath (VArr (asArray result)) path = Some (VObj c fs)) →
         ∃ result',
           restoreRelations (getData classes p).1 result = Some result'
           ∧ (∀ tokens cls fields rp c fs,
                reached classes p (VArr (data p)) "" tokens
                  = Some (VObj (Some cls) fields, rp) →
                truthy (shouldRelate p rp) = true →
                let values := removedValues (relationNames classes cls) fields in
                values ≠ [] →
                walkDataPath tokens (VArr (asArray result)) = Some (VObj c fs) →
                walkDataPath tokens (VArr (asArray result'))
                = Some (VObj c (assigned values fs))
                ∧ ∀ key, get_field key (assigned values fs)
                         = default (get_field key fs) (assoc key values))
           ∧ (∀ tokens,
                (∀ path values, (path, values) ∈ recorded →
                   ¬ split_char "/" path `prefix_of` tokens
                   ∧ ¬ tokens `prefix_of` split_char "/" path) →
                walkDataPath tokens (VArr (asArray result'))
                = walkDataPath tokens (VArr (asArray result))))
    ∧ (∃ result',
         restoreRelations (getData classes p).1 (getData classes p).2 = Some result'
         ∧ ∀ tokens cls fields rp,
             reached classes p (VArr (data p)) "" tokens
               = Some (VObj (Some cls) fields, rp) →
             truthy (shouldRelate p rp) = true →
             ∃ fields',
               walkDataPath tokens (VArr (asArray result')) = Some (VObj (Some cls) fields')
               ∧ ∀ key, get_field key fields' = get_field key fields)
    ∧ (processOverrides_ settings = true → inherited root = false →
       ∀ tokens cls fields names r,
         reached classes p (VArr (data p)) "" tokens
           = Some (VObj (Some cls) fields, relationPathOf names) →
         resolveRelation classes root names = Some r →
         get_field "relate" (getGraphOptions r) = VBool false →
         truthy (shouldRelate p (relationPathOf names)) = false
         ∧ ∃ fields',
             walkDataPath tokens (VArr (asArray (getData classes p).2))
             = Some (VObj (Some cls) fields')
             ∧ keys fields' = keys fields
             ∧ (∀ key, key ∉ relationNames classes cls →
                       assoc key fields' = assoc key fields)
             ∧ (∀ key, key ∈ relationNames classes cls →
                       assoc key fields'
                       = (λ x, relatesData classes p x
                                 (appendPath (relationPathOf names) "." key))
                           <$> assoc key fields)).
Proof.
  intros Hok Hnew Hrestore.
  destruct (getData_new _ _ _ _ _ _ Hnew Hrestore) as [Hrecorded Hwalk].
  set (out := (getData classes p).2) in *.
  set (log := relatesLog classes p (VArr (data p)) "" "") in *.
  pose proof (relation_names_no_slash classes Hok) as Hslash.
  exists (record_all log []). split; [exact Hrecorded |].
  assert (∀ tokens cls fields rp,
            reached classes p (VArr (data p)) "" tokens
              = Some (VObj (Some cls) fields, rp) →
            truthy (shouldRelate p rp) = true →
            walkDataPath tokens (VArr (asArray out))
            = Some (VObj (Some cls) (clone_fields true (relationNames classes cls) fields)))
    as Hstub.
  { intros tokens cls fields rp Hreached Hrelate. apply Hwalk.
    rewrite (walk_relatesData classes p _ _ _ _ _ Hreached).
    by rewrite relatesData_stub. }
  assert (∀ k vals, (k, vals) ∈ log → (k, vals) ∈ record_all log []) as Hin_recorded.
  { intros k vals Hin. apply assoc_Some_elem, record_all_lookup; [| done].
    intros v1 v2. by apply log_functional. }
  assert (∀ k vals, (k, vals) ∈ record_all log [] → (k, vals) ∈ log) as Hin_log.
  { by intros k vals [Hin | Hin%elem_of_nil]%record_all_elem. }
  assert (∀ result,
         (∀ path values, (path, values) ∈ record_all log [] →
            ∃ c fs, getDataPath (VArr (asArray result)) path = Some (VObj c fs)) →
         ∃ result',
           restoreRelations (getData classes p).1 result = Some result'
           ∧ (∀ tokens cls fields rp c fs,
                reached classes p (VArr (data p)) "" tokens
                  = Some (VObj (Some cls) fields, rp) →
                truthy (shouldRelate p rp) = true →
                let values := removedValues (relationNames classes cls) fields in
                values ≠ [] →
                walkDataPath tokens (VArr (asArray result)) = Some (VObj c fs) →
                walkDataPath tokens (VArr (asArray result'))
                = Some (VObj c (assigned values fs))
                ∧ ∀ key, get_field key (assigned values fs)
                         = default (get_field key fs) (assoc key values))
           ∧ (∀ tokens,
                (∀ path values, (path, values) ∈ record_all log [] →
                   ¬ split_char "/" path `prefix_of` tokens
                   ∧ ¬ tokens `prefix_of` split_char "/" path) →
                walkDataPath tokens (VArr (asArray result'))
                = walkDataPath tokens (VArr (asArray result)))) as Hrestored.
  { intros result Hobjects.
    destruct (restore_recorded classes p Hok (data p) (VArr (asArray result)))
      as (d' & Hd' & Hassigned & Hother).
    { intros k vals Hin. apply (Hobjects k vals). by apply Hin_recorded. }
    destruct (restoreRelations_asArray (getData classes p).1 result d')
      as (result' & Hresult' & ->).
    { rewrite Hrecorded. exact Hd'. }
    exists result'. split; [done |]. split.
    - intros tokens cls fields rp c fs Hreached Hrelate values Hvalues Hnode. split.
      + by eapply Hassigned.
      + intros key. unfold get_field.
        rewrite assoc_assigned by apply NoDup_keys_removedValues.
        by destruct (assoc key values).
    - intros tokens Htokens. apply Hother. intros k vals Hin.
      apply (Htokens k vals). by apply Hin_recorded. }
  split; [| split; [| split; [exact Hrestored | split]]].
  - intros tokens cls fields rp Hreached Hrelate relations. repeat split.
    + by eapply Hstub.
    + intros key. apply assoc_clone_shallow.
    + intros key. apply assoc_removedValues.
    + by eapply split_related_path.
    + intros Hvalues. by eapply log_recorded.
  - intros path values Hin%Hin_log. by apply relatesLog_entry.
  - destruct (Hrestored out) as (result' & Hresult' & Hnodes & Hother).
    { intros path values Hin%Hin_log.
      apply relatesLog_entry in Hin
        as (tokens & cls & fields & rp & Hreached & Hrelate & -> & _ & _).
      unfold getDataPath.
      rewrite (split_related_path classes p Hslash _ _ _ _ _ Hreached Hrelate).
      rewrite (Hstub _ _ _ _ Hreached Hrelate). by eexists _, _. }
    exists result'. split; [done |].
    intros tokens cls fields rp Hreached Hrelate.
    pose proof (Hstub _ _ _ _ Hreached Hrelate) as Hnode.
    destruct (decide (removedValues (relationNames classes cls) fields = []))
      as [Hnone | Hvalues].
    + exists (clone_fields true (relationNames classes cls) fields). split.
      * rewrite Hother; [done |]. intros path values Hin%Hin_log.
        pose proof Hin
          as (tokens' & cls' & fields' & rp' & Hreached' & Hrelate' & -> & -> & Hsome)
               %relatesLog_entry.
        rewrite (split_related_path classes p Hslash _ _ _ _ _ Hreached' Hrelate').
        split; intros Hprefix.
        -- pose proof (reached_related_independent classes p _ _ _ _ _ _ _ _ _
                         Hreached' Hrelate' Hreached Hprefix) as ->.
           rewrite Hreached in Hreached'. by injection Hreached' as <- <- <-.
        -- pose proof (reached_related_independent classes p _ _ _ _ _ _ _ _ _
                         Hreached Hrelate Hreached' Hprefix) as ->.
           rewrite Hreached in Hreached'. by injection Hreached' as <- <- <-.
      * intros key.
        pose proof (get_field_restored (relationNames classes cls) fields key) as Hkey.
        by rewrite Hnone in Hkey.
    + destruct (Hnodes _ _ _ _ _ _ Hreached Hrelate Hvalues Hnode) as [Hnode' _].
      eexists. split; [exact Hnode' |]. intros key. apply get_field_restored.
  - intros Hsetting Hroot tokens cls fields names r Hreached Hr Hfalse.
    pose proof (override_false_not_related _ _ _ _ _ _ _ _ _ _ Hok Hnew Hsetting Hroot
                  Hreached Hr Hfalse) as Hrelate.
    split; [done |].
    destruct (relatesData_full_clone classes p cls fields _ Hrelate)
      as (fields' & Hdata & Hkeys & Hown & Hrelations).
    exists fields'. split; [| done]. apply Hwalk.
    by rewrite (walk_relatesData classes p _ _ _ _ _ Hreached), Hdata.
Qed.

Lemma graph_write_round_trip_witness :
  GraphProcessor_new sample_classes "Person" sample_graph sample_options
    {| processOverrides_ := true; restoreRelations_ := true |}
  = Some sample_processor
  ∧ walkDataPath ["0"; "friend"]
      (VArr (asArray (getData sample_classes sample_processor).2))
    = Some (VObj (Some "Person") [("id", VNum 2); ("name", VStr "Bob")])
  ∧ truthy (shouldRelate sample_processor "pets") = false.
Proof.
  assert (GraphProcessor_new sample_classes "Person" sample_graph sample_options
            {| processOverrides_ := true; restoreRelations_ := true |}
          = Some sample_processor) as Hnew by (vm_compute; reflexivity).
  split; [exact Hnew |].
  destruct (graph_write_round_trip sample_classes "Person" sample_graph sample_options
              {| processOverrides_ := true; restoreRelations_ := true |}
              sample_processor)
    as (recorded & _ & Hconverted & _ & _ & _ & Hoverride).
  - vm_compute. reflexivity.
  - exact Hnew.
  - reflexivity.
  - split.
    + destruct (Hconverted ["0"; "friend"] "Person"
                  [("id", VNum 2); ("name", VStr "Bob"); ("pets", VArr [sample_pet 5])]
                  "friend") as [Hnode _].
      * vm_compute. reflexivity.
      * vm_compute. reflexivity.
      * vm_compute in Hnode. vm_compute. exact Hnode.
    + destruct (Hoverride eq_refl eq_refl ["0"; "pets"; "0"] "Pet"
                  [("id", VNum 3); ("name", VStr "Rex");
                   ("vet", VObj (Some "Person")
                             [("id", VNum 9);
                              ("friend", VObj (Some "Person") [("id", VNum 10)])])]
                  ["pets"]
                  {| rd_name := "pets"; rd_relatedModelClass := "Pet";
                     rd_graphOptions := Some [("relate", VBool false)];
                     rd_owner := false |}) as [Hrelate _].
      * vm_compute. reflexivity.
      * vm_compute. reflexivity.
      * vm_compute. reflexivity.
      * exact Hrelate.
Defined.

(** C1: the claim fails for the relation [pets] of the sample, whose
    metadata has [relate: false]. Without [settings.processOverrides] the
    pets of the root are converted as every other nested model, and their
    vets recorded; with it, the pets of the friend do not get through
    [getData()] either, since the friend is converted. *)
Lemma override_false_relation_converted :
  (∃ r, resolveRelation sample_classes "Person" ["pets"] = Some r
        ∧ get_field "relate" (getGraphOptions r) = VBool false)
  ∧ GraphProcessor_new sample_classes "Person" sample_graph sample_options
      {| processOverrides_ := false; restoreRelations_ := true |}
    = Some sample_processor_plain
  ∧ reached sample_classes sample_processor_plain (VArr [sample_graph]) ""
      ["0"; "pets"; "0"]
    = Some (sample_pet 3, "pets")
  ∧ shouldRelate sample_processor_plain "pets" = VBool true
  ∧ walkDataPath ["pets"; "0"] (getData sample_classes sample_processor_plain).2
    = Some (VObj (Some "Pet") [("id", VNum 3); ("name", VStr "Rex")])
  ∧ removedRelations (getData sample_classes sample_processor_plain).1
      ≫= assoc "0/pets/0"
    = Some [("vet", VObj (Some "Person")
                      [("id", VNum 9);
                       ("friend", VObj (Some "Person") [("id", VNum 10)])])]
  ∧ GraphProcessor_new sample_classes "Person" sample_graph sample_options
      {| processOverrides_ := true; restoreRelations_ := true |}
    = Some sample_processor
  ∧ walkDataPath ["friend"; "pets"] sample_graph = Some (VArr [sample_pet 5])
  ∧ walkDataPath ["friend"; "pets"] (getData sample_classes sample_processor).2 = None.
Proof.
  split; [eexists; split; vm_compute; reflexivity |].
  repeat split; vm_compute; reflexivity.
Qed.

(** ** Trees of heap values *)

Lemma reify_ref fuel h l t :
  reify (S fuel) h (HRef l) = Some t ↔
  (∃ items ts, h !! l = Some (HArr items) ∧ t = VArr ts
               ∧ Forall2 (λ x t, reify fuel h x = Some t) items ts)
  ∨ (∃ cls fields tree, h !! l = Some (HObj cls fields) ∧ t = VObj cls tree
                        ∧ reify_fields fuel h fields tree).
Proof.
  simpl. destruct (h !! l) as [[items | cls fields] |] eqn:Hl.
  - rewrite fmap_Some. split.
    + intros (ts & Hts%mapM_Some & ->). left. by exists items, ts.
    + intros [(items' & ts & [= <-] & -> & Hts) | (? & ? & ? & ? & _)]; [| done].
      exists ts. by rewrite mapM_Some.
  - rewrite fmap_Some. split.
    + intros (tree & Htree%mapM_Some & ->). right. exists cls, fields, tree.
      split; [done |]. split; [done |].
      eapply Forall2_impl; [exact Htree |]. intros [k x] [k' t']. simpl.
      destruct (reify fuel h x); simpl; [| done]. by intros [= -> ->].
    + intros [(? & ? & ? & _) | (cls' & fields' & tree & [= <- <-] & -> & Htree)];
        [done |].
      exists tree. split; [| done]. apply mapM_Some.
      eapply Forall2_impl; [exact Htree |]. intros [k x] [k' t'] [Hk Hx].
      simpl in *. subst k'. by rewrite Hx.
  - split; [done |]. by intros [(? & ? & ? & _) | (? & ? & ? & ? & _)].
Qed.

Lemma reify_prim fuel h a t : reify fuel h (HPrim a) = Some t ↔ t = VPrim a.
Proof. destruct fuel; simpl; split; by intros [= ->] || intros ->. Qed.

Lemma reify_fields_impl fuel fuel' h h' fields tree :
  (∀ x t, reify fuel h x = Some t → reify fuel' h' x = Some t) →
  reify_fields fuel h fields tree → reify_fields fuel' h' fields tree.
Proof.
  intros Himpl Hfields. eapply Forall2_impl; [exact Hfields |].
  intros kx kt [Hk Hx]. split; [done |]. by apply Himpl.
Qed.

(** A tree stays when objects are added to the heap. *)
Lemma reify_prefix fuel :
  ∀ h h' x t, h `prefix_of` h' → reify fuel h x = Some t → reify fuel h' x = Some t.
Proof.
  induction fuel as [| fuel IH]; intros h h' x t Hprefix;
    destruct x as [a | l]; try done.
  rewrite !reify_ref.
  intros [(items & ts & Hl & -> & Hts) | (cls & fields & tree & Hl & -> & Htree)].
  - left. exists items, ts. split; [by eapply prefix_lookup_Some |]. split; [done |].
    eapply Forall2_impl; [exact Hts |]. intros x t. by apply IH.
  - right. exists cls, fields, tree. split; [by eapply prefix_lookup_Some |].
    split; [done |]. eapply reify_fields_impl; [| exact Htree].
    intros x t. by apply IH.
Qed.

(** And with more fuel. *)
Lemma reify_fuel fuel :
  ∀ fuel' h x t, (fuel ≤ fuel')%nat → reify fuel h x = Some t → reify fuel' h x = Some t.
Proof.
  induction fuel as [| fuel IH]; intros fuel' h x t Hle;
    destruct x as [a | l]; try done.
  - by rewrite !reify_prim.
  - by rewrite !reify_prim.
  - destruct fuel' as [| fuel']; [lia |]. rewrite !reify_ref.
    intros [(items & ts & Hl & -> & Hts) | (cls & fields & tree & Hl & -> & Htree)].
    + left. exists items, ts. split; [done |]. split; [done |].
      eapply Forall2_impl; [exact Hts |]. intros x t. apply IH. lia.
    + right. exists cls, fields, tree. split; [done |].
      split; [done |]. eapply reify_fields_impl; [| exact Htree].
      intros x t. apply IH. lia.
Qed.

Lemma reify_det fuel fuel' h x t t' :
  reify fuel h x = Some t → reify fuel' h x = Some t' → t = t'.
Proof.
  intros Ht Ht'.
  apply (reify_fuel _ (fuel `max` fuel')) in Ht; [| lia].
  apply (reify_fuel _ (fuel `max` fuel')) in Ht'; [| lia].
  rewrite Ht in Ht'. by injection Ht'.
Qed.

Lemma reify_fields_det fuel fuel' h fields tree tree' :
  reify_fields fuel h fields tree → reify_fields fuel' h fields tree' → tree = tree'.
Proof.
  intros Htree. revert tree'.
  induction Htree as [| [k x] [k1 t1] fields tree [Hk Hx] _ IH]; intros tree' Htree'.
  - by inversion Htree'.
  - inversion Htree' as [| ? [k2 t2] ? tree2 [Hk2 Hx2] Hrest]; subst. simpl in *.
    subst. f_equal; [| by apply IH]. f_equal. by eapply reify_det.
Qed.

Lemma reify_fields_assoc fuel h fields tree key :
  reify_fields fuel h fields tree →
  reify fuel h (default (HPrim PUndefined) (assoc key fields))
  = Some (default VUndefined (assoc key tree))
  ∧ (assoc key fields = None ↔ assoc key tree = None).
Proof.
  induction 1 as [| [k x] [k' t] fields tree [Hk Hx] _ IH]; simpl in *.
  - split; [by apply reify_prim | done].
  - subst k'. case_bool_decide; [| exact IH]. simpl. split; [done |]. done.
Qed.

Lemma reify_fields_assoc_set fuel h fields tree key x t :
  reify_fields fuel h fields tree → reify fuel h x = Some t →
  reify_fields fuel h (assoc_set key x fields) (assoc_set key t tree).
Proof.
  intros Htree Hx.
  induction Htree as [| [k y] [k' t'] fields tree [Hk Hy] Htail IH]; simpl in *.
  - by constructor.
  - subst k'. case_bool_decide.
    + by constructor.
    + by constructor.
Qed.

Lemma reify_undefined fuel h x t :
  reify fuel h x = Some t → h_is_undefined x = is_undefined t.
Proof.
  destruct x as [a | l].
  - rewrite reify_prim. by intros ->.
  - destruct fuel as [| fuel]; [done |]. rewrite reify_ref.
    by intros [(? & ? & _ & -> & _) | (? & ? & ? & _ & -> & _)].
Qed.

(** *** The size of a tree *)

Lemma list_sum_elem (n : nat) (l : list nat) : n ∈ l → (n ≤ list_sum l)%nat.
Proof.
  induction l as [| m l IH]; [by intros ?%elem_of_nil |].
  intros [-> | Hin]%elem_of_cons; simpl; [lia |]. specialize (IH Hin). lia.
Qed.

Lemma size_item t ts : t ∈ ts → (size t < size (VArr ts))%nat.
Proof.
  intros Hin. simpl. apply Nat.lt_succ_r, list_sum_elem.
  apply list_elem_of_fmap. by exists t.
Qed.

Lemma size_field cls kt tree : kt ∈ tree → (size kt.2 < size (VObj cls tree))%nat.
Proof.
  intros Hin. simpl. apply Nat.lt_succ_r, list_sum_elem.
  apply list_elem_of_fmap. by exists kt.
Qed.

Lemma Forall2_impl_elem {A B} (P Q : A → B → Prop) l k :
  Forall2 P l k → (∀ x y, y ∈ k → P x y → Q x y) → Forall2 Q l k.
Proof.
  induction 1 as [| x y l k Hxy _ IH]; intros Himpl; constructor.
  - apply Himpl; [left | done].
  - apply IH. intros x' y' Hin. apply Himpl. by right.
Qed.

(** A tree stays when an object is written to that it does not contain: one
    whose own tree is larger. *)
Lemma reify_update fuel c o :
  ∀ h x t,
    reify fuel h x = Some t →
    (∀ fuel' t', reify fuel' h (HRef c) = Some t' → (size t < size t')%nat) →
    reify fuel (<[c := o]> h) x = Some t.
Proof.
  induction fuel as [| fuel IH]; intros h x t; destruct x as [a | l]; try done.
  intros Ht Hlarger.
  destruct (decide (l = c)) as [-> | Hne].
  { specialize (Hlarger _ _ Ht). lia. }
  revert Hlarger. rewrite reify_ref in Ht. rewrite reify_ref.
  destruct Ht as [(items & ts & Hl & -> & Hts) | (cls & fields & tree & Hl & -> & Htree)];
    intros Hlarger.
  - left. exists items, ts. split; [by rewrite list_lookup_insert_ne by done |]. split; [done |].
    eapply Forall2_impl_elem; [exact Hts |]. intros x t Hin Hx. apply IH; [done |].
    intros fuel' t' Ht'. specialize (Hlarger _ _ Ht').
    pose proof (size_item _ _ Hin). lia.
  - right. exists cls, fields, tree. split; [by rewrite list_lookup_insert_ne by done |].
    split; [done |].
    eapply Forall2_impl_elem; [exact Htree |]. intros kx kt Hin [Hk Hx].
    split; [done |]. apply IH; [done |].
    intros fuel' t' Ht'. specialize (Hlarger _ _ Ht').
    pose proof (size_field cls _ _ Hin). lia.
Qed.

(** ** Copies in the heap *)

Lemma prefix_snoc {A} (l : list A) (x : A) : l `prefix_of` l ++ [x].
Proof. by exists [x]. Qed.

Lemma prefix_insert {A} (l0 l : list A) (i : nat) (x : A) :
  l0 `prefix_of` l → (length l0 ≤ i)%nat → l0 `prefix_of` <[i := x]> l.
Proof.
  intros [k ->] Hi. rewrite insert_app_r_alt by done. by eexists.
Qed.

Lemma lookup_snoc {A} (l : list A) (x : A) : (l ++ [x]) !! length l = Some x.
Proof. by apply list_lookup_middle. Qed.

(** A loop that only adds objects, over inputs with trees. *)
Lemma hmapM_frame {A B T} (f : heap → A → option (heap * B))
    (In : heap → A → T → Prop) (Out : heap → B → T → Prop) :
  (∀ h h' a t, h `prefix_of` h' → In h a t → In h' a t) →
  (∀ h h' b t, h `prefix_of` h' → Out h b t → Out h' b t) →
  (∀ h a t, In h a t → ∃ h' b, f h a = Some (h', b) ∧ h `prefix_of` h' ∧ Out h' b t) →
  ∀ l ts h,
    Forall2 (In h) l ts →
    ∃ h' l', hmapM f h l = Some (h', l') ∧ h `prefix_of` h' ∧ Forall2 (Out h') l' ts.
Proof.
  intros Hin Hout Hf. induction l as [| a l IH]; intros ts h Hl.
  - inversion Hl; subst. by exists h, [].
  - inversion Hl as [| ? t ? ts' Ha Hl']; subst. simpl.
    destruct (Hf _ _ _ Ha) as (h1 & b & -> & Hprefix1 & Hb). simpl.
    destruct (IH ts' h1) as (h2 & l' & -> & Hprefix2 & Hl2).
    { eapply Forall2_impl; [exact Hl' |]. intros a' t'. by apply Hin. }
    simpl. exists h2, (b :: l'). split; [done |]. split; [by etrans |].
    constructor; [| done]. by eapply Hout.
Qed.

(** [$clone] copies a tree into new objects. *)
Lemma hcopy_spec fuel :
  ∀ h x t,
    reify fuel h x = Some t →
    ∃ h' y, hcopy fuel h x = Some (h', y) ∧ h `prefix_of` h'
            ∧ reify fuel h' y = Some t.
Proof.
  induction fuel as [| fuel IH]; intros h x t; destruct x as [a | l]; try done.
  - intros Ht. by exists h, (HPrim a).
  - intros Ht. by exists h, (HPrim a).
  - rewrite reify_ref. simpl.
    intros [(items & ts & -> & -> & Hts) | (cls & fields & tree & -> & -> & Htree)].
    + destruct (hmapM_frame (hcopy fuel)
                  (λ h x t, reify fuel h x = Some t) (λ h x t, reify fuel h x = Some t))
        with (l := items) (ts := ts) (h := h) as (h' & items' & -> & Hprefix & Hitems');
        [by intros; eapply reify_prefix | by intros; eapply reify_prefix | exact IH
        | exact Hts |].
      simpl. eexists _, _. split; [done |]. split; [by etrans; [| apply prefix_snoc] |].
      apply reify_ref. left. exists items', ts. split; [apply lookup_snoc |].
      split; [done |]. eapply Forall2_impl; [exact Hitems' |].
      intros x t. apply reify_prefix, prefix_snoc.
    + destruct (hmapM_frame
                  (λ h '(k, x), '(h, y) ← hcopy fuel h x; Some (h, (k, y)))
                  (λ h (kx : string * hval) (kt : string * value),
                     kx.1 = kt.1 ∧ reify fuel h kx.2 = Some kt.2)
                  (λ h (kx : string * hval) (kt : string * value),
                     kx.1 = kt.1 ∧ reify fuel h kx.2 = Some kt.2))
        with (l := fields) (ts := tree) (h := h)
        as (h' & fields' & -> & Hprefix & Hfields').
      * intros h1 h2 kx kt Hprefix [Hk Hx]. split; [done |]. by eapply reify_prefix.
      * intros h1 h2 kx kt Hprefix [Hk Hx]. split; [done |]. by eapply reify_prefix.
      * intros h1 [k x] [k' t] [Hk Hx]. simpl in *.
        destruct (IH _ _ _ Hx) as (h2 & y & -> & Hprefix & Hy). simpl.
        by exists h2, (k, y).
      * exact Htree.
      * simpl. eexists _, _. split; [done |].
        split; [by etrans; [| apply prefix_snoc] |].
        apply reify_ref. right. exists cls, fields', tree.
        split; [apply lookup_snoc |]. split; [done |].
        eapply reify_fields_impl; [| exact Hfields'].
        intros x t. apply reify_prefix, prefix_snoc.
Qed.

Lemma reify_fields_filter fuel h (P : string → bool) fields tree :
  reify_fields fuel h fields tree →
  reify_fields fuel h (List.filter (λ kv, P kv.1) fields)
    (List.filter (λ kv, P kv.1) tree).
Proof.
  induction 1 as [| [k x] [k' t] fields tree [Hk Hx] _ IH]; simpl in *.
  - constructor.
  - subst k'. destruct (P k); [by constructor | done].
Qed.

(** The clone of a model is a new object with the trees of [clone_fields]. *)
Lemma hclone_spec fuel shallow relations h cls fields tree :
  reify_fields fuel h fields tree →
  ∃ h' fields',
    hclone fuel shallow relations h cls fields
    = Some (h' ++ [HObj (Some cls) fields'], length h')
    ∧ h `prefix_of` h'
    ∧ reify_fields fuel h' fields' (clone_fields shallow relations tree).
Proof.
  intros Htree. unfold hclone, clone_fields.
  set (fields0 := if shallow then List.filter _ fields else fields).
  set (tree0 := if shallow then List.filter _ tree else tree).
  assert (reify_fields fuel h fields0 tree0) as Htree0.
  { subst fields0 tree0. destruct shallow; [| done].
    exact (reify_fields_filter fuel h
             (λ k : string, negb (bool_decide (k ∈ relations))) _ _ Htree). }
  destruct (hmapM_frame
              (λ h '(k, x), '(h, y) ← hcopy fuel h x; Some (h, (k, y)))
              (λ h (kx : string * hval) (kt : string * value),
                 kx.1 = kt.1 ∧ reify fuel h kx.2 = Some kt.2)
              (λ h (kx : string * hval) (kt : string * value),
                 kx.1 = kt.1 ∧ reify fuel h kx.2 = Some kt.2))
    with (l := fields0) (ts := tree0) (h := h)
    as (h' & fields' & -> & Hprefix & Hfields').
  - intros h1 h2 kx kt Hprefix [Hk Hx]. split; [done |]. by eapply reify_prefix.
  - intros h1 h2 kx kt Hprefix [Hk Hx]. split; [done |]. by eapply reify_prefix.
  - intros h1 [k x] [k' t] [Hk Hx]. simpl in *.
    destruct (hcopy_spec _ _ _ _ Hx) as (h2 & y & -> & Hprefix & Hy). simpl.
    by exists h2, (k, y).
  - exact Htree0.
  - simpl. by exists h', fields'.
Qed.

(** ** The data of [processRelates] is not larger than the graph *)

Lemma list_sum_map_le {A} (f g : A → nat) (l : list A) :
  Forall (λ x, (f x ≤ g x)%nat) l → (list_sum (map f l) ≤ list_sum (map g l))%nat.
Proof. induction 1; simpl; lia. Qed.

Lemma list_sum_filter_le {A} (f : A → nat) (P : A → bool) (l : list A) :
  (list_sum (map f (List.filter P l)) ≤ list_sum (map f l))%nat.
Proof. induction l as [| x l IH]; simpl; [done |]. destruct (P x); simpl; lia. Qed.

Lemma size_assoc_set key v tc (o : list (string * value)) :
  assoc key o = Some tc → (size v ≤ size tc)%nat →
  (list_sum (map (λ kv, size kv.2) (assoc_set key v o))
   ≤ list_sum (map (λ kv, size kv.2) o))%nat.
Proof.
  intros Hkey Hle. induction o as [| [k b] o IH]; simpl in *; [done |].
  case_bool_decide.
  - injection Hkey as ->. simpl. lia.
  - specialize (IH Hkey). simpl. lia.
Qed.

Lemma size_relates_fold (f : string → value → value) fields names :
  ∀ clone,
    (∀ key tc tx, assoc key clone = Some tc → assoc key fields = Some tx →
                  (size (f key tx) ≤ size tc)%nat) →
    (∀ key, assoc key fields ≠ None → assoc key clone ≠ None) →
    (list_sum
       (map (λ kv, size kv.2)
          (fold_left
             (λ clone name,
                let value := on_field (f name) VUndefined name fields in
                if is_undefined value then clone else assoc_set name value clone)
             names clone))
     ≤ list_sum (map (λ kv, size kv.2) clone))%nat.
Proof.
  induction names as [| name names IH]; intros clone Hinv Hkeys; simpl; [done |].
  rewrite on_field_assoc.
  destruct (assoc name fields) as [tx |] eqn:Hname; [| by apply IH].
  destruct (is_undefined _) eqn:Hundefined; [by apply IH |].
  destruct (assoc name clone) as [tc |] eqn:Hclone;
    [| by destruct (Hkeys name); [rewrite Hname |]].
  etrans; [apply IH |].
  - intros key tc' tx' Htc' Htx'.
    destruct (decide (name = key)) as [<- | Hne].
    + rewrite assoc_set_eq in Htc'. injection Htc' as <-.
      rewrite Hname in Htx'. by injection Htx' as <-.
    + rewrite assoc_set_ne in Htc' by done. by eapply Hinv.
  - intros key Hkey. destruct (decide (name = key)) as [<- | Hne].
    + by rewrite assoc_set_eq.
    + rewrite assoc_set_ne by done. by apply Hkeys.
  - eapply size_assoc_set; [exact Hclone |]. by eapply Hinv.
Qed.

Lemma size_relatesData classes p t :
  ∀ relationPath, (size (relatesData classes p t relationPath) ≤ size t)%nat.
Proof.
  induction t as [a | items IH | cls fields IH] using value_ind'; intros relationPath.
  - done.
  - simpl. rewrite map_map. apply le_n_S, list_sum_map_le.
    eapply Forall_impl; [exact IH |]. intros x Hx. apply Hx.
  - destruct cls as [cls |]; [| done]. simpl.
    destruct (truthy (shouldRelate p relationPath)).
    + simpl. apply le_n_S, list_sum_filter_le.
    + simpl. apply le_n_S.
      apply (size_relates_fold
               (λ name x, relatesData classes p x (appendPath relationPath "." name))).
      * intros key tc tx Htc Htx. rewrite Htc in Htx. injection Htx as <-.
        apply assoc_Some_elem in Htc. rewrite Forall_forall in IH.
        apply (IH (key, tc) Htc).
      * done.
Qed.

(** ** [processRelates] on the heap *)

Section HeapLoops.

Variable classes : list (string * list RelationDef).
Variable p : GraphProcessor.
Variable fuel : nat.
Variable rec : heap → hval → string → string → option hremovedMap
               → option (heap * hval * option hremovedMap).

(** What the loops need of [processRelates]: it only adds objects, and
    returns the data of [relatesData] for the tree it is given. *)
Hypothesis rec_spec :
  ∀ h x t relationPath dataPath removed,
    reify fuel h x = Some t →
    ∃ h' y removed',
      rec h x relationPath dataPath removed = Some (h', y, removed')
      ∧ h `prefix_of` h'
      ∧ reify fuel h' y = Some (relatesData classes p t relationPath)
      ∧ (is_Some removed' ↔ is_Some removed).

Lemma hprocessEntries_spec relationPath dataPath items :
  ∀ ts index h removed,
    Forall2 (λ x t, reify fuel h x = Some t) items ts →
    ∃ h' items' removed',
      hprocessEntries rec relationPath dataPath items index h removed
      = Some (h', items', removed')
      ∧ h `prefix_of` h'
      ∧ Forall2 (λ y t, reify fuel h' y = Some (relatesData classes p t relationPath))
          items' ts
      ∧ (is_Some removed' ↔ is_Some removed).
Proof.
  induction items as [| x items IH]; intros ts index h removed Hitems.
  - inversion Hitems; subst. by exists h, [], removed.
  - inversion Hitems as [| ? t ? ts' Hx Hitems']; subst. simpl.
    destruct (rec_spec _ _ _ relationPath
                (appendPath dataPath "/" (string_of_nat index)) removed Hx)
      as (h1 & y & removed1 & -> & Hprefix1 & Hy & Hsome1).
    simpl.
    destruct (IH ts' (S index) h1 removed1)
      as (h2 & items' & removed2 & -> & Hprefix2 & Hitems2 & Hsome2).
    { eapply Forall2_impl; [exact Hitems' |]. intros x' t'. by apply reify_prefix. }
    simpl. exists h2, (y :: items'), removed2. split; [done |].
    split; [by etrans |]. split; [| by rewrite Hsome2].
    constructor; [| done]. by eapply reify_prefix.
Qed.

Lemma hprocessRelations_spec c cls tree h0 relationPath dataPath names :
  ∀ h removed fields clone,
    NoDup names →
    h !! c = Some (HObj (Some cls) fields) →
    reify_fields fuel h fields clone →
    (∀ name, name ∈ names → assoc name clone = assoc name tree) →
    h0 `prefix_of` h → (length h0 ≤ c)%nat →
    ∃ h' removed' fields',
      hprocessRelations rec c relationPath dataPath names h removed = Some (h', removed')
      ∧ h0 `prefix_of` h'
      ∧ h' !! c = Some (HObj (Some cls) fields')
      ∧ reify_fields fuel h' fields'
          (fold_left
             (λ clone name,
                let value :=
                  on_field (λ x, relatesData classes p x (appendPath relationPath "." name))
                    VUndefined name tree in
                if is_undefined value then clone else assoc_set name value clone)
             names clone)
      ∧ (is_Some removed' ↔ is_Some removed).
Proof.
  induction names as [| name names IH];
    intros h removed fields clone Hnodup Hc Hfields Hnames Hprefix Hfresh.
  - by exists h, removed, fields.
  - apply NoDup_cons in Hnodup as [Hname Hnodup]. simpl.
    unfold hget at 1. rewrite Hc.
    destruct (reify_fields_assoc _ _ _ _ name Hfields) as [Hx Hnone].
    destruct (rec_spec _ _ _ (appendPath relationPath "." name)
                (appendPath dataPath "/" name) removed Hx)
      as (h1 & y & removed1 & -> & Hprefix1 & Hy & Hsome1).
    simpl. rewrite on_field_assoc, <- (Hnames name) by left.
    assert (h1 !! c = Some (HObj (Some cls) fields)) as Hc1
      by (by eapply prefix_lookup_Some).
    assert (reify_fields fuel h1 fields clone) as Hfields1.
    { eapply reify_fields_impl; [| exact Hfields]. intros x t. by apply reify_prefix. }
    destruct (assoc name clone) as [tx |] eqn:Hclone; simpl in Hy.
    + rewrite (reify_undefined _ _ _ _ Hy).
      destruct (is_undefined (relatesData classes p tx _)) eqn:Hundefined.
      * destruct (IH h1 removed1 fields clone)
          as (h' & removed' & fields' & -> & Hprefix' & Hc' & Hfields' & Hsome');
          try done.
        -- intros name' Hin. apply Hnames. by right.
        -- by etrans.
        -- exists h', removed', fields'. by rewrite Hsome', Hsome1.
      * unfold hassign. rewrite Hc1.
        set (value := relatesData classes p tx (appendPath relationPath "." name)) in *.
        destruct (IH (<[c := HObj (Some cls) (assoc_set name y fields)]> h1) removed1
                    (assoc_set name y fields) (assoc_set name value clone))
          as (h' & removed' & fields' & -> & Hprefix' & Hc' & Hfields' & Hsome');
          try done.
        -- apply list_lookup_insert_eq. by eapply lookup_lt_Some.
        -- assert (∀ kt, kt ∈ assoc_set name value clone →
                     ∀ fuel' t', reify fuel' h1 (HRef c) = Some t' →
                                 (size kt.2 < size t')%nat) as Hlarger.
           { intros kt Hkt fuel' t' Ht'.
             destruct fuel' as [| fuel']; [done |].
             apply reify_ref in Ht'
               as [(? & ? & Hc2 & _) | (cls' & fields2 & tree2 & Hc2 & -> & Htree2)];
               [by rewrite Hc1 in Hc2 |].
             rewrite Hc1 in Hc2. injection Hc2 as <- <-.
             pose proof (reify_fields_det _ _ _ _ _ _ Hfields1 Htree2) as <-.
             apply assoc_set_elem in Hkt as [-> | Hkt].
             - apply assoc_Some_elem in Hclone.
               pose proof (size_field (Some cls) _ _ Hclone) as Hlt.
               pose proof (size_relatesData classes p tx
                             (appendPath relationPath "." name)) as Hle.
               simpl in *. subst value. lia.
             - by apply size_field. }
           pose proof (reify_fields_assoc_set _ _ _ _ name _ _ Hfields1 Hy) as Hset.
           eapply Forall2_impl_elem; [exact Hset |].
           intros kx kt Hin [Hk Hkx]. split; [done |].
           apply reify_update; [done |]. by apply Hlarger.
        -- intros name' Hin. rewrite assoc_set_ne by (by intros ->).
           apply Hnames. by right.
        -- apply prefix_insert; [by etrans | done].
        -- exists h', removed', fields'. by rewrite Hsome', Hsome1.
    + rewrite (reify_undefined _ _ _ _ Hy). simpl.
      destruct (IH h1 removed1 fields clone)
        as (h' & removed' & fields' & -> & Hprefix' & Hc' & Hfields' & Hsome');
        try done.
      * intros name' Hin. apply Hnames. by right.
      * by etrans.
      * exists h', removed', fields'. by rewrite Hsome', Hsome1.
Qed.

End HeapLoops.

Lemma relationNamesDistinct_spec classes cls :
  relationNamesDistinct classes = true → NoDup (relationNames classes cls).
Proof.
  unfold relationNamesDistinct, relationNames, relationsOf. intros Hok.
  destruct (assoc cls classes) as [rs |] eqn:Hcls; simpl; [| constructor].
  apply assoc_Some_elem, list_elem_of_In in Hcls.
  rewrite forallb_forall in Hok. specialize (Hok _ Hcls). simpl in Hok.
  by apply bool_decide_eq_true in Hok.
Qed.

(** [processRelates] on a graph of the heap that has a tree: it returns, it
    leaves every object of the heap as it is, and the graph it returns has
    the tree of [relatesData]. *)
Lemma hprocessRelates_spec classes p :
  relationNamesDistinct classes = true →
  ∀ fuel h x t relationPath dataPath removed,
    reify fuel h x = Some t →
    ∃ h' y removed',
      hprocessRelates classes fuel p h x relationPath dataPath removed
      = Some (h', y, removed')
      ∧ h `prefix_of` h'
      ∧ reify fuel h' y = Some (relatesData classes p t relationPath)
      ∧ (is_Some removed' ↔ is_Some removed).
Proof.
  intros Hdistinct.
  induction fuel as [| fuel IH]; intros h x t relationPath dataPath removed;
    destruct x as [a | l]; try done.
  - intros [= <-]. by exists h, (HPrim a), removed.
  - intros [= <-]. by exists h, (HPrim a), removed.
  - intros Ht. pose proof Ht as Ht0. apply reify_ref in Ht
      as [(items & ts & Hl & -> & Hts) | (cls & fields & tree & Hl & -> & Htree)].
    + simpl. rewrite Hl.
      destruct (hprocessEntries_spec classes p fuel _ IH relationPath dataPath
                  items ts 0%nat h removed Hts)
        as (h1 & items' & removed1 & -> & Hprefix1 & Hitems' & Hsome1).
      simpl. eexists _, _, _. split; [done |].
      split; [by etrans; [| apply prefix_snoc] |]. split; [| done].
      apply reify_ref. left. eexists items', _. split; [apply lookup_snoc |].
      split; [done |]. apply Forall2_fmap_r.
      eapply Forall2_impl; [exact Hitems' |]. intros y t. apply reify_prefix, prefix_snoc.
    + simpl. rewrite Hl. destruct cls as [cls |]; [| by exists h, (HRef l), removed].
      destruct (hclone_spec fuel (truthy (shouldRelate p relationPath))
                  (relationNames classes cls) h cls fields tree Htree)
        as (h1 & fields1 & -> & Hprefix1 & Hfields1).
      simpl. destruct (truthy (shouldRelate p relationPath)) eqn:Hrelate.
      * eexists _, _, _. split; [done |].
        split; [by etrans; [| apply prefix_snoc] |]. split.
        -- apply reify_ref. right. eexists _, fields1, _.
           split; [apply lookup_snoc |]. split; [done |].
           eapply reify_fields_impl; [| exact Hfields1].
           intros y t. apply reify_prefix, prefix_snoc.
        -- destruct removed as [m |]; [| done].
           by destruct (hremovedValues _ _).
      * destruct (hprocessRelations_spec classes p fuel _ IH (length h1) cls tree h
                    relationPath dataPath (relationNames classes cls)
                    (h1 ++ [HObj (Some cls) fields1]) removed fields1 tree)
          as (h' & removed' & fields' & -> & Hprefix' & Hc' & Hfields' & Hsome').
        -- by apply relationNamesDistinct_spec.
        -- apply lookup_snoc.
        -- eapply reify_fields_impl; [| exact Hfields1].
           intros y t. apply reify_prefix, prefix_snoc.
        -- done.
        -- by etrans; [| apply prefix_snoc].
        -- by apply prefix_length.
        -- simpl. eexists _, _, _. split; [done |]. split; [done |].
           split; [| done]. apply reify_ref. right. by eexists _, fields', _.
Qed.

Lemma hgetData_spec classes fuel h hp :
  relationNamesDistinct classes = true →
  reify fuel h (hdata hp) = Some (VArr (data (processor hp))) →
  (is_Some (hremoved hp) ↔ is_Some (removedRelations (processor hp))) →
  ∃ h' hp' out,
    hgetData classes fuel h hp = Some (h', hp', out)
    ∧ h `prefix_of` h'
    ∧ processor hp' = processor hp ∧ hdata hp' = hdata hp
    ∧ (is_Some (hremoved hp') ↔ is_Some (hremoved hp))
    ∧ reify fuel h' out = Some (getData classes (processor hp)).2.
Proof.
  intros Hdistinct Hdata Hsome. unfold hgetData. rewrite getData_spec.
  cbv beta iota zeta delta [snd].
  assert (∃ h' d removed' ts,
            match hremoved hp with
            | Some _ => hprocessRelates classes fuel (processor hp) h (hdata hp) "" ""
                          (hremoved hp)
            | None => Some (h, hdata hp, hremoved hp)
            end = Some (h', d, removed')
            ∧ h `prefix_of` h'
            ∧ (is_Some removed' ↔ is_Some (hremoved hp))
            ∧ reify fuel h' d = Some (VArr ts)
            ∧ match removedRelations (processor hp) with
              | Some _ => relatesData classes (processor hp)
                            (VArr (data (processor hp))) ""
              | None => VArr (data (processor hp))
              end = VArr ts)
    as (h' & d & removed' & ts & -> & Hprefix & Hsome' & Hd & ->).
  { destruct (hremoved hp) as [m |] eqn:Hremoved.
    - destruct (proj1 Hsome) as [m' ->]; [done |].
      destruct (hprocessRelates_spec classes (processor hp) Hdistinct _ _ _ _ "" ""
                  (Some m) Hdata) as (h' & d & removed' & Hrun & Hprefix & Hd & Hsome').
      by exists h', d, removed', (map (λ x, relatesData classes (processor hp) x "")
                                  (data (processor hp))).
    - destruct (removedRelations (processor hp)) as [m' |] eqn:Hpure.
      + by destruct (proj2 Hsome) as [? ?].
      + by exists h, (hdata hp), None, (data (processor hp)). }
  simpl. eexists _, _, _. split; [done |]. split; [done |]. split; [done |].
  split; [done |]. split; [done |].
  destruct (isArray_ (processor hp)); [done |].
  destruct d as [a | l]; [by apply reify_prim in Hd |].
  destruct fuel as [| fuel]; [done |].
  apply reify_ref in Hd
    as [(items & ts' & -> & [= <-] & Hitems) | (? & ? & ? & _ & ? & _)]; [| done].
  inversion Hitems as [| x t items' ts' Hx _]; subst; [done |].
  eapply reify_fuel; [| exact Hx]. lia.
Qed.

Lemma hreads_spec classes fuel reads :
  relationNamesDistinct classes = true →
  ∀ h hp,
    reify fuel h (hdata hp) = Some (VArr (data (processor hp))) →
    (is_Some (hremoved hp) ↔ is_Some (removedRelations (processor hp))) →
    ∃ h' hp' results,
      hreads classes fuel h hp reads = Some (h', hp', results)
      ∧ h `prefix_of` h'
      ∧ processor hp' = processor hp ∧ hdata hp' = hdata hp
      ∧ Forall2 (λ r result,
                   match r, result with
                   | GetData, inl d =>
                       reify fuel h' d = Some (getData classes (processor hp)).2
                   | GetOptions, inr o => o = getOptions (processor hp)
                   | _, _ => False
                   end) reads results.
Proof.
  intros Hdistinct. induction reads as [| r reads IH]; intros h hp Hdata Hsome.
  - by exists h, hp, [].
  - assert (∃ h1 hp1 result,
              hread classes fuel h hp r = Some (h1, hp1, result)
              ∧ h `prefix_of` h1
              ∧ processor hp1 = processor hp ∧ hdata hp1 = hdata hp
              ∧ (is_Some (hremoved hp1) ↔ is_Some (hremoved hp))
              ∧ match r, result with
                | GetData, inl d =>
                    reify fuel h1 d = Some (getData classes (processor hp)).2
                | GetOptions, inr o => o = getOptions (processor hp)
                | _, _ => False
                end)
      as (h1 & hp1 & result & Hread & Hprefix1 & Hprocessor1 & Hdata1 & Hsome1 & Hresult).
    { destruct r; simpl.
      - destruct (hgetData_spec classes fuel h hp Hdistinct Hdata Hsome)
          as (h1 & hp1 & out & -> & Hrest).
        by exists h1, hp1, (inl out).
      - by exists h, hp, (inr (getOptions (processor hp))). }
    simpl. rewrite Hread. simpl.
    destruct (IH h1 hp1) as (h' & hp' & results & -> & Hprefix & Hprocessor & Hdata' & Hall).
    + rewrite Hdata1, Hprocessor1. by eapply reify_prefix.
    + by rewrite Hsome1, Hprocessor1.
    + simpl. exists h', hp', (result :: results). split; [done |].
      split; [by etrans |]. split; [by rewrite Hprocessor |].
      split; [by rewrite Hdata' |]. constructor.
      * destruct r, result as [d | o]; try done. by eapply reify_prefix.
      * by rewrite Hprocessor1 in Hall.
Qed.

(** The data [getData] returns does not depend on what is recorded. *)
Lemma relatesData_set_removedRelations classes p r v :
  ∀ relationPath,
    relatesData classes (set_removedRelations p r) v relationPath
    = relatesData classes p v relationPath.
Proof.
  induction v as [a | items IH | cls fields IH] using value_ind'; intros relationPath.
  - done.
  - simpl. f_equal. apply map_ext_Forall.
    eapply Forall_impl; [exact IH |]. intros x Hx. apply Hx.
  - destruct cls as [cls |]; [| done]. simpl.
    change (shouldRelate (set_removedRelations p r) relationPath)
      with (shouldRelate p relationPath).
    destruct (truthy (shouldRelate p relationPath)); [done |]. f_equal.
    generalize fields at 3 6 as clone.
    induction (relationNames classes cls) as [| name names IHnames]; intros clone;
      simpl; [done |].
    assert (on_field (λ x, relatesData classes (set_removedRelations p r) x
                             (appendPath relationPath "." name)) VUndefined name fields
            = on_field (λ x, relatesData classes p x
                               (appendPath relationPath "." name)) VUndefined name fields)
      as ->; [| apply IHnames].
    clear -IH. induction IH as [| [k x] fields Hx _ IHfields]; simpl; [done |].
    case_bool_decide; [apply Hx | exact IHfields].
Qed.

Lemma getData_again classes p :
  (getData classes (getData classes p).1).2 = (getData classes p).2.
Proof.
  rewrite (getData_spec classes (getData classes p).1), (getData_spec classes p).
  cbv beta iota zeta delta [fst snd]. rewrite relatesData_set_removedRelations.
  unfold set_removedRelations. simpl.
  by destruct (removedRelations p).
Qed.

(** C9 (repeated reads). On a processor whose data is a graph of the heap
    with a tree (a graph without cycles, within the depth [fuel]), over
    classes with distinct relation names, every sequence of [getData()] and
    [getOptions()] calls returns; every [getData()] returns a graph with one
    and the same tree, that of [getData] on the tree of the input, and
    every [getOptions()] the same options; the processor keeps its data and
    its options; and every object that was in the heap before the calls,
    the objects of the input graph among them, is the same object with the
    same properties after them: [processRelates] assigns to the clones it
    makes, and to nothing else. *)
Theorem repeated_reads_stable_input_unchanged classes fuel h hp reads :
  relationNamesDistinct classes = true →
  reify fuel h (hdata hp) = Some (VArr (data (processor hp))) →
  bool_decide (is_Some (hremoved hp))
  = bool_decide (is_Some (removedRelations (processor hp))) →
  ∃ h' hp' results,
    hreads classes fuel h hp reads = Some (h', hp', results)
    ∧ (∀ l o, h !! l = Some o → h' !! l = Some o)
    ∧ processor hp' = processor hp ∧ hdata hp' = hdata hp
    ∧ Forall2 (λ r result,
                 match r, result with
                 | GetData, inl d =>
                     reify fuel h' d = Some (getData classes (processor hp)).2
                 | GetOptions, inr o => o = getOptions (processor hp)
                 | _, _ => False
                 end) reads results
    ∧ (getData classes (getData classes (processor hp)).1).2
      = (getData classes (processor hp)).2
    ∧ getOptions (getData classes (processor hp)).1 = getOptions (processor hp).
Proof.
  intros Hdistinct Hdata Hsome.
  destruct (hreads_spec classes fuel reads Hdistinct h hp Hdata)
    as (h' & hp' & results & Hrun & Hprefix & Hprocessor & Hdata' & Hresults).
  { by destruct (hremoved hp), (removedRelations (processor hp)). }
  exists h', hp', results. split; [done |]. split.
  { intros l o Hl. by eapply prefix_lookup_Some. }
  split; [done |]. split; [done |]. split; [done |]. split.
  - apply getData_again.
  - by rewrite getData_spec.
Qed.

Lemma repeated_reads_stable_input_unchanged_witness :
  ∃ h' hp' results,
    hreads sample_classes 5 sample_heap sample_heap_processor
      [GetData; GetOptions; GetData]
    = Some (h', hp', results)
    ∧ h' !! 5%nat
      = Some (HObj (Some "Person")
                [("name", HPrim (PStr "Ann")); ("friend", HRef 4); ("pets", HRef 1)]).
Proof.
  destruct (repeated_reads_stable_input_unchanged sample_classes 5 sample_heap
              sample_heap_processor [GetData; GetOptions; GetData])
    as (h' & hp' & results & Hrun & Hsame & _).
  - vm_compute. reflexivity.
  - vm_compute. reflexivity.
  - vm_compute. reflexivity.
  - exists h', hp', results. split; [exact Hrun |]. apply Hsame. reflexivity.
Defined.

(** * Further properties of the query builder *)

(** ** Scopes *)

Lemma existsb_strict_eq_prim q ps :
  existsb (strict_eq (VPrim q)) (VPrim <$> ps) = bool_decide (q ∈ ps).
Proof.
  induction ps as [| p ps IH]; [done |].
  rewrite fmap_cons. cbn [existsb strict_eq]. rewrite IH.
  destruct (decide (q = p)) as [-> | Hne].
  - rewrite bool_decide_true by done. symmetry. apply bool_decide_eq_true. left.
  - rewrite (bool_decide_false (q = p)) by done. simpl.
    apply bool_decide_ext. rewrite elem_of_cons. tauto.
Qed.

Lemma mergeScope_cons b s ss :
  mergeScope b (s :: ss)
  = mergeScope (if existsb (strict_eq s) (_scopes b) then b
                else set_scopes b (_scopes b ++ [s])) ss.
Proof. done. Qed.

Lemma mergeScope_scopes b ps qs :
  _scopes b = VPrim <$> ps →
  ∃ ps',
    _scopes (mergeScope b (VPrim <$> qs)) = VPrim <$> ps'
    ∧ ps `prefix_of` ps'
    ∧ (NoDup ps → NoDup ps')
    ∧ (∀ q, q ∈ ps' ↔ q ∈ ps ∨ q ∈ qs)
    ∧ _allow (mergeScope b (VPrim <$> qs)) = _allow b
    ∧ _propertyRefsCache (mergeScope b (VPrim <$> qs)) = _propertyRefsCache b
    ∧ _applyDefaultEager (mergeScope b (VPrim <$> qs)) = _applyDefaultEager b
    ∧ _applyDefaultOrder (mergeScope b (VPrim <$> qs)) = _applyDefaultOrder b
    ∧ calls (mergeScope b (VPrim <$> qs)) = calls b.
Proof.
  revert b ps. induction qs as [| q qs IH]; intros b ps Hps.
  - exists ps. repeat split; try done.
    + by left.
    + intros [? | ?%elem_of_nil]; done.
  - rewrite fmap_cons, mergeScope_cons.
    rewrite Hps, existsb_strict_eq_prim. case_bool_decide as Hq.
    + destruct (IH b ps Hps) as (ps' & -> & Hprefix & Hnodup & Hin & Hrest).
      exists ps'. split; [done |]. split; [done |]. split; [done |].
      split; [| exact Hrest]. intros q0. rewrite Hin, elem_of_cons.
      split; [tauto |]. intros [? | [-> | ?]]; tauto.
    + destruct (IH (set_scopes b ((VPrim <$> ps) ++ [VPrim q])) (ps ++ [q]))
        as (ps' & -> & Hprefix & Hnodup & Hin & Hrest).
      { simpl. by rewrite fmap_app. }
      exists ps'. split; [done |]. split; [| split; [| split; [| exact Hrest]]].
      * etrans; [| exact Hprefix]. by apply prefix_app_r.
      * intros Hnd. apply Hnodup. apply NoDup_app. split; [done |].
        split; [| apply NoDup_singleton].
        by intros x Hx ->%list_elem_of_singleton.
      * intros q0. rewrite Hin, elem_of_app, !elem_of_cons, elem_of_nil. tauto.
Qed.

Lemma mergeScope_present b ps qs :
  _scopes b = VPrim <$> ps → (∀ q, q ∈ qs → q ∈ ps) →
  mergeScope b (VPrim <$> qs) = b.
Proof.
  intros Hps. induction qs as [| q qs IH]; intros Hqs; [done |].
  rewrite fmap_cons, mergeScope_cons, Hps, existsb_strict_eq_prim.
  rewrite bool_decide_true by (apply Hqs; left).
  apply IH. intros q' Hq'. apply Hqs. by right.
Qed.

(** X1: [mergeScope] with primitive scopes (names) keeps the scopes that are
    there, in their places, and adds behind them the given ones that are
    not there yet, each once: no scope comes to occur twice; nothing else of
    the builder changes, and merging the same scopes again changes
    nothing. *)
Theorem mergeScope_adds_each_scope_once b ps qs :
  _scopes b = VPrim <$> ps → NoDup ps →
  ∃ ps',
    _scopes (mergeScope b (VPrim <$> qs)) = VPrim <$> ps'
    ∧ ps `prefix_of` ps' ∧ NoDup ps'
    ∧ (∀ q, q ∈ ps' ↔ q ∈ ps ∨ q ∈ qs)
    ∧ calls (mergeScope b (VPrim <$> qs)) = calls b
    ∧ _applyDefaultEager (mergeScope b (VPrim <$> qs)) = _applyDefaultEager b
    ∧ _applyDefaultOrder (mergeScope b (VPrim <$> qs)) = _applyDefaultOrder b
    ∧ mergeScope (mergeScope b (VPrim <$> qs)) (VPrim <$> qs)
      = mergeScope b (VPrim <$> qs).
Proof.
  intros Hps Hnodup.
  destruct (mergeScope_scopes b ps qs Hps)
    as (ps' & Hps' & Hprefix & Hnodup' & Hin & _ & _ & Heager & Horder & Hcalls).
  exists ps'. repeat split; try done; try (by apply Hin); try (by apply Hnodup').
  apply (mergeScope_present _ ps'); [done |]. intros q Hq. apply Hin. by right.
Qed.

Lemma mergeScope_adds_each_scope_once_witness :
  _scopes (mergeScope (mergeScope constructor [VStr "active"])
             [VStr "recent"; VStr "active"; VStr "recent"])
  = [VStr "active"; VStr "recent"].
Proof.
  destruct (mergeScope_adds_each_scope_once (mergeScope constructor [VStr "active"])
              [PStr "active"] [PStr "recent"; PStr "active"; PStr "recent"])
    as (ps' & Hps' & _).
  - reflexivity.
  - apply (bool_decide_unpack _). vm_compute. exact I.
  - reflexivity.
Defined.

(** X2: [scope] forgets the scopes merged before: the scopes of the builder
    afterwards are those of the call alone, each once, whatever the builder
    had; the rest of the builder is left as it is. *)
Theorem scope_replaces_scopes b qs :
  _scopes (scope b (VPrim <$> qs)) = _scopes (scope constructor (VPrim <$> qs))
  ∧ ∃ ps',
      _scopes (scope b (VPrim <$> qs)) = VPrim <$> ps'
      ∧ NoDup ps' ∧ (∀ q, q ∈ ps' ↔ q ∈ qs)
      ∧ calls (scope b (VPrim <$> qs)) = calls b
      ∧ _propertyRefsCache (scope b (VPrim <$> qs)) = _propertyRefsCache b.
Proof.
  unfold scope.
  destruct (mergeScope_scopes (clearScope b) [] qs eq_refl)
    as (ps' & Hps' & _ & Hnodup & Hin & _ & Hcache & _ & _ & Hcalls).
  split.
  - assert (∀ b1 b2 ss, _scopes b1 = _scopes b2 →
              _scopes (mergeScope b1 ss) = _scopes (mergeScope b2 ss)) as Hsame.
    { intros b1 b2 ss. revert b1 b2.
      induction ss as [| s ss IH]; intros b1 b2 H12; [done |].
      rewrite !mergeScope_cons, H12.
      destruct (existsb _ _); by apply IH. }
    by apply Hsame.
  - exists ps'. split; [done |]. split; [apply Hnodup; constructor |].
    split; [| done]. intros q. rewrite Hin. rewrite elem_of_nil. tauto.
Qed.

(** ** The order parameter *)

Lemma execute_calls env b :
  calls (execute env b)
  = calls b
    ++ (if isFindQuery env (calls b) && negb (hasSelects env b)
           && truthy (defaultEager env) && _applyDefaultEager b
        then [Call "mergeEager" [defaultEager env]] else [])
    ++ (if isFindQuery env (calls b) && negb (hasSelects env b)
           && truthy (defaultOrder env) && _applyDefaultOrder b
        then [Call "orderBy" (asArray (defaultOrder env))] else [])
    ++ map (λ scope, Call "applyFilter" [scope]) (_scopes b)
    ++ [Call "execute" []].
Proof.
  unfold execute, mergeEager.
  destruct (isFindQuery env (calls b) && negb (hasSelects env b)); simpl;
    [destruct (truthy (defaultEager env) && _applyDefaultEager b); simpl;
     [destruct (hasEagerExpression (calls b)); simpl |];
     destruct (truthy (defaultOrder env) && _applyDefaultOrder b); simpl |];
    rewrite calls_applyFilters; simpl; by rewrite <- ?app_assoc.
Qed.

Lemma trim_pieces_nonempty trail first pieces :
  pieces ≠ [] → trim_pieces trail first pieces ≠ [].
Proof. destruct pieces as [| piece [| piece' pieces]]; simpl; done. Qed.

Lemma split_regex_nonempty sep trail s : split_regex sep trail s ≠ [].
Proof. apply trim_pieces_nonempty, split_char_nonempty. Qed.

(** Resolving references touches the cache and the PropertyRef objects
    only. *)
Lemma getPropertyRefs_map_fields env refs parseDir checkAllow :
  ∀ b b1 ptrs,
    getPropertyRefs_map env b refs parseDir checkAllow = Ok (b1, ptrs) →
    length ptrs = length refs
    ∧ _allow b1 = _allow b
    ∧ _applyDefaultEager b1 = _applyDefaultEager b
    ∧ _applyDefaultOrder b1 = _applyDefaultOrder b
    ∧ _scopes b1 = _scopes b
    ∧ _relationsToJoin b1 = _relationsToJoin b
    ∧ calls b1 = calls b.
Proof.
  induction refs as [| ref refs IH]; intros b b1 ptrs; simpl.
  - by intros [= <- <-].
  - destruct (js_lookup ref (_propertyRefsCache b)) as [id | |]; simpl.
    + destruct (getPropertyRefs_map env b refs parseDir checkAllow)
        as [[b2 ptrs2] | e] eqn:Hrest; [| done].
      simpl. intros [= <- <-]. destruct (IH _ _ _ Hrest) as (Hlen & Hrest').
      split; [simpl; by rewrite Hlen | exact Hrest'].
    + destruct (getPropertyRefs_map env b refs parseDir checkAllow)
        as [[b2 ptrs2] | e] eqn:Hrest; [| done].
      simpl. intros [= <- <-]. destruct (IH _ _ _ Hrest) as (Hlen & Hrest').
      split; [simpl; by rewrite Hlen | exact Hrest'].
    + destruct (newPropertyRef env ref parseDir _) as [r | message]; [| done].
      simpl.
      destruct (getPropertyRefs_map env _ refs parseDir checkAllow)
        as [[b2 ptrs2] | e] eqn:Hrest; [| done].
      simpl. intros [= <- <-]. destruct (IH _ _ _ Hrest) as (Hlen & Hrest').
      split; [simpl; by rewrite Hlen | exact Hrest'].
Qed.

Lemma order_refs_length v refs :
  order_refs v = Ok refs →
  match v, refs with
  | VStr s, inl s' => s' = s
  | VArr items, inr l => length l = length items
  | _, _ => False
  end.
Proof.
  destruct v as [[| | | | s] | items |]; simpl; try done.
  - by intros [= <-].
  - assert (∀ acc l,
              forM (λ (l : list string) item,
                      match item with
                      | VStr s => Ok (l ++ [s])
                      | _ => Throw TypeError
                      end) items acc = Ok l →
              length l = (length acc + length items)%nat) as Hloop.
    { induction items as [| item items IH]; intros acc l; simpl.
      - intros [= <-]. lia.
      - destruct item as [[| | | | s] | |]; try done. simpl.
        intros Hl. apply IH in Hl. rewrite length_app in Hl. simpl in *. lia. }
    destruct (forM _ items []) as [l |] eqn:Hl; [| done].
    simpl. intros [= <-]. by apply Hloop in Hl.
Qed.

(** X3: the [order] handler orders through the builder's own [orderBy],
    which clears the flag of the default order. A falsy [order] value does
    nothing; for a truthy one that names at least one reference, a handler
    that returns leaves the flag cleared, so that [execute] does not add the
    default order of the model class; the flag of the default eager
    expression and the scopes stay as they are. *)
Theorem order_parameter_suppresses_default_order env b key v :
  (truthy v = false → handle_order env b key v = Ok b)
  ∧ (truthy v = true → v ≠ VArr [] →
     ∀ b', handle_order env b key v = Ok b' →
       _applyDefaultOrder b' = false
       ∧ _applyDefaultEager b' = _applyDefaultEager b
       ∧ _scopes b' = _scopes b
       ∧ calls (execute env b')
         = calls b'
           ++ (if isFindQuery env (calls b') && negb (hasSelects env b')
                  && truthy (defaultEager env) && _applyDefaultEager b
               then [Call "mergeEager" [defaultEager env]] else [])
           ++ map (λ scope, Call "applyFilter" [scope]) (_scopes b)
           ++ [Call "execute" []]).
Proof.
  split.
  { intros Hfalsy. unfold handle_order. by rewrite Hfalsy. }
  intros Htruthy Hrefs b' Hb'. unfold handle_order in Hb'. rewrite Htruthy in Hb'.
  destruct (order_refs v) as [refs |] eqn:Horder; [| done]. simpl in Hb'.
  destruct (getPropertyRefs env b refs true true) as [[b1 ptrs] |] eqn:Hptrs; [| done].
  simpl in Hb'. apply getPropertyRefs_map_fields in Hptrs
    as (Hlen & _ & Heager1 & Horder1 & Hscopes1 & _ & _).
  assert (ptrs ≠ []) as Hne.
  { apply order_refs_length in Horder.
    destruct v as [[| | | | s] | items |], refs as [s' | l]; try done.
    - subst s'. pose proof (split_regex_nonempty "|" is_ws s).
      intros ->. simpl in Hlen. by destruct (split_regex "|" is_ws s).
    - intros ->. simpl in Hlen. destruct l; [| done]. simpl in Horder.
      by destruct items. }
  set (body := λ b ptr, _ : result QueryBuilder) in Hb'.
  assert (∀ ptrs b2 b3,
            forM body ptrs b2 = Ok b3 →
            (ptrs ≠ [] → _applyDefaultOrder b3 = false)
            ∧ (_applyDefaultOrder b2 = false → _applyDefaultOrder b3 = false)
            ∧ _applyDefaultEager b3 = _applyDefaultEager b2
            ∧ _scopes b3 = _scopes b2) as Hloop.
  { clear. induction ptrs as [| ptr ptrs IH]; intros b2 b3.
    - by intros [= <-].
    - rewrite forM_cons.
      destruct (body b2 ptr) as [b2' |] eqn:Hbody; [| done].
      change (Ok b2' ≫= ?f) with (f b2'). intros Hrest.
      destruct (IH _ _ Hrest) as (_ & Hkeep & Heager & Hscopes).
      assert (_applyDefaultOrder b2' = false
              ∧ _applyDefaultEager b2' = _applyDefaultEager b2
              ∧ _scopes b2' = _scopes b2) as (Hflag & Heager' & Hscopes').
      { subst body. simpl in Hbody.
        destruct (deref b2 ptr) as [ref |]; [| done]. simpl in Hbody.
        destruct (ref_relation ref) as [relation |].
        - destruct (negb (rel_isOneToOne relation)); [done |].
          by injection Hbody as <-.
        - by injection Hbody as <-. }
      split; [intros _; by apply Hkeep |]. split; [intros _; by apply Hkeep |].
      by rewrite Heager, Hscopes. }
  destruct (Hloop _ _ _ Hb') as (Hflag & _ & Heager & Hscopes).
  specialize (Hflag Hne).
  split; [done |]. split; [by rewrite Heager |]. split; [by rewrite Hscopes |].
  rewrite execute_calls, Hflag, Heager, Heager1, Hscopes, Hscopes1.
  by rewrite andb_false_r.
Qed.

Lemma order_parameter_suppresses_default_order_witness :
  ∃ b',
    handle_order sample_env constructor "order" (VStr "firstName") = Ok b'
    ∧ _applyDefaultOrder b' = false
    ∧ calls (execute sample_env b')
      = [Call "orderBy" [VStr "Dummy.firstName"; VStr "asc"];
         Call "skipUndefined" [];
         Call "mergeEager" [VStr "messages"];
         Call "execute" []].
Proof.
  eexists. split; [reflexivity |].
  destruct (order_parameter_suppresses_default_order sample_env constructor "order"
              (VStr "firstName")) as [_ Hsome].
  destruct (Hsome eq_refl ltac:(discriminate) _ eq_refl) as (Hflag & _ & _ & Hcalls).
  split; [exact Hflag |]. exact Hcalls.
Defined.

(** ** Query parameters without a handler *)

(** X4: a query key for which no handler is registered (and which is not
    the name of a member of [Object.prototype]) makes [find] fail with
    "Invalid query parameter" when no allowed list is given, unless an
    earlier entry has failed already; when an allowed list has the key,
    [find] passes over the entry, as if the query did not have it. *)
Theorem find_parameter_without_handler env b pre key v rest :
  js_lookup key (queryHandlers env) = Absent →
  find env b (pre ++ (key, v) :: rest) None
    = (find env b pre None ≫= λ _, Throw (InvalidQueryParameter key v))
  ∧ ∀ names, key ∈ names →
      find env b (pre ++ (key, v) :: rest) (Some names)
      = find env b (pre ++ rest) (Some names).
Proof.
  intros Hkey. split.
  - unfold find. rewrite forM_app.
    destruct (forM _ pre _) as [b1 | e]; [| done].
    change (Ok b1 ≫= ?f) with (f b1). rewrite forM_cons.
    assert (find_entry env None b1 (key, v) = Throw (InvalidQueryParameter key v))
      as ->; [| done].
    unfold find_entry. simpl. by rewrite Hkey.
  - intros names Hin. unfold find. rewrite !forM_app.
    destruct (forM _ pre _) as [b1 | e]; [| done].
    change (Ok b1 ≫= ?f) with (f b1). rewrite forM_cons.
    assert (find_entry env (Some names) b1 (key, v) = Ok b1) as ->; [| done].
    unfold find_entry. rewrite (bool_decide_true (key ∈ names)) by done.
    simpl. by rewrite Hkey.
Qed.

Lemma find_parameter_without_handler_witness :
  find sample_env constructor [("limit", VNum 5); ("page", VNum 2)] None
    = Throw (InvalidQueryParameter "page" (VNum 2))
  ∧ find sample_env constructor [("limit", VNum 5); ("page", VNum 2)]
      (Some ["limit"; "page"])
    = Ok (super constructor (Call "limit" [VNum 5])).
Proof.
  destruct (find_parameter_without_handler sample_env constructor
              [("limit", VNum 5)] "page" (VNum 2) []) as [Hnone Hlisted].
  - reflexivity.
  - split.
    + exact Hnone.
    + refine (eq_trans (Hlisted ["limit"; "page"] _) _); [| reflexivity].
      apply (bool_decide_unpack _). vm_compute. exact I.
Defined.

(** ** Filters *)

(** Once the filter is found, [parseQueryFilter] raises the QueryError of
    the PropertyRef constructor or a TypeError, and nothing else. *)
Lemma parseQueryFilter_found_throws (E : error → Prop) env b key v :
  E TypeError → (∀ message, E (PropertyRefError message)) →
  selectQueryFilter (split_regex ":" is_ws key) v ≠ Absent →
  throws_only E (parseQueryFilter env b key v).
Proof.
  intros HType HRef Hfound. unfold parseQueryFilter.
  destruct (selectQueryFilter_lookup (split_regex ":" is_ws key) v) as [Habsent | [name Hname]];
    [done |].
  rewrite Hname in *.
  assert (throws_only E
    ('(b0, propertyRefs) ← getPropertyRefs env b
        (inl (hd "" (split_regex ":" is_ws key))) false true;
     let b1 := fold_left
          (λ b ptr,
             match deref b ptr with
             | Ok ref =>
                 match ref_relation ref with
                 | Some relation =>
                     if rel_isOneToOne relation
                     then set_relationsToJoin b
                            (assoc_set (rel_name relation) relation (_relationsToJoin b))
                     else b
                 | None => b
                 end
             | Throw _ => b
             end)
          propertyRefs b0 in
     match propertyRefs with
     | [ptr] =>
         ref ← deref b1 ptr;
         '(m, a) ← applyQueryFilter env ref (js_lookup name queryFilters) v None;
         Ok (invoke env b1 m a)
     | _ =>
         group ← forM (λ group ptr,
                         ref ← deref b1 ptr;
                         '(m, a) ← applyQueryFilter env ref (js_lookup name queryFilters) v
                                     (Some "or");
                         Ok (group ++ [Call m a]))
                      propertyRefs [];
         Ok (super b1 (WhereGroup group))
     end)) as Hmain.
  { apply throws_only_bind; [by apply getPropertyRefs_map_throws |].
    intros [b0 ptrs]. cbv zeta.
    assert (∀ b1, throws_only E
      (group ← forM (λ group ptr,
                         ref ← deref b1 ptr;
                         '(m, a) ← applyQueryFilter env ref (js_lookup name queryFilters) v
                                     (Some "or");
                         Ok (group ++ [Call m a]))
                      ptrs [];
       Ok (super b1 (WhereGroup group)))) as Hgroup.
    { intros b1. apply throws_only_bind.
      - apply throws_only_forM. intros group ptr.
        apply throws_only_bind; [by apply deref_throws |].
        intros ref. apply throws_only_bind; [by apply applyQueryFilter_throws |].
        intros [m a]. apply throws_only_Ok.
      - intros group. apply throws_only_Ok. }
    destruct ptrs as [| ptr [| ptr' ptrs]]; try apply Hgroup.
    apply throws_only_bind; [by apply deref_throws |].
    intros ref. apply throws_only_bind; [by apply applyQueryFilter_throws |].
    intros [m a]. apply throws_only_Ok. }
  destruct (js_lookup name queryFilters); [exact Hmain | exact Hmain | done].
Qed.

(** X5: [parseQueryFilter] fails with "Invalid filter" exactly when the key
    has more than one colon or names, behind its colon, a filter that is not
    registered; a key without a colon never does. The exception carries the
    key and the value. The key is split as by [/\s*:\s*/]: white space
    around a colon belongs to neither piece, and the white space of a key
    (a string of code units below 256) is tab to carriage return, the space
    and the no-break space. *)
Theorem parseQueryFilter_invalid_filter env b key v k w :
  parseQueryFilter env b key v = Throw (InvalidFilter k w)
  ↔ k = key ∧ w = v
    ∧ ((2 < length (split_regex ":" is_ws key))%nat
       ∨ ∃ ref name, split_regex ":" is_ws key = [ref; name]
                     ∧ js_lookup name queryFilters = Absent).
Proof.
  split.
  - intros Hthrow.
    destruct (selectQueryFilter (split_regex ":" is_ws key) v) as [f | |] eqn:Hfilter.
    + exfalso.
      apply (parseQueryFilter_found_throws (λ e, ∀ k w, e ≠ InvalidFilter k w)
               env b key v) in Hthrow; [by eapply Hthrow | done | done |].
      by rewrite Hfilter.
    + exfalso.
      apply (parseQueryFilter_found_throws (λ e, ∀ k w, e ≠ InvalidFilter k w)
               env b key v) in Hthrow; [by eapply Hthrow | done | done |].
      by rewrite Hfilter.
    + unfold parseQueryFilter in Hthrow. rewrite Hfilter in Hthrow.
      injection Hthrow as <- <-. split; [done |]. split; [done |].
      unfold selectQueryFilter in Hfilter.
      pose proof (split_regex_nonempty ":" is_ws key) as Hparts.
      destruct (split_regex ":" is_ws key) as [| ref [| name [| x parts]]];
        [done | | | left; simpl; lia].
      * by destruct (is_null v).
      * right. by exists ref, name.
  - pose proof (split_regex_nonempty ":" is_ws key) as Hparts.
    intros (-> & -> & Hcase). unfold parseQueryFilter.
    assert (selectQueryFilter (split_regex ":" is_ws key) v = Absent) as ->; [| done].
    destruct Hcase as [Hlong | (ref & name & -> & Hname)]; [| done].
    destruct (split_regex ":" is_ws key) as [| ref [| name [| x parts]]];
      simpl in Hlong; try lia. done.
Qed.

(** The operator [notLike] is not registered: the table has [noteLike]. *)
Lemma parseQueryFilter_invalid_filter_witness :
  parseQueryFilter sample_env constructor "lastName:notLike" (VStr "D%")
    = Throw (InvalidFilter "lastName:notLike" (VStr "D%"))
  ∧ parseQueryFilter sample_env constructor "a:b:c" VNull
    = Throw (InvalidFilter "a:b:c" VNull).
Proof.
  split.
  - apply (proj2 (parseQueryFilter_invalid_filter sample_env constructor
                    "lastName:notLike" (VStr "D%") _ _)).
    split; [reflexivity |]. split; [reflexivity |]. right.
    exists "lastName", "notLike". split; reflexivity.
  - apply (proj2 (parseQueryFilter_invalid_filter sample_env constructor
                    "a:b:c" VNull _ _)).
    split; [reflexivity |]. split; [reflexivity |]. left. vm_compute. lia.
Defined.

(** A no-break space before the name of the filter is white space: the key
    names the filter [like]. *)
Lemma parseQueryFilter_no_break_space :
  ∃ b',
    parseQueryFilter sample_env constructor ("lastName:" +:+ String "160" "like")
                     (VStr "D%") = Ok b'
    ∧ calls b' = [Call "where" [VStr "Dummy.lastName"; VStr "like"; VStr "D%"]].
Proof. eexists. split; reflexivity. Qed.

(** X6: every entry [key: operator] of the operator table is registered as
    a filter that compares the column with the raw value by that operator:
    [where(column, operator, value)], whatever the value; where the literal
    of the filters had a filter of the same name, the one of the table has
    taken its place. *)
Theorem operator_filters_compare_by_operator key operator :
  (key, operator) ∈ operators →
  ∃ f, js_lookup key queryFilters = Own f
       ∧ ∀ column v,
           f column v
           = Ok {| method := "where"; args := [VStr column; VStr operator; v] |}.
Proof.
  unfold operators. intros Hin.
  repeat (apply elem_of_cons in Hin as [[= -> ->] | Hin]; [by eexists |]).
  by apply elem_of_nil in Hin.
Qed.

Lemma operator_filters_compare_by_operator_witness :
  ∃ f, js_lookup "like" queryFilters = Own f
       ∧ f "Dummy.firstName" (VStr "Jo%")
         = Ok {| method := "where";
                 args := [VStr "Dummy.firstName"; VStr "like"; VStr "Jo%"] |}.
Proof.
  destruct (operator_filters_compare_by_operator "like" "like") as (f & Hf & Hcall).
  - apply (bool_decide_unpack _). vm_compute. exact I.
  - exists f. split; [exact Hf | apply Hcall].
Defined.

Lemma join_split_char sep s : join (String sep "") (split_char sep s) = s.
Proof.
  induction s as [| c s IH]; [done |]. simpl.
  pose proof (split_char_nonempty sep s) as Hne.
  destruct (Ascii.eqb c sep) eqn:Hc.
  - apply Ascii.eqb_eq in Hc as ->.
    destruct (split_char sep s) as [| piece pieces] eqn:Hs; [done |].
    change (join (String sep "") ("" :: piece :: pieces))
      with ("" +:+ String sep "" +:+ join (String sep "") (piece :: pieces)).
    by rewrite IH.
  - destruct (split_char sep s) as [| piece [| piece' pieces]] eqn:Hs; [done | |].
    + simpl in *. by rewrite IH.
    + change (join (String sep "") (String c piece :: piece' :: pieces))
        with (String c piece +:+ String sep "" +:+ join (String sep "") (piece' :: pieces)).
      change (join (String sep "") (piece :: piece' :: pieces))
        with (piece +:+ String sep "" +:+ join (String sep "") (piece' :: pieces)) in IH.
      by rewrite string_app_cons, IH.
Qed.

Lemma split_char_no_sep sep s :
  Forall (λ piece, string_has sep piece = false) (split_char sep s).
Proof.
  induction s as [| c s IH]; simpl; [by repeat constructor |].
  destruct (Ascii.eqb c sep) eqn:Hc; [by constructor |].
  destruct (split_char sep s) as [| piece pieces]; [by repeat constructor; simpl; rewrite Hc |].
  inversion IH; subst. constructor; [| done]. simpl. by rewrite Hc.
Qed.

(** X7: the [in] and [notIn] filters split the raw value at its commas and
    pass the list to [whereIn] and [whereNotIn]; the list is never empty (the
    empty string gives the one entry ['']), has no comma in an entry, and
    joined by commas gives the raw value back. A raw value that is not a
    string has no [split] method: the filters fail with a TypeError. *)
Theorem in_filters_split_at_commas column v :
  ∃ f g,
    js_lookup "in" queryFilters = Own f
    ∧ js_lookup "notIn" queryFilters = Own g
    ∧ (∀ s, v = VStr s →
         f column v
         = Ok {| method := "whereIn";
                 args := [VStr column; VArr ((λ x, VStr x) <$> split_char "," s)] |}
         ∧ g column v
           = Ok {| method := "whereNotIn";
                   args := [VStr column; VArr ((λ x, VStr x) <$> split_char "," s)] |}
         ∧ split_char "," s ≠ []
         ∧ Forall (λ entry, string_has "," entry = false) (split_char "," s)
         ∧ join "," (split_char "," s) = s)
    ∧ (isString v = false →
       f column v = Throw TypeError ∧ g column v = Throw TypeError).
Proof.
  eexists _, _. split; [reflexivity |]. split; [reflexivity |]. split.
  - intros s ->. split; [done |]. split; [done |].
    split; [apply split_char_nonempty |].
    split; [apply split_char_no_sep | apply join_split_char].
  - intros Hv. by destruct v as [[] | |].
Qed.

(** ** The allowed properties and the cache *)

Lemma allow_keys_fold ptrs :
  ∀ b allowed,
    _allow b = Some allowed →
    let b' :=
      fold_left
        (λ b ptr,
           let key :=
             match deref b ptr with
             | Ok ref => ref_key ref
             | Throw _ => "undefined"
             end in
           let allowed := default [] (_allow b) in
           set_allow b
             (Some (if bool_decide (key ∈ allowed) then allowed else allowed ++ [key])))
        ptrs b in
    _propertyRefsCache b' = _propertyRefsCache b
    ∧ propertyRefObjects b' = propertyRefObjects b
    ∧ calls b' = calls b
    ∧ ∃ allowed', _allow b' = Some allowed' ∧ allowed `prefix_of` allowed'
                  ∧ ∀ ptr ref, ptr ∈ ptrs → deref b ptr = Ok ref →
                               ref_key ref ∈ allowed'.
Proof.
  induction ptrs as [| ptr ptrs IH]; intros b allowed Hallowed; simpl.
  - repeat split; try done. exists allowed. split; [done |]. split; [done |].
    by intros ptr ref ?%elem_of_nil.
  - rewrite Hallowed. simpl.
    set (key := match deref b ptr with Ok ref => ref_key ref | Throw _ => "undefined" end).
    set (allowed1 := if bool_decide (key ∈ allowed) then allowed else allowed ++ [key]).
    destruct (IH (set_allow b (Some allowed1)) allowed1 eq_refl)
      as (Hcache & Hobjects & Hcalls & allowed' & Hallowed' & Hprefix & Hkeys).
    split; [done |]. split; [done |]. split; [done |].
    exists allowed'. split; [done |].
    assert (allowed `prefix_of` allowed1 ∧ key ∈ allowed1) as [Hprefix1 Hkey].
    { subst allowed1. case_bool_decide; [done |].
      split; [by apply prefix_app_r |].
      apply elem_of_app. right. by apply list_elem_of_singleton. }
    split; [by etrans |].
    intros ptr' ref [-> | Hin]%elem_of_cons Hderef.
    + subst key. rewrite Hderef in Hkey.
      destruct Hprefix as [k ->]. apply elem_of_app. by left.
    + by apply (Hkeys ptr' ref).
Qed.

Lemma add_keys_elem (keys : list string) :
  ∀ allowed,
    let allowed' :=
      fold_left (λ l key, if bool_decide (key ∈ l) then l else l ++ [key])
                keys allowed in
    allowed `prefix_of` allowed'
    ∧ (NoDup allowed → NoDup allowed')
    ∧ ∀ key, key ∈ allowed' ↔ key ∈ allowed ∨ key ∈ keys.
Proof.
  induction keys as [| k keys IH]; intros allowed; simpl.
  - split; [done |]. split; [done |]. intros key. rewrite elem_of_nil. tauto.
  - destruct (IH (if bool_decide (k ∈ allowed) then allowed else allowed ++ [k]))
      as (Hprefix & Hnodup & Hin).
    split; [| split].
    + etrans; [| exact Hprefix]. case_bool_decide; [done | by apply prefix_app_r].
    + intros Hallowed. apply Hnodup. case_bool_decide; [done |].
      apply NoDup_app. split; [done |]. split; [| apply NoDup_singleton].
      intros x Hx ->%list_elem_of_singleton. done.
    + intros key. rewrite Hin, elem_of_cons. case_bool_decide as Hk.
      * split; [tauto |]. intros [? | [-> | ?]]; tauto.
      * rewrite elem_of_app, list_elem_of_singleton. tauto.
Qed.

Lemma allow_keys_fold_exact ptrs :
  ∀ b allowed,
    _allow b = Some allowed →
    _allow
      (fold_left
         (λ b ptr,
            let key :=
              match deref b ptr with
              | Ok ref => ref_key ref
              | Throw _ => "undefined"
              end in
            let allowed := default [] (_allow b) in
            set_allow b
              (Some (if bool_decide (key ∈ allowed) then allowed else allowed ++ [key])))
         ptrs b)
    = Some (fold_left (λ l key, if bool_decide (key ∈ l) then l else l ++ [key])
              ((λ ptr, match deref b ptr with
                       | Ok ref => ref_key ref
                       | Throw _ => "undefined"
                       end) <$> ptrs)
              allowed).
Proof.
  induction ptrs as [| ptr ptrs IH]; intros b allowed Hallowed; simpl; [done |].
  rewrite Hallowed. simpl.
  set (key := match deref b ptr with Ok ref => ref_key ref | Throw _ => "undefined" end).
  set (allowed1 := if bool_decide (key ∈ allowed) then allowed else allowed ++ [key]).
  exact (IH (set_allow b (Some allowed1)) allowed1 eq_refl).
Qed.

(** X8: the allowed properties are looked at when a PropertyRef is
    constructed, and only then. A reference that [getPropertyRefs] has
    resolved once is answered from the cache after every later [allow]:
    the same PropertyRef objects are returned and none is constructed,
    whatever the properties allowed by then. [allow] with references adds
    to the allowed properties the keys of these references ([undefined] for
    a member of [Object.prototype]): the properties allowed afterwards are
    those allowed before, in their order, followed by the keys that were
    not among them, each once, in the order of the references; a property
    is allowed afterwards exactly when it was allowed before or is the key
    of one of the references. Without references [allow] removes the
    restriction. *)
Theorem allow_does_not_reach_cached_references env b refs parseDir checkAllow b1 ptrs
    others b2 :
  getPropertyRefs env b refs parseDir checkAllow = Ok (b1, ptrs) →
  allow env b1 others = Ok b2 →
  (∀ parseDir' checkAllow',
     getPropertyRefs env b2 refs parseDir' checkAllow' = Ok (b2, ptrs))
  ∧ match others with
    | None | Some (inl "") => _allow b2 = None
    | Some added =>
        ∃ ptrs' allowed,
          getPropertyRefs env b2 added false false = Ok (b2, ptrs')
          ∧ _allow b2 = Some allowed
          ∧ allowed
            = fold_left (λ l key, if bool_decide (key ∈ l) then l else l ++ [key])
                ((λ ptr, match deref b2 ptr with
                         | Ok ref => ref_key ref
                         | Throw _ => "undefined"
                         end) <$> ptrs')
                (default [] (_allow b1))
          ∧ default [] (_allow b1) `prefix_of` allowed
          ∧ (∀ ptr ref, ptr ∈ ptrs' → deref b2 ptr = Ok ref → ref_key ref ∈ allowed)
          ∧ (∀ key, key ∈ allowed
                    ↔ key ∈ default [] (_allow b1)
                      ∨ ∃ ptr, ptr ∈ ptrs'
                               ∧ key = match deref b2 ptr with
                                       | Ok ref => ref_key ref
                                       | Throw _ => "undefined"
                                       end)
    end.
Proof.
  intros Hfirst Hallow. unfold getPropertyRefs in Hfirst.
  destruct (getPropertyRefs_map_cached _ _ _ _ _ _ _ Hfirst) as [_ Hagain].
  set (added_keys := λ (added : string + list string) (b2 : QueryBuilder),
         ∃ ptrs' allowed,
          getPropertyRefs env b2 added false false = Ok (b2, ptrs')
          ∧ _allow b2 = Some allowed
          ∧ allowed
            = fold_left (λ l key, if bool_decide (key ∈ l) then l else l ++ [key])
                ((λ ptr, match deref b2 ptr with
                         | Ok ref => ref_key ref
                         | Throw _ => "undefined"
                         end) <$> ptrs')
                (default [] (_allow b1))
          ∧ default [] (_allow b1) `prefix_of` allowed
          ∧ (∀ ptr ref, ptr ∈ ptrs' → deref b2 ptr = Ok ref → ref_key ref ∈ allowed)
          ∧ (∀ key, key ∈ allowed
                    ↔ key ∈ default [] (_allow b1)
                      ∨ ∃ ptr, ptr ∈ ptrs'
                               ∧ key = match deref b2 ptr with
                                       | Ok ref => ref_key ref
                                       | Throw _ => "undefined"
                                       end)).
  assert (∀ refs',
            (let b0 := set_allow b1 (Some (default [] (_allow b1))) in
                   '(b0, ptrs') ← getPropertyRefs env b0 refs' false false;
                   Ok (fold_left
                         (λ b ptr,
                            let key :=
                              match deref b ptr with
                              | Ok ref => ref_key ref
                              | Throw _ => "undefined"
                              end in
                            let allowed := default [] (_allow b) in
                            set_allow b
                              (Some (if bool_decide (key ∈ allowed) then allowed
                                     else allowed ++ [key])))
                         ptrs' b0)) = Ok b2 →
            cache_extends (_propertyRefsCache b1) (_propertyRefsCache b2)
            ∧ added_keys refs' b2) as Hsome.
  { intros refs'. cbv zeta.
    destruct (getPropertyRefs env _ refs' false false) as [[b0 ptrs'] |] eqn:Hrefs;
      [| done].
    simpl. intros [= <-]. unfold getPropertyRefs in Hrefs.
    destruct (getPropertyRefs_map_cached _ _ _ _ _ _ _ Hrefs) as [Hext Hcached].
    apply getPropertyRefs_map_fields in Hrefs as (_ & Hallow0 & _).
    pose proof (allow_keys_fold_exact ptrs' b0 _ Hallow0) as Hexact.
    destruct (allow_keys_fold ptrs' b0 _ Hallow0)
      as (Hcache & Hobjects & _ & allowed & Hallowed & _ & _).
    cbv zeta in Hcache, Hobjects, Hallowed.
    set (b2 := fold_left _ ptrs' b0) in *.
    assert (∀ ptr, deref b2 ptr = deref b0 ptr) as Hderef.
    { intros [id | name]; simpl; [by rewrite Hobjects | done]. }
    split; [by rewrite Hcache |].
    exists ptrs', allowed.
    rewrite Hallowed in Hexact. injection Hexact as Hexact.
    assert ((λ ptr, match deref b2 ptr with
                    | Ok ref => ref_key ref
                    | Throw _ => "undefined"
                    end) <$> ptrs'
            = (λ ptr, match deref b0 ptr with
                      | Ok ref => ref_key ref
                      | Throw _ => "undefined"
                      end) <$> ptrs') as Hkeys.
    { apply list_fmap_ext. intros ? ptr _. by rewrite Hderef. }
    destruct (add_keys_elem
                ((λ ptr, match deref b0 ptr with
                         | Ok ref => ref_key ref
                         | Throw _ => "undefined"
                         end) <$> ptrs') (default [] (_allow b1)))
      as (Hprefix & _ & Hin).
    cbv zeta in Hprefix, Hin. simpl in Hexact. rewrite <- Hexact in Hprefix, Hin.
    split.
    { unfold getPropertyRefs. apply Hcached. rewrite Hcache. apply cache_extends_refl. }
    split; [done |]. split; [by rewrite Hkeys |]. split; [done |].
    assert (∀ key, key ∈ allowed
                    ↔ key ∈ default [] (_allow b1)
                      ∨ ∃ ptr, ptr ∈ ptrs'
                               ∧ key = match deref b2 ptr with
                                       | Ok ref => ref_key ref
                                       | Throw _ => "undefined"
                                       end) as Hin'.
    { intros key. rewrite Hin, list_elem_of_fmap.
      split; (intros [? | (ptr & Hkey & Hptr)]; [by left | right]);
        exists ptr; by rewrite ?Hderef in *. }
    split; [| exact Hin'].
    intros ptr ref Hptr Href. apply Hin'. right. exists ptr. by rewrite Href. }
  assert (cache_extends (_propertyRefsCache b1) (_propertyRefsCache b2)
          ∧ match others with
            | None | Some (inl "") => _allow b2 = None
            | Some added => added_keys added b2
            end) as [Hext Hallowed].
  { unfold allow in Hallow. destruct others as [[s | l] |].
    - destruct s as [| c s].
      + injection Hallow as <-. split; [apply cache_extends_refl | done].
      + exact (Hsome (inl (String c s)) Hallow).
    - exact (Hsome (inr l) Hallow).
    - injection Hallow as <-. split; [apply cache_extends_refl | done]. }
  split; [| exact Hallowed].
  intros parseDir' checkAllow'. by apply Hagain.
Qed.

Lemma allow_does_not_reach_cached_references_witness :
  ∃ b1 b2 b3,
    getPropertyRefs sample_env_checked constructor (inl "lastName") false true
      = Ok (b1, [RefObject 0])
    ∧ allow sample_env_checked b1 (Some (inl "firstName")) = Ok b2
    ∧ _allow b2 = Some ["firstName"]
    ∧ getPropertyRefs sample_env_checked b2 (inl "lastName") false true
      = Ok (b2, [RefObject 0])
    ∧ allow sample_env_checked constructor (Some (inl "firstName")) = Ok b3
    ∧ getPropertyRefs sample_env_checked b3 (inl "lastName") false true
      = Throw (PropertyRefError "Property reference 'lastName' is not allowed").
Proof.
  assert (∃ b1, getPropertyRefs sample_env_checked constructor (inl "lastName")
                  false true = Ok (b1, [RefObject 0])) as [b1 Hb1]
    by (vm_compute; eexists; reflexivity).
  assert (∃ b2, allow sample_env_checked b1 (Some (inl "firstName")) = Ok b2)
    as [b2 Hb2].
  { vm_compute in Hb1. injection Hb1 as <-. vm_compute. eexists. reflexivity. }
  destruct (allow_does_not_reach_cached_references sample_env_checked constructor
              (inl "lastName") false true b1 [RefObject 0]
              (Some (inl "firstName")) b2 Hb1 Hb2)
    as (Hagain & ptrs' & allowed & Hrefs & Hallowed & Hkeys & _).
  exists b1, b2. eexists. split; [exact Hb1 |]. split; [exact Hb2 |].
  split; [| split; [apply Hagain | split; reflexivity]].
  rewrite Hallowed, Hkeys. clear Hagain Hallowed Hkeys.
  vm_compute in Hb1. injection Hb1 as <-.
  vm_compute in Hb2. injection Hb2 as <-.
  vm_compute in Hrefs. injection Hrefs as <-.
  reflexivity.
Defined.

(** ** The [where] handler on strings and arrays *)

Lemma split_char_eq_pieces sep ref val :
  string_has sep ref = false →
  split_char sep (ref +:+ String sep val) = ref :: split_char sep val.
Proof.
  intros Href. by rewrite split_char_app, (split_char_absent _ _ Href).
Qed.

(** X9: the text notation of the [where] parameter. ["ref=val"] filters the
    reference [ref] with the text between the first and the second [=]: what
    follows a second [=] is dropped. When [val] holds no [=] and [ref] is not
    the name of a query filter, this is the filter of the object notation
    [{ ref: val }]. A text without [=] filters with [undefined]; an array is
    handled entry by entry, in order, and stops at the first entry that
    throws; any other value that is not an object is refused as an
    unsupported query. *)
Theorem where_text_notation env b key ref val :
  string_has "=" ref = false →
  handle_where env b key (VStr (ref +:+ String "=" val))
    = parseQueryFilter env b ref (VStr (hd "" (split_char "=" val)))
  ∧ (string_has "=" val = false → js_in ref queryFilters = false →
     ∀ cls, handle_where env b key (VObj cls [(ref, VStr val)])
            = handle_where env b key (VStr (ref +:+ String "=" val)))
  ∧ handle_where env b key (VStr ref) = parseQueryFilter env b ref VUndefined
  ∧ (∀ items, handle_where env b key (VArr items)
              = forM (λ b entry, handle_where env b key entry) items b)
  ∧ (∀ p, (∀ s, p ≠ PStr s) →
          handle_where env b key (VPrim p) = Throw (UnsupportedQuery (VPrim p))).
Proof.
  intros Href.
  assert (handle_where env b key (VStr (ref +:+ String "=" val))
          = parseQueryFilter env b ref (VStr (hd "" (split_char "=" val)))) as Htext.
  { unfold handle_where. cbn [processPropertyRefs].
    rewrite (split_char_eq_pieces _ _ _ Href).
    pose proof (split_char_nonempty "=" val) as Hne.
    by destruct (split_char "=" val). }
  split; [exact Htext |]. split; [| split; [| split]].
  - intros Hval Hname cls. rewrite Htext, (split_char_absent _ _ Hval).
    unfold handle_where. cbn [processPropertyRefs]. rewrite Hname.
    cbn [app join hd].
    rewrite string_app_nil_r.
    by destruct (parseQueryFilter env b ref (VStr val)).
  - unfold handle_where. cbn [processPropertyRefs].
    by rewrite (split_char_absent _ _ Href).
  - intros items. unfold handle_where. cbn [processPropertyRefs].
    clear Htext. revert b.
    induction items as [| entry items IH]; intros b; [done |].
    cbn [forM]. destruct (processPropertyRefs _ None entry b) as [b1 | e]; [| done].
    apply IH.
  - intros p Hp. unfold handle_where. destruct p; try done. by destruct (Hp s).
Qed.

Lemma where_text_notation_witness :
  handle_where sample_env constructor "where" (VStr "firstName=Joe=x")
    = parseQueryFilter sample_env constructor "firstName" (VStr "Joe")
  ∧ handle_where sample_env constructor "where" (VObj None [("firstName", VStr "Joe")])
    = handle_where sample_env constructor "where" (VStr "firstName=Joe").
Proof.
  destruct (where_text_notation sample_env constructor "where" "firstName" "Joe=x"
              eq_refl) as [Htext _].
  destruct (where_text_notation sample_env constructor "where" "firstName" "Joe"
              eq_refl) as (_ & Hobject & _).
  split; [exact Htext | exact (Hobject eq_refl eq_refl None)].
Defined.

(** ** The relations [find] joins *)

Lemma oneToOneByName_set relation rs :
  rel_isOneToOne relation = true → oneToOneByName rs →
  oneToOneByName (assoc_set (rel_name relation) relation rs).
Proof.
  intros Hone [Hnodup Hall]. split; [by apply NoDup_keys_assoc_set |].
  apply Forall_forall. intros entry [-> | Hin]%assoc_set_elem; [done |].
  by apply (proj1 (Forall_forall _ _) Hall).
Qed.

Lemma invoke_relationsToJoin env b m a :
  _relationsToJoin (invoke env b m a) = _relationsToJoin b.
Proof.
  unfold invoke. case_bool_decide; [| done].
  by destruct a as [| [[] | |] rest].
Qed.

Lemma collectJoins_oneToOneByName ptrs :
  ∀ b,
    oneToOneByName (_relationsToJoin b) →
    oneToOneByName
      (_relationsToJoin
         (fold_left
            (λ b ptr,
               match deref b ptr with
               | Ok ref =>
                   match ref_relation ref with
                   | Some relation =>
                       if rel_isOneToOne relation
                       then set_relationsToJoin b
                              (assoc_set (rel_name relation) relation (_relationsToJoin b))
                       else b
                   | None => b
                   end
               | Throw _ => b
               end)
            ptrs b)).
Proof.
  induction ptrs as [| ptr ptrs IH]; intros b Hb; [done |].
  simpl. apply IH.
  destruct (deref b ptr) as [ref |]; [| done].
  destruct (ref_relation ref) as [relation |]; [| done].
  destruct (rel_isOneToOne relation) eqn:Hone; [| done].
  by apply oneToOneByName_set.
Qed.

Lemma parseQueryFilter_oneToOneByName env b key v b' :
  parseQueryFilter env b key v = Ok b' →
  oneToOneByName (_relationsToJoin b) → oneToOneByName (_relationsToJoin b').
Proof.
  unfold parseQueryFilter. cbv zeta. intros Hparse Hb.
  destruct (getPropertyRefs env b (inl (hd "" (split_regex ":" is_ws key))) false true)
    as [[b0 ptrs] |] eqn:Hrefs; [| by destruct (selectQueryFilter _ v)].
  unfold getPropertyRefs in Hrefs.
  apply getPropertyRefs_map_fields in Hrefs as (_ & _ & _ & _ & _ & Hjoins & _).
  rewrite <- Hjoins in Hb.
  pose proof (collectJoins_oneToOneByName ptrs b0 Hb) as Hfold.
  destruct (selectQueryFilter _ v) as [filter | |]; [| | done].
  all: simpl in Hparse.
  all: destruct ptrs as [| ptr [| ptr' ptrs]].
  all: repeat match type of Hparse with
         | (match ?r with Ok _ => _ | Throw _ => _ end) = Ok _ =>
             destruct r as [? |] eqn:?; [| done]
         | (let '(_, _) := ?p in _) = Ok _ => destruct p
         | (?r ≫= _) = Ok _ => destruct r as [? |] eqn:?; [| done]; simpl in Hparse
         end.
  all: try done.
  all: try (injection Hparse as <-).
  all: try rewrite invoke_relationsToJoin.
  all: try exact Hfold.
Qed.

Lemma forM_preserves {A S} (P : S → Prop) (body : S → A → result S) (l : list A) :
  (∀ s a s', body s a = Ok s' → P s → P s') →
  ∀ s s', forM body l s = Ok s' → P s → P s'.
Proof.
  intros Hbody. induction l as [| a l IH]; intros s s'.
  - by intros [= <-].
  - rewrite forM_cons. destruct (body s a) as [s1 |] eqn:Hs1; [| done].
    intros Hrest Hs. apply (IH s1 s' Hrest). by apply (Hbody s a).
Qed.

Lemma processPropertyRefs_preserves (P : QueryBuilder → Prop)
    (parse : QueryBuilder → string → value → result QueryBuilder) v :
  (∀ b ref val b', parse b ref val = Ok b' → P b → P b') →
  ∀ ctx b b', processPropertyRefs parse ctx v b = Ok b' → P b → P b'.
Proof.
  intros Hparse.
  induction v as [p | items IH | cls fields IH] using value_ind'; intros ctx b b'.
  - destruct ctx as [[key parts] |]; simpl.
    + apply Hparse.
    + destruct p; try done. apply Hparse.
  - destruct ctx as [[key parts] |]; simpl; [apply Hparse |].
    revert b. induction IH as [| entry items Hentry _ IHitems]; intros b.
    + by intros [= <-].
    + destruct (processPropertyRefs parse None entry b) as [b1 |] eqn:Hb1; [| done].
      simpl. intros Hrest Hb. apply (IHitems b1 Hrest). exact (Hentry None b b1 Hb1 Hb).
  - simpl. revert b.
    induction IH as [| [subKey subValue] fields Hentry _ IHfields]; intros b.
    + by intros [= <-].
    + destruct (processPropertyRefs parse _ subValue b) as [b1 |] eqn:Hb1; [| done].
      simpl. intros Hrest Hb. apply (IHfields b1 Hrest).
      exact (Hentry _ b b1 Hb1 Hb).
Qed.

Lemma queryHandlers_relationsToJoin env key h b key' v b' :
  js_lookup key (queryHandlers env) = Own h → h b key' v = Ok b' →
  (key ≠ "where" → _relationsToJoin b' = _relationsToJoin b)
  ∧ (oneToOneByName (_relationsToJoin b) → oneToOneByName (_relationsToJoin b')).
Proof.
  unfold js_lookup. destruct (assoc key (queryHandlers env)) as [h' |] eqn:Hh;
    [| by destruct (inherited key)].
  intros [= ->] Hb'.
  assert (key ≠ "where" → _relationsToJoin b' = _relationsToJoin b) as Hsame.
  { apply assoc_Some_elem in Hh. unfold queryHandlers in Hh.
    apply elem_of_app in Hh as [Hh | Hh].
    - repeat (apply elem_of_cons in Hh as [[= -> ->] | Hh]);
        [ .. | by apply elem_of_nil in Hh ]; intros Hkey; try done.
      + unfold handle_eager, mergeEager in Hb'.
        destruct (truthy v); [destruct (hasEagerExpression (calls b)) |];
          by injection Hb' as <-.
      + unfold applyPropertiesExpression in Hb'.
        destruct (parsePropertiesExpression env v) as [parsed |]; [| done].
        injection Hb' as <-. clear. revert b.
        induction parsed as [| [modelName props] parsed IH]; intros b; [done |].
        simpl. rewrite IH. by case_bool_decide.
      + unfold applyPropertiesExpression in Hb'.
        destruct (parsePropertiesExpression env v) as [parsed |]; [| done].
        injection Hb' as <-. clear. revert b.
        induction parsed as [| [modelName props] parsed IH]; intros b; [done |].
        simpl. rewrite IH. by case_bool_decide.
      + unfold handle_scope in Hb'. injection Hb' as <-. simpl.
        by destruct (existsb (strict_eq v) (_scopes b)).
      + unfold handle_range in Hb'. destruct (truthy v); [| by injection Hb' as <-].
        destruct (range_bounds v) as [[start stop] |]; [| done]. simpl in Hb'.
        destruct (isNaN start || isNaN stop || js_lt stop start); [done |].
        by injection Hb' as <-.
      + by injection Hb' as <-.
      + by injection Hb' as <-.
      + unfold handle_order in Hb'. destruct (truthy v); [| by injection Hb' as <-].
        destruct (order_refs v) as [refs |]; [| done]. simpl in Hb'.
        destruct (getPropertyRefs env b refs true true) as [[b1 ptrs] |] eqn:Hptrs;
          [| done].
        apply getPropertyRefs_map_fields in Hptrs as (_ & _ & _ & _ & _ & Hjoins & _).
        simpl in Hb'. rewrite <- Hjoins.
        refine (forM_preserves (λ b2, _relationsToJoin b2 = _relationsToJoin b1)
                  _ ptrs _ b1 b' Hb' eq_refl).
        intros b2 ptr b3 Hbody Hb2.
        destruct (deref b2 ptr) as [ref |]; [| done]. simpl in Hbody.
        destruct (ref_relation ref) as [relation |].
        * destruct (negb (rel_isOneToOne relation)); [done |].
          by injection Hbody as <-.
        * by injection Hbody as <-.
    - apply list_elem_of_fmap in Hh as [join [[= -> ->] _]].
      intros _. by injection Hb' as <-. }
  split; [exact Hsame |].
  destruct (decide (key = "where")) as [-> | Hkey]; [| by rewrite Hsame].
  assert (h = handle_where env) as -> by (by injection Hh).
  apply (processPropertyRefs_preserves (λ b, oneToOneByName (_relationsToJoin b))
           _ _ (parseQueryFilter_oneToOneByName env) _ _ _ Hb').
Qed.

Lemma find_entry_relationsToJoin env allowed b entry b' :
  find_entry env allowed b entry = Ok b' →
  (entry.1 ≠ "where" → _relationsToJoin b' = _relationsToJoin b)
  ∧ (oneToOneByName (_relationsToJoin b) → oneToOneByName (_relationsToJoin b')).
Proof.
  destruct entry as [key v]. unfold find_entry.
  destruct (negb (bool_decide (is_Some allowed)) || _); [| done].
  destruct (js_lookup key (queryHandlers env)) as [h | |] eqn:Hh.
  - intros Hb'. by apply (queryHandlers_relationsToJoin env key h b key v).
  - unfold inheritedHandler. case_bool_decide; [| done]. by intros [= <-].
  - destruct (negb _); [done |]. by intros [= <-].
Qed.

Lemma joinRelations_calls rs :
  ∀ b,
    calls (fold_left
             (λ b '(_, relation), super b (RelationJoin (rel_name relation) "leftJoin"))
             rs b)
    = calls b ++ ((λ entry : string * Relation,
                     RelationJoin (rel_name entry.2) "leftJoin") <$> rs)
    ∧ _relationsToJoin
        (fold_left
           (λ b '(_, relation), super b (RelationJoin (rel_name relation) "leftJoin"))
           rs b)
      = _relationsToJoin b.
Proof.
  induction rs as [| [name relation] rs IH]; intros b.
  - by rewrite app_nil_r.
  - cbn [fold_left]. destruct (IH (super b (RelationJoin (rel_name relation) "leftJoin")))
      as [-> ->].
    split; [| done]. rewrite fmap_cons. simpl. by rewrite <- app_assoc.
Qed.

(** X10: the joins of [find]. The relations to join that an earlier [find]
    left behind are forgotten. When [find] returns, the query has the calls
    of the handlers and after them one [leftJoin] per relation collected by
    the filters of the [where] parameter: every one of them a one-to-one
    relation, each name once, however many filters refer to it. A query
    without a [where] parameter joins nothing. *)
Theorem find_joins_each_one_to_one_relation_once env b query allowed b' :
  find env b query allowed = Ok b' →
  ∃ b1,
    forM (find_entry env allowed) query (set_relationsToJoin b []) = Ok b1
    ∧ _relationsToJoin b' = _relationsToJoin b1
    ∧ calls b'
      = calls b1
        ++ ((λ name, RelationJoin name "leftJoin") <$> keys (_relationsToJoin b1))
    ∧ NoDup (keys (_relationsToJoin b1))
    ∧ (∀ name relation, (name, relation) ∈ _relationsToJoin b1 →
                        name = rel_name relation ∧ rel_isOneToOne relation = true)
    ∧ ("where" ∉ keys query → _relationsToJoin b1 = [] ∧ calls b' = calls b1).
Proof.
  unfold find. cbv zeta.
  destruct (forM (find_entry env allowed) query (set_relationsToJoin b [])) as [b1 |]
    eqn:Hloop; [| done].
  intros [= <-]. exists b1. split; [done |].
  destruct (joinRelations_calls (_relationsToJoin b1) b1) as [Hcalls Hjoins].
  assert (oneToOneByName (_relationsToJoin b1)) as [Hnodup Hall].
  { refine (forM_preserves (λ b, oneToOneByName (_relationsToJoin b)) _ query _ _ _
              Hloop _).
    - intros b2 entry b3 Hentry. by apply (find_entry_relationsToJoin env allowed b2 entry).
    - split; [apply NoDup_nil_2 | done]. }
  assert ("where" ∉ keys query → _relationsToJoin b1 = []) as Hnone.
  { intros Hwhere.
    assert (∀ query b2 b3,
              "where" ∉ keys query →
              forM (find_entry env allowed) query b2 = Ok b3 →
              _relationsToJoin b3 = _relationsToJoin b2) as Hsame.
    { clear. induction query as [| [key v] query IH]; intros b2 b3 Hwhere.
      - by intros [= <-].
      - rewrite forM_cons.
        destruct (find_entry env allowed b2 (key, v)) as [b2' |] eqn:Hentry; [| done].
        intros Hrest. apply find_entry_relationsToJoin in Hentry as [Hentry _].
        rewrite (IH b2' b3); [apply Hentry | | done].
        + simpl. intros ->. apply Hwhere. simpl. by left.
        + intros Hin. apply Hwhere. simpl. by right. }
    by rewrite (Hsame query _ b1 Hwhere Hloop). }
  unfold joinRelations. rewrite Hjoins, Hcalls.
  assert ((λ entry : string * Relation, RelationJoin (rel_name entry.2) "leftJoin")
            <$> _relationsToJoin b1
          = (λ name, RelationJoin name "leftJoin") <$> keys (_relationsToJoin b1)) as ->.
  { unfold keys. rewrite <- list_fmap_compose.
    apply Forall_fmap_ext_1. eapply Forall_impl; [exact Hall |].
    intros [name relation] [Hname _]. simpl in *. by rewrite Hname. }
  split; [done |]. split; [done |]. split; [done |]. split.
  - intros name relation Hin.
    by apply (proj1 (Forall_forall _ _) Hall (name, relation)).
  - intros Hwhere. rewrite (Hnone Hwhere). split; [done |]. by rewrite app_nil_r.
Qed.

Lemma find_joins_each_one_to_one_relation_once_witness :
  ∃ b',
    find sample_env_relations constructor
      [("where", VObj None [("address", VObj None [("city", VStr "Oslo");
                                                   ("zip", VStr "0150")]);
                            ("messages.unread", VStr "true")]);
       ("limit", VNum 10)]
      None = Ok b'
    ∧ keys (_relationsToJoin b') = ["address"]
    ∧ calls b'
      = [Call "where" [VStr "address.city"; VStr "="; VStr "Oslo"];
         Call "where" [VStr "address.zip"; VStr "="; VStr "0150"];
         Call "where" [VStr "messages.unread"; VStr "="; VStr "true"];
         Call "limit" [VNum 10];
         RelationJoin "address" "leftJoin"].
Proof.
  assert (∃ b',
            find sample_env_relations constructor
              [("where", VObj None [("address", VObj None [("city", VStr "Oslo");
                                                           ("zip", VStr "0150")]);
                                    ("messages.unread", VStr "true")]);
               ("limit", VNum 10)]
              None = Ok b') as [b' Hfind].
  { vm_compute. eexists. reflexivity. }
  exists b'. split; [exact Hfind |].
  destruct (find_joins_each_one_to_one_relation_once _ _ _ _ _ Hfind)
    as (b1 & Hloop & Hjoins & Hcalls & _).
  vm_compute in Hloop. injection Hloop as <-.
  rewrite Hjoins, Hcalls. split; reflexivity.
Defined.

(** ** The options of the graph methods *)

Lemma assoc_spread o2 :
  ∀ o1 key,
    NoDup (keys o2) →
    assoc key (spread o1 o2)
    = match assoc key o2 with
      | Some v => Some v
      | None => assoc key o1
      end.
Proof.
  unfold spread. induction o2 as [| [k v] o2 IH]; intros o1 key Hnodup; [done |].
  change (keys ((k, v) :: o2)) with (k :: keys o2) in Hnodup.
  apply NoDup_cons in Hnodup as [Hk Hnodup]. cbn [fold_left assoc].
  rewrite IH by done. case_bool_decide as Hkey.
  - subst key. apply assoc_None_keys in Hk. by rewrite Hk, assoc_set_eq.
  - by rewrite assoc_set_ne.
Qed.

Lemma NoDup_keys_spread o2 :
  ∀ o1, NoDup (keys o1) → NoDup (keys (spread o1 o2)).
Proof.
  unfold spread. induction o2 as [| [k v] o2 IH]; intros o1 Hnodup; [done |].
  cbn [fold_left]. apply IH. by apply NoDup_keys_assoc_set.
Qed.

(** X11: the options of the graph methods. [insertGraph] and
    [insertGraphAndFetch] pass on [relate: true], [upsertGraph] and
    [upsertGraphAndFetch] [relate], [unrelate] and [insertMissing: true],
    [updateGraph] and [updateGraphAndFetch] these and [update: true], each
    in one call of the inherited method on the same data; an option the
    caller gives replaces the preset one, every other option of the caller
    is passed on, and no option is passed twice. *)
Theorem graph_options_caller_overrides_presets b data opt :
  NoDup (keys opt) →
  Forall
    (λ '(method, preset, graphMethod),
       ∃ options,
         graphMethod b data (Some opt) = super b (Call method [data; VObj None options])
         ∧ NoDup (keys options)
         ∧ (∀ key, assoc key options
                   = match assoc key opt with
                     | Some v => Some v
                     | None => assoc key preset
                     end)
         ∧ graphMethod b data None = super b (Call method [data; VObj None preset]))
    [("insertGraph", insertGraphOptions, insertGraph);
     ("insertGraphAndFetch", insertGraphOptions, insertGraphAndFetch);
     ("upsertGraph", upsertGraphOptions, upsertGraph);
     ("upsertGraphAndFetch", upsertGraphOptions, upsertGraphAndFetch);
     ("upsertGraph", upsertGraphOptions ++ [("update", VBool true)], updateGraph);
     ("upsertGraphAndFetch", upsertGraphOptions ++ [("update", VBool true)],
      updateGraphAndFetch)].
Proof.
  intros Hnodup.
  assert (NoDup (keys insertGraphOptions)) as Hinsert
      by (apply (bool_decide_unpack _); vm_compute; exact I).
  assert (NoDup (keys upsertGraphOptions)) as Hupsert
      by (apply (bool_decide_unpack _); vm_compute; exact I).
  assert (NoDup (keys [("update", VBool true)])) as Hupdate
      by (apply (bool_decide_unpack _); vm_compute; exact I).
  assert (∀ key,
            assoc key (spread upsertGraphOptions (spread [("update", VBool true)] opt))
            = match assoc key opt with
              | Some v => Some v
              | None => assoc key (upsertGraphOptions ++ [("update", VBool true)])
              end) as Hboth.
  { intros key. rewrite assoc_spread by (by apply NoDup_keys_spread).
    rewrite assoc_spread by done.
    destruct (assoc key opt); [done |]. simpl.
    repeat (case_bool_decide; [by subst key |]). done. }
  repeat apply Forall_cons_2; [ .. | apply Forall_nil_2 ].
  - eexists. split; [reflexivity |]. split; [by apply NoDup_keys_spread |].
    split; [| done]. intros key. by apply assoc_spread.
  - eexists. split; [reflexivity |]. split; [by apply NoDup_keys_spread |].
    split; [| done]. intros key. by apply assoc_spread.
  - eexists. split; [reflexivity |]. split; [by apply NoDup_keys_spread |].
    split; [| done]. intros key. by apply assoc_spread.
  - eexists. split; [reflexivity |]. split; [by apply NoDup_keys_spread |].
    split; [| done]. intros key. by apply assoc_spread.
  - eexists. split; [reflexivity |]. split; [by apply NoDup_keys_spread |].
    split; [exact Hboth | done].
  - eexists. split; [reflexivity |]. split; [by apply NoDup_keys_spread |].
    split; [exact Hboth | done].
Qed.

Lemma graph_options_caller_overrides_presets_witness :
  ∃ options,
    updateGraph constructor (VObj None [("name", VStr "Ann")])
      (Some [("relate", VBool false); ("fetchStrategy", VStr "OnlyNeeded")])
    = super constructor (Call "upsertGraph" [VObj None [("name", VStr "Ann")];
                                             VObj None options])
    ∧ assoc "relate" options = Some (VBool false)
    ∧ assoc "unrelate" options = Some (VBool true)
    ∧ assoc "update" options = Some (VBool true)
    ∧ assoc "fetchStrategy" options = Some (VStr "OnlyNeeded").
Proof.
  pose proof (graph_options_caller_overrides_presets constructor
                (VObj None [("name", VStr "Ann")])
                [("relate", VBool false); ("fetchStrategy", VStr "OnlyNeeded")]
                ltac:(apply (bool_decide_unpack _); vm_compute; exact I)) as Hall.
  destruct (proj1 (Forall_lookup _ _) Hall 4%nat _ eq_refl)
    as (options & Hcall & _ & Hoptions & _).
  exists options. split; [exact Hcall |].
  by rewrite !Hoptions.
Defined.

(** ** Reading the data of a graph processor again *)

Lemma assoc_app {A} (key : string) (o1 o2 : list (string * A)) :
  assoc key (o1 ++ o2)
  = match assoc key o1 with
    | Some a => Some a
    | None => assoc key o2
    end.
Proof.
  induction o1 as [| [k a] o1 IH]; simpl; [done |]. by case_bool_decide.
Qed.

Lemma assoc_record_all log :
  ∀ m key,
    assoc key (record_all log m)
    = match assoc key (reverse log) with
      | Some values => Some values
      | None => assoc key m
      end.
Proof.
  unfold record_all. induction log as [| [k values] log IH]; intros m key; [done |].
  cbn [fold_left]. rewrite IH, reverse_cons, assoc_app.
  destruct (assoc key (reverse log)); [done |]. simpl.
  case_bool_decide as Hk.
  - subst k. apply assoc_set_eq.
  - by apply assoc_set_ne.
Qed.

Lemma keys_record_all_in log :
  ∀ m, (∀ key, key ∈ keys log → key ∈ keys m) → keys (record_all log m) = keys m.
Proof.
  unfold record_all. induction log as [| [k values] log IH]; intros m Hin; [done |].
  cbn [fold_left].
  assert (keys (assoc_set k values m) = keys m) as Hkeys.
  { apply keys_assoc_set_in. apply Hin. simpl. by left. }
  rewrite IH; [done |]. intros key Hkey. rewrite Hkeys. apply Hin. simpl. by right.
Qed.

Lemma assoc_list_ext {A} (o1 : list (string * A)) :
  ∀ o2, NoDup (keys o1) → keys o1 = keys o2 →
        (∀ key, assoc key o1 = assoc key o2) → o1 = o2.
Proof.
  induction o1 as [| [k a] o1 IH]; intros [| [k' a'] o2] Hnodup Hkeys Hassoc;
    try done.
  simpl in Hkeys. injection Hkeys as <- Hkeys.
  change (keys ((k, a) :: o1)) with (k :: keys o1) in Hnodup.
  apply NoDup_cons in Hnodup as [Hk Hnodup].
  pose proof (Hassoc k) as Hhead. simpl in Hhead.
  rewrite !bool_decide_eq_true_2 in Hhead by done. injection Hhead as <-.
  f_equal. apply IH; [done | done |].
  intros key. specialize (Hassoc key). simpl in Hassoc.
  case_bool_decide as Hkey; [| done].
  subst key. apply assoc_None_keys in Hk as Hnone. rewrite Hnone.
  symmetry. apply assoc_None_keys. by rewrite <- Hkeys.
Qed.

Lemma record_all_again log m :
  NoDup (keys m) → record_all log (record_all log m) = record_all log m.
Proof.
  intros Hnodup. apply assoc_list_ext.
  - by do 2 apply NoDup_keys_record_all.
  - apply keys_record_all_in. intros key Hkey.
    apply assoc_Some_keys. rewrite assoc_record_all.
    destruct (assoc key (reverse log)) eqn:Hlog; [done |].
    apply assoc_None_keys in Hlog. destruct Hlog.
    unfold keys in *. rewrite fmap_reverse. by apply elem_of_reverse.
  - intros key. rewrite !assoc_record_all. by destruct (assoc key (reverse log)).
Qed.

Lemma relatesLog_set_removedRelations classes p r v :
  ∀ relationPath dataPath,
    relatesLog classes (set_removedRelations p r) v relationPath dataPath
    = relatesLog classes p v relationPath dataPath.
Proof.
  induction v as [a | items IH | cls fields IH] using value_ind';
    intros relationPath dataPath.
  - done.
  - simpl. generalize 0%nat as index.
    induction IH as [| x items Hx _ IHitems]; intros index; [done |].
    by rewrite Hx, IHitems.
  - destruct cls as [cls |]; [| done]. simpl.
    change (shouldRelate (set_removedRelations p r) relationPath)
      with (shouldRelate p relationPath).
    destruct (truthy (shouldRelate p relationPath)); [done |].
    induction (relationNames classes cls) as [| name names IHnames]; [done |].
    simpl. rewrite IHnames. f_equal.
    clear -IH. induction IH as [| [k x] fields Hx _ IHfields]; simpl; [done |].
    case_bool_decide; [apply Hx | exact IHfields].
Qed.

(** X12: [getData()] can be called again. When the removed relations are
    restored, a second call converts the same models, returns the same data
    and records for every path the values the first call recorded: the
    processor is as the first call left it, and [restoreRelations] restores
    the same relations. *)
Theorem getData_again_same_records classes p :
  NoDup (keys (default [] (removedRelations p))) →
  getData classes (getData classes p).1 = getData classes p
  ∧ ∀ result,
      restoreRelations (getData classes (getData classes p).1).1 result
      = restoreRelations (getData classes p).1 result.
Proof.
  intros Hnodup.
  assert (getData classes (getData classes p).1 = getData classes p) as Hagain.
  { rewrite (getData_spec classes (getData classes p).1), (getData_spec classes p).
    cbv beta iota zeta delta [fst snd].
    rewrite relatesData_set_removedRelations, relatesLog_set_removedRelations.
    unfold set_removedRelations. cbn [rootModelClass data isArray_ options overrides
                                       numOptions numOverrides removedRelations].
    destruct (removedRelations p) as [m |]; [| done]. cbn [fmap option_fmap option_map].
    by rewrite record_all_again. }
  split; [exact Hagain |]. intros result. by rewrite Hagain.
Qed.

Lemma getData_again_same_records_witness :
  getData sample_classes (getData sample_classes sample_processor).1
  = getData sample_classes sample_processor
  ∧ removedRelations (getData sample_classes sample_processor).1 ≠ Some [].
Proof.
  split; [| by vm_compute].
  apply (getData_again_same_records sample_classes sample_processor).
  apply (bool_decide_unpack _). vm_compute. exact I.
Defined.

(** X13: without the setting [restoreRelations] the graph is not processed.
    [getData()] hands back the data the processor was constructed with, as
    it is: no model is converted to a reference, whatever the [relate]
    option and the overrides say, nothing is recorded, and
    [restoreRelations] returns every result as it is. *)
Theorem without_restoreRelations_graph_passes_through classes root v opts settings p :
  GraphProcessor_new classes root v opts settings = Some p →
  restoreRelations_ settings = false →
  getData classes p = (p, v)
  ∧ ∀ result, restoreRelations p result = Some result.
Proof.
  intros Hnew Hrestore.
  destruct (GraphProcessor_new_spec _ _ _ _ _ _ Hnew)
    as (_ & Hdata & Harray & _ & Hremoved & _).
  rewrite Hrestore in Hremoved. split.
  - unfold getData. rewrite Hremoved, Hdata, Harray. f_equal.
    + destruct p. simpl in *. by subst.
    + by destruct v as [a | items | cls fields].
  - intros result. unfold restoreRelations. rewrite Hremoved. simpl.
    by destruct result as [[] | items | cls fields].
Qed.

Lemma without_restoreRelations_graph_passes_through_witness :
  ∃ p,
    GraphProcessor_new sample_classes "Person" sample_graph sample_options
      {| processOverrides_ := true; restoreRelations_ := false |} = Some p
    ∧ assoc "relate" (overrides p) ≠ None
    ∧ getData sample_classes p = (p, sample_graph)
    ∧ restoreRelations p sample_graph = Some sample_graph.
Proof.
  assert (∃ p,
            GraphProcessor_new sample_classes "Person" sample_graph sample_options
              {| processOverrides_ := true; restoreRelations_ := false |} = Some p
            ∧ assoc "relate" (overrides p) ≠ None) as (p & Hnew & Hrelate).
  { vm_compute. eexists. split; [reflexivity | done]. }
  exists p. split; [exact Hnew |]. split; [exact Hrelate |].
  destruct (without_restoreRelations_graph_passes_through _ _ _ _ _ _ Hnew eq_refl)
    as [Hdata Hrestore].
  split; [exact Hdata | apply Hrestore].
Defined.

(** ** The overrides a graph processor collects *)

Lemma js_in_false_assoc {A} (key : string) (o : list (string * A)) :
  js_in key o = false → assoc key o = None.
Proof.
  unfold js_in, js_lookup. destruct (assoc key o); [done |].
  by destruct (inherited key).
Qed.

Lemma assoc_Some_NoDup {A} (key : string) (a : A) (o : list (string * A)) :
  NoDup (keys o) → (key, a) ∈ o → assoc key o = Some a.
Proof.
  induction o as [| [k b] o IH]; simpl; [by intros _ ?%elem_of_nil |].
  change (keys ((k, b) :: o)) with (k :: keys o).
  intros [Hk Hnodup]%NoDup_cons [[= -> ->] | Hin]%elem_of_cons.
  - by rewrite bool_decide_eq_true_2.
  - case_bool_decide as Hkey; [| by apply IH].
    subst k. destruct Hk. unfold keys. apply list_elem_of_fmap. by exists (key, a).
Qed.

Lemma collectRelation_counted classes opts0 modelClass relation :
  relation ∈ relationsOf classes modelClass →
  ∀ opts st,
    (∀ entry, entry ∈ opts → entry ∈ opts0) →
    overrides_counted classes opts0 st →
    overrides_counted classes opts0 (collectRelation opts st relation).
Proof.
  intros Hrelation. unfold collectRelation.
  induction opts as [| [key opt] opts IH]; intros [ovr n] Hsub Hst; [done |].
  cbn [fold_left]. apply IH; [intros entry Hentry; apply Hsub; by right |].
  destruct (js_in key (getGraphOptions relation)) eqn:Hin; [| done].
  destruct (strict_eq (get_field key (getGraphOptions relation)) opt) eqn:Heq; [done |].
  destruct (js_in key ovr) eqn:Hnew; [done |]. simpl.
  apply js_in_false_assoc in Hnew.
  destruct Hst as (Hnodup & Hcount & Hkeys). simpl in *.
  split; [by apply NoDup_keys_assoc_set |]. split.
  - cbn [fst snd]. rewrite assoc_set_new by done. rewrite length_app. simpl. lia.
  - intros key'. cbn [fst snd]. rewrite assoc_set_new by done.
    unfold keys. rewrite map_app.
    intros [Hkey' | ->%list_elem_of_singleton]%elem_of_app; [by apply Hkeys |].
    exists opt, modelClass, relation. split; [apply Hsub; by left | done].
Qed.

Lemma collectRelations_counted classes opts nOptions rec modelClass :
  (∀ st c st', rec st c = Some st' →
               overrides_counted classes opts st.1 → overrides_counted classes opts st'.1) →
  ∀ rs st st',
    (∀ relation, relation ∈ rs → relation ∈ relationsOf classes modelClass) →
    collectRelations opts nOptions rec rs st = Some st' →
    overrides_counted classes opts st.1 → overrides_counted classes opts st'.1.
Proof.
  intros Hrec. induction rs as [| r0 rs IH]; intros [[ovr n] processed] st' Hrs; simpl.
  - by intros [= <-].
  - destruct (collectRelation opts (ovr, n) r0) as [ovr1 n1] eqn:Hcollect.
    destruct (if (n1 <? nOptions)%nat
              then rec (ovr1, n1, processed) (rd_relatedModelClass r0)
              else Some (ovr1, n1, processed)) as [st1 |] eqn:Hst1; [| done].
    simpl. intros Hst' Hst. apply (IH st1 st'); [| done |].
    + intros relation Hin. apply Hrs. by right.
    + assert (overrides_counted classes opts (ovr1, n1)) as H1.
      { rewrite <- Hcollect.
        apply (collectRelation_counted classes opts modelClass); [| done | done].
        apply Hrs. by left. }
      destruct (n1 <? nOptions)%nat.
      * by apply (Hrec _ _ _ Hst1).
      * by injection Hst1 as <-.
Qed.

Lemma processModelClass_counted classes opts nOptions fuel :
  ∀ st c st',
    processModelClass classes fuel opts nOptions st c = Some st' →
    overrides_counted classes opts st.1 → overrides_counted classes opts st'.1.
Proof.
  induction fuel as [| fuel IH]; intros [[ovr n] processed] c st'; simpl; [done |].
  destruct (bool_decide (c ∈ processed) || inherited c).
  - by intros [= <-].
  - intros Hst'. by apply (collectRelations_counted classes opts nOptions _ c IH _ _ _
                             ltac:(done) Hst').
Qed.

(** X14: [collectOverrides()] comes to an end on every relation metadata,
    also where model classes refer to each other in a circle. On a new
    processor it leaves one empty array per overridden option and their
    number in [numOverrides]: only options of the call are overridden, and
    only those that some relation sets, in its graph options, to a value
    other than the option's. Nothing else of the processor changes. *)
Theorem collectOverrides_ends_and_counts classes p :
  overrides p = [] → numOverrides p = 0%nat →
  ∃ p',
    collectOverrides classes p = Some p'
    ∧ p' = set_overrides p (overrides p') (numOverrides p')
    ∧ numOverrides p' = length (overrides p')
    ∧ NoDup (keys (overrides p'))
    ∧ ∀ key paths,
        (key, paths) ∈ overrides p' →
        paths = []
        ∧ ∃ opt modelClass relation,
            (key, opt) ∈ options p
            ∧ relation ∈ relationsOf classes modelClass
            ∧ js_in key (getGraphOptions relation) = true
            ∧ strict_eq (get_field key (getGraphOptions relation)) opt = false.
Proof.
  intros Hovr Hnum.
  destruct (collectOverrides_total classes p) as [p' Hp']. exists p'.
  split; [exact Hp' |]. unfold collectOverrides in Hp'. rewrite Hovr, Hnum in Hp'.
  destruct (processModelClass classes (S (length classes)) (options p) (numOptions p)
              ([], 0%nat, []) (rootModelClass p)) as [[[ovr n] processed] |] eqn:Hcollect;
    [| done].
  injection Hp' as <-.
  pose proof (processModelClass_grows classes (options p) (numOptions p) _ _ _ _ Hcollect)
    as (_ & Hempty & _).
  specialize (Hempty ltac:(done)).
  apply processModelClass_counted in Hcollect as (Hnodup & Hcount & Hkeys).
  - simpl in *. split; [done |]. split; [done |]. split; [done |].
    intros key paths Hin. split.
    + apply (Hempty key). by apply assoc_Some_NoDup.
    + apply Hkeys. unfold keys. apply list_elem_of_fmap. by exists (key, paths).
  - split; [apply NoDup_nil_2 |]. split; [done |]. by intros key ?%elem_of_nil.
Qed.

Lemma collectOverrides_ends_and_counts_witness :
  ∃ p',
    collectOverrides sample_classes
      {| rootModelClass := "Person"; data := [sample_graph]; isArray_ := false;
         options := sample_options; overrides := []; numOptions := 1;
         numOverrides := 0; removedRelations := None |} = Some p'
    ∧ overrides p' = [("relate", [])]
    ∧ numOverrides p' = 1%nat
    ∧ resolveClass sample_classes "Person" ["friend"; "friend"] = Some "Person".
Proof.
  destruct (collectOverrides_ends_and_counts sample_classes
              {| rootModelClass := "Person"; data := [sample_graph]; isArray_ := false;
                 options := sample_options; overrides := []; numOptions := 1;
                 numOverrides := 0; removedRelations := None |} eq_refl eq_refl)
    as (p' & Hp' & _).
  exists p'. split; [exact Hp' |].
  vm_compute in Hp'. injection Hp' as <-. by vm_compute.
Defined.

Lemma GraphProcessor_new_counted classes root v opts settings p :
  GraphProcessor_new classes root v opts settings = Some p →
  NoDup (keys (overrides p))
  ∧ numOverrides p = length (overrides p)
  ∧ (∀ key, key ∈ keys (overrides p) → key ∈ keys opts)
  ∧ (processOverrides_ settings = false → overrides p = []).
Proof.
  unfold GraphProcessor_new.
  set (p0 := {| rootModelClass := root; data := ensureModelArray v;
                isArray_ := isArray v; options := opts; overrides := [];
                numOptions := length opts; numOverrides := 0;
                removedRelations := None |}).
  destruct (processOverrides_ settings); simpl.
  - unfold collectOverrides. remember (S (length classes)) as fuel eqn:Hfuel. simpl.
    destruct (processModelClass classes fuel opts (length opts)
                ([], 0%nat, []) root) as [[[ovr n] processed] |] eqn:Hcollect;
      [| by simpl].
    simpl.
    apply processModelClass_counted in Hcollect as (Hnodup & Hcount & Hkeys);
      [| split; [apply NoDup_nil_2 | split; [done | by intros key ?%elem_of_nil]]].
    simpl in *.
    assert (∀ key, key ∈ keys ovr → key ∈ keys opts) as Hsub.
    { intros key (opt & _ & _ & Hopt & _)%Hkeys.
      unfold keys. apply list_elem_of_fmap. by exists (key, opt). }
    destruct (0 <? n)%nat eqn:Hn.
    + unfold processOverrides. simpl.
      destruct (processExpression classes opts _ root None "" ovr) as [ovr' |] eqn:Hovr';
        [| done].
      simpl. intros [= <-]. simpl.
      apply (processExpression_extend classes root opts _ root None []) in Hovr'
        as [Hsame _]; [| done | done].
      rewrite Hsame. split; [done |]. split; [| done].
      rewrite Hcount. unfold keys in Hsame.
      by rewrite <- (length_map fst ovr), <- Hsame, length_map.
    + by intros [= <-].
  - intros [= <-]. simpl. split; [apply NoDup_nil_2 |]. split; [done |].
    split; [by intros key ?%elem_of_nil | done].
Qed.

Lemma assoc_getOptions_fold ovr :
  ∀ opts key,
    NoDup (keys ovr) →
    assoc key
      (fold_left
         (λ o '(key, paths), assoc_set key (VArr (map (λ s, VStr s) paths)) o)
         ovr opts)
    = match assoc key ovr with
      | Some paths => Some (VArr (map (λ s, VStr s) paths))
      | None => assoc key opts
      end.
Proof.
  induction ovr as [| [k paths] ovr IH]; intros opts key Hnodup; [done |].
  change (keys ((k, paths) :: ovr)) with (k :: keys ovr) in Hnodup.
  apply NoDup_cons in Hnodup as [Hk Hnodup]. cbn [fold_left assoc].
  rewrite IH by done. case_bool_decide as Hkey.
  - subst key. apply assoc_None_keys in Hk. by rewrite Hk, assoc_set_eq.
  - by rewrite assoc_set_ne.
Qed.

Lemma keys_getOptions_fold ovr :
  ∀ opts,
    (∀ key, key ∈ keys ovr → key ∈ keys opts) →
    keys (fold_left
            (λ o '(key, paths), assoc_set key (VArr (map (λ s, VStr s) paths)) o)
            ovr opts)
    = keys opts.
Proof.
  induction ovr as [| [k paths] ovr IH]; intros opts Hin; [done |].
  cbn [fold_left].
  assert (keys (assoc_set k (VArr (map (λ s, VStr s) paths)) opts) = keys opts) as Hkeys.
  { apply keys_assoc_set_in. apply Hin. simpl. by left. }
  rewrite IH; [done |]. intros key Hkey. rewrite Hkeys. apply Hin. simpl. by right.
Qed.

(** X15: the options [getOptions()] returns after construction. They have
    the keys of the options passed in, in their order. An option with an
    override is replaced by the array of its relation paths, each the path
    of a relation of the root model class for which the option is set, by
    the relation or else by the call; every other option keeps its value.
    Without the setting [processOverrides] the options are returned as they
    were passed. *)
Theorem getOptions_replaces_overridden_options classes root v opts settings p :
  GraphProcessor_new classes root v opts settings = Some p →
  keys (getOptions p) = keys opts
  ∧ (∀ key,
       assoc key (getOptions p)
       = match assoc key (overrides p) with
         | Some paths => Some (VArr (map (λ s, VStr s) paths))
         | None => assoc key opts
         end)
  ∧ (∀ key paths,
       assoc key (overrides p) = Some paths →
       key ∈ keys opts ∧ Forall (overridden classes root opts key) paths)
  ∧ (processOverrides_ settings = false → getOptions p = opts).
Proof.
  intros Hnew.
  destruct (GraphProcessor_new_counted _ _ _ _ _ _ Hnew)
    as (Hnodup & Hcount & Hsub & Hplain).
  destruct (GraphProcessor_new_spec _ _ _ _ _ _ Hnew)
    as (_ & _ & _ & Hopts & _ & Hpaths & _).
  assert (getOptions p
          = fold_left
              (λ o '(key, paths), assoc_set key (VArr (map (λ s, VStr s) paths)) o)
              (overrides p) (options p)) as Hfold.
  { unfold getOptions. destruct (0 <? numOverrides p)%nat eqn:Hn; [done |].
    apply Nat.ltb_ge in Hn. destruct (overrides p); [done | simpl in Hcount; lia]. }
  rewrite Hfold, Hopts. split; [by apply keys_getOptions_fold |].
  split; [intros key; by apply assoc_getOptions_fold |]. split.
  - intros key paths Hkey. split; [| by apply Hpaths].
    apply Hsub, assoc_Some_keys. by rewrite Hkey.
  - intros Hoff. by rewrite (Hplain Hoff).
Qed.

Lemma getOptions_replaces_overridden_options_witness :
  getOptions sample_processor
  = [("relate",
      VArr [VStr "friend"; VStr "friend.pets.vet"; VStr "friend.pets.vet.friend";
            VStr "pets.vet"; VStr "pets.vet.friend"])]
  ∧ keys (getOptions sample_processor) = keys sample_options.
Proof.
  split; [reflexivity |].
  apply (getOptions_replaces_overridden_options sample_classes "Person" sample_graph
           sample_options {| processOverrides_ := true; restoreRelations_ := true |}
           sample_processor eq_refl).
Defined.

(** ** Relation paths and data paths *)

(** X16: the paths [appendPath] builds. As long as the names are not empty
    and hold neither [.] nor [/], a relation path and a data path name one
    sequence of relations or tokens: the path, split at its separator, gives
    the names back, and different sequences have different paths. A name with
    a separator in it is not told apart from the two names around the
    separator. *)
Theorem appendPath_paths_split_back names1 names2 :
  Forall (λ name, identifier name = true) names1 →
  Forall (λ name, identifier name = true) names2 →
  (names1 ≠ [] →
   split_char "." (relationPathOf names1) = names1
   ∧ split_char "/" (extendPath "" names1) = names1
   ∧ relationPathOf names1 ≠ "" ∧ extendPath "" names1 ≠ "")
  ∧ (relationPathOf names1 = relationPathOf names2 → names1 = names2)
  ∧ (extendPath "" names1 = extendPath "" names2 → names1 = names2)
  ∧ relationPathOf ["pets.vet"] = relationPathOf ["pets"; "vet"]
  ∧ extendPath "" ["0/pets"] = extendPath "" ["0"; "pets"].
Proof.
  intros Hnames1 Hnames2.
  assert (∀ names, Forall (λ name, identifier name = true) names → names ≠ [] →
                   split_char "/" (extendPath "" names) = names
                   ∧ extendPath "" names ≠ "") as Hdata.
  { intros [| name names] Hnames Hne; [done |].
    assert (split_char "/" (extendPath "" (name :: names)) = name :: names) as Hsplit.
    { apply split_extendPath_root.
      - apply Forall_cons in Hnames as [Hname _].
        by destruct (identifier_spec _ Hname) as (? & _).
      - eapply Forall_impl; [exact Hnames |]. intros token Htoken.
        by destruct (identifier_spec _ Htoken) as (_ & _ & ?). }
    split; [exact Hsplit |]. intros Hempty. rewrite Hempty in Hsplit.
    injection Hsplit as <- _. apply Forall_cons in Hnames as [Hname _].
    by destruct (identifier_spec _ Hname) as (? & _). }
  split; [| split; [| split; [| done]]].
  - intros Hne. destruct (split_relationPathOf names1 Hne Hnames1) as [Hpath Hsplit].
    destruct (Hdata names1 Hnames1 Hne) as [Hsplit' Hpath']. done.
  - by apply relationPathOf_inj.
  - intros Heq. destruct names1 as [| n1 names1], names2 as [| n2 names2]; [done | | |].
    + destruct (Hdata (n2 :: names2)) as [_ Hne]; [done | done |]. by destruct Hne.
    + destruct (Hdata (n1 :: names1)) as [_ Hne]; [done | done |]. by destruct Hne.
    + destruct (Hdata (n1 :: names1)) as [<- _]; [done | done |].
      destruct (Hdata (n2 :: names2)) as [<- _]; [done | done |]. by rewrite Heq.
Qed.

Lemma appendPath_paths_split_back_witness :
  split_char "." (relationPathOf ["friend"; "pets"; "vet"]) = ["friend"; "pets"; "vet"]
  ∧ split_char "/" (extendPath "" ["0"; "pets"; "1"]) = ["0"; "pets"; "1"].
Proof.
  destruct (appendPath_paths_split_back ["friend"; "pets"; "vet"] []
              ltac:(repeat constructor) ltac:(constructor)) as [Hrelation _].
  destruct (appendPath_paths_split_back ["0"; "pets"; "1"] []
              ltac:(repeat constructor) ltac:(constructor)) as [Hdata _].
  split; [apply Hrelation | apply Hdata]; done.
Defined.

(** ** The wrappers of the [where] methods *)

Lemma string_has_app_sep c a b : string_has c (a +:+ String c b) = true.
Proof.
  induction a as [| x a IH].
  - change ("" +:+ String c b) with (String c b). simpl. by rewrite Ascii.eqb_refl.
  - rewrite string_app_cons. simpl. rewrite IH. apply orb_true_r.
Qed.

Lemma string_has_app_dot a b : string_has "." (a +:+ "." +:+ b) = true.
Proof. change ("." +:+ b) with (String "." b). apply string_has_app_sep. Qed.

Lemma string_app_inj_l a x y : a +:+ x = a +:+ y → x = y.
Proof.
  induction a as [| c a IH]; [done |].
  rewrite !string_app_cons. intros [= H]. by apply IH.
Qed.

Lemma inherited_no_dot name : inherited name = true → string_has "." name = false.
Proof.
  unfold inherited. intros Hin%bool_decide_eq_true.
  assert (Forall (λ n, string_has "." n = false) objectPrototypeNames) as Hall
      by (by repeat constructor).
  by apply (proj1 (Forall_forall _ _) Hall).
Qed.

Lemma convertIdentifier_cases env s :
  (convertIdentifier env s = modelName env +:+ "." +:+ s
   ∧ (s ∈ properties env ∨ inherited s = true))
  ∨ (convertIdentifier env s = s ∧ (s ∉ properties env) ∧ inherited s = false).
Proof.
  unfold convertIdentifier. case_bool_decide as Hs; simpl; [left; by auto |].
  destruct (inherited s); [left | right]; by auto.
Qed.

Lemma convertIdentifier_qualified env s :
  Forall (λ p, string_has "." p = false) (properties env) →
  convertIdentifier env (modelName env +:+ "." +:+ s) = modelName env +:+ "." +:+ s.
Proof.
  intros Hprops.
  destruct (convertIdentifier_cases env (modelName env +:+ "." +:+ s))
    as [[_ [Hin | Hin]] | [Heq _]]; [| | done].
  - apply (proj1 (Forall_forall _ _) Hprops) in Hin.
    by rewrite string_has_app_dot in Hin.
  - apply inherited_no_dot in Hin. by rewrite string_has_app_dot in Hin.
Qed.

Lemma convertIdentifier_inj env s1 s2 :
  string_has "." s1 = false → string_has "." s2 = false →
  convertIdentifier env s1 = convertIdentifier env s2 → s1 = s2.
Proof.
  intros Hs1 Hs2.
  destruct (convertIdentifier_cases env s1) as [[-> _] | [-> _]],
           (convertIdentifier_cases env s2) as [[-> _] | [-> _]].
  - by intros H%string_app_inj_l%string_app_inj_l.
  - intros <-. by rewrite string_has_app_dot in Hs2.
  - intros ->. by rewrite string_has_app_dot in Hs1.
  - done.
Qed.

Lemma convert_fields_fold env (fields : list (string * value)) :
  ∀ converted : list (string * value),
    NoDup (keys fields) →
    Forall (λ key, string_has "." key = false) (keys fields) →
    (∀ key, key ∈ keys fields → convertIdentifier env key ∉ keys converted) →
    fold_left (λ converted '(key, v), assoc_set (convertIdentifier env key) v converted)
              fields converted
    = converted ++ map (λ '(key, v), (convertIdentifier env key, v)) fields.
Proof.
  induction fields as [| [k v] fields IH]; intros converted Hnodup Hdots Hnew.
  - by rewrite app_nil_r.
  - change (keys ((k, v) :: fields)) with (k :: keys fields) in *.
    apply NoDup_cons in Hnodup as [Hk Hnodup].
    apply Forall_cons in Hdots as [Hdot Hdots].
    cbn [fold_left map].
    rewrite assoc_set_new
      by (apply assoc_None_keys, Hnew; by left).
    rewrite IH; [by rewrite <- app_assoc | done | done |].
    intros key Hkey. unfold keys. rewrite map_app. simpl.
    intros [Hin | Hin%list_elem_of_singleton]%elem_of_app.
    + apply (Hnew key); [by right | done].
    + apply convertIdentifier_inj in Hin; [by subst key | |done].
      by apply (proj1 (Forall_forall _ _) Hdots).
Qed.

(** X17: the conversion of identifiers in the [where] methods. The name of
    a model property is expanded to [Model.property]; when no property name
    holds a [.], an expanded name is left as it is, so that a [where] on the
    expanded column is the [where] on the property. An object of conditions
    whose keys hold no [.] is passed on with every key expanded and its
    value kept, in order. Methods other than the eight [where] methods pass
    their arguments on unchanged. *)
Theorem where_methods_expand_property_names env b method s rest :
  Forall (λ p, string_has "." p = false) (properties env) →
  (s ∈ properties env → convertIdentifier env s = modelName env +:+ "." +:+ s)
  ∧ convertIdentifier env (convertIdentifier env s) = convertIdentifier env s
  ∧ (method ∈ whereMethods →
     invoke env b method (VStr (convertIdentifier env s) :: rest)
     = invoke env b method (VStr s :: rest))
  ∧ (∀ cls fields,
       method ∈ whereMethods → NoDup (keys fields) →
       Forall (λ key, string_has "." key = false) (keys fields) →
       invoke env b method (VObj cls fields :: rest)
       = super b (Call method
                    (VObj None (map (λ '(key, v), (convertIdentifier env key, v)) fields)
                     :: rest)))
  ∧ (∀ args, method ∉ whereMethods →
             invoke env b method args = super b (Call method args)).
Proof.
  intros Hprops.
  assert (convertIdentifier env (convertIdentifier env s) = convertIdentifier env s)
    as Hagain.
  { destruct (convertIdentifier_cases env s) as [[Hs _] | [Hs _]]; rewrite !Hs.
    - by apply convertIdentifier_qualified.
    - done. }
  split; [| split; [done | split; [| split]]].
  - intros Hin. unfold convertIdentifier. by rewrite bool_decide_eq_true_2.
  - intros Hmethod. unfold invoke. rewrite bool_decide_eq_true_2 by done.
    by rewrite Hagain.
  - intros cls fields Hmethod Hnodup Hdots. unfold invoke.
    rewrite bool_decide_eq_true_2 by done.
    rewrite (convert_fields_fold env fields []); [done | done | done |].
    by intros key _ ?%elem_of_nil.
  - intros args Hmethod. unfold invoke. by rewrite bool_decide_eq_false_2.
Qed.

Lemma where_methods_expand_property_names_witness :
  invoke sample_env constructor "where" [VStr "Dummy.lastName"; VStr "Doe"]
  = invoke sample_env constructor "where" [VStr "lastName"; VStr "Doe"]
  ∧ calls (invoke sample_env constructor "where" [VStr "lastName"; VStr "Doe"])
    = [Call "where" [VStr "Dummy.lastName"; VStr "Doe"]].
Proof.
  destruct (where_methods_expand_property_names sample_env constructor "where"
              "lastName" [VStr "Doe"] ltac:(by repeat constructor))
    as (_ & _ & Hsame & _).
  split; [| reflexivity].
  apply Hsame. apply (bool_decide_unpack _). vm_compute. exact I.
Defined.

(** ** Clones *)

Lemma set_scopes_scopes b : set_scopes b (_scopes b) = b.
Proof. by destruct b. Qed.

Lemma mergeScope_set scopes :
  ∀ b, mergeScope b scopes = set_scopes b (_scopes (mergeScope b scopes)).
Proof.
  induction scopes as [| s scopes IH]; intros b.
  - by rewrite set_scopes_scopes.
  - rewrite mergeScope_cons. destruct (existsb (strict_eq s) (_scopes b)); [apply IH |].
    by rewrite IH at 1.
Qed.

(** X18: a clone shares the scopes of its builder. Scopes merged into the
    clone with [mergeScope] are merged into the builder it was cloned from
    as well, and the other way round: each is the builder [mergeScope] on
    itself would have given, and [execute] applies the scopes on both. Once
    [scope] has been called on the clone, it has an array of its own, and
    the builder keeps its scopes whatever is merged into the clone. *)
Theorem clone_shares_scopes_until_replaced st sb scopes :
  (scopesRef sb < length st)%nat →
  let '(st1, clone) := s_clone st sb in
  s_builder st1 clone = s_builder st sb
  ∧ (let '(st2, clone2) := s_mergeScope st1 clone scopes in
     s_builder st2 sb = mergeScope (s_builder st sb) scopes
     ∧ s_builder st2 clone2 = s_builder st2 sb)
  ∧ (let '(st2, sb2) := s_mergeScope st1 sb scopes in
     s_builder st2 clone = mergeScope (s_builder st clone) scopes)
  ∧ (let '(st3, clone3) := s_scope st1 clone scopes in
     s_builder st3 sb = s_builder st sb
     ∧ s_builder st3 clone3 = scope (s_builder st clone) scopes
     ∧ ∀ more,
         let '(st4, clone4) := s_mergeScope st3 clone3 more in
         s_builder st4 sb = s_builder st sb
         ∧ s_builder st4 clone4 = mergeScope (s_builder st3 clone3) more).
Proof.
  intros Hlen. cbn [s_clone].
  assert (∀ st' sb' scopes',
            (scopesRef sb' < length st')%nat →
            s_builder (<[scopesRef sb' := _scopes (mergeScope (s_builder st' sb') scopes')]> st')
                      sb'
            = mergeScope (s_builder st' sb') scopes') as Hmerge.
  { intros st' sb' scopes' Hlen'.
    transitivity (set_scopes (s_builder st' sb')
                    (_scopes (mergeScope (s_builder st' sb') scopes')));
      [| symmetry; apply mergeScope_set].
    unfold s_builder at 1 2. by rewrite list_lookup_insert_eq by done. }
  split; [done |]. split; [| split].
  - cbn [s_mergeScope]. split; [| done]. by apply (Hmerge st sb scopes).
  - cbn [s_mergeScope]. by apply (Hmerge st sb scopes).
  - unfold s_scope, s_clearScope, s_mergeScope. cbn [scopesRef own].
    assert (s_builder (st ++ [[]]) {| scopesRef := length st; own := own sb |}
            = clearScope (s_builder st sb)) as Hcleared.
    { unfold s_builder. cbn [scopesRef own].
      rewrite lookup_app_r, Nat.sub_diag by done. done. }
    assert (∀ x st', s_builder (<[length st := x]> (st ++ st')) sb
                     = s_builder (st ++ st') sb) as Hother.
    { intros x st'. unfold s_builder.
      rewrite list_lookup_insert_ne by lia. done. }
    assert (s_builder (st ++ [[]]) sb = s_builder st sb) as Hkeep.
    { unfold s_builder. by rewrite lookup_app_l by done. }
    split; [by rewrite Hother, Hkeep |]. split.
    + pose proof (Hmerge (st ++ [[]]) {| scopesRef := length st; own := own sb |} scopes)
        as Hm. cbn [scopesRef] in Hm. rewrite Hm by (rewrite length_app; simpl; lia).
      by rewrite Hcleared.
    + intros more. cbn [scopesRef]. split.
      * unfold s_builder at 1. rewrite !list_lookup_insert_ne by lia.
        by rewrite lookup_app_l by done.
      * pose proof (Hmerge
                      (<[length st := _scopes (mergeScope
                                                 (s_builder (st ++ [[]])
                                                    {| scopesRef := length st;
                                                       own := own sb |}) scopes)]>
                         (st ++ [[]]))
                      {| scopesRef := length st; own := own sb |} more) as Hm.
        cbn [scopesRef] in Hm. apply Hm.
        rewrite length_insert, length_app. simpl. lia.
Qed.

Lemma clone_shares_scopes_until_replaced_witness :
  let '(st, sb) := s_constructor [] in
  let '(st1, clone) := s_clone st sb in
  let '(st2, clone2) := s_mergeScope st1 clone [VStr "active"] in
  _scopes (s_builder st sb) = []
  ∧ _scopes (s_builder st2 sb) = [VStr "active"]
  ∧ s_builder st2 sb = mergeScope (s_builder st sb) [VStr "active"].
Proof.
  pose proof (clone_shares_scopes_until_replaced [[]]
                {| scopesRef := 0; own := constructor |} [VStr "active"]
                ltac:(simpl; lia)) as (_ & [Hshared _] & _).
  split; [reflexivity |]. split; [reflexivity | exact Hshared].
Defined.

(** ** The mixin of the query methods *)

Lemma mixin_methods_spec methods :
  NoDup methods →
  ∀ target warned,
    let st := mixin_methods methods (target, warned) in
    t_inherited st.1 = t_inherited target
    ∧ (∀ key,
         assoc key (t_own st.1)
         = match assoc key (t_own target) with
           | Some p => Some p
           | None =>
               if bool_decide (key ∈ methods) && negb (target_has target key)
               then Some (Redirected key) else None
           end)
    ∧ st.2 = warned ++ List.filter (target_has target) methods.
Proof.
  unfold mixin_methods.
  induction methods as [| method methods IH]; intros Hnodup target warned.
  - simpl. split; [done |]. split; [| by rewrite app_nil_r].
    intros key. by destruct (assoc key (t_own target)).
  - apply NoDup_cons in Hnodup as [Hmethod Hnodup]. cbn [fold_left List.filter].
    destruct (target_has target method) eqn:Hhas.
    + destruct (IH Hnodup target (warned ++ [method])) as (Hinh & Hown & Hwarned).
      split; [done |]. split; [| by rewrite Hwarned, <- app_assoc].
      intros key. rewrite Hown. destruct (assoc key (t_own target)); [done |].
      destruct (decide (key = method)) as [-> | Hne].
      * rewrite Hhas, !andb_false_r. done.
      * rewrite (bool_decide_ext (key ∈ method :: methods) (key ∈ methods)); [done |].
        rewrite elem_of_cons. tauto.
    + set (target1 := {| t_own := assoc_set method (Redirected method) (t_own target);
                         t_inherited := t_inherited target |}).
      destruct (IH Hnodup target1 warned) as (Hinh & Hown & Hwarned).
      assert (∀ key, key ≠ method → target_has target1 key = target_has target key)
        as Hother.
      { intros key Hne. unfold target_has, target1. cbn [t_own t_inherited].
        f_equal. apply bool_decide_ext. rewrite keys_assoc_set.
        case_bool_decide as Hin; [done |].
        rewrite elem_of_app, list_elem_of_singleton. tauto. }
      apply orb_false_iff in Hhas as Hparts. destruct Hparts as [Hkeys _].
      apply bool_decide_eq_false in Hkeys. apply assoc_None_keys in Hkeys.
      split; [done |]. split.
      * intros key. rewrite Hown. unfold target1 at 1. cbn [t_own].
        destruct (decide (key = method)) as [-> | Hne].
        -- rewrite assoc_set_eq, Hkeys, Hhas. simpl.
           by rewrite bool_decide_eq_true_2 by (by left).
        -- rewrite assoc_set_ne by done. destruct (assoc key (t_own target)); [done |].
           rewrite (Hother key Hne).
           rewrite (bool_decide_ext (key ∈ method :: methods) (key ∈ methods)); [done |].
           rewrite elem_of_cons. tauto.
      * rewrite Hwarned. f_equal. apply filter_ext_in. intros key Hkey.
        apply Hother. intros ->. apply Hmethod. by apply list_elem_of_In.
Qed.

Lemma mixin_methods_present methods :
  ∀ target warned,
    (∀ method, method ∈ methods → target_has target method = true) →
    mixin_methods methods (target, warned) = (target, warned ++ methods).
Proof.
  unfold mixin_methods.
  induction methods as [| method methods IH]; intros target warned Hall.
  - by rewrite app_nil_r.
  - cbn [fold_left]. rewrite Hall by (by left).
    rewrite IH by (intros m Hm; apply Hall; by right).
    by rewrite <- app_assoc.
Qed.

(** X19: [QueryBuilder.mixin(target)] defines the query methods the target
    lacks, and nothing else. A property the target has, its own or an
    inherited one, is not replaced: the method is left out with a warning.
    Every other method of the list becomes an own property that redirects to
    the method of that name; afterwards the target has all of them, and a
    second [mixin] changes nothing and warns about every method. *)
Theorem mixin_defines_missing_methods_only target :
  let target' := (mixin target).1 in
  t_inherited target' = t_inherited target
  ∧ (∀ key,
       assoc key (t_own target')
       = match assoc key (t_own target) with
         | Some p => Some p
         | None =>
             if bool_decide (key ∈ mixinMethods) && negb (target_has target key)
             then Some (Redirected key) else None
         end)
  ∧ (mixin target).2 = List.filter (target_has target) mixinMethods
  ∧ (∀ method, method ∈ mixinMethods → target_has target' method = true)
  ∧ mixin target' = (target', mixinMethods).
Proof.
  assert (NoDup mixinMethods) as Hnodup
      by (apply (bool_decide_unpack _); vm_compute; exact I).
  destruct (mixin_methods_spec mixinMethods Hnodup target []) as (Hinh & Hown & Hwarned).
  fold (mixin target) in Hinh, Hown, Hwarned. rewrite app_nil_l in Hwarned. cbv zeta.
  assert (∀ method, method ∈ mixinMethods → target_has (mixin target).1 method = true)
    as Hall.
  { intros method Hmethod. unfold target_has. rewrite Hinh.
    destruct (bool_decide (method ∈ t_inherited target)) eqn:Hi; [apply orb_true_r |].
    rewrite orb_false_r. apply bool_decide_eq_true, assoc_Some_keys.
    rewrite Hown. destruct (assoc method (t_own target)) eqn:Hm; [done |].
    apply assoc_None_keys in Hm.
    rewrite bool_decide_eq_true_2 by done. unfold target_has.
    rewrite bool_decide_eq_false_2 by done. by rewrite Hi. }
  split; [exact Hinh |]. split; [exact Hown |]. split; [exact Hwarned |].
  split; [exact Hall |].
  exact (mixin_methods_present mixinMethods (mixin target).1 [] Hall).
Qed.


(** ** The graph methods by id *)

Lemma getIdProperties_fold (f : string → string) (ids : list value)
    (columns : list string) :
  ∀ (start : nat) (fullId : list (string * value)),
    NoDup (f <$> columns) →
    (∀ column, column ∈ columns → f column ∉ keys fullId) →
    fold_left
      (λ fullId '(index, column),
         assoc_set (f column) (default VUndefined (ids !! index)) fullId)
      (imap (λ index column, (start + index, column)%nat) columns) fullId
    = fullId ++ imap (λ index column,
                        (f column, default VUndefined (ids !! (start + index)%nat)))
                     columns.
Proof.
  induction columns as [| column columns IH]; intros start fullId Hnodup Hnew.
  - by rewrite app_nil_r.
  - rewrite fmap_cons in Hnodup. apply NoDup_cons in Hnodup as [Hcolumn Hnodup].
    cbn [imap fold_left].
    rewrite assoc_set_new by (apply assoc_None_keys, Hnew; by left).
    rewrite (imap_ext _ (λ index column', (S start + index, column')%nat))
      by (intros; cbn; f_equal; lia).
    rewrite IH; [| done |].
    + rewrite <- app_assoc. cbn [app]. do 2 f_equal.
      apply imap_ext. intros index column' _. cbn. do 3 f_equal. lia.
    + intros column' Hcolumn'. unfold keys. rewrite map_app. cbn.
      intros [Hin | Hin%list_elem_of_singleton]%elem_of_app.
      * apply (Hnew column'); [by right | done].
      * apply Hcolumn. rewrite <- Hin. apply list_elem_of_fmap. by exists column'.
Qed.

(** X20: the graph methods by id. [getIdProperties] pairs the properties of
    the id columns with the ids given, in order: an id that is not given is
    [undefined], ids beyond the columns are left out. In
    [upsertGraphAndFetchById] and [updateGraphAndFetchById] the properties
    of the data come after those of the id: where the data has a property of
    the id itself, its value is the one passed on, not the id given. *)
Theorem graph_by_id_data_overrides_id idColumn (f : string → string) b id data opt :
  let columns := match idColumn with inl column => [column] | inr columns => columns end in
  NoDup (f <$> columns) → NoDup (keys data) →
  getIdProperties idColumn f id
  = imap (λ index column, (f column, default VUndefined (asArray id !! index))) columns
  ∧ ∃ graph,
      upsertGraphAndFetchById idColumn f b id data opt
      = upsertGraphAndFetch b (VObj None graph) opt
      ∧ updateGraphAndFetchById idColumn f b id data opt
        = updateGraphAndFetch b (VObj None graph) opt
      ∧ NoDup (keys graph)
      ∧ (∀ key v, assoc key data = Some v → assoc key graph = Some v)
      ∧ (∀ index column,
           columns !! index = Some column → assoc (f column) data = None →
           assoc (f column) graph = Some (default VUndefined (asArray id !! index)))
      ∧ (∀ key, assoc key data = None → key ∉ f <$> columns → assoc key graph = None).
Proof.
  intros columns Hcolumns Hdata.
  assert (getIdProperties idColumn f id
          = imap (λ index column, (f column, default VUndefined (asArray id !! index)))
                 columns) as Hids.
  { unfold getIdProperties. fold columns.
    refine (getIdProperties_fold f (asArray id) columns 0%nat [] Hcolumns _).
    by intros column _ ?%elem_of_nil. }
  split; [exact Hids |].
  exists (spread (getIdProperties idColumn f id) data).
  split; [done |]. split; [done |].
  assert (keys (getIdProperties idColumn f id) = f <$> columns) as Hkeys.
  { rewrite Hids. unfold keys. generalize columns as cs. intros cs.
    assert (∀ g : nat → nat,
              map fst (imap (λ index column,
                               (f column, default VUndefined (asArray id !! g index))) cs)
              = f <$> cs) as Hg.
    { induction cs as [| column cs IH]; intros g; [done |].
      cbn [imap map fmap list_fmap]. f_equal. apply (IH (g ∘ S)). }
    apply (Hg (λ index, index)). }
  split; [apply NoDup_keys_spread; by rewrite Hkeys |].
  split; [| split].
  - intros key v Hkey. by rewrite assoc_spread, Hkey by done.
  - intros index column Hcolumn Hkey. rewrite assoc_spread, Hkey by done.
    apply assoc_Some_NoDup; [by rewrite Hkeys |].
    rewrite Hids. apply list_elem_of_lookup. exists index.
    by rewrite list_lookup_imap, Hcolumn.
  - intros key Hkey Hnot. rewrite assoc_spread, Hkey by done.
    apply assoc_None_keys. by rewrite Hkeys.
Qed.

Lemma graph_by_id_data_overrides_id_witness :
  ∃ graph,
    upsertGraphAndFetchById (inr ["user_id"; "group_id"])
      (λ column, if bool_decide (column = "user_id") then "userId" else "groupId")
      constructor (VArr [VNum 1])
      [("userId", VNum 7); ("name", VStr "Ann")] None
    = upsertGraphAndFetch constructor (VObj None graph) None
    ∧ assoc "userId" graph = Some (VNum 7)
    ∧ assoc "groupId" graph = Some VUndefined
    ∧ assoc "name" graph = Some (VStr "Ann").
Proof.
  destruct (graph_by_id_data_overrides_id (inr ["user_id"; "group_id"])
              (λ column, if bool_decide (column = "user_id") then "userId" else "groupId")
              constructor (VArr [VNum 1])
              [("userId", VNum 7); ("name", VStr "Ann")] None
              ltac:(apply (bool_decide_unpack _); vm_compute; exact I)
              ltac:(apply (bool_decide_unpack _); vm_compute; exact I))
    as (_ & graph & Hcall & _ & _ & Hdata & Hid & _).
  exists graph. split; [exact Hcall |].
  split; [by apply Hdata |]. split; [| by apply Hdata].
  apply (Hid 1%nat "group_id"); reflexivity.
Defined.

(** ** C2 *)

Lemma hasEagerExpression_snoc cs c :
  hasEagerExpression (cs ++ [c])
  = match c with
    | Call method _ =>
        if bool_decide (method ∈ ["eager"; "mergeEager"]) then true
        else if bool_decide (method = "clearEager") then false
        else hasEagerExpression cs
    | _ => hasEagerExpression cs
    end.
Proof. unfold hasEagerExpression. rewrite fold_left_app. simpl. by destruct c. Qed.

Lemma hasEagerExpression_app cs cs' :
  Forall (λ c, eagerCall c = false) cs' →
  hasEagerExpression (cs ++ cs') = hasEagerExpression cs.
Proof.
  induction cs' as [| c cs' IH] using rev_ind; intros Hcs'.
  - by rewrite app_nil_r.
  - apply Forall_app in Hcs' as [Hcs' Hc]. apply Forall_inv in Hc.
    rewrite app_assoc, hasEagerExpression_snoc, IH by done.
    destruct c as [method args | |]; try done.
    unfold eagerCall in Hc. apply bool_decide_eq_false in Hc.
    rewrite !not_elem_of_cons in Hc. destruct Hc as (Heager & Hmerge & Hclear & _).
    rewrite bool_decide_eq_false_2
      by (rewrite !not_elem_of_cons; split; [done | split; [done | apply not_elem_of_nil]]).
    by rewrite bool_decide_eq_false_2.
Qed.

Lemma eager_untouched_refl b : eager_untouched b b.
Proof. split; [done |]. exists []. by rewrite app_nil_r. Qed.

Lemma eager_untouched_trans b1 b2 b3 :
  eager_untouched b1 b2 → eager_untouched b2 b3 → eager_untouched b1 b3.
Proof.
  intros [Hflag (cs & Hcalls & Hcs)] [Hflag' (cs' & Hcalls' & Hcs')].
  split; [by rewrite Hflag' |]. exists (cs ++ cs').
  split; [by rewrite Hcalls', Hcalls, app_assoc | by apply Forall_app].
Qed.

(** A builder that differs in other fields only. *)
Lemma eager_untouched_fields b b' :
  _applyDefaultEager b' = _applyDefaultEager b → calls b' = calls b →
  eager_untouched b b'.
Proof. intros Hflag Hcalls. split; [done |]. exists []. by rewrite app_nil_r. Qed.

Lemma eager_untouched_super b c :
  eagerCall c = false → eager_untouched b (super b c).
Proof. intros Hc. split; [done |]. exists [c]. split; [done | by constructor]. Qed.

Lemma eager_untouched_state b b' :
  eager_untouched b b' →
  _applyDefaultEager b' = _applyDefaultEager b
  ∧ hasEagerExpression (calls b') = hasEagerExpression (calls b)
  ∧ calls b `prefix_of` calls b'.
Proof.
  intros [Hflag (cs & Hcalls & Hcs)]. split; [done |]. rewrite Hcalls.
  split; [by apply hasEagerExpression_app | by exists cs].
Qed.

Lemma orderBy_eager_untouched b args : eager_untouched b (orderBy b args).
Proof.
  apply (eager_untouched_trans b (set_applyDefaultOrder b false));
    [by apply eager_untouched_fields | by apply eager_untouched_super].
Qed.

(** The methods the filters call are where methods. *)
Lemma queryFilters_methods :
  Forall (λ kv : string * queryFilter,
            ∀ column v i, kv.2 column v = Ok i → method i ∈ whereMethods)
         queryFilters.
Proof.
  unfold queryFilters.
  assert (Forall (λ kv : string * queryFilter,
                    ∀ column v i, kv.2 column v = Ok i → method i ∈ whereMethods)
                 queryFilters_literal) as Hliteral.
  { unfold queryFilters_literal.
    repeat (constructor;
            [simpl; intros column v i;
             try (destruct (value_split v ",") as [l |]; [| done]; simpl);
             intros [= <-]; apply (bool_decide_unpack _); by vm_compute |]).
    constructor. }
  revert Hliteral. generalize queryFilters_literal. generalize operators.
  induction l as [| [key operator] l IH]; intros registry Hregistry; simpl; [done |].
  apply IH.
  apply (Forall_assoc_set
           (λ f : queryFilter, ∀ column v i, f column v = Ok i → method i ∈ whereMethods));
    [done |].
  intros column v i [= <-]. apply (bool_decide_unpack _). by vm_compute.
Qed.

Lemma invoke_eager_untouched env b m a :
  m ∈ whereMethods → eager_untouched b (invoke env b m a).
Proof.
  intros Hm.
  assert (∀ args, eagerCall (Call m args) = false) as Hcall.
  { intros args. apply bool_decide_eq_false. intros Hin.
    unfold whereMethods in Hm.
    repeat (apply elem_of_cons in Hm as [-> | Hm]);
      try (by apply (bool_decide_pack _) in Hin; vm_compute in Hin).
    by apply elem_of_nil in Hm. }
  unfold invoke. case_bool_decide; [| done].
  destruct a as [| [[] | |] rest]; by apply eager_untouched_super.
Qed.

Lemma collectJoins_eager_untouched ptrs :
  ∀ b,
    eager_untouched b
      (fold_left
         (λ b ptr,
            match deref b ptr with
            | Ok ref =>
                match ref_relation ref with
                | Some relation =>
                    if rel_isOneToOne relation
                    then set_relationsToJoin b
                           (assoc_set (rel_name relation) relation (_relationsToJoin b))
                    else b
                | None => b
                end
            | Throw _ => b
            end)
         ptrs b).
Proof.
  induction ptrs as [| ptr ptrs IH]; intros b; [apply eager_untouched_refl |].
  simpl. eapply eager_untouched_trans; [| apply IH].
  destruct (deref b ptr) as [ref |]; [| apply eager_untouched_refl].
  destruct (ref_relation ref) as [relation |]; [| apply eager_untouched_refl].
  destruct (rel_isOneToOne relation); [| apply eager_untouched_refl].
  by apply eager_untouched_fields.
Qed.

Lemma parseQueryFilter_eager_untouched env b key v b' :
  parseQueryFilter env b key v = Ok b' → eager_untouched b b'.
Proof.
  unfold parseQueryFilter. cbv zeta. intros Hparse.
  destruct (getPropertyRefs env b (inl (hd "" (split_regex ":" is_ws key))) false true)
    as [[b0 ptrs] |] eqn:Hrefs; [| by destruct (selectQueryFilter _ v)].
  unfold getPropertyRefs in Hrefs.
  apply getPropertyRefs_map_fields in Hrefs as (_ & _ & Hflag & _ & _ & _ & Hcalls).
  apply (eager_untouched_trans b b0); [by apply eager_untouched_fields |].
  pose proof (collectJoins_eager_untouched ptrs b0) as Hfold.
  destruct (selectQueryFilter_lookup (split_regex ":" is_ws key) v)
    as [Habsent | [name Hname]]; [by rewrite Habsent in Hparse |].
  rewrite Hname in Hparse.
  destruct (js_lookup name queryFilters) as [f | |] eqn:Hf; [| | done].
  - assert (∀ column w i, f column w = Ok i → method i ∈ whereMethods) as Hmethod.
    { unfold js_lookup in Hf.
      destruct (assoc name queryFilters) as [f' |] eqn:Hassoc;
        [| by destruct (inherited name)].
      injection Hf as ->. apply assoc_Some_elem in Hassoc.
      pose proof queryFilters_methods as Hall. rewrite Forall_forall in Hall.
      apply (Hall _ Hassoc). }
    simpl in Hparse. destruct ptrs as [| ptr [| ptr' ptrs]].
    + injection Hparse as <-.
      eapply eager_untouched_trans; [exact Hfold | by apply eager_untouched_super].
    + destruct (deref _ ptr) as [ref |]; [| done]. simpl in Hparse.
      destruct (f (ref_fullColumnName ref) v) as [i |] eqn:Hi; [| done].
      simpl in Hparse. injection Hparse as <-.
      eapply eager_untouched_trans; [exact Hfold |].
      apply invoke_eager_untouched. by apply (Hmethod _ _ _ Hi).
    + destruct (forM _ (ptr :: ptr' :: ptrs) []) as [group |]; [| done].
      injection Hparse as <-.
      eapply eager_untouched_trans; [exact Hfold | by apply eager_untouched_super].
  - simpl in Hparse. destruct ptrs as [| ptr [| ptr' ptrs]].
    + injection Hparse as <-.
      eapply eager_untouched_trans; [exact Hfold | by apply eager_untouched_super].
    + by destruct (deref _ ptr).
    + destruct (forM _ (ptr :: ptr' :: ptrs) []) as [group |]; [| done].
      injection Hparse as <-.
      eapply eager_untouched_trans; [exact Hfold | by apply eager_untouched_super].
Qed.

(** Every handler but [eager] with a truthy value leaves the eager
    expression and its flag alone. *)
Lemma queryHandlers_eager_untouched env key h b v b' :
  js_lookup key (queryHandlers env) = Own h → h b key v = Ok b' →
  (key = "eager" ∧ truthy v = true ∧ b' = mergeEager b v)
  ∨ ((key = "eager" → truthy v = false) ∧ eager_untouched b b').
Proof.
  unfold js_lookup. destruct (assoc key (queryHandlers env)) as [h' |] eqn:Hh;
    [| by destruct (inherited key)].
  intros [= ->] Hb'. apply assoc_Some_elem in Hh. unfold queryHandlers in Hh.
  apply elem_of_app in Hh as [Hh | Hh].
  - repeat (apply elem_of_cons in Hh as [[= -> ->] | Hh]);
      [ .. | by apply elem_of_nil in Hh ].
    + right. split; [done |].
      apply (processPropertyRefs_preserves (eager_untouched b) _ _
               (λ b1 ref val b2 Hparse Hb1,
                  eager_untouched_trans b b1 b2 Hb1
                    (parseQueryFilter_eager_untouched env b1 ref val b2 Hparse))
               _ _ _ Hb').
      apply eager_untouched_refl.
    + unfold handle_eager in Hb'. destruct (truthy v) eqn:Htruthy.
      * left. by injection Hb' as <-.
      * right. split; [done |]. injection Hb' as <-. apply eager_untouched_refl.
    + right. split; [done |]. unfold applyPropertiesExpression in Hb'.
      destruct (parsePropertiesExpression env v) as [parsed |]; [| done].
      injection Hb' as <-. revert b.
      induction parsed as [| [modelName props] parsed IH]; intros b;
        [apply eager_untouched_refl |].
      simpl. eapply eager_untouched_trans; [| apply IH].
      case_bool_decide; [by apply eager_untouched_super | apply eager_untouched_refl].
    + right. split; [done |]. unfold applyPropertiesExpression in Hb'.
      destruct (parsePropertiesExpression env v) as [parsed |]; [| done].
      injection Hb' as <-. revert b.
      induction parsed as [| [modelName props] parsed IH]; intros b;
        [apply eager_untouched_refl |].
      simpl. eapply eager_untouched_trans; [| apply IH].
      case_bool_decide; [by apply eager_untouched_super | apply eager_untouched_refl].
    + right. split; [done |]. unfold handle_scope in Hb'. injection Hb' as <-. simpl.
      destruct (existsb (strict_eq v) (_scopes b));
        [apply eager_untouched_refl | by apply eager_untouched_fields].
    + right. split; [done |]. unfold handle_range in Hb'.
      destruct (truthy v); [| injection Hb' as <-; apply eager_untouched_refl].
      destruct (range_bounds v) as [[start stop] |]; [| done]. simpl in Hb'.
      destruct (isNaN start || isNaN stop || js_lt stop start); [done |].
      injection Hb' as <-. by apply eager_untouched_super.
    + right. split; [done |]. injection Hb' as <-. by apply eager_untouched_super.
    + right. split; [done |]. injection Hb' as <-. by apply eager_untouched_super.
    + right. split; [done |]. unfold handle_order in Hb'.
      destruct (truthy v); [| injection Hb' as <-; apply eager_untouched_refl].
      destruct (order_refs v) as [refs |]; [| done]. simpl in Hb'.
      destruct (getPropertyRefs env b refs true true) as [[b1 ptrs] |] eqn:Hptrs;
        [| done].
      apply getPropertyRefs_map_fields in Hptrs as (_ & _ & Hflag & _ & _ & _ & Hcalls).
      simpl in Hb'.
      refine (forM_preserves (eager_untouched b) _ ptrs _ b1 b' Hb'
                (eager_untouched_fields b b1 Hflag Hcalls)).
      intros b2 ptr b3 Hbody Hb2. apply (eager_untouched_trans b b2 b3 Hb2).
      destruct (deref b2 ptr) as [ref |]; [| done]. simpl in Hbody.
      destruct (ref_relation ref) as [relation |].
      * destruct (negb (rel_isOneToOne relation)); [done |].
        injection Hbody as <-.
        eapply eager_untouched_trans; [| apply orderBy_eager_untouched].
        by apply eager_untouched_super.
      * injection Hbody as <-.
        eapply eager_untouched_trans; [apply orderBy_eager_untouched |].
        by apply eager_untouched_super.
  - right. apply list_elem_of_fmap in Hh as [join [[= -> ->] Hjoin]].
    injection Hb' as <-. unfold joins in Hjoin.
    repeat (apply elem_of_cons in Hjoin as [-> | Hjoin]);
      try (split; [done | by apply eager_untouched_super]).
    by apply elem_of_nil in Hjoin.
Qed.

Lemma find_entry_eager_untouched env allowed b key v b' :
  find_entry env allowed b (key, v) = Ok b' →
  (key = "eager" ∧ truthy v = true ∧ b' = mergeEager b v)
  ∨ ((key = "eager" → truthy v = false) ∧ eager_untouched b b').
Proof.
  unfold find_entry.
  destruct (negb (bool_decide (is_Some allowed)) || _); [| done].
  destruct (js_lookup key (queryHandlers env)) as [h | |] eqn:Hh.
  - by apply (queryHandlers_eager_untouched env).
  - unfold inheritedHandler. case_bool_decide; [| done].
    intros [= <-]. right. split; [by intros -> | apply eager_untouched_refl].
  - destruct (negb _); [done |]. intros [= <-]. right.
    split; [by intros -> | apply eager_untouched_refl].
Qed.

Lemma mergeEager_explicitEager b v :
  eagerFlagKept b →
  explicitEager (mergeEager b v)
  ∧ calls (mergeEager b v) = calls b ++ [Call "mergeEager" [v]].
Proof.
  intros Hkept. unfold explicitEager, mergeEager.
  destruct (hasEagerExpression (calls b)) eqn:Hhas; simpl;
    rewrite hasEagerExpression_snoc; split; try done.
  split; [done | by apply Hkept].
Qed.

Lemma find_entry_eager_state env allowed b key v b' :
  find_entry env allowed b (key, v) = Ok b' →
  calls b `prefix_of` calls b'
  ∧ (eagerFlagKept b → eagerFlagKept b')
  ∧ (explicitEager b → explicitEager b')
  ∧ (key = "eager" → truthy v = true → eagerFlagKept b →
     explicitEager b' ∧ Call "mergeEager" [v] ∈ calls b')
  ∧ ((key = "eager" → truthy v = false) → eager_untouched b b').
Proof.
  intros [(-> & Htruthy & ->) | Hsame]%find_entry_eager_untouched.
  - assert (calls (mergeEager b v) = calls b ++ [Call "mergeEager" [v]]) as Hcalls
      by (unfold mergeEager; by destruct (hasEagerExpression (calls b))).
    split; [rewrite Hcalls; by apply prefix_app_r |].
    split; [intros Hkept _; by apply mergeEager_explicitEager |].
    split; [intros [Hhas Hflag]; apply mergeEager_explicitEager; by intros _ |].
    split.
    + intros _ _ Hkept. split; [by apply mergeEager_explicitEager |].
      rewrite Hcalls. apply elem_of_app. right. by apply list_elem_of_singleton.
    + intros Hfalsy. rewrite Hfalsy in Htruthy; done.
  - destruct Hsame as [Hfalsy Hsame].
    destruct (eager_untouched_state _ _ Hsame) as (Hflag & Hhas & Hprefix).
    split; [done |]. unfold eagerFlagKept, explicitEager. rewrite Hflag, Hhas.
    split; [done |]. split; [done |]. split; [| done].
    intros Hkey Htruthy. by rewrite (Hfalsy Hkey) in Htruthy.
Qed.

Lemma find_entries_eager_state env allowed query :
  ∀ b b',
    forM (find_entry env allowed) query b = Ok b' →
    calls b `prefix_of` calls b'
    ∧ (eagerFlagKept b → eagerFlagKept b')
    ∧ (explicitEager b → explicitEager b')
    ∧ (∀ v, ("eager", v) ∈ query → truthy v = true → eagerFlagKept b →
            explicitEager b' ∧ Call "mergeEager" [v] ∈ calls b')
    ∧ ((∀ v, ("eager", v) ∈ query → truthy v = false) → eager_untouched b b').
Proof.
  induction query as [| [key w] query IH]; intros b b'.
  - intros [= <-]. split; [done |]. split; [done |]. split; [done |]. split.
    + by intros v ?%elem_of_nil.
    + intros _. apply eager_untouched_refl.
  - rewrite forM_cons.
    destruct (find_entry env allowed b (key, w)) as [b1 |] eqn:Hb1; [| done].
    change (Ok b1 ≫= ?f) with (f b1). intros Hrest.
    destruct (find_entry_eager_state _ _ _ _ _ _ Hb1) as (Hp1 & Hk1 & He1 & Hm1 & Hu1).
    destruct (IH _ _ Hrest) as (Hp & Hk & He & Hm & Hu).
    split; [by etrans |]. split; [auto |]. split; [auto |]. split.
    + intros v [[= <- <-] | Hin]%elem_of_cons Htruthy Hkept.
      * destruct (Hm1 eq_refl Htruthy Hkept) as [Hexp Hcall].
        split; [by apply He |]. by apply (elem_of_prefix _ _ _ Hcall).
      * apply (Hm v Hin Htruthy). by apply Hk1.
    + intros Hfalsy. apply (eager_untouched_trans b b1).
      * apply Hu1. intros ->. apply Hfalsy. by left.
      * apply Hu. intros v Hin. apply Hfalsy. by right.
Qed.

Lemma joinRelations_eager_untouched (rs : list (string * Relation)) :
  ∀ b,
    eager_untouched b
      (fold_left
         (λ b '(_, relation), super b (RelationJoin (rel_name relation) "leftJoin"))
         rs b).
Proof.
  induction rs as [| [name relation] rs IH]; intros b; [apply eager_untouched_refl |].
  cbn [fold_left]. eapply eager_untouched_trans; [| apply IH].
  by apply eager_untouched_super.
Qed.

(** C2, as amended. For a plan built by [find] from a query with an [eager]
    key whose value is truthy, the handler passes the value to [mergeEager],
    after which the plan has an eager expression and is marked as explicitly
    eager: the flag [_applyDefaultEager] is cleared (on a plan without an
    eager expression [mergeEager] goes through [eager], which clears it),
    and [execute] does not merge the default eager expression of the model
    class. An [eager] key with a falsy value is passed over: when the query
    has no truthy [eager] value, the eager expression and the flag are what
    they were. At [execute] the default eager expression and the default
    order are applied exactly for a find query without selects whose flag is
    still set (and whose class defines the default); then the scopes are
    applied. The flags are set on a new builder; [eager], [clearEager] and
    [mergeEager] clear the one, [orderBy] and [clearOrder] the other. *)
Theorem eager_parameter_marks_explicit_eager env b query allowed b' :
  find env b query allowed = Ok b' →
  eagerFlagKept b →
  (∀ v, ("eager", v) ∈ query → truthy v = true →
     Call "mergeEager" [v] ∈ calls b'
     ∧ explicitEager b'
     ∧ calls (execute env b')
       = calls b'
         ++ (if isFindQuery env (calls b') && negb (hasSelects env b')
                && truthy (defaultOrder env) && _applyDefaultOrder b'
             then [Call "orderBy" (asArray (defaultOrder env))] else [])
         ++ map (λ scope, Call "applyFilter" [scope]) (_scopes b')
         ++ [Call "execute" []])
  ∧ ((∀ v, ("eager", v) ∈ query → truthy v = false) → eager_untouched b b')
  ∧ eagerFlagKept b'
  ∧ (∀ v, find env b [("eager", v)] None
          = Ok (if truthy v then mergeEager (set_relationsToJoin b []) v
                else set_relationsToJoin b []))
  ∧ (∀ b0,
       calls (execute env b0)
       = calls b0
         ++ (if isFindQuery env (calls b0) && negb (hasSelects env b0)
                && truthy (defaultEager env) && _applyDefaultEager b0
             then [Call "mergeEager" [defaultEager env]] else [])
         ++ (if isFindQuery env (calls b0) && negb (hasSelects env b0)
                && truthy (defaultOrder env) && _applyDefaultOrder b0
             then [Call "orderBy" (asArray (defaultOrder env))] else [])
         ++ map (λ scope, Call "applyFilter" [scope]) (_scopes b0)
         ++ [Call "execute" []])
  ∧ _applyDefaultEager constructor = true
  ∧ _applyDefaultOrder constructor = true
  ∧ eagerFlagKept constructor
  ∧ (∀ b0 args, explicitEager (eager b0 args))
  ∧ (∀ b0, _applyDefaultEager (clearEager b0) = false ∧ eagerFlagKept (clearEager b0))
  ∧ (∀ b0 v, eagerFlagKept b0 → explicitEager (mergeEager b0 v))
  ∧ (∀ b0 args, _applyDefaultOrder (orderBy b0 args) = false)
  ∧ (∀ b0, _applyDefaultOrder (clearOrder b0) = false).
Proof.
  intros Hfind Hkept. unfold find in Hfind. cbv zeta in Hfind.
  destruct (forM (find_entry env allowed) query (set_relationsToJoin b [])) as [b1 |]
    eqn:Hloop; [| done].
  injection Hfind as <-.
  destruct (find_entries_eager_state _ _ _ _ _ Hloop) as (_ & Hk & _ & Hm & Hu).
  pose proof (joinRelations_eager_untouched (_relationsToJoin b1) b1) as Hjoin.
  fold (joinRelations b1) in Hjoin.
  destruct (eager_untouched_state _ _ Hjoin) as (Hflag & Hhas & Hprefix).
  split; [| split; [| split; [| split; [| split]]]].
  - intros v Hin Htruthy. destruct (Hm v Hin Htruthy Hkept) as [[Hhas1 Hflag1] Hcall].
    split; [by apply (elem_of_prefix _ _ _ Hcall) |].
    assert (_applyDefaultEager (joinRelations b1) = false) as Hcleared
      by (by rewrite Hflag).
    split; [split; [by rewrite Hhas | done] |].
    rewrite execute_calls, Hcleared. by rewrite andb_false_r.
  - intros Hfalsy. apply (eager_untouched_trans b (set_relationsToJoin b []));
      [by apply eager_untouched_fields |].
    apply (eager_untouched_trans _ b1); [by apply Hu | exact Hjoin].
  - unfold eagerFlagKept. rewrite Hflag, Hhas. by apply Hk.
  - intros v. unfold find. rewrite forM_cons.
    rewrite (find_entry_no_list _ _ _ _ handle_eager) by done.
    unfold handle_eager, mergeEager.
    destruct (truthy v); [| done].
    by destruct (hasEagerExpression (calls (set_relationsToJoin b []))).
  - intros b0. apply execute_calls.
  - split; [done |]. split; [done |]. split; [done |].
    split; [intros b0 args; split; [| done]; unfold eager; simpl;
            by rewrite hasEagerExpression_snoc |].
    split; [intros b0; split; [done |]; unfold eagerFlagKept, clearEager; simpl;
            by rewrite hasEagerExpression_snoc |].
    split; [intros b0 v Hb0; by apply mergeEager_explicitEager |].
    done.
Qed.

Lemma eager_parameter_marks_explicit_eager_witness :
  ∃ b',
    find sample_env constructor [("eager", VStr "pets"); ("limit", VNum 10)] None = Ok b'
    ∧ _applyDefaultEager b' = false
    ∧ calls (execute sample_env b')
      = [Call "mergeEager" [VStr "pets"]; Call "limit" [VNum 10];
         Call "orderBy" [VStr "lastName"]; Call "execute" []].
Proof.
  assert (∃ b', find sample_env constructor
                  [("eager", VStr "pets"); ("limit", VNum 10)] None = Ok b')
    as [b' Hb'] by (vm_compute; eexists; reflexivity).
  exists b'. split; [exact Hb' |].
  destruct (eager_parameter_marks_explicit_eager sample_env constructor _ None b' Hb')
    as (Htruthy & _); [done |].
  destruct (Htruthy (VStr "pets")) as (_ & [_ Hflag] & Hexecute);
    [by left | reflexivity |].
  split; [exact Hflag |]. rewrite Hexecute.
  vm_compute in Hb'. injection Hb' as <-. reflexivity.
Defined.

(** C2: the claim fails for the query [{ eager: '' }]: nothing is merged,
    the plan is not marked, and [execute] merges the default eager
    expression of the class. *)
Lemma eager_empty_keeps_default_eager :
  ∃ b, find sample_env constructor [("eager", VStr "")] None = Ok b
       ∧ calls b = []
       ∧ _applyDefaultEager b = true
       ∧ Call "mergeEager" [defaultEager sample_env] ∈ calls (execute sample_env b).
Proof.
  eexists. split; [reflexivity |]. split; [done |]. split; [done |].
  vm_compute. left.
Qed.
